(** * WORLDSIM tick engine: a shallow embedding and its verified properties

    The development embeds the tick orchestrator ([engine/world_env.py]) and
    its three subsystems, the climate engine ([engine/climate_engine.py]),
    the treaty manager ([engine/treaty_manager.py]) and the federal assembly
    ([engine/parliament.py]), together with the constants of [config.py] and
    the climate helper of [utils/firestore_helpers.py].

    Conventions.
    - Python [int] is [Z]; Python [float] is an IEEE 754 binary64 value, taken
      from the Standard Library's executable specification [spec_float]
      (precision 53, maximal exponent 1024), so every float operation below is
      the correctly rounded one.
    - A [dict] read with [.get(k, d)] is a [gmap] read with [default d];
      a dict whose iteration order matters is an association list.
    - A raised exception is the [Raise] branch of [result]; state mutated
      before the raise is dropped with the aborted call.
    - Everything the engine does not implement itself (the financial
      analysis, the governors, the random source, the remote store) is a
      field of the record [External], one value per tick. *)

From Stdlib Require Import ZArith Ascii String Floats.
From stdpp Require Import gmap strings list pretty.

Set Warnings "-inexact-float".
Open Scope string_scope.
Open Scope list_scope.
Open Scope Z_scope.

(* ===================================================================== *)
(** * Exceptions *)
(* ===================================================================== *)

Inductive exn : Set :=
| KeyError        (* d[k] on a missing key *)
| OverflowError   (* int(inf), or an int beyond the float range *)
| ValueError      (* int(nan) *)
| ZeroDivisionError
| ExternalError.  (* an external collaborator failed *)

Inductive result (A : Type) : Type :=
| Ok (a : A)
| Raise (e : exn).
Arguments Ok {A} a.
Arguments Raise {A} e.

#[export] Instance result_ret : MRet result := fun _ a => Ok a.
#[export] Instance result_bind : MBind result := fun _ _ f m =>
  match m with Ok a => f a | Raise e => Raise e end.

Definition is_Ok {A} (m : result A) : bool :=
  match m with Ok _ => true | Raise _ => false end.

(** A [for] loop whose body may raise. *)
Fixpoint foldM {A S : Type} (f : S -> A -> result S) (s : S) (l : list A) : result S :=
  match l with
  | [] => Ok s
  | x :: l' => s' ← f s x; foldM f s' l'
  end.

(** [try: body except Exception: handler]. *)
Definition try_except {A} (body : result A) (handler : A) : A :=
  match body with Ok a => a | Raise _ => handler end.

(* ===================================================================== *)
(** * Python floats *)
(* ===================================================================== *)

Module PyFloat.

Definition float : Set := spec_float.

(** The binary64 value nearest to an integer (infinity beyond the range);
    used as such for the integer constants of the source. *)
Definition of_Z (z : Z) : float := binary_normalize prec emax z 0 false.

(** The conversion of the [int] operand of [int * float] and
    [int / float]: the nearest binary64 value, and [OverflowError] where
    there is none. *)
Definition float_of_int (z : Z) : result float :=
  match of_Z z with
  | S754_infinity _ => Raise OverflowError
  | x => Ok x
  end.

(** The binary64 value nearest to the quotient [n / d] of two integers
    ([d <> 0]): the quotient is taken with at least 64 bits and a sticky
    bit, and rounded once. *)
Definition div_Z (n d : Z) : float :=
  let s := xorb (n <? 0) (d <? 0) in
  let a := Z.abs n in
  let b := Z.abs d in
  if a =? 0 then S754_zero s
  else
    let k := 64 + Z.log2 b in
    let q := (a * 2 ^ k) / b in
    let sticky := if (a * 2 ^ k) mod b =? 0 then 0 else 1 in
    binary_normalize prec emax (cond_Zopp s (2 * q + sticky)) (- k - 1) false.

(** [n / d] on two [int]s: true division, correctly rounded. *)
Definition truediv (n d : Z) : result float :=
  if d =? 0 then Raise ZeroDivisionError
  else match div_Z n d with
       | S754_infinity _ => Raise OverflowError
       | x => Ok x
       end.

(** A float literal of the source. *)
Definition lit (f : PrimFloat.float) : float := Prim2SF f.

Definition add : float -> float -> float := SF64add.
Definition sub : float -> float -> float := SF64sub.
Definition mul : float -> float -> float := SF64mul.
Definition div : float -> float -> float := SF64div.
Definition abs : float -> float := SFabs.
Definition ltb : float -> float -> bool := SFltb.
Definition leb : float -> float -> bool := SFleb.
(** [x > y] and [x >= y] *)
Definition gtb (x y : float) : bool := SFltb y x.
Definition geb (x y : float) : bool := SFleb y x.

(** [max(a, b)]: the first argument unless the second is greater. *)
Definition py_max (a b : float) : float := if gtb b a then b else a.
(** [min(a, b)]: the first argument unless the second is smaller. *)
Definition py_min (a b : float) : float := if ltb b a then b else a.

(** Magnitude of [m * 2^e] truncated toward zero. *)
Definition trunc_mag (m : positive) (e : Z) : Z :=
  if 0 <=? e then Z.pos m * 2 ^ e else Z.pos m / 2 ^ (- e).

(** [int(x)]: truncation toward zero; infinities and NaN raise. *)
Definition py_int (x : float) : result Z :=
  match x with
  | S754_zero _ => Ok 0
  | S754_finite s m e => Ok (cond_Zopp s (trunc_mag m e))
  | S754_infinity _ => Raise OverflowError
  | S754_nan => Raise ValueError
  end.

(** Nearest integer to [n / d], ties to even ([0 < d]). *)
Definition div_half_even (n d : Z) : Z :=
  let q := n / d in
  let r := n mod d in
  match 2 * r ?= d with
  | Lt => q
  | Gt => q + 1
  | Eq => if Z.even q then q else q + 1
  end.

(** Nearest integer to [10 * m * 2^e], ties to even. *)
Definition tenths (m : positive) (e : Z) : Z :=
  if 0 <=? e then 10 * Z.pos m * 2 ^ e
  else div_half_even (10 * Z.pos m) (2 ^ (- e)).

(** [round(x, 1)]: the exact value of [x] rounded half-even to one
    decimal, then the binary64 value nearest to that decimal; a float
    with no fractional bit is its own rounding. *)
Definition py_round1 (x : float) : float :=
  match x with
  | S754_finite s m e =>
      if 0 <=? e then x
      else
        let n := tenths m e in
        if n =? 0 then S754_zero s
        else div_Z (cond_Zopp s n) 10
  | _ => x
  end.

Definition zero : float := S754_zero false.
Definition one : float := Eval vm_compute in of_Z 1.

End PyFloat.
Import PyFloat.

(* ===================================================================== *)
(** * [config.py] *)
(* ===================================================================== *)

Definition LLM_PERIODIC_INTERVAL : Z := 10.
Definition FEDERAL_ASSEMBLY_INTERVAL : Z := 50.
Definition FEDERAL_ASSEMBLY_MAJORITY : float := Eval vm_compute in lit 0.6.
Definition CLIMATE_EVENT_PROBABILITY : float := Eval vm_compute in lit 0.05.
Definition CLIMATE_MIN_INTERVAL : Z := 5.
Definition MAX_ACTIVE_TREATIES_PER_STATE : Z := 5.
Definition TREATY_BREACH_TRUST_PENALTY : Z := 15.
Definition TREATY_HONOR_TRUST_BONUS : Z := 2.
Definition REWARD_LAMBDA : float := Eval vm_compute in lit 0.5.
Definition WELFARE_MIGRATION_THRESHOLD : float := Eval vm_compute in lit 35.0.
Definition MIGRATION_RATE : float := Eval vm_compute in lit 0.02.

Definition RESOURCE_MAX (res : string) : Z :=
  if decide (res = "tech") then 12000 else 15000.

Definition STATE_CODES : list string :=
  ["PB"; "MH"; "TN"; "KA"; "GJ"; "UP"; "BR"; "WB"; "RJ"; "MP"].

(* ===================================================================== *)
(** * The region ledger *)
(* ===================================================================== *)

Record Demographics : Type := {
  workforce_efficiency : option float;
  unrest_level : option float;
}.

(** One entry of [regions_data].  A key that a region dict may lack and
    that the engine reads with differing defaults is an [option]; the
    dict-valued keys are read with the default [{}], so a missing one is the
    empty map (["resources"] is never missing where the engine writes into
    it: step 1 installs it for every state code). *)
Record Region : Type := {
  resources : gmap string Z;
  resource_generation_rates : gmap string Z;
  resource_consumption_rates : gmap string Z;
  internal_policies : gmap string float;
  gdp_score : option float;
  welfare_score : option float;
  trust_score : option Z;
  population : option Z;
  demographics : Demographics;
}.

Definition set_resources (r : Region) (res : gmap string Z) : Region :=
  {| resources := res;
     resource_generation_rates := resource_generation_rates r;
     resource_consumption_rates := resource_consumption_rates r;
     internal_policies := internal_policies r;
     gdp_score := gdp_score r; welfare_score := welfare_score r;
     trust_score := trust_score r; population := population r;
     demographics := demographics r |}.

Definition set_trust_score (r : Region) (t : Z) : Region :=
  {| resources := resources r;
     resource_generation_rates := resource_generation_rates r;
     resource_consumption_rates := resource_consumption_rates r;
     internal_policies := internal_policies r;
     gdp_score := gdp_score r; welfare_score := welfare_score r;
     trust_score := Some t; population := population r;
     demographics := demographics r |}.

Definition set_population (r : Region) (p : Z) : Region :=
  {| resources := resources r;
     resource_generation_rates := resource_generation_rates r;
     resource_consumption_rates := resource_consumption_rates r;
     internal_policies := internal_policies r;
     gdp_score := gdp_score r; welfare_score := welfare_score r;
     trust_score := trust_score r; population := Some p;
     demographics := demographics r |}.

(** The three writes of the reward step: both scores and the unrest level. *)
Definition set_scores (r : Region) (gdp welfare new_unrest : float) : Region :=
  {| resources := resources r;
     resource_generation_rates := resource_generation_rates r;
     resource_consumption_rates := resource_consumption_rates r;
     internal_policies := internal_policies r;
     gdp_score := Some gdp; welfare_score := Some welfare;
     trust_score := trust_score r; population := population r;
     demographics := {| workforce_efficiency := workforce_efficiency (demographics r);
                        unrest_level := Some new_unrest |} |}.

(** [d.get(k, 0)] on an integer-valued dict. *)
Definition get0 (d : gmap string Z) (k : string) : Z := default 0 (d !! k).

(** [regions_data.get(code, {}).get("resources", {})] *)
Definition resources_of (regions_data : gmap string Region) (code : string) : gmap string Z :=
  match regions_data !! code with
  | Some r => resources r
  | None => ∅
  end.

(** [regions_data[code]["resources"][res] = val], for a [code] that is present. *)
Definition store_resource (regions_data : gmap string Region)
    (code res : string) (val : Z) : gmap string Region :=
  match regions_data !! code with
  | Some r => <[code := set_resources r (<[res := val]> (resources r))]> regions_data
  | None => regions_data
  end.

(* ===================================================================== *)
(** * Insertion-ordered dicts *)
(* ===================================================================== *)

(** A dict whose iteration order the engine relies on: an association list
    with one entry per key, in insertion order. *)
Module OrderedDict.
Section Ops.
Context {V : Type}.

(** [k in d] *)
Definition mem (k : string) (d : list (string * V)) : bool :=
  existsb (fun p => bool_decide (fst p = k)) d.

(** [d.get(k)] *)
Fixpoint get (k : string) (d : list (string * V)) : option V :=
  match d with
  | [] => None
  | (k', v) :: d' => if decide (k' = k) then Some v else get k d'
  end.

(** [d[k] = v]: overwrite in place, or append a new entry. *)
Fixpoint set (k : string) (v : V) (d : list (string * V)) : list (string * V) :=
  match d with
  | [] => [(k, v)]
  | (k', v') :: d' => if decide (k' = k) then (k, v) :: d' else (k', v') :: set k v d'
  end.

(** [del d[k]] *)
Definition del (k : string) (d : list (string * V)) : list (string * V) :=
  filter (fun p => fst p ≠ k) d.

Definition keys (d : list (string * V)) : list string := map fst d.
End Ops.
End OrderedDict.

(* ===================================================================== *)
(** * [engine/treaty_manager.py] *)
(* ===================================================================== *)

Module TreatyManager.

(** An entry of [treaty.breaches]. *)
Record BreachLog : Type := {
  bl_tick : Z;
  bl_breacher : string;
  bl_resource : string;
  bl_promised : Z;
  bl_available : Z;
}.

Record Treaty : Type := {
  treaty_id : string;
  from_region : string;
  to_region : string;
  per_tick_offer : list (string * Z);
  per_tick_request : list (string * Z);
  duration_ticks : Z;
  ticks_remaining : Z;
  conditions : string;
  is_active : bool;
  breaches : list BreachLog;
  created_tick : Z;
}.

(** An entry of [result["transfers"]]; its status is always "DELIVERED". *)
Record Transfer : Type := {
  tr_direction : string;
  tr_resource : string;
  tr_amount : Z;
}.

(** An entry of [result["breaches"]]. *)
Record Breach : Type := {
  breacher : string;
  br_resource : string;
  shortfall : Z;
}.

(** The dict returned by [_enforce_single]. *)
Record EnforcementResult : Type := {
  r_treaty_id : string;
  r_from : string;
  r_to : string;
  r_transfers : list Transfer;
  r_breaches : list Breach;
}.

Record t : Type := {
  active_treaties : list Treaty;
  expired_treaties : list Treaty;
  treaty_counter : Z;
}.

(** What one enforcement has produced so far: the ledger, the treaty's
    own breach log, and the two lists of the result. *)
Record LegState : Type := {
  ls_regions : gmap string Region;
  ls_log : list BreachLog;
  ls_transfers : list Transfer;
  ls_breaches : list Breach;
}.

(** One iteration of either loop of [_enforce_single]: [giver] owes
    [amount] of [resource] to [receiver].  [update_func] tells whether the
    caller passed one; the orchestrator passes
    [_update_region_resources_local], which writes into the very dicts
    that [from_resources] and [to_resources] alias, so every read below
    is a read of the current ledger. *)
Definition deliver (update_func : bool) (current_tick : Z)
    (giver receiver : string) (st : LegState) (item : string * Z) : LegState :=
  let '(resource, amount) := item in
  let available := get0 (resources_of (ls_regions st) giver) resource in
  if amount <=? available then
    let rd :=
      if update_func then
        let rd1 := store_resource (ls_regions st) giver resource (available - amount) in
        let current := get0 (resources_of rd1 receiver) resource in
        store_resource rd1 receiver resource (current + amount)
      else ls_regions st in
    {| ls_regions := rd;
       ls_log := ls_log st;
       ls_transfers := ls_transfers st ++
         [{| tr_direction := giver +:+ " -> " +:+ receiver;
             tr_resource := resource; tr_amount := amount |}];
       ls_breaches := ls_breaches st |}
  else
    {| ls_regions := ls_regions st;
       ls_log := ls_log st ++
         [{| bl_tick := current_tick; bl_breacher := giver; bl_resource := resource;
             bl_promised := amount; bl_available := available |}];
       ls_transfers := ls_transfers st;
       ls_breaches := ls_breaches st ++
         [{| breacher := giver; br_resource := resource;
             shortfall := amount - available |}] |}.

Definition set_breaches (tr : Treaty) (log : list BreachLog) : Treaty :=
  {| treaty_id := treaty_id tr; from_region := from_region tr; to_region := to_region tr;
     per_tick_offer := per_tick_offer tr; per_tick_request := per_tick_request tr;
     duration_ticks := duration_ticks tr; ticks_remaining := ticks_remaining tr;
     conditions := conditions tr; is_active := is_active tr; breaches := log;
     created_tick := created_tick tr |}.

Definition _enforce_single (tr : Treaty) (regions_data : gmap string Region)
    (update_func : bool) (current_tick : Z)
    : gmap string Region * Treaty * EnforcementResult :=
  let st0 := {| ls_regions := regions_data; ls_log := breaches tr;
                ls_transfers := []; ls_breaches := [] |} in
  (* from-region delivers the offer *)
  let st1 := foldl (deliver update_func current_tick (from_region tr) (to_region tr))
                   st0 (per_tick_offer tr) in
  (* to-region delivers the request *)
  let st2 := foldl (deliver update_func current_tick (to_region tr) (from_region tr))
                   st1 (per_tick_request tr) in
  (ls_regions st2, set_breaches tr (ls_log st2),
   {| r_treaty_id := treaty_id tr; r_from := from_region tr; r_to := to_region tr;
      r_transfers := ls_transfers st2; r_breaches := ls_breaches st2 |}).

(** [ticks_remaining -= 1], and [is_active = False] once it is [<= 0]. *)
Definition count_down (tr : Treaty) : Treaty :=
  let n := ticks_remaining tr - 1 in
  {| treaty_id := treaty_id tr; from_region := from_region tr; to_region := to_region tr;
     per_tick_offer := per_tick_offer tr; per_tick_request := per_tick_request tr;
     duration_ticks := duration_ticks tr; ticks_remaining := n;
     conditions := conditions tr;
     is_active := if n <=? 0 then false else is_active tr;
     breaches := breaches tr; created_tick := created_tick tr |}.

(** The state of the loop of [enforce_treaties]: the ledger, the treaties
    that stay in [active_treaties], the ones that expired, the results. *)
Record EnforceLoop : Type := {
  el_regions : gmap string Region;
  el_kept : list Treaty;
  el_expired : list Treaty;
  el_results : list EnforcementResult;
}.

Definition enforce_step (update_func : bool) (current_tick : Z)
    (st : EnforceLoop) (tr : Treaty) : EnforceLoop :=
  if negb (is_active tr) then
    {| el_regions := el_regions st; el_kept := el_kept st ++ [tr];
       el_expired := el_expired st; el_results := el_results st |}
  else
    let '(rd, tr1, res) := _enforce_single tr (el_regions st) update_func current_tick in
    let tr2 := count_down tr1 in
    if ticks_remaining tr2 <=? 0 then
      {| el_regions := rd; el_kept := el_kept st;
         el_expired := el_expired st ++ [tr2]; el_results := el_results st ++ [res] |}
    else
      {| el_regions := rd; el_kept := el_kept st ++ [tr2];
         el_expired := el_expired st; el_results := el_results st ++ [res] |}.

Definition enforce_treaties (tm : t) (current_tick : Z)
    (regions_data : gmap string Region) (update_func : bool)
    : t * gmap string Region * list EnforcementResult :=
  let st := foldl (enforce_step update_func current_tick)
              {| el_regions := regions_data; el_kept := []; el_expired := [];
                 el_results := [] |}
              (active_treaties tm) in
  ({| active_treaties := el_kept st;
      expired_treaties := expired_treaties tm ++ el_expired st;
      treaty_counter := treaty_counter tm |},
   el_regions st, el_results st).

(** [adjustments.setdefault(k, 0)] *)
Definition setdefault0 (k : string) (adj : gmap string Z) : gmap string Z :=
  match adj !! k with
  | Some _ => adj
  | None => <[k := 0]> adj
  end.

(** [adjustments[k] += d]; a missing key is a [KeyError]. *)
Definition bump (k : string) (d : Z) (adj : gmap string Z) : result (gmap string Z) :=
  match adj !! k with
  | Some v => Ok (<[k := v + d]> adj)
  | None => Raise KeyError
  end.

(** The body of the loop of [calculate_trust_adjustments]. *)
Definition adjust_for (adj : gmap string Z) (res : EnforcementResult)
    : result (gmap string Z) :=
  let adj1 := setdefault0 (r_to res) (setdefault0 (r_from res) adj) in
  match r_breaches res with
  | _ :: _ =>
      foldM (fun a b => bump (breacher b) (- TREATY_BREACH_TRUST_PENALTY) a)
            adj1 (r_breaches res)
  | [] =>
      adj2 ← bump (r_from res) TREATY_HONOR_TRUST_BONUS adj1;
      bump (r_to res) TREATY_HONOR_TRUST_BONUS adj2
  end.

Definition calculate_trust_adjustments (enforcement_results : list EnforcementResult)
    : result (gmap string Z) :=
  foldM adjust_for ∅ enforcement_results.

(** A governor's treaty proposal: the keys that [create_treaty] reads. *)
Record TreatyProposal : Type := {
  tp_from : option string;
  tp_to : option string;
  tp_per_tick_offer : option (list (string * Z));
  tp_per_tick_request : option (list (string * Z));
  tp_duration_ticks : option Z;
  tp_conditions : option string;
}.

(** [t.from_region == code or t.to_region == code] *)
Definition involves (code : string) (tr : Treaty) : bool :=
  bool_decide (from_region tr = code) || bool_decide (to_region tr = code).

(** [get_treaties_for_region] *)
Definition get_treaties_for_region (tm : t) (region_code : string) : list Treaty :=
  filter (fun tr => involves region_code tr) (active_treaties tm).

Fixpoint zeros (n : nat) : string :=
  match n with
  | O => ""
  | S n' => String "0" (zeros n')
  end.

(** [f"{n:03d}"]: the decimal digits of [n], padded with zeros to three
    characters, the sign of a negative number included. *)
Definition format_03d (n : Z) : string :=
  if n <? 0 then
    let digits := pretty (Z.to_N (- n)) in
    "-" +:+ zeros (2 - String.length digits) +:+ digits
  else
    let digits := pretty (Z.to_N n) in
    zeros (3 - String.length digits) +:+ digits.

(** [Treaty(...)]: a new treaty starts active, with its whole duration left
    and no breach. *)
Definition new_treaty (treaty_id from_region to_region : string)
    (per_tick_offer per_tick_request : list (string * Z)) (duration_ticks : Z)
    (conditions : string) : Treaty :=
  {| treaty_id := treaty_id; from_region := from_region; to_region := to_region;
     per_tick_offer := per_tick_offer; per_tick_request := per_tick_request;
     duration_ticks := duration_ticks; ticks_remaining := duration_ticks;
     conditions := conditions; is_active := true; breaches := []; created_tick := 0 |}.

Definition set_created_tick (tr : Treaty) (tick : Z) : Treaty :=
  {| treaty_id := treaty_id tr; from_region := from_region tr; to_region := to_region tr;
     per_tick_offer := per_tick_offer tr; per_tick_request := per_tick_request tr;
     duration_ticks := duration_ticks tr; ticks_remaining := ticks_remaining tr;
     conditions := conditions tr; is_active := is_active tr; breaches := breaches tr;
     created_tick := tick |}.

(** [create_treaty]: the manager afterwards, and the treaty or [None]. *)
Definition create_treaty (tm : t) (proposal : TreatyProposal) (current_tick : Z)
    : t * option Treaty :=
  let from_region := default "" (tp_from proposal) in
  let to_region := default "" (tp_to proposal) in
  let from_count := Z.of_nat (length (get_treaties_for_region tm from_region)) in
  let to_count := Z.of_nat (length (get_treaties_for_region tm to_region)) in
  if MAX_ACTIVE_TREATIES_PER_STATE <=? from_count then (tm, None)
  else if MAX_ACTIVE_TREATIES_PER_STATE <=? to_count then (tm, None)
  else
    let counter := treaty_counter tm + 1 in
    let treaty_id :=
      "Treaty_" +:+ format_03d counter +:+ "_" +:+ from_region +:+ "_" +:+ to_region in
    let treaty :=
      set_created_tick
        (new_treaty treaty_id from_region to_region
           (default [] (tp_per_tick_offer proposal))
           (default [] (tp_per_tick_request proposal))
           (default 20 (tp_duration_ticks proposal))
           (default "" (tp_conditions proposal)))
        current_tick in
    ({| active_treaties := active_treaties tm ++ [treaty];
        expired_treaties := expired_treaties tm;
        treaty_counter := counter |},
     Some treaty).

(** The dict form of a treaty: a key that is missing is [None]. *)
Record TreatyDict : Type := {
  d_treaty_id : option string;
  d_from_region : option string;
  d_to_region : option string;
  d_per_tick_offer : option (list (string * Z));
  d_per_tick_request : option (list (string * Z));
  d_duration_ticks : option Z;
  d_ticks_remaining : option Z;
  d_conditions : option string;
  d_is_active : option bool;
  d_breaches : option (list BreachLog);
  d_created_tick : option Z;
}.

(** [Treaty.to_dict] *)
Definition to_dict (tr : Treaty) : TreatyDict :=
  {| d_treaty_id := Some (treaty_id tr);
     d_from_region := Some (from_region tr);
     d_to_region := Some (to_region tr);
     d_per_tick_offer := Some (per_tick_offer tr);
     d_per_tick_request := Some (per_tick_request tr);
     d_duration_ticks := Some (duration_ticks tr);
     d_ticks_remaining := Some (ticks_remaining tr);
     d_conditions := Some (conditions tr);
     d_is_active := Some (is_active tr);
     d_breaches := Some (breaches tr);
     d_created_tick := Some (created_tick tr) |}.

(** [data[k]]: a missing key is a [KeyError]. *)
Definition getitem {A} (v : option A) : result A :=
  match v with
  | Some a => Ok a
  | None => Raise KeyError
  end.

(** [Treaty.from_dict] *)
Definition from_dict (data : TreatyDict) : result Treaty :=
  treaty_id ← getitem (d_treaty_id data);
  from_region ← getitem (d_from_region data);
  to_region ← getitem (d_to_region data);
  per_tick_offer ← getitem (d_per_tick_offer data);
  per_tick_request ← getitem (d_per_tick_request data);
  duration_ticks ← getitem (d_duration_ticks data);
  let tr := new_treaty treaty_id from_region to_region per_tick_offer per_tick_request
                       duration_ticks (default "" (d_conditions data)) in
  (* the default of [.get("ticks_remaining", data["duration_ticks"])] is
     evaluated whether it is used or not *)
  duration_again ← getitem (d_duration_ticks data);
  Ok {| treaty_id := treaty_id; from_region := from_region; to_region := to_region;
        per_tick_offer := per_tick_offer; per_tick_request := per_tick_request;
        duration_ticks := duration_ticks;
        ticks_remaining := default duration_again (d_ticks_remaining data);
        conditions := conditions tr;
        is_active := default true (d_is_active data);
        breaches := default [] (d_breaches data);
        created_tick := default 0 (d_created_tick data) |}.

(** The dict [get_summary] returns. *)
Record Summary : Type := {
  s_active_treaties : Z;
  s_expired_treaties : Z;
  s_total_created : Z;
  s_active_list : list TreatyDict;
}.

Definition get_summary (tm : t) : Summary :=
  {| s_active_treaties := Z.of_nat (length (active_treaties tm));
     s_expired_treaties := Z.of_nat (length (expired_treaties tm));
     s_total_created := treaty_counter tm;
     s_active_list := map to_dict (active_treaties tm) |}.

(** [TreatyManager()] *)
Definition init : t :=
  {| active_treaties := []; expired_treaties := []; treaty_counter := 0 |}.

(** Consecutive calls of [enforce_treaties], each with its own tick number
    and ledger; the results of every call are kept. *)
Fixpoint enforcements (tm : t) (inputs : list (Z * gmap string Region))
    (update_func : bool) : t * list (list EnforcementResult) :=
  match inputs with
  | [] => (tm, [])
  | (current_tick, regions_data) :: inputs' =>
      let '(tm1, _, results) := enforce_treaties tm current_tick regions_data update_func in
      let '(tm2, later) := enforcements tm1 inputs' update_func in
      (tm2, results :: later)
  end.

End TreatyManager.

(* ===================================================================== *)
(** * The remote store, as the climate engine uses it *)
(* ===================================================================== *)

(** [utils/firestore_helpers.py].  The store is an external collaborator:
    what the engine reads from it during a tick is part of [External], and
    what it writes to it is not modelled beyond the call that may fail. *)
Module Firestore.

(** A document of the [climate_events] collection. *)
Record ClimateEventDoc : Type := {
  target_region : string;
  resource_impact : list (string * float);
}.

(** The calls the engine makes into the helpers. *)
Inductive Call : Set :=
| call_trigger_climate_event (event_id : string)
| call_deactivate_climate_event (event_id : string)
| call_log_assembly_meeting
| call_update.

Record t : Type := {
  regions : gmap string (gmap string Z);   (* code -> the document's resources *)
  climate_events : gmap string ClimateEventDoc;
  fails : Call -> bool;                    (* the call raises *)
}.

(** [impact_report["impacts"][resource]] *)
Record ImpactDetails : Type := {
  before : Z;
  lost : Z;
  after : Z;
}.

(** One iteration of the resource loop of [trigger_climate_event]. *)
Definition impact_of (region_resources : gmap string Z) (item : string * float)
    : result (string * ImpactDetails) :=
  let '(resource, factor) := item in
  let current := get0 region_resources resource in
  c ← float_of_int current;
  loss ← py_int (PyFloat.abs (mul c factor));
  let new_val := Z.max 0 (current - loss) in
  Ok (resource, {| before := current; lost := loss; after := new_val |}).

(** [trigger_climate_event(event_id)]: the impact report's ["impacts"], or
    [None] when the event or its target region is not in the store. *)
Definition trigger_climate_event (db : t) (event_id : string)
    : result (option (list (string * ImpactDetails))) :=
  if fails db (call_trigger_climate_event event_id) then Raise ExternalError
  else
    match climate_events db !! event_id with
    | None => Ok None
    | Some event =>
        match regions db !! target_region event with
        | None => Ok None
        | Some region_resources =>
            impacts ← foldM (fun acc item => d ← impact_of region_resources item;
                                             Ok (OrderedDict.set (fst d) (snd d) acc))
                            [] (resource_impact event);
            Ok (Some impacts)
        end
    end.

Definition deactivate_climate_event (db : t) (event_id : string) : result unit :=
  if fails db (call_deactivate_climate_event event_id) then Raise ExternalError
  else Ok tt.

Definition log_assembly_meeting (db : t) : result unit :=
  if fails db call_log_assembly_meeting then Raise ExternalError else Ok tt.

(** [update_simulation_state] and [update_region], as the sync step calls them. *)
Definition update (db : t) : result unit :=
  if fails db call_update then Raise ExternalError else Ok tt.

End Firestore.

(* ===================================================================== *)
(** * [engine/climate_engine.py] *)
(* ===================================================================== *)

Module ClimateEngine.

Definition EVENT_WEIGHTS : list (string * float) := Eval vm_compute in
  [("Drought_RJ", lit 0.20); ("Cyclone_WB", lit 0.15); ("Flood_BR", lit 0.18);
   ("Heatwave_UP", lit 0.15); ("Monsoon_Failure_TN", lit 0.15);
   ("Industrial_Accident_GJ", lit 0.10); ("Kaveri_Dispute_KA_TN", lit 0.07)].

(** The table local to [_trigger_event]. *)
Definition durations : list (string * Z) :=
  [("Drought_RJ", 10); ("Cyclone_WB", 8); ("Flood_BR", 6); ("Heatwave_UP", 5);
   ("Monsoon_Failure_TN", 12); ("Industrial_Accident_GJ", 7);
   ("Kaveri_Dispute_KA_TN", 15)].

Definition targets : list (string * string) :=
  [("Drought_RJ", "RJ"); ("Cyclone_WB", "WB"); ("Flood_BR", "BR"); ("Heatwave_UP", "UP");
   ("Monsoon_Failure_TN", "TN"); ("Industrial_Accident_GJ", "GJ");
   ("Kaveri_Dispute_KA_TN", "KA")].

Record t : Type := {
  last_event_tick : Z;
  active_events : list (string * Z);     (* event_id -> ticks remaining *)
}.

(** [__init__] *)
Definition init : t :=
  {| last_event_tick := - CLIMATE_MIN_INTERVAL; active_events := [] |}.

(** The two draws a tick can make from [random]. *)
Record Random : Type := {
  random : float;      (* random.random() *)
  choice : nat;        (* which candidate random.choices returns *)
}.

(** The dict [_trigger_event] returns. *)
Record Triggered : Type := {
  event_id : string;
  target_region : string;
  duration : Z;
  impact : option (list (string * Firestore.ImpactDetails));
}.

Inductive Event : Type :=
| TRIGGERED (ev : Triggered)
| EXPIRED (event_id : string).

(** [random.choices] returns one of the candidates it is given; which one
    is the draw [choice]. *)
Definition _select_event (eng : t) (rnd : Random) : option string :=
  let available := filter (fun p => negb (OrderedDict.mem (fst p) (active_events eng)))
                          EVENT_WEIGHTS in
  match available with
  | [] => None
  | (e, _) :: _ =>
      Some (nth (Nat.modulo (choice rnd) (length available)) (map fst available) e)
  end.

Definition _trigger_event (eng : t) (event_id : string) (firestore_helpers : option Firestore.t)
    : result (t * Triggered) :=
  let duration := default 5 (OrderedDict.get event_id durations) in
  let target := default "" (OrderedDict.get event_id targets) in
  let eng' := {| last_event_tick := last_event_tick eng;
                 active_events := OrderedDict.set event_id duration (active_events eng) |} in
  impact_report ← match firestore_helpers with
                  | Some db => Firestore.trigger_climate_event db event_id
                  | None => Ok None
                  end;
  Ok (eng', {| event_id := event_id; target_region := target;
               duration := duration; impact := impact_report |}).

(** The first half of [tick]: maybe start a new event. *)
Definition check_new_events (eng : t) (current_tick : Z) (rnd : Random)
    (firestore_helpers : option Firestore.t) : result (t * list Event) :=
  let ticks_since_last := current_tick - last_event_tick eng in
  if (CLIMATE_MIN_INTERVAL <=? ticks_since_last)
     && ltb (random rnd) CLIMATE_EVENT_PROBABILITY then
    match _select_event eng rnd with
    | Some event =>
        if negb (OrderedDict.mem event (active_events eng)) then
          '(eng', ev) ← _trigger_event eng event firestore_helpers;
          (* the returned dict is never empty, so [if impact:] holds *)
          Ok ({| last_event_tick := current_tick; active_events := active_events eng' |},
              [TRIGGERED ev])
        else Ok (eng, [])
    | None => Ok (eng, [])
    end
  else Ok (eng, []).

(** The body of the loop over [expired]. *)
Definition expire (firestore_helpers : option Firestore.t)
    (st : list (string * Z) * list Event) (event_id : string)
    : result (list (string * Z) * list Event) :=
  let active := OrderedDict.del event_id (fst st) in
  _ ← match firestore_helpers with
      | Some db => Firestore.deactivate_climate_event db event_id
      | None => Ok tt
      end;
  Ok (active, snd st ++ [EXPIRED event_id]).

(** The second half of [tick]: every active event loses one tick; those
    at zero or below are deleted, deactivated in the store and reported. *)
Definition tick_down (eng : t) (firestore_helpers : option Firestore.t)
    : result (t * list Event) :=
  let decremented := map (fun p => (fst p, snd p - 1)) (active_events eng) in
  let expired := map fst (filter (fun p => snd p <= 0) decremented) in
  '(active, events) ← foldM (expire firestore_helpers) (decremented, []) expired;
  Ok ({| last_event_tick := last_event_tick eng; active_events := active |}, events).

Definition tick (eng : t) (current_tick : Z) (rnd : Random)
    (firestore_helpers : option Firestore.t) : result (t * list Event) :=
  '(eng1, triggered) ← check_new_events eng current_tick rnd firestore_helpers;
  '(eng2, expired) ← tick_down eng1 firestore_helpers;
  Ok (eng2, triggered ++ expired).

(** [{targets[e] for e in self.active_events if e in targets}], as a
    membership test. *)
Definition get_affected_regions (eng : t) : list string :=
  omap (fun e => OrderedDict.get e targets) (OrderedDict.keys (active_events eng)).

Definition force_trigger (eng : t) (event_id : string) (firestore_helpers : option Firestore.t)
    : result (t * Triggered) :=
  _trigger_event eng event_id firestore_helpers.

(** Consecutive ticks of the engine, numbered from [current_tick] on, each
    with its own draws and store; the events of every tick are kept. *)
Fixpoint ticks (eng : t) (current_tick : Z) (inputs : list (Random * option Firestore.t))
    : result (t * list (list Event)) :=
  match inputs with
  | [] => Ok (eng, [])
  | (rnd, firestore_helpers) :: inputs' =>
      '(eng1, events) ← tick eng current_tick rnd firestore_helpers;
      '(eng2, later) ← ticks eng1 (current_tick + 1) inputs';
      Ok (eng2, events :: later)
  end.

End ClimateEngine.

(* ===================================================================== *)
(** * The external collaborators *)
(* ===================================================================== *)

(** One entry of a report's ["trade_recommendations"]; the defaults of the
    [.get] calls that read it are already applied. *)
Record TradeRecommendation : Type := {
  action : option string;
  offer_resource : string;
  request_resource : string;
  offer_amount : Z;
  request_amount : Z;
}.

(** The keys of a financial report that the engine reads. *)
Record Report : Type := {
  needs_governor : bool;
  deficits : list (string * float);      (* resource -> priority_score *)
  surpluses : gmap string Z;             (* resource -> amount_available *)
  trade_recommendations : list TradeRecommendation;
}.

(** [self.state_reports.get(code, {})] *)
Definition empty_report : Report :=
  {| needs_governor := false; deficits := []; surpluses := ∅;
     trade_recommendations := [] |}.

(** What [negotiate_trade] returns. *)
Record TradeProposal : Type := {
  offering : list (string * Z);
  requesting : list (string * Z);
}.

(** What [propose_federal_policy] returns. *)
Record PolicyProposal : Type := {
  policy_name : option string;
  proposer : option string;
  speech : option string;
  pp_duration_ticks : option Z;
}.

(** What [vote_on_policy] returns. *)
Record VoteResult : Type := {
  vote : option string;
  reasoning : option string;
}.

(** Everything a tick takes from outside the engine. *)
Record External : Type := {
  (** [self.finops_agents[code].analyze(region)] *)
  analyze : string -> Region -> result Report;
  (** [self.governors[code].negotiate_trade(report, partner, partner_surpluses)] *)
  negotiate_trade : string -> Report -> string -> gmap string Z -> result TradeProposal;
  (** [governors[code].propose_federal_policy(report, all_states_summary)];
      the summary is a function of the reports, which are passed instead *)
  propose_federal_policy : string -> Report -> gmap string Report -> result PolicyProposal;
  (** [governors[code].vote_on_policy(report, proposal)] *)
  vote_on_policy : string -> Report -> PolicyProposal -> result VoteResult;
  (** the draws of [random] *)
  rnd : ClimateEngine.Random;
  (** [utils.firestore_helpers] *)
  firestore : Firestore.t;
}.

(* ===================================================================== *)
(** * [engine/parliament.py] *)
(* ===================================================================== *)

Module Parliament.

Definition STATE_NAMES : list (string * string) :=
  [("PB", "Punjab"); ("MH", "Maharashtra"); ("TN", "Tamil Nadu"); ("KA", "Karnataka");
   ("GJ", "Gujarat"); ("UP", "Uttar Pradesh"); ("BR", "Bihar"); ("WB", "West Bengal");
   ("RJ", "Rajasthan"); ("MP", "Madhya Pradesh")].

(** An entry of [self.passed_resolutions]. *)
Record Resolution : Type := {
  name : string;
  proposal : PolicyProposal;
  tick_passed : Z;
}.

(** An entry of ["voting_results"] (the rounded display ratio is left out). *)
Record VoteRecord : Type := {
  vr_policy_name : string;
  vr_proposer : string;
  yes_votes : list string;
  no_votes : list string;
  yes_count : Z;
  no_count : Z;
  passed : bool;
  vr_proposal : PolicyProposal;
}.

(** The dict [convene_assembly] returns; [meeting_id] is the number that
    the source formats as "meeting_NNN". *)
Record MeetingResult : Type := {
  meeting_id : Z;
  mr_tick : Z;
  proposals_count : Z;
  voting_results : list VoteRecord;
  mr_passed_resolutions : list string;
  transcript : list (string * string);   (* speaker, text *)
}.

Record t : Type := {
  meeting_count : Z;
  passed_resolutions : list Resolution;
  meeting_history : list MeetingResult;
}.

Definition init : t :=
  {| meeting_count := 0; passed_resolutions := []; meeting_history := [] |}.

(** [str.upper()] on ASCII letters. *)
Definition upper_ascii (c : ascii) : ascii :=
  let n := nat_of_ascii c in
  if ((97 <=? n) && (n <=? 122))%nat then ascii_of_nat (n - 32) else c.

Fixpoint upper (s : string) : string :=
  match s with
  | EmptyString => EmptyString
  | String c s' => String (upper_ascii c) (upper s')
  end.

Definition speaker (code : string) : string :=
  default code (OrderedDict.get code STATE_NAMES) +:+ "_Governor".

(** The tally of one ballot item:
    [yes_ratio = len(yes) / total if total > 0 else 0]. *)
Definition yes_ratio (yes no : Z) : result float :=
  let total_voters := yes + no in
  if 0 <? total_voters then truediv yes total_voters else Ok zero.

(** [passed = yes_ratio >= FEDERAL_ASSEMBLY_MAJORITY] *)
Definition tally_passed (yes no : Z) : result bool :=
  ratio ← yes_ratio yes no;
  Ok (geb ratio FEDERAL_ASSEMBLY_MAJORITY).

(** Phase 1: one proposal per governor that has a report. *)
Definition collect_proposals (ext : External) (state_reports : gmap string Report)
    : result (list PolicyProposal * list (string * string)) :=
  foldM (fun (st : list PolicyProposal * list (string * string)) code =>
           match state_reports !! code with
           | None => Ok st
           | Some report =>
               p ← propose_federal_policy ext code report state_reports;
               Ok (fst st ++ [p],
                   snd st ++ [(speaker code, default "No speech provided." (speech p))])
           end)
        ([], []) STATE_CODES.

(** One governor's vote: anything but "NO" counts as "YES". *)
Definition cast_vote (ext : External) (state_reports : gmap string Report)
    (p : PolicyProposal) (st : list string * list string * list (string * string))
    (code : string) : result (list string * list string * list (string * string)) :=
  let '(yes, no, tr) := st in
  match state_reports !! code with
  | None => Ok st
  | Some report =>
      vote_result ← vote_on_policy ext code report p;
      let v := upper (default "YES" (vote vote_result)) in
      let line := (speaker code,
                   "VOTE " +:+ v +:+ ": " +:+ default "" (reasoning vote_result)) in
      if decide (v = "NO") then Ok (yes, no ++ [code], tr ++ [line])
      else (* "YES", and every other value *) Ok (yes ++ [code], no, tr ++ [line])
  end.

(** The votes on one proposal: the YES list, the NO list, the transcript. *)
Definition collect_votes (ext : External) (state_reports : gmap string Report)
    (p : PolicyProposal) (transcript0 : list (string * string))
    : result (list string * list string * list (string * string)) :=
  foldM (cast_vote ext state_reports p) ([], [], transcript0) STATE_CODES.

(** The state of the voting loop. *)
Record Voting : Type := {
  v_results : list VoteRecord;
  v_passed : list string;
  v_resolutions : list Resolution;
  v_transcript : list (string * string);
}.

Definition vote_on (ext : External) (state_reports : gmap string Report)
    (current_tick : Z) (st : Voting) (p : PolicyProposal) : result Voting :=
  let policy_name := default "Unknown Policy" (policy_name p) in
  let proposer := default "??" (proposer p) in
  '(yes, no, tr) ← collect_votes ext state_reports p (v_transcript st);
  let yes_n := Z.of_nat (length yes) in
  let no_n := Z.of_nat (length no) in
  passed ← tally_passed yes_n no_n;
  let record := {| vr_policy_name := policy_name; vr_proposer := proposer;
                   yes_votes := yes; no_votes := no;
                   yes_count := yes_n; no_count := no_n;
                   passed := passed; vr_proposal := p |} in
  Ok {| v_results := v_results st ++ [record];
        v_passed := if passed then v_passed st ++ [policy_name] else v_passed st;
        v_resolutions :=
          if passed
          then v_resolutions st ++
               [{| name := policy_name; proposal := p; tick_passed := current_tick |}]
          else v_resolutions st;
        v_transcript := tr |}.

Definition convene_assembly (parl : t) (ext : External)
    (state_reports : gmap string Report) (current_tick : Z)
    (firestore_helpers : option Firestore.t) : result (t * MeetingResult) :=
  let count := meeting_count parl + 1 in
  '(proposals, transcript0) ← collect_proposals ext state_reports;
  (* "top" proposals: the first three *)
  let top_proposals := take 3 proposals in
  v ← foldM (vote_on ext state_reports current_tick)
            {| v_results := []; v_passed := [];
               v_resolutions := passed_resolutions parl; v_transcript := transcript0 |}
            top_proposals;
  (* logging is wrapped in try/except *)
  let _ := match firestore_helpers, v_passed v with
           | Some db, _ :: _ => try_except (Firestore.log_assembly_meeting db) tt
           | _, _ => tt
           end in
  let meeting_result :=
    {| meeting_id := count; mr_tick := current_tick;
       proposals_count := Z.of_nat (length proposals);
       voting_results := v_results v; mr_passed_resolutions := v_passed v;
       transcript := v_transcript v |} in
  Ok ({| meeting_count := count; passed_resolutions := v_resolutions v;
         meeting_history := meeting_history parl ++ [meeting_result] |},
      meeting_result).

(** [get_active_resolutions(current_tick, default_duration=100)] *)
Definition get_active_resolutions (parl : t) (current_tick default_duration : Z)
    : list Resolution :=
  filter (fun res =>
            current_tick - tick_passed res
            < default default_duration (pp_duration_ticks (proposal res)))
         (passed_resolutions parl).

End Parliament.

(* ===================================================================== *)
(** * [engine/world_env.py] *)
(* ===================================================================== *)

Module WorldEnvironment.

(** An entry of [tick_events["llm_actions"]] (its type is always "TRADE"). *)
Record LlmAction : Type := {
  la_from : string;
  la_to : string;
  la_proposal : TradeProposal;
}.

(** An entry of [tick_events["trades_executed"]] (its type is always "AUTO"). *)
Record AutoTrade : Type := {
  at_from : string;
  at_to : string;
  offered : string * Z;
  received : string * Z;
}.

(** An entry of [tick_events["migrations"]]. *)
Record Migration : Type := {
  mg_from : string;
  mg_to : string;
  migrants : Z;
}.

(** The tick report.  [resource_updates] holds, per region, the dict
    object that step 1 also installs in the ledger and that the later
    steps mutate in place, so at the end of the tick it shows the final
    stocks.  The ["rewards"] summary (a function of the GDP scores with no
    effect on the ledger) is left out. *)
Record TickEvents : Type := {
  te_tick : Z;
  resource_updates : gmap string (gmap string Z);
  trades_executed : list AutoTrade;
  treaties_enforced : list TreatyManager.EnforcementResult;
  climate_events : list ClimateEngine.Event;
  migrations : list Migration;
  llm_actions : list LlmAction;
  assembly : option Parliament.MeetingResult;
}.

Record t : Type := {
  use_llm : bool;
  firebase_sync : bool;
  current_tick : Z;
  climate_engine : ClimateEngine.t;
  treaty_manager : TreatyManager.t;
  parliament : Parliament.t;
  regions_data : gmap string Region;
  state_reports : gmap string Report;
  tick_log : list TickEvents;
}.

(** The resource names of the loop of step 1. *)
Definition RESOURCES : list string := ["water"; "energy"; "food"; "tech"].

(** [regions_data.get(code, {})] seen through its [.get] defaults. *)
Definition empty_region : Region :=
  {| resources := ∅; resource_generation_rates := ∅; resource_consumption_rates := ∅;
     internal_policies := ∅; gdp_score := None; welfare_score := None;
     trust_score := None; population := None;
     demographics := {| workforce_efficiency := None; unrest_level := None |} |}.

Definition region_of (regions_data : gmap string Region) (code : string) : Region :=
  default empty_region (regions_data !! code).

Definition report_of (state_reports : gmap string Report) (code : string) : Report :=
  default empty_report (state_reports !! code).

(** [regions_data[code]["resources"] = res]; a missing [code] is a [KeyError]. *)
Definition assign_resources (regions_data : gmap string Region) (code : string)
    (res : gmap string Z) : result (gmap string Region) :=
  match regions_data !! code with
  | Some r => Ok (<[code := set_resources r res]> regions_data)
  | None => Raise KeyError
  end.

(* ------------------------------------------------------------------- *)
(** ** Step 1: produce and consume *)

(** The inner loop: [new_resources[res] = max(0, current + gen - con)]. *)
Definition produce_consume (region : Region) : gmap string Z :=
  foldl (fun new_resources res =>
           let current := get0 (resources region) res in
           let gen := get0 (resource_generation_rates region) res in
           let con := get0 (resource_consumption_rates region) res in
           <[res := Z.max 0 (current + gen - con)]> new_resources)
        ∅ RESOURCES.

Definition _step_produce_consume (regions_data : gmap string Region)
    : result (gmap string Region) :=
  foldM (fun rd code => assign_resources rd code (produce_consume (region_of rd code)))
        regions_data STATE_CODES.

(* ------------------------------------------------------------------- *)
(** ** Step 2: internal policies *)

Definition f0_1 : float := Eval vm_compute in lit 0.1.
Definition f0_5 : float := Eval vm_compute in lit 0.5.
Definition f0_05 : float := Eval vm_compute in lit 0.05.

Definition food_subsidy (policies : gmap string float) (res : gmap string Z)
    : result (gmap string Z) :=
  let food_sub := default zero (policies !! "food_subsidy") in
  if gtb food_sub zero then
    food ← float_of_int (get0 res "food");
    food_bonus ← py_int (mul (mul food food_sub) f0_1);
    bonus ← float_of_int food_bonus;
    energy_cost ← py_int (mul bonus f0_5);
    let res1 := <["food" := get0 res "food" + food_bonus]> res in
    Ok (<["energy" := Z.max 0 (get0 res1 "energy" - energy_cost)]> res1)
  else Ok res.

Definition water_tax (policies : gmap string float) (res : gmap string Z)
    : result (gmap string Z) :=
  let water_tax := default zero (policies !! "water_tax") in
  if gtb water_tax zero then
    water ← float_of_int (get0 res "water");
    water_saved ← py_int (mul (mul water water_tax) f0_05);
    Ok (<["water" := get0 res "water" + water_saved]> res)
  else Ok res.

Definition apply_policies (region : Region) : result (gmap string Z) :=
  res1 ← food_subsidy (internal_policies region) (resources region);
  water_tax (internal_policies region) res1.

Definition _step_apply_policies (regions_data : gmap string Region)
    : result (gmap string Region) :=
  foldM (fun rd code => res ← apply_policies (region_of rd code);
                        assign_resources rd code res)
        regions_data STATE_CODES.

(* ------------------------------------------------------------------- *)
(** ** Step 3: treaties *)

(** The loop over [trust_adjustments.items()]; the keys are distinct, so
    the order of the items does not matter. *)
Definition apply_trust (adjustments : gmap string Z) (regions_data : gmap string Region)
    : gmap string Region :=
  map_imap (fun code region =>
              Some match adjustments !! code with
                   | Some adj =>
                       let current_trust := default 100 (trust_score region) in
                       set_trust_score region (Z.max 0 (Z.min 100 (current_trust + adj)))
                   | None => region
                   end)
           regions_data.

Definition _step_enforce_treaties (tm : TreatyManager.t) (current_tick : Z)
    (regions_data : gmap string Region)
    : result (TreatyManager.t * gmap string Region * list TreatyManager.EnforcementResult) :=
  match TreatyManager.active_treaties tm with
  | [] => Ok (tm, regions_data, [])
  | _ :: _ =>
      let '(tm', rd, results) :=
        TreatyManager.enforce_treaties tm current_tick regions_data true in
      trust_adjustments ← TreatyManager.calculate_trust_adjustments results;
      Ok (tm', apply_trust trust_adjustments rd, results)
  end.

(* ------------------------------------------------------------------- *)
(** ** Step 4: financial analysis *)

Definition _step_finops_analysis (ext : External) (regions_data : gmap string Region)
    : result (gmap string Report) :=
  foldM (fun reports code => report ← analyze ext code (region_of regions_data code);
                             Ok (<[code := report]> reports))
        ∅ STATE_CODES.

(* ------------------------------------------------------------------- *)
(** ** Step 5: climate *)

(** The body of the loop over [events]: a triggered event with an impact
    report overwrites the target's stocks with the report's "after". *)
Definition apply_climate_event (regions_data : gmap string Region)
    (event : ClimateEngine.Event) : gmap string Region :=
  match event with
  | ClimateEngine.TRIGGERED ev =>
      match ClimateEngine.impact ev with
      | Some impacts =>
          foldl (fun rd (item : string * Firestore.ImpactDetails) =>
                   store_resource rd (ClimateEngine.target_region ev) (fst item)
                                  (Firestore.after (snd item)))
                regions_data impacts
      | None => regions_data
      end
  | ClimateEngine.EXPIRED _ => regions_data
  end.

Definition _step_climate (eng : ClimateEngine.t) (current_tick : Z) (ext : External)
    (firestore_helpers : option Firestore.t) (regions_data : gmap string Region)
    : result (ClimateEngine.t * gmap string Region * list ClimateEngine.Event) :=
  '(eng', events) ← ClimateEngine.tick eng current_tick (rnd ext) firestore_helpers;
  Ok (eng', foldl apply_climate_event regions_data events, events).

(* ------------------------------------------------------------------- *)
(** ** Direct trades (steps 6 and 7) *)

(** One iteration of either loop of [_execute_direct_trade], on the
    sender's and the receiver's resource dicts. *)
Definition give (st : gmap string Z * gmap string Z) (item : string * Z)
    : gmap string Z * gmap string Z :=
  let '(sender, receiver) := st in
  let '(res, amount) := item in
  let amount := Z.min amount (get0 sender res) in   (* can't give more than you have *)
  (<[res := Z.max 0 (get0 sender res - amount)]> sender,
   <[res := get0 receiver res + amount]> receiver).

(** A write through [from_res] or [to_res] reaches the ledger when the
    region exists, and a dict made by [.get(code, {})] otherwise. *)
Definition put_resources (regions_data : gmap string Region) (code : string)
    (res : gmap string Z) : gmap string Region :=
  match regions_data !! code with
  | Some r => <[code := set_resources r res]> regions_data
  | None => regions_data
  end.

(** [_execute_direct_trade]; both callers pass two different codes, so
    [from_res] and [to_res] are two different dicts. *)
Definition _execute_direct_trade (regions_data : gmap string Region)
    (from_code to_code : string) (offering requesting : list (string * Z))
    : gmap string Region :=
  let from_res := resources_of regions_data from_code in
  let to_res := resources_of regions_data to_code in
  let '(from_res1, to_res1) := foldl give (from_res, to_res) offering in
  let '(to_res2, from_res2) := foldl give (to_res1, from_res1) requesting in
  put_resources (put_resources regions_data from_code from_res2) to_code to_res2.

(* ------------------------------------------------------------------- *)
(** ** Step 6: governor decisions *)

(** [max(deficits.items(), key=priority_score)]: the first maximal item. *)
Definition top_deficit (deficits : list (string * float)) : option string :=
  match deficits with
  | [] => None
  | d :: ds => Some (fst (foldl (fun best x => if gtb (snd x) (snd best) then x else best)
                                d ds))
  end.

(** The partner search of [_governor_negotiate]. *)
Definition best_partner (state_reports : gmap string Report) (code needed_resource : string)
    : option string :=
  fst (foldl (fun (best : option string * Z) other_code =>
                if decide (other_code = code) then best
                else match surpluses (report_of state_reports other_code) !! needed_resource with
                     | Some available =>
                         if snd best <? available then (Some other_code, available) else best
                     | None => best
                     end)
             (None, 0) STATE_CODES).

Definition _governor_negotiate (ext : External) (state_reports : gmap string Report)
    (regions_data : gmap string Region) (code : string) (report : Report)
    : gmap string Region * option LlmAction :=
  match top_deficit (deficits report) with
  | None => (regions_data, None)
  | Some needed_resource =>
      match best_partner state_reports code needed_resource with
      | None => (regions_data, None)
      | Some partner =>
          let partner_surpluses := surpluses (report_of state_reports partner) in
          try_except
            (proposal ← negotiate_trade ext code report partner partner_surpluses;
             match offering proposal, requesting proposal with
             | _ :: _, _ :: _ =>
                 Ok (_execute_direct_trade regions_data code partner
                       (offering proposal) (requesting proposal),
                     Some {| la_from := code; la_to := partner; la_proposal := proposal |})
             | _, _ => Ok (regions_data, None)
             end)
            (regions_data, None)
      end
  end.

Definition _step_governor_decisions (ext : External) (current_tick : Z)
    (eng : ClimateEngine.t) (state_reports : gmap string Report)
    (regions_data : gmap string Region) : gmap string Region * list LlmAction :=
  let invoke_all := bool_decide (current_tick mod LLM_PERIODIC_INTERVAL = 0) in
  let affected_by_climate := ClimateEngine.get_affected_regions eng in
  foldl (fun (st : gmap string Region * list LlmAction) code =>
           let report := report_of state_reports code in
           let needs_action := invoke_all || needs_governor report
                               || bool_decide (code ∈ affected_by_climate) in
           if negb needs_action then st
           else
             let '(rd, trade_action) :=
               _governor_negotiate ext state_reports (fst st) code report in
             match trade_action with
             | Some a => (rd, snd st ++ [a])
             | None => (rd, snd st)
             end)
        (regions_data, []) STATE_CODES.

(* ------------------------------------------------------------------- *)
(** ** Step 7: trade matching *)

(** The partner loop: the first other region whose reported surplus of
    [request_res] covers [request_amt], with the amount it will give. *)
Fixpoint find_partner (state_reports : gmap string Report) (code request_res : string)
    (request_amt : Z) (codes : list string) : option (string * Z) :=
  match codes with
  | [] => None
  | other_code :: codes' =>
      if decide (other_code = code) then
        find_partner state_reports code request_res request_amt codes'
      else
        match surpluses (report_of state_reports other_code) !! request_res with
        | Some available =>
            if request_amt <=? available
            then Some (other_code, Z.min request_amt available)
            else find_partner state_reports code request_res request_amt codes'
        | None => find_partner state_reports code request_res request_amt codes'
        end
  end.

Definition match_recommendation (state_reports : gmap string Report) (code : string)
    (st : gmap string Region * list AutoTrade) (rec : TradeRecommendation)
    : gmap string Region * list AutoTrade :=
  if negb (bool_decide (action rec = Some "TRADE")) then st
  else if bool_decide (offer_resource rec = "") || bool_decide (request_resource rec = "")
          || (offer_amount rec <=? 0) then st
  else
    match find_partner state_reports code (request_resource rec) (request_amount rec)
                       STATE_CODES with
    | Some (other_code, actual_request) =>
        (_execute_direct_trade (fst st) code other_code
           [(offer_resource rec, offer_amount rec)]
           [(request_resource rec, actual_request)],
         snd st ++ [{| at_from := code; at_to := other_code;
                       offered := (offer_resource rec, offer_amount rec);
                       received := (request_resource rec, actual_request) |}])
    | None => st
    end.

Definition _step_trade_matching (state_reports : gmap string Report)
    (regions_data : gmap string Region) : gmap string Region * list AutoTrade :=
  foldl (fun st code =>
           foldl (match_recommendation state_reports code) st
                 (trade_recommendations (report_of state_reports code)))
        (regions_data, []) STATE_CODES.

(* ------------------------------------------------------------------- *)
(** ** Step 8: migration *)

Definition f50 : float := Eval vm_compute in of_Z 50.

(** The destination search: the region other than [code] with the
    highest welfare score above zero, first seen wins. *)
Definition best_destination (regions_data : gmap string Region) (code : string)
    : option string * float :=
  foldl (fun (best : option string * float) dest_code =>
           if decide (dest_code = code) then best
           else
             let dest_welfare :=
               default zero (welfare_score (region_of regions_data dest_code)) in
             if gtb dest_welfare (snd best) then (Some dest_code, dest_welfare) else best)
        (None, zero) STATE_CODES.

(** [regions_data[code]["population"] = p]; a missing [code] is a [KeyError]. *)
Definition assign_population (regions_data : gmap string Region) (code : string) (p : Z)
    : result (gmap string Region) :=
  match regions_data !! code with
  | Some r => Ok (<[code := set_population r p]> regions_data)
  | None => Raise KeyError
  end.

(** The body of the loop over the regions. *)
Definition migrate (st : gmap string Region * list Migration) (code : string)
    : result (gmap string Region * list Migration) :=
  let '(regions_data, migrations) := st in
  let region := region_of regions_data code in
  let welfare := default f50 (welfare_score region) in
  if ltb welfare WELFARE_MIGRATION_THRESHOLD then
    match best_destination regions_data code with
    | (Some best_dest, best_welfare) =>
        if gtb best_welfare welfare then
          let pop := default 0 (population region) in
          p ← float_of_int pop;
          migrants ← py_int (mul p MIGRATION_RATE);
          if 0 <? migrants then
            rd1 ← assign_population regions_data code (pop - migrants);
            let dest_pop := default 0 (population (region_of rd1 best_dest)) in
            rd2 ← assign_population rd1 best_dest (dest_pop + migrants);
            Ok (rd2, migrations ++ [{| mg_from := code; mg_to := best_dest;
                                       migrants := migrants |}])
          else Ok st
        else Ok st
    | (None, _) => Ok st
    end
  else Ok st.

Definition _step_migration (regions_data : gmap string Region)
    : result (gmap string Region * list Migration) :=
  foldM migrate (regions_data, []) STATE_CODES.

(* ------------------------------------------------------------------- *)
(** ** Step 10: GDP, welfare and unrest *)

Definition f0_004 : float := Eval vm_compute in lit 0.004.
Definition f0_002 : float := Eval vm_compute in lit 0.002.
Definition f0_001 : float := Eval vm_compute in lit 0.001.
Definition f0_3 : float := Eval vm_compute in lit 0.3.
Definition f0_2 : float := Eval vm_compute in lit 0.2.
Definition f0_02 : float := Eval vm_compute in lit 0.02.
Definition f0_01 : float := Eval vm_compute in lit 0.01.
Definition f10 : float := Eval vm_compute in of_Z 10.
Definition f20 : float := Eval vm_compute in of_Z 20.
Definition f40 : float := Eval vm_compute in of_Z 40.
Definition f70 : float := Eval vm_compute in of_Z 70.
Definition f100 : float := Eval vm_compute in of_Z 100.

(** The GDP formula of the reward step. *)
Definition gdp_of (region : Region) : result float :=
  let res := resources region in
  let pop := default 1 (population region) in
  let workforce := default f0_5 (workforce_efficiency (demographics region)) in
  per_million ← truediv pop 1000000;
  let pop_millions := py_max one per_million in
  tech ← float_of_int (get0 res "tech");
  energy ← float_of_int (get0 res "energy");
  food ← float_of_int (get0 res "food");
  water ← float_of_int (get0 res "water");
  let resource_index :=
    add (add (add (mul tech f0_004) (mul energy f0_002)) (mul food f0_001))
        (mul water f0_001) in
  let gdp := mul (mul (div resource_index pop_millions) f10) workforce in
  Ok (py_round1 (py_min f100 (py_max zero gdp))).

(** The welfare formula of the reward step. *)
Definition welfare_of (region : Region) : result float :=
  let res := resources region in
  food ← float_of_int (get0 res "food");
  water ← float_of_int (get0 res "water");
  let food_ratio :=
    py_min one (div food (py_max one (mul (of_Z (RESOURCE_MAX "food")) f0_3))) in
  let water_ratio :=
    py_min one (div water (py_max one (mul (of_Z (RESOURCE_MAX "water")) f0_2))) in
  let unrest := default zero (unrest_level (demographics region)) in
  let welfare := add (add (mul food_ratio f40) (mul water_ratio f40))
                     (mul (sub one unrest) f20) in
  Ok (py_round1 (py_min f100 (py_max zero welfare))).

(** The unrest update: a hysteresis band around the welfare just computed. *)
Definition new_unrest_of (region : Region) (welfare : float) : float :=
  let unrest := default zero (unrest_level (demographics region)) in
  if ltb welfare f40 then py_min one (add unrest f0_02)
  else if gtb welfare f70 then py_max zero (sub unrest f0_01)
  else unrest.

(** The body of the loop of [_step_rewards] on one region. *)
Definition reward_region (region : Region) : result Region :=
  gdp ← gdp_of region;
  welfare ← welfare_of region;
  Ok (set_scores region gdp welfare (new_unrest_of region welfare)).

Definition _step_rewards (regions_data : gmap string Region)
    : result (gmap string Region) :=
  foldM (fun rd code =>
           match rd !! code with
           | Some region => region' ← reward_region region;
                            Ok (<[code := region']> rd)
           | None => Raise KeyError
           end)
        regions_data STATE_CODES.

(* ------------------------------------------------------------------- *)
(** ** Steps 9 and 11, and the tick *)

Definition _step_assembly (parl : Parliament.t) (ext : External)
    (state_reports : gmap string Report) (current_tick : Z)
    (firestore_helpers : option Firestore.t)
    : result (Parliament.t * Parliament.MeetingResult) :=
  Parliament.convene_assembly parl ext state_reports current_tick firestore_helpers.

(** The whole body is one [try]; nothing of the local state changes. *)
Definition _step_firebase_sync (db : Firestore.t) : unit :=
  try_except (Firestore.update db) tt.

Definition tick (w : t) (ext : External) : result (t * TickEvents) :=
  let current_tick := current_tick w + 1 in
  let firestore_helpers := if firebase_sync w then Some (firestore ext) else None in
  (* Step 1 *)
  rd1 ← _step_produce_consume (regions_data w);
  (* Step 2 *)
  rd2 ← _step_apply_policies rd1;
  (* Step 3 *)
  '(tm, rd3, treaties) ← _step_enforce_treaties (treaty_manager w) current_tick rd2;
  (* Step 4 *)
  reports ← _step_finops_analysis ext rd3;
  (* Step 5 *)
  '(eng, rd5, climate) ← _step_climate (climate_engine w) current_tick ext
                                       firestore_helpers rd3;
  (* Step 6 *)
  let '(rd6, actions) :=
    if use_llm w then _step_governor_decisions ext current_tick eng reports rd5
    else (rd5, []) in
  (* Step 7 *)
  let '(rd7, trades) := _step_trade_matching reports rd6 in
  (* Step 8 *)
  '(rd8, moved) ← _step_migration rd7;
  (* Step 9 *)
  '(parl, meeting) ←
    (if bool_decide (current_tick mod FEDERAL_ASSEMBLY_INTERVAL = 0) && use_llm w then
       '(parl, m) ← _step_assembly (parliament w) ext reports current_tick
                                   firestore_helpers;
       Ok (parl, Some m)
     else Ok (parliament w, None));
  (* Step 10 *)
  rd10 ← _step_rewards rd8;
  (* Step 11 *)
  let _ := if firebase_sync w then _step_firebase_sync (firestore ext) else tt in
  let tick_events :=
    {| te_tick := current_tick;
       resource_updates :=
         list_to_map (map (fun code => (code, resources_of rd10 code)) STATE_CODES);
       trades_executed := trades;
       treaties_enforced := treaties;
       climate_events := climate;
       migrations := moved;
       llm_actions := actions;
       assembly := meeting |} in
  Ok ({| use_llm := use_llm w; firebase_sync := firebase_sync w;
         current_tick := current_tick;
         climate_engine := eng; treaty_manager := tm; parliament := parl;
         regions_data := rd10; state_reports := reports;
         tick_log := tick_log w ++ [tick_events] |},
      tick_events).

(** [n] ticks in a row, one [External] per tick. *)
Fixpoint run (w : t) (exts : list External) : result t :=
  match exts with
  | [] => Ok w
  | ext :: exts' => '(w', _) ← tick w ext; run w' exts'
  end.

End WorldEnvironment.

(* ===================================================================== *)
(** * Scenarios *)
(* ===================================================================== *)

(** Concrete ledgers and collaborators on which the engine is run below. *)
Module Scenario.
Import WorldEnvironment.

Definition stock (water energy food tech : Z) : gmap string Z :=
  <["water" := water]> (<["energy" := energy]> (<["food" := food]> (<["tech" := tech]> ∅))).

(** A region that holds, produces and consumes water only. *)
Definition water_region (water gen con : Z) : Region :=
  {| resources := stock water 0 0 0;
     resource_generation_rates := stock gen 0 0 0;
     resource_consumption_rates := stock con 0 0 0;
     internal_policies := ∅;
     gdp_score := None; welfare_score := None; trust_score := None;
     population := None;
     demographics := {| workforce_efficiency := None; unrest_level := None |} |}.

(** Region A of the end-to-end scenario is "PB", region B is "MH"; the
    engine walks all ten state codes, so the other eight are there too. *)
Definition two_regions : gmap string Region :=
  list_to_map (map (fun code => (code, if decide (code = "PB")
                                       then water_region 1000 (-50) 100
                                       else water_region 1000 50 50))
                   STATE_CODES).

(** [n] ticks in which only step 1 touches the ledger. *)
Fixpoint produce_consume_ticks (n : nat) (regions_data : gmap string Region)
    : result (gmap string Region) :=
  match n with
  | O => Ok regions_data
  | S n' => rd ← _step_produce_consume regions_data; produce_consume_ticks n' rd
  end.

Definition water_of (regions_data : gmap string Region) (code : string) : Z :=
  get0 (resources_of regions_data code) "water".

(** The water of [code] after [n] such ticks, when they all return. *)
Definition water_after_ticks (n : nat) (regions_data : gmap string Region)
    (code : string) : option Z :=
  match produce_consume_ticks n regions_data with
  | Ok rd => Some (water_of rd code)
  | Raise _ => None
  end.

(** The spec's recurrence: [new = max(0, current + generation - consumption)],
    applied [n] times. *)
Definition clamped_balance (n : nat) (current generation consumption : Z) : Z :=
  Nat.iter n (fun current => Z.max 0 (current + generation - consumption)) current.

(** A ledger in which "RJ" holds 60 units of water. *)
Definition dry_rajasthan : gmap string Region :=
  <["RJ" := water_region 60 0 0]> two_regions.

(** A treaty by which "RJ" owes "PB" 100 units of water per tick. *)
Definition water_treaty : TreatyManager.Treaty :=
  {| TreatyManager.treaty_id := "Treaty_001_RJ_PB";
     TreatyManager.from_region := "RJ"; TreatyManager.to_region := "PB";
     TreatyManager.per_tick_offer := [("water", 100)];
     TreatyManager.per_tick_request := [];
     TreatyManager.duration_ticks := 20; TreatyManager.ticks_remaining := 20;
     TreatyManager.conditions := ""; TreatyManager.is_active := true;
     TreatyManager.breaches := []; TreatyManager.created_tick := 0 |}.

(** A store that holds nothing and never fails. *)
Definition empty_store : Firestore.t :=
  {| Firestore.regions := ∅; Firestore.climate_events := ∅;
     Firestore.fails := fun _ => false |}.

(** Draws with which no climate event starts: [random.random()] gives 1/2. *)
Definition calm : ClimateEngine.Random :=
  {| ClimateEngine.random := f0_5; ClimateEngine.choice := 0%nat |}.

(** Draws with which the first available event starts: [random.random()]
    gives 0. *)
Definition stormy : ClimateEngine.Random :=
  {| ClimateEngine.random := zero; ClimateEngine.choice := 0%nat |}.

Definition nay_sayers : list string := ["PB"; "MH"; "TN"; "KA"].

(** Collaborators of a quiet tick: empty financial reports, a governor
    whose trade negotiation fails, who proposes a policy under its own
    code and who votes NO exactly when it is one of [nay_sayers]. *)
Definition quiet : External :=
  {| analyze := fun _ _ => Ok empty_report;
     negotiate_trade := fun _ _ _ _ => Raise ExternalError;
     propose_federal_policy := fun code _ _ =>
       Ok {| policy_name := Some code; proposer := Some code;
             speech := None; pp_duration_ticks := None |};
     vote_on_policy := fun code _ _ =>
       Ok {| vote := Some (if bool_decide (code ∈ nay_sayers) then "no" else "yes");
             reasoning := None |};
     rnd := calm;
     firestore := empty_store |}.

(** A financial report for each of the ten regions. *)
Definition ten_reports : gmap string Report :=
  list_to_map (map (fun code => (code, empty_report)) STATE_CODES).

Definition no_votes_yet : Parliament.Voting :=
  {| Parliament.v_results := []; Parliament.v_passed := [];
     Parliament.v_resolutions := []; Parliament.v_transcript := [] |}.

Definition some_proposal : PolicyProposal :=
  {| policy_name := Some "Water Sharing Act"; proposer := Some "RJ";
     speech := None; pp_duration_ticks := None |}.

(** Two enforcement results: an honoured treaty between "PB" and "MH", and
    one between "RJ" and "GJ" in which "RJ" breached one leg while "GJ"
    delivered the other. *)
Definition honoured : TreatyManager.EnforcementResult :=
  {| TreatyManager.r_treaty_id := "Treaty_001_PB_MH";
     TreatyManager.r_from := "PB"; TreatyManager.r_to := "MH";
     TreatyManager.r_transfers :=
       [{| TreatyManager.tr_direction := "PB -> MH";
           TreatyManager.tr_resource := "food"; TreatyManager.tr_amount := 10 |};
        {| TreatyManager.tr_direction := "MH -> PB";
           TreatyManager.tr_resource := "tech"; TreatyManager.tr_amount := 5 |}];
     TreatyManager.r_breaches := [] |}.

Definition half_honoured : TreatyManager.EnforcementResult :=
  {| TreatyManager.r_treaty_id := "Treaty_002_RJ_GJ";
     TreatyManager.r_from := "RJ"; TreatyManager.r_to := "GJ";
     TreatyManager.r_transfers :=
       [{| TreatyManager.tr_direction := "GJ -> RJ";
           TreatyManager.tr_resource := "energy"; TreatyManager.tr_amount := 20 |}];
     TreatyManager.r_breaches :=
       [{| TreatyManager.breacher := "RJ"; TreatyManager.br_resource := "water";
           TreatyManager.shortfall := 40 |}] |}.

(** The drought of Rajasthan as a tick after [stormy] draws reports it, and
    the engine that this tick leaves behind. *)
Definition drought : ClimateEngine.Triggered :=
  {| ClimateEngine.event_id := "Drought_RJ"; ClimateEngine.target_region := "RJ";
     ClimateEngine.duration := 10; ClimateEngine.impact := None |}.

Definition drought_started : ClimateEngine.t :=
  {| ClimateEngine.last_event_tick := 1;
     ClimateEngine.active_events := [("Drought_RJ", 9)] |}.

(** The welfare score of [code] after [n] runs of the reward step alone. *)
Fixpoint rewards_runs (n : nat) (regions_data : gmap string Region)
    : result (gmap string Region) :=
  match n with
  | O => Ok regions_data
  | S n' => rd ← _step_rewards regions_data; rewards_runs n' rd
  end.

Definition welfare_after_rewards (n : nat) (regions_data : gmap string Region)
    (code : string) : option float :=
  match rewards_runs n regions_data with
  | Ok rd => welfare_score (region_of rd code)
  | Raise _ => None
  end.

(** A region of which only the welfare score and the population matter. *)
Definition settled (welfare : float) (pop : Z) : Region :=
  {| resources := stock 100 100 100 100;
     resource_generation_rates := ∅; resource_consumption_rates := ∅;
     internal_policies := ∅;
     gdp_score := None; welfare_score := Some welfare; trust_score := None;
     population := Some pop;
     demographics := {| workforce_efficiency := None; unrest_level := None |} |}.

(** "PB" and "MH" are below the migration threshold, "TN" is the best place
    to be, the seven others are at a welfare of 50. *)
Definition crowded : gmap string Region :=
  list_to_map
    (map (fun code => (code,
            if bool_decide (code ∈ ["PB"; "MH"]) then settled (of_Z 20) 1000
            else if decide (code = "TN") then settled (of_Z 80) 1000
            else settled (of_Z 50) 1000))
         STATE_CODES).


(** A world around a ledger: no treaties, no climate event, no meeting yet. *)
Definition world (use_llm firebase_sync : bool) (regions_data : gmap string Region)
    : WorldEnvironment.t :=
  {| use_llm := use_llm; firebase_sync := firebase_sync; current_tick := 0;
     climate_engine := ClimateEngine.init;
     treaty_manager := {| TreatyManager.active_treaties := [];
                          TreatyManager.expired_treaties := [];
                          TreatyManager.treaty_counter := 0 |};
     parliament := Parliament.init;
     regions_data := regions_data; state_reports := ∅; tick_log := [] |}.

(** Financial reports by which "PB" lacks water and every other region has
    50 units of it to spare. *)
Definition thirsty : Report :=
  {| needs_governor := true; deficits := [("water", one)]; surpluses := ∅;
     trade_recommendations := [] |}.

Definition wet : Report :=
  {| needs_governor := false; deficits := []; surpluses := {["water" := 50]};
     trade_recommendations := [] |}.

(** Collaborators among which the governor proposes to give a negative
    amount of water. *)
Definition reckless : External :=
  {| analyze := fun code _ => Ok (if decide (code = "PB") then thirsty else wet);
     negotiate_trade := fun _ _ _ _ =>
       Ok {| offering := [("water", -500)]; requesting := [("food", 1)] |};
     propose_federal_policy := propose_federal_policy quiet;
     vote_on_policy := vote_on_policy quiet;
     rnd := calm;
     firestore := empty_store |}.

(** Collaborators among which the financial analysis fails. *)
Definition broken_analysis : External :=
  {| analyze := fun _ _ => Raise ExternalError;
     negotiate_trade := negotiate_trade quiet;
     propose_federal_policy := propose_federal_policy quiet;
     vote_on_policy := vote_on_policy quiet;
     rnd := calm;
     firestore := empty_store |}.

(** Collaborators among which every call that the engine wraps in a [try]
    fails: the trade negotiation, and the store's update and logging. *)
Definition unreachable : External :=
  {| analyze := analyze reckless;
     negotiate_trade := fun _ _ _ _ => Raise ExternalError;
     propose_federal_policy := propose_federal_policy quiet;
     vote_on_policy := vote_on_policy quiet;
     rnd := calm;
     firestore :=
       {| Firestore.regions := ∅; Firestore.climate_events := ∅;
          Firestore.fails := fun call =>
            match call with
            | Firestore.call_log_assembly_meeting | Firestore.call_update => true
            | _ => false
            end |} |}.

(** A proposal by which "RJ" offers "PB" 100 units of water per tick, and
    the manager after six such proposals in a row. *)
Definition water_proposal : TreatyManager.TreatyProposal :=
  {| TreatyManager.tp_from := Some "RJ"; TreatyManager.tp_to := Some "PB";
     TreatyManager.tp_per_tick_offer := Some [("water", 100)];
     TreatyManager.tp_per_tick_request := None;
     TreatyManager.tp_duration_ticks := Some 2;
     TreatyManager.tp_conditions := None |}.

(** The manager after the first such proposal, and the treaty it made. *)
Definition one_proposal : TreatyManager.t * option TreatyManager.Treaty :=
  TreatyManager.create_treaty TreatyManager.init water_proposal 1.

Definition first_treaty : TreatyManager.Treaty := default water_treaty one_proposal.2.

Definition six_proposals : TreatyManager.t :=
  foldl (fun tm current_tick =>
           (TreatyManager.create_treaty tm water_proposal current_tick).1)
        TreatyManager.init [1; 2; 3; 4; 5; 6].

(** What a tick reports of the governors' actions, when it returns. *)
Definition actions_of_tick (w : WorldEnvironment.t) (ext : External)
    : option (list LlmAction) :=
  match tick w ext with
  | Ok (_, report) => Some (llm_actions report)
  | Raise _ => None
  end.

(** The stock of [res] that [code] holds after one tick. *)
Definition stock_after_tick (w : WorldEnvironment.t) (ext : External)
    (code res : string) : option Z :=
  match tick w ext with
  | Ok (w', _) => Some (get0 (resources_of (regions_data w') code) res)
  | Raise _ => None
  end.

(** A ledger on which every step of a tick has something to do.  Every
    region holds 1000 of each resource.  "PB" consumes 1500 units of water
    per tick and is below the migration threshold; "MH" runs a food subsidy
    and a water tax; "TN" is the best place to be. *)
Definition f0_2 : float := Eval vm_compute in lit 0.2.

Definition busy_region (code : string) : Region :=
  {| resources := stock 1000 1000 1000 1000;
     resource_generation_rates := stock 10 10 10 10;
     resource_consumption_rates :=
       if decide (code = "PB") then stock 1500 10 10 10 else stock 10 10 10 10;
     internal_policies :=
       if decide (code = "MH")
       then <["food_subsidy" := f0_5]> (<["water_tax" := f0_2]> ∅)
       else ∅;
     gdp_score := None;
     welfare_score := Some (if decide (code = "PB") then of_Z 20
                            else if decide (code = "TN") then of_Z 80 else of_Z 50);
     trust_score := None;
     population := Some 1000;
     demographics := {| workforce_efficiency := None; unrest_level := None |} |}.

Definition busy_ledger : gmap string Region :=
  list_to_map (map (fun code => (code, busy_region code)) STATE_CODES).

(** A treaty by which "GJ" owes "UP" 300 units of energy per tick, against
    5000 units of food that "UP" does not have. *)
Definition energy_treaty : TreatyManager.Treaty :=
  {| TreatyManager.treaty_id := "Treaty_001_GJ_UP";
     TreatyManager.from_region := "GJ"; TreatyManager.to_region := "UP";
     TreatyManager.per_tick_offer := [("energy", 300)];
     TreatyManager.per_tick_request := [("food", 5000)];
     TreatyManager.duration_ticks := 20; TreatyManager.ticks_remaining := 20;
     TreatyManager.conditions := ""; TreatyManager.is_active := true;
     TreatyManager.breaches := []; TreatyManager.created_tick := 0 |}.

(** The world around that ledger: one active treaty, the store switched on. *)
Definition busy_world : WorldEnvironment.t :=
  {| use_llm := true; firebase_sync := true; current_tick := 0;
     climate_engine := ClimateEngine.init;
     treaty_manager := {| TreatyManager.active_treaties := [energy_treaty];
                          TreatyManager.expired_treaties := [];
                          TreatyManager.treaty_counter := 1 |};
     parliament := Parliament.init;
     regions_data := busy_ledger; state_reports := ∅; tick_log := [] |}.

(** A report that recommends to trade 10 units of tech for 5 of water. *)
Definition trader : Report :=
  {| needs_governor := false; deficits := []; surpluses := {["water" := 50]};
     trade_recommendations :=
       [{| action := Some "TRADE"; offer_resource := "tech"; request_resource := "water";
           offer_amount := 10; request_amount := 5 |}] |}.

Definition minus_0_4 : float := Eval vm_compute in lit (-0.4).

(** A store in which the drought of Rajasthan takes four tenths of the
    water of "RJ". *)
Definition drought_store : Firestore.t :=
  {| Firestore.regions := {["RJ" := stock 1000 1000 1000 1000]};
     Firestore.climate_events :=
       {["Drought_RJ" :=
           {| Firestore.target_region := "RJ";
              Firestore.resource_impact :=
                [("water", minus_0_4)] |}]};
     Firestore.fails := fun _ => false |}.

(** Collaborators of a busy tick: "PB" lacks water and its governor trades
    20 units of food for 30 of water, "KA" is recommended a trade, every
    other region has water to spare, and the draws start the drought. *)
Definition busy : External :=
  {| analyze := fun code _ =>
       Ok (if decide (code = "PB") then thirsty
           else if decide (code = "KA") then trader else wet);
     negotiate_trade := fun _ _ _ _ =>
       Ok {| offering := [("food", 20)]; requesting := [("water", 30)] |};
     propose_federal_policy := propose_federal_policy quiet;
     vote_on_policy := vote_on_policy quiet;
     rnd := stormy;
     firestore := drought_store |}.

(** What a tick of the busy world reports, in numbers: the transfers and
    the breaches of its treaty results, the water lost to its climate
    events, and how many governor trades, matched trades and migrations
    there were. *)
Definition busy_summary : option (list (nat * nat) * list (option Z) * nat * nat * nat) :=
  match tick busy_world busy with
  | Ok (_, report) =>
      Some (map (fun res => (length (TreatyManager.r_transfers res),
                             length (TreatyManager.r_breaches res)))
                (treaties_enforced report),
            map (fun event =>
                   match event with
                   | ClimateEngine.TRIGGERED ev =>
                       match ClimateEngine.impact ev with
                       | Some impacts => Firestore.lost <$> OrderedDict.get "water" impacts
                       | None => None
                       end
                   | ClimateEngine.EXPIRED _ => None
                   end)
                (climate_events report),
            length (llm_actions report), length (trades_executed report),
            length (migrations report))
  | Raise _ => None
  end.

(** Collaborators with whom every ballot ends five against five. *)
Definition split_house : External :=
  {| analyze := analyze quiet;
     negotiate_trade := negotiate_trade quiet;
     propose_federal_policy := propose_federal_policy quiet;
     vote_on_policy := fun code _ _ =>
       Ok {| vote := Some (if bool_decide (code ∈ ["PB"; "MH"; "TN"; "KA"; "GJ"])
                           then "no" else "yes");
             reasoning := None |};
     rnd := calm;
     firestore := empty_store |}.

End Scenario.

(* ===================================================================== *)
(** * The spec's words *)
(* ===================================================================== *)

(** Definitions that follow the wording of the specification, to be
    compared with what the code computes. *)
Module Spec.

(** How often [code] is the breaching party in one enforcement result. *)
Definition breaches_by (code : string) (res : TreatyManager.EnforcementResult) : Z :=
  Z.of_nat (length (filter (fun b => TreatyManager.breacher b = code)
                           (TreatyManager.r_breaches res))).

(** "Any breach in a treaty's enforcement this tick penalizes only the
    breaching party; a treaty with zero breaches this tick rewards both
    parties a small trust bonus": what one result contributes to the trust
    adjustment of [code]. *)
Definition trust_contribution (res : TreatyManager.EnforcementResult) (code : string) : Z :=
  match TreatyManager.r_breaches res with
  | [] =>
      (if decide (code = TreatyManager.r_from res) then TREATY_HONOR_TRUST_BONUS else 0)
      + (if decide (code = TreatyManager.r_to res) then TREATY_HONOR_TRUST_BONUS else 0)
  | _ :: _ => - TREATY_BREACH_TRUST_PENALTY * breaches_by code res
  end.

Definition total_contribution (results : list TreatyManager.EnforcementResult)
    (code : string) : Z :=
  foldr Z.add 0 (map (fun res => trust_contribution res code) results).

(** The population of a region, as the migration step reads it. *)
Definition population_of (regions_data : gmap string Region) (code : string) : Z :=
  default 0 (population (WorldEnvironment.region_of regions_data code)).



(** "All resource quantities >= 0", for the ten regions of the simulation. *)
Definition stocks_nonneg (res : gmap string Z) : Prop :=
  forall k v, res !! k = Some v -> 0 <= v.

Definition ledger_nonneg (regions_data : gmap string Region) : Prop :=
  forall code r, code ∈ STATE_CODES -> regions_data !! code = Some r ->
                 stocks_nonneg (resources r).

(** A dict of amounts none of which is negative. *)
Definition amounts_nonneg (items : list (string * Z)) : Prop :=
  Forall (fun item => 0 <= snd item) items.

(** The same collaborators with the failures that the engine catches taken
    away: a trade negotiation that raises returns an empty proposal instead,
    and the store's update and logging calls succeed. *)
Definition without_caught_failures (ext : External) : External :=
  {| analyze := analyze ext;
     negotiate_trade := fun code report partner partner_surpluses =>
       match negotiate_trade ext code report partner partner_surpluses with
       | Ok proposal => Ok proposal
       | Raise _ => Ok {| offering := []; requesting := [] |}
       end;
     propose_federal_policy := propose_federal_policy ext;
     vote_on_policy := vote_on_policy ext;
     rnd := rnd ext;
     firestore :=
       {| Firestore.regions := Firestore.regions (firestore ext);
          Firestore.climate_events := Firestore.climate_events (firestore ext);
          Firestore.fails := fun call =>
            match call with
            | Firestore.call_log_assembly_meeting | Firestore.call_update => false
            | _ => Firestore.fails (firestore ext) call
            end |} |}.

End Spec.

(* ===================================================================== *)
(** * Properties *)
(* ===================================================================== *)

Import WorldEnvironment.

(** ** Predicates of the statements *)

(** The loop body of the steps that walk the state codes and replace each
    region by a function [F] of that region alone (steps 1, 2 and 10). *)
Definition per_region (F : Region -> result Region) (rd : gmap string Region)
    (code : string) : result (gmap string Region) :=
  match rd !! code with
  | Some r => r' ← F r; Ok (<[code := r']> rd)
  | None => Raise KeyError
  end.

(** What one region looks like to step 1: its stock and its two rates. *)
Definition holds (rd : gmap string Region) (code res : string) (current gen con : Z) : Prop :=
  exists r, rd !! code = Some r
            /\ get0 (resources r) res = current
            /\ get0 (resource_generation_rates r) res = gen
            /\ get0 (resource_consumption_rates r) res = con.

(** The results that [_enforce_single] builds name only the two parties as
    breachers, and on such results the adjustment never raises. *)
Definition breachers_are_parties (res : TreatyManager.EnforcementResult) : Prop :=
  Forall (fun b => TreatyManager.breacher b = TreatyManager.r_from res
                   \/ TreatyManager.breacher b = TreatyManager.r_to res)
         (TreatyManager.r_breaches res).

(** The decrement of the tick-down loop. *)
Definition one_tick_less (d : list (string * Z)) : list (string * Z) :=
  map (fun p => (fst p, snd p - 1)) d.

(** A float that is not below zero: a zero, a positive number, plus
    infinity, or NaN. *)
Definition not_negative (x : float) : Prop :=
  match x with
  | S754_zero _ => True
  | S754_finite s _ _ => s = false
  | S754_infinity s => s = false
  | S754_nan => True
  end.

(** The "after" of every impact is clamped at zero. *)
Definition impacts_clamped (impacts : list (string * Firestore.ImpactDetails)) : Prop :=
  Forall (fun item => 0 <= Firestore.after (snd item)) impacts.

(** The events of a tick whose impact, if any, is clamped. *)
Definition events_clamped (events : list ClimateEngine.Event) : Prop :=
  forall ev impacts, ClimateEngine.TRIGGERED ev ∈ events ->
                     ClimateEngine.impact ev = Some impacts -> impacts_clamped impacts.

(** What the governors are trusted with: the amounts they propose are not
    negative. *)
Definition proposals_nonneg (ext : External) : Prop :=
  forall code report partner partner_surpluses proposal,
    negotiate_trade ext code report partner partner_surpluses = Ok proposal ->
    Spec.amounts_nonneg (offering proposal) /\ Spec.amounts_nonneg (requesting proposal).

(** What the financial analysis is trusted with: the amounts it recommends
    to request are not negative. *)
Definition recommendations_nonneg (report : Report) : Prop :=
  Forall (fun rec => 0 <= request_amount rec) (trade_recommendations report).

Definition analysis_nonneg (ext : External) : Prop :=
  forall code region report,
    analyze ext code region = Ok report -> recommendations_nonneg report.

(** The reports that step 7 reads. *)
Definition reports_nonneg (reports : gmap string Report) : Prop :=
  forall code report, reports !! code = Some report -> recommendations_nonneg report.

(** The stock of [res] that [code] holds. *)
Definition stock_of (rd : gmap string Region) (code res : string) : Z :=
  get0 (resources_of rd code) res.

(** The stock of [res] that the ten regions hold together. *)
Definition total_stock (rd : gmap string Region) (res : string) : Z :=
  foldr Z.add 0 (map (fun code => stock_of rd code res) STATE_CODES).

(** Every state code has its entry in the ledger. *)
Definition all_regions_present (rd : gmap string Region) : Prop :=
  forall code, code ∈ STATE_CODES -> is_Some (rd !! code).

(** The ledger seen through its welfare scores only. *)
Definition welfares (rd : gmap string Region) : gmap string (option float) :=
  welfare_score <$> rd.

(** The welfare score of a region as the migration step reads it when the
    region is the one to leave, and when it is a place to go to. *)
Definition source_welfare (rd : gmap string Region) (code : string) : float :=
  default f50 (welfare_score (region_of rd code)).

Definition destination_welfare (rd : gmap string Region) (code : string) : float :=
  default zero (welfare_score (region_of rd code)).

(** A migration that the welfare scores of [rd] account for: people leave
    a state under the threshold for another state whose score is higher. *)
Definition justified (rd : gmap string Region) (m : Migration) : Prop :=
  mg_from m ∈ STATE_CODES /\ mg_to m ∈ STATE_CODES /\ mg_to m <> mg_from m
  /\ 0 < migrants m
  /\ ltb (source_welfare rd (mg_from m)) WELFARE_MIGRATION_THRESHOLD = true
  /\ gtb (destination_welfare rd (mg_to m)) (source_welfare rd (mg_from m)) = true.


(** A treaty one enforcement later: one tick less, inactive once no tick
    is left, maybe more breaches in its log, and the same agreement. *)
Definition aged (tr tr' : TreatyManager.Treaty) : Prop :=
  TreatyManager.treaty_id tr' = TreatyManager.treaty_id tr
  /\ TreatyManager.from_region tr' = TreatyManager.from_region tr
  /\ TreatyManager.to_region tr' = TreatyManager.to_region tr
  /\ TreatyManager.per_tick_offer tr' = TreatyManager.per_tick_offer tr
  /\ TreatyManager.per_tick_request tr' = TreatyManager.per_tick_request tr
  /\ TreatyManager.ticks_remaining tr' = TreatyManager.ticks_remaining tr - 1
  /\ TreatyManager.is_active tr'
     = (if TreatyManager.ticks_remaining tr - 1 <=? 0 then false
        else TreatyManager.is_active tr).

(** What one call of [enforce_treaties] makes of the list of active
    treaties: the treaties it keeps, the ones it expires, and its results. *)
Inductive enforced : list TreatyManager.Treaty -> list TreatyManager.Treaty ->
                     list TreatyManager.Treaty ->
                     list TreatyManager.EnforcementResult -> Prop :=
| enforced_nil : enforced [] [] [] []
| enforced_skip tr l kept expired results :
    TreatyManager.is_active tr = false ->
    enforced l kept expired results ->
    enforced (tr :: l) (tr :: kept) expired results
| enforced_keep tr tr' res l kept expired results :
    TreatyManager.is_active tr = true -> aged tr tr' ->
    0 < TreatyManager.ticks_remaining tr' ->
    TreatyManager.r_treaty_id res = TreatyManager.treaty_id tr ->
    enforced l kept expired results ->
    enforced (tr :: l) (tr' :: kept) expired (res :: results)
| enforced_expire tr tr' res l kept expired results :
    TreatyManager.is_active tr = true -> aged tr tr' ->
    TreatyManager.ticks_remaining tr' <= 0 ->
    TreatyManager.r_treaty_id res = TreatyManager.treaty_id tr ->
    enforced l kept expired results ->
    enforced (tr :: l) kept (tr' :: expired) (res :: results).

(** The managers that the two operations of the treaty system reach from
    a new manager. *)
Inductive reachable : TreatyManager.t -> Prop :=
| reachable_init : reachable TreatyManager.init
| reachable_create tm proposal current_tick :
    reachable tm ->
    reachable (TreatyManager.create_treaty tm proposal current_tick).1
| reachable_enforce tm current_tick regions_data update_func :
    reachable tm ->
    reachable (TreatyManager.enforce_treaties tm current_tick regions_data update_func).1.1.

(** The value of a decimal digit. *)
Definition digit_value (c : ascii) : option N :=
  let n := N_of_ascii c in
  if ((48 <=? n) && (n <=? 57))%N then Some (n - 48)%N else None.

(** The number that the leading decimal digits of a string spell. *)
Fixpoint read_number (acc : N) (s : string) : N :=
  match s with
  | String c s' =>
      match digit_value c with
      | Some d => read_number (10 * acc + d) s'
      | None => acc
      end
  | EmptyString => acc
  end.

(** The serial number in a treaty id, which follows the seven characters
    of "Treaty_". *)
Definition id_number (treaty_id : string) : N :=
  match treaty_id with
  | String _ (String _ (String _ (String _ (String _ (String _ (String _ rest)))))) =>
      read_number 0 rest
  | _ => 0%N
  end.

(** The legs of a treaty in the order in which [_enforce_single] runs
    them, the offer first: who gives, who receives, and the promised item. *)
Definition legs (tr : TreatyManager.Treaty) : list (string * string * (string * Z)) :=
  map (fun item => (TreatyManager.from_region tr, TreatyManager.to_region tr, item))
      (TreatyManager.per_tick_offer tr)
  ++ map (fun item => (TreatyManager.to_region tr, TreatyManager.from_region tr, item))
         (TreatyManager.per_tick_request tr).

(** The treaty cut down to its first [i] legs. *)
Definition first_legs (i : nat) (tr : TreatyManager.Treaty) : TreatyManager.Treaty :=
  {| TreatyManager.treaty_id := TreatyManager.treaty_id tr;
     TreatyManager.from_region := TreatyManager.from_region tr;
     TreatyManager.to_region := TreatyManager.to_region tr;
     TreatyManager.per_tick_offer := take i (TreatyManager.per_tick_offer tr);
     TreatyManager.per_tick_request :=
       take (i - length (TreatyManager.per_tick_offer tr))
            (TreatyManager.per_tick_request tr);
     TreatyManager.duration_ticks := TreatyManager.duration_ticks tr;
     TreatyManager.ticks_remaining := TreatyManager.ticks_remaining tr;
     TreatyManager.conditions := TreatyManager.conditions tr;
     TreatyManager.is_active := TreatyManager.is_active tr;
     TreatyManager.breaches := TreatyManager.breaches tr;
     TreatyManager.created_tick := TreatyManager.created_tick tr |}.

(** One leg of an enforcement, on the state of the loops. *)
Definition leg_step (update_func : bool) (current_tick : Z)
    (st : TreatyManager.LegState) (leg : string * string * (string * Z))
    : TreatyManager.LegState :=
  TreatyManager.deliver update_func current_tick leg.1.1 leg.1.2 st leg.2.

(** The transfer record of a delivered item. *)
Definition delivered (giver receiver : string) (item : string * Z)
    : TreatyManager.Transfer :=
  {| TreatyManager.tr_direction := giver +:+ " -> " +:+ receiver;
     TreatyManager.tr_resource := item.1; TreatyManager.tr_amount := item.2 |}.

(** How much of [res] a list of items amounts to. *)
Definition moved (items : list (string * Z)) (res : string) : Z :=
  foldr Z.add 0 (map (fun item : string * Z => if decide (item.1 = res) then item.2 else 0)
                     items).

(** [p] is what the governor of [code] proposes to the assembly. *)
Definition proposed_by (ext : External) (reports : gmap string Report)
    (code : string) (p : PolicyProposal) : Prop :=
  exists report, reports !! code = Some report
                 /\ propose_federal_policy ext code report reports = Ok p.

(** What the record of a ballot item says of its proposal and its votes,
    [voters] being the state codes that have a report. *)
Definition recorded (voters : list string) (record : Parliament.VoteRecord) : Prop :=
  Parliament.yes_votes record ++ Parliament.no_votes record ≡ₚ voters
  /\ Parliament.yes_count record = Z.of_nat (length (Parliament.yes_votes record))
  /\ Parliament.no_count record = Z.of_nat (length (Parliament.no_votes record))
  /\ (Parliament.passed record = true <->
      0 < Parliament.yes_count record + Parliament.no_count record
      /\ 3 * (Parliament.yes_count record + Parliament.no_count record)
         <= 5 * Parliament.yes_count record)
  /\ Parliament.vr_policy_name record
     = default "Unknown Policy" (policy_name (Parliament.vr_proposal record))
  /\ Parliament.vr_proposer record
     = default "??" (proposer (Parliament.vr_proposal record)).

(** ** The exception monad *)

Lemma bind_Ok {A B} (m : result A) (f : A -> result B) (b : B) :
  m ≫= f = Ok b -> exists a, m = Ok a /\ f a = Ok b.
Proof. destruct m as [a|e]; simpl; [eauto | discriminate]. Qed.

Lemma bind_Raise {A B} (m : result A) (f : A -> result B) (e : exn) :
  m = Raise e -> m ≫= f = Raise e.
Proof. intros ->. reflexivity. Qed.

(** Inversion of a successful [bind]. *)
Ltac inv_bind H :=
  let a := fresh "a" in
  let Ha := fresh "Ha" in
  apply bind_Ok in H; destruct H as (a & Ha & H).

Lemma foldM_app {A S} (f : S -> A -> result S) (s : S) (l1 l2 : list A) :
  foldM f s (l1 ++ l2) = s' ← foldM f s l1; foldM f s' l2.
Proof.
  revert s. induction l1 as [|x l1 IH]; intros s; simpl; [reflexivity|].
  destruct (f s x) as [s1|e]; simpl; [apply IH | reflexivity].
Qed.

(** A loop invariant that every successful iteration keeps holds at the end. *)
Lemma foldM_invariant {A S} (P : S -> Prop) (f : S -> A -> result S) (l : list A) :
  (forall s x s', x ∈ l -> P s -> f s x = Ok s' -> P s') ->
  forall s s', P s -> foldM f s l = Ok s' -> P s'.
Proof.
  induction l as [|x l IH]; intros Hstep s s' Hs Hrun; simpl in Hrun.
  - congruence.
  - inv_bind Hrun.
    eapply IH; [| |exact Hrun].
    + intros s0 y s0' Hy. apply Hstep. by right.
    + eapply Hstep; [by left|exact Hs|exact Ha].
Qed.

Lemma foldM_ext {A S} (f g : S -> A -> result S) (l : list A) (s : S) :
  (forall s x, x ∈ l -> f s x = g s x) -> foldM f s l = foldM g s l.
Proof.
  revert s. induction l as [|x l IH]; intros s Hfg; simpl; [reflexivity|].
  rewrite Hfg by (by left).
  destruct (g s x) as [s1|e]; simpl; [|reflexivity].
  apply IH. intros s0 y Hy. apply Hfg. by right.
Qed.

Lemma foldl_invariant {A S} (P : S -> Prop) (f : S -> A -> S) (l : list A) :
  (forall s x, x ∈ l -> P s -> P (f s x)) -> forall s, P s -> P (foldl f s l).
Proof.
  induction l as [|x l IH]; intros Hstep s Hs; simpl; [exact Hs|].
  apply IH.
  - intros s0 y Hy. apply Hstep. by right.
  - apply Hstep; [by left|exact Hs].
Qed.

(** ** The ten state codes *)

Lemma STATE_CODES_NoDup : NoDup STATE_CODES.
Proof. apply (bool_decide_unpack _). vm_compute. exact I. Qed.

(** ** Loops that rewrite each region from its own entry *)

Section PerRegion.
Variable F : Region -> result Region.

Lemma per_region_run (l : list string) :
  NoDup l ->
  forall rd rd', foldM (per_region F) rd l = Ok rd' ->
  forall code,
    (code ∈ l -> exists r r', rd !! code = Some r /\ F r = Ok r' /\ rd' !! code = Some r')
    /\ (code ∉ l -> rd' !! code = rd !! code).
Proof.
  induction 1 as [|x l Hx Hnd IH]; intros rd rd' Hrun code; simpl in Hrun.
  - inversion Hrun; subst. split; [intros Hin; inversion Hin | done].
  - inv_bind Hrun. unfold per_region in Ha.
    destruct (rd !! x) as [r|] eqn:Hr; [|discriminate].
    inv_bind Ha. inversion Ha; subst a. clear Ha.
    destruct (IH _ _ Hrun code) as [IHin IHout].
    destruct (decide (code = x)) as [->|Hne].
    + split; [intros _|intros Hn; exfalso; apply Hn; by left].
      exists r, a0. rewrite IHout by exact Hx.
      by rewrite lookup_insert_eq.
    + split.
      * intros Hin. apply elem_of_cons in Hin as [?|Hin]; [done|].
        destruct (IHin Hin) as (r1 & r1' & H1 & H2 & H3).
        rewrite lookup_insert_ne in H1 by done. eauto.
      * intros Hn. rewrite IHout.
        -- by rewrite lookup_insert_ne.
        -- intros Hin. apply Hn. by right.
Qed.

Lemma per_region_total (l : list string) :
  NoDup l ->
  forall rd, (forall code, code ∈ l -> exists r r', rd !! code = Some r /\ F r = Ok r') ->
  exists rd', foldM (per_region F) rd l = Ok rd'.
Proof.
  induction 1 as [|x l Hx Hnd IH]; intros rd Hall; simpl.
  - eauto.
  - destruct (Hall x) as (r & r' & Hr & HF); [by left|].
    assert (Hstep : per_region F rd x = Ok (<[x := r']> rd)).
    { unfold per_region. rewrite Hr, HF. reflexivity. }
    rewrite Hstep. simpl.
    apply IH. intros code Hin.
    destruct (Hall code) as (r1 & r1' & Hr1 & HF1); [by right|].
    exists r1, r1'. split; [|exact HF1].
    rewrite lookup_insert_ne; [exact Hr1|]. intros ->. contradiction.
Qed.
End PerRegion.

(** ** Step 1: produce and consume *)

Lemma _step_produce_consume_per_region (rd : gmap string Region) :
  _step_produce_consume rd
  = foldM (per_region (fun r => Ok (set_resources r (produce_consume r)))) rd STATE_CODES.
Proof.
  unfold _step_produce_consume. apply foldM_ext. intros s x _.
  unfold assign_resources, per_region, region_of.
  destruct (s !! x); reflexivity.
Qed.

(** The dict built by the inner loop: the four resources, each clamped. *)
Lemma produce_consume_lookup (region : Region) (res : string) :
  produce_consume region !! res
  = if bool_decide (res ∈ RESOURCES)
    then Some (Z.max 0 (get0 (resources region) res
                        + get0 (resource_generation_rates region) res
                        - get0 (resource_consumption_rates region) res))
    else None.
Proof.
  unfold produce_consume, RESOURCES. simpl.
  destruct (decide (res = "tech")) as [->|Ht]; [by rewrite lookup_insert_eq|].
  rewrite lookup_insert_ne by done.
  destruct (decide (res = "food")) as [->|Hf]; [by rewrite lookup_insert_eq|].
  rewrite lookup_insert_ne by done.
  destruct (decide (res = "energy")) as [->|He]; [by rewrite lookup_insert_eq|].
  rewrite lookup_insert_ne by done.
  destruct (decide (res = "water")) as [->|Hw]; [by rewrite lookup_insert_eq|].
  rewrite lookup_insert_ne by done.
  rewrite lookup_empty, bool_decide_eq_false_2; [reflexivity|].
  rewrite !elem_of_cons, elem_of_nil. intros [?|[?|[?|[?|[]]]]]; done.
Qed.

Lemma produce_consume_nonneg (region : Region) (res : string) (v : Z) :
  produce_consume region !! res = Some v -> 0 <= v.
Proof.
  rewrite produce_consume_lookup. case_bool_decide; [|discriminate].
  intros [= <-]. lia.
Qed.

(** Step 1 returns exactly when the ten regions are there, and then every
    one of them holds the clamped dict. *)
Lemma _step_produce_consume_Ok (rd rd' : gmap string Region) :
  _step_produce_consume rd = Ok rd' ->
  forall code,
    (code ∈ STATE_CODES ->
     exists r, rd !! code = Some r
               /\ rd' !! code = Some (set_resources r (produce_consume r)))
    /\ (code ∉ STATE_CODES -> rd' !! code = rd !! code).
Proof.
  rewrite _step_produce_consume_per_region. intros Hrun code.
  destruct (per_region_run _ _ STATE_CODES_NoDup _ _ Hrun code) as [Hin Hout].
  split; [|exact Hout].
  intros Hc. destruct (Hin Hc) as (r & r' & Hr & [= <-] & Hr'). eauto.
Qed.

Lemma _step_produce_consume_total (rd : gmap string Region) :
  (forall code, code ∈ STATE_CODES -> is_Some (rd !! code)) ->
  exists rd', _step_produce_consume rd = Ok rd'.
Proof.
  intros Hall. rewrite _step_produce_consume_per_region.
  apply per_region_total; [exact STATE_CODES_NoDup|].
  intros code Hc. destruct (Hall code Hc) as [r Hr]. eauto.
Qed.

Lemma _step_produce_consume_holds (rd rd' : gmap string Region)
    (code res : string) (current gen con : Z) :
  code ∈ STATE_CODES -> res ∈ RESOURCES ->
  _step_produce_consume rd = Ok rd' ->
  holds rd code res current gen con ->
  holds rd' code res (Z.max 0 (current + gen - con)) gen con.
Proof.
  intros Hc Hres Hrun (r & Hr & Hcur & Hgen & Hcon).
  destruct (_step_produce_consume_Ok _ _ Hrun code) as [Hin _].
  destruct (Hin Hc) as (r0 & Hr0 & Hr'). rewrite Hr in Hr0. injection Hr0 as <-.
  exists (set_resources r (produce_consume r)). split; [exact Hr'|]. simpl.
  split; [|by split].
  unfold get0 at 1. rewrite produce_consume_lookup, bool_decide_eq_true_2 by exact Hres.
  simpl. by rewrite Hcur, Hgen, Hcon.
Qed.

Lemma produce_consume_ticks_holds (n : nat) (rd rd' : gmap string Region)
    (code res : string) (current gen con : Z) :
  code ∈ STATE_CODES -> res ∈ RESOURCES ->
  Scenario.produce_consume_ticks n rd = Ok rd' ->
  holds rd code res current gen con ->
  holds rd' code res (Scenario.clamped_balance n current gen con) gen con.
Proof.
  intros Hc Hres. revert rd current.
  induction n as [|n IH]; intros rd current Hrun Hh; simpl in Hrun.
  - injection Hrun as <-. exact Hh.
  - inv_bind Hrun.
    pose proof (_step_produce_consume_holds _ _ _ _ _ _ _ Hc Hres Ha Hh) as Hh1.
    specialize (IH _ _ Hrun Hh1).
    unfold Scenario.clamped_balance in *.
    rewrite Nat.iter_succ_r. exact IH.
Qed.

Lemma produce_consume_ticks_total (n : nat) (rd : gmap string Region) :
  (forall code, code ∈ STATE_CODES -> is_Some (rd !! code)) ->
  exists rd', Scenario.produce_consume_ticks n rd = Ok rd'.
Proof.
  revert rd. induction n as [|n IH]; intros rd Hall; simpl; [eauto|].
  destruct (_step_produce_consume_total rd Hall) as [rd1 Hrd1].
  rewrite Hrd1. simpl. apply IH.
  intros code Hc.
  destruct (_step_produce_consume_Ok _ _ Hrd1 code) as [Hin _].
  destruct (Hin Hc) as (r & _ & Hr'). eauto.
Qed.

Lemma holds_water_of (rd : gmap string Region) (code : string) (current gen con : Z) :
  holds rd code "water" current gen con -> Scenario.water_of rd code = current.
Proof.
  intros (r & Hr & Hcur & _). unfold Scenario.water_of, resources_of. by rewrite Hr.
Qed.

(** C2 (as the code has it). In a world where only step 1 touches water,
    with region A = "PB" (water 1000, generation -50, consumption 100) and
    region B = "MH" (water 1000, generation 50, consumption 50): the ticks
    return; after one tick A holds 850 and B holds 1000; after ten ticks A
    holds 0 (clamped) and B still holds 1000, its generation and consumption
    being equal. *)
Theorem two_regions_water (rd : gmap string Region) :
  (forall code, code ∈ STATE_CODES -> is_Some (rd !! code)) ->
  holds rd "PB" "water" 1000 (-50) 100 ->
  holds rd "MH" "water" 1000 50 50 ->
  exists rd1 rd10,
    Scenario.produce_consume_ticks 1 rd = Ok rd1
    /\ Scenario.produce_consume_ticks 10 rd = Ok rd10
    /\ Scenario.water_of rd1 "PB" = 850 /\ Scenario.water_of rd1 "MH" = 1000
    /\ Scenario.water_of rd10 "PB" = 0 /\ Scenario.water_of rd10 "MH" = 1000.
Proof.
  intros Hall HA HB.
  destruct (produce_consume_ticks_total 1 rd Hall) as [rd1 H1].
  destruct (produce_consume_ticks_total 10 rd Hall) as [rd10 H10].
  assert (HPB : "PB" ∈ STATE_CODES) by (apply (bool_decide_unpack _); vm_compute; exact I).
  assert (HMH : "MH" ∈ STATE_CODES) by (apply (bool_decide_unpack _); vm_compute; exact I).
  assert (Hw : "water" ∈ RESOURCES) by (apply (bool_decide_unpack _); vm_compute; exact I).
  exists rd1, rd10. split; [exact H1|]. split; [exact H10|].
  pose proof (produce_consume_ticks_holds _ _ _ _ _ _ _ _ HPB Hw H1 HA) as A1.
  pose proof (produce_consume_ticks_holds _ _ _ _ _ _ _ _ HMH Hw H1 HB) as B1.
  pose proof (produce_consume_ticks_holds _ _ _ _ _ _ _ _ HPB Hw H10 HA) as A10.
  pose proof (produce_consume_ticks_holds _ _ _ _ _ _ _ _ HMH Hw H10 HB) as B10.
  apply holds_water_of in A1, B1, A10, B10.
  rewrite A1, B1, A10, B10. vm_compute. repeat split.
Qed.

Lemma two_regions_water_witness :
  exists rd1 rd10,
    Scenario.produce_consume_ticks 1 Scenario.two_regions = Ok rd1
    /\ Scenario.produce_consume_ticks 10 Scenario.two_regions = Ok rd10
    /\ Scenario.water_of rd1 "PB" = 850 /\ Scenario.water_of rd1 "MH" = 1000
    /\ Scenario.water_of rd10 "PB" = 0 /\ Scenario.water_of rd10 "MH" = 1000.
Proof.
  apply (two_regions_water Scenario.two_regions).
  - intros code Hc. apply (bool_decide_unpack _).
    revert code Hc. apply Forall_forall. apply (bool_decide_unpack _).
    vm_compute. exact I.
  - exists (Scenario.water_region 1000 (-50) 100).
    split; [vm_compute; reflexivity|]. vm_compute. repeat split.
  - exists (Scenario.water_region 1000 50 50).
    split; [vm_compute; reflexivity|]. vm_compute. repeat split.
Defined.

(** C2, as the claim states it, fails: after ten ticks region B holds 1000
    units of water, not 1500. *)
Lemma two_regions_water_not_1500 :
  Scenario.water_after_ticks 10 Scenario.two_regions "MH" = Some 1000
  /\ Scenario.water_after_ticks 10 Scenario.two_regions "MH" <> Some 1500.
Proof. split; [vm_compute; reflexivity | vm_compute; discriminate]. Qed.

(** ** Treaty enforcement: one leg *)

(** A leg that the giver cannot honour: one breach record and one entry
    in the treaty's log, no transfer, and the ledger as it was. *)
Lemma deliver_breach (update_func : bool) (current_tick : Z)
    (giver receiver : string) (st : TreatyManager.LegState)
    (resource : string) (amount : Z) :
  get0 (resources_of (TreatyManager.ls_regions st) giver) resource < amount ->
  let available := get0 (resources_of (TreatyManager.ls_regions st) giver) resource in
  let st' := TreatyManager.deliver update_func current_tick giver receiver st
                                   (resource, amount) in
  TreatyManager.ls_breaches st'
  = TreatyManager.ls_breaches st
    ++ [{| TreatyManager.breacher := giver; TreatyManager.br_resource := resource;
           TreatyManager.shortfall := amount - available |}]
  /\ TreatyManager.ls_transfers st' = TreatyManager.ls_transfers st
  /\ TreatyManager.ls_regions st' = TreatyManager.ls_regions st
  /\ TreatyManager.ls_log st'
     = TreatyManager.ls_log st
       ++ [{| TreatyManager.bl_tick := current_tick; TreatyManager.bl_breacher := giver;
              TreatyManager.bl_resource := resource; TreatyManager.bl_promised := amount;
              TreatyManager.bl_available := available |}].
Proof.
  intros Hshort available st'. subst st'. unfold TreatyManager.deliver.
  fold available.
  destruct (amount <=? available) eqn:Hle.
  - apply Z.leb_le in Hle. unfold available in Hle. lia.
  - simpl. repeat split.
Qed.

(** The two loops of [_enforce_single] are one loop over the legs. *)
Lemma foldl_legs (update_func : bool) (current_tick : Z) (giver receiver : string)
    (items : list (string * Z)) :
  forall st,
    foldl (TreatyManager.deliver update_func current_tick giver receiver) st items
    = foldl (leg_step update_func current_tick) st
            (map (fun item => (giver, receiver, item)) items).
Proof. induction items as [|item items IH]; intros st; simpl; [reflexivity|apply IH]. Qed.

Lemma _enforce_single_legs (tr : TreatyManager.Treaty) (rd : gmap string Region)
    (update_func : bool) (current_tick : Z) :
  TreatyManager._enforce_single tr rd update_func current_tick
  = let st := foldl (leg_step update_func current_tick)
                    {| TreatyManager.ls_regions := rd;
                       TreatyManager.ls_log := TreatyManager.breaches tr;
                       TreatyManager.ls_transfers := [];
                       TreatyManager.ls_breaches := [] |}
                    (legs tr) in
    (TreatyManager.ls_regions st,
     TreatyManager.set_breaches tr (TreatyManager.ls_log st),
     {| TreatyManager.r_treaty_id := TreatyManager.treaty_id tr;
        TreatyManager.r_from := TreatyManager.from_region tr;
        TreatyManager.r_to := TreatyManager.to_region tr;
        TreatyManager.r_transfers := TreatyManager.ls_transfers st;
        TreatyManager.r_breaches := TreatyManager.ls_breaches st |}).
Proof.
  unfold TreatyManager._enforce_single, legs.
  rewrite foldl_app, <- !foldl_legs. reflexivity.
Qed.

Lemma legs_first_legs (i : nat) (tr : TreatyManager.Treaty) :
  legs (first_legs i tr) = take i (legs tr).
Proof.
  unfold legs, first_legs. cbn.
  by rewrite firstn_app, !firstn_map, length_map.
Qed.

(** The legs that follow only add to the two lists of the result. *)
Lemma leg_steps_grow (update_func : bool) (current_tick : Z)
    (l : list (string * string * (string * Z))) :
  forall st,
    (exists later,
       TreatyManager.ls_breaches (foldl (leg_step update_func current_tick) st l)
       = TreatyManager.ls_breaches st ++ later)
    /\ (exists later,
          TreatyManager.ls_transfers (foldl (leg_step update_func current_tick) st l)
          = TreatyManager.ls_transfers st ++ later).
Proof.
  induction l as [|[[giver receiver] [resource amount]] l IH]; intros st; cbn [foldl].
  - split; exists []; by rewrite app_nil_r.
  - destruct (IH (leg_step update_func current_tick st
                    (giver, receiver, (resource, amount)))) as [[bs Hb] [ts Ht]].
    rewrite Hb, Ht. unfold leg_step, TreatyManager.deliver. cbn [fst snd].
    destruct (amount <=? _); cbn.
    + split; [by exists bs|]. eexists. by rewrite <- app_assoc.
    + split; [|by exists ts]. eexists. by rewrite <- app_assoc.
Qed.

(** C3. Take any leg of any treaty, the [i]-th that [_enforce_single]
    runs, and compare the enforcement of the treaty's first [i] legs with
    that of its first [i + 1] legs.  When the giver's stock of the promised
    resource, as the earlier legs left it, is below the promised amount,
    the leg adds exactly one breach record, whose shortfall is promised
    minus available, and one entry to the treaty's breach log; it adds no
    transfer and leaves the whole ledger, hence both parties' stocks, as it
    was.  The breach records and the transfers up to this leg head the
    lists of the result of the whole enforcement. *)
Theorem breach_leaves_stocks (tr : TreatyManager.Treaty) (rd : gmap string Region)
    (update_func : bool) (current_tick : Z) (i : nat)
    (giver receiver resource : string) (amount : Z) :
  legs tr !! i = Some (giver, receiver, (resource, amount)) ->
  stock_of (TreatyManager._enforce_single (first_legs i tr) rd update_func current_tick).1.1
           giver resource < amount ->
  let before := TreatyManager._enforce_single (first_legs i tr) rd update_func
                                              current_tick in
  let after := TreatyManager._enforce_single (first_legs (S i) tr) rd update_func
                                             current_tick in
  let whole := TreatyManager._enforce_single tr rd update_func current_tick in
  let available := stock_of before.1.1 giver resource in
  TreatyManager.r_breaches after.2
  = TreatyManager.r_breaches before.2
    ++ [{| TreatyManager.breacher := giver; TreatyManager.br_resource := resource;
           TreatyManager.shortfall := amount - available |}]
  /\ TreatyManager.r_transfers after.2 = TreatyManager.r_transfers before.2
  /\ after.1.1 = before.1.1
  /\ TreatyManager.breaches after.1.2
     = TreatyManager.breaches before.1.2
       ++ [{| TreatyManager.bl_tick := current_tick; TreatyManager.bl_breacher := giver;
              TreatyManager.bl_resource := resource; TreatyManager.bl_promised := amount;
              TreatyManager.bl_available := available |}]
  /\ (exists later,
        TreatyManager.r_breaches whole.2 = TreatyManager.r_breaches after.2 ++ later)
  /\ (exists later,
        TreatyManager.r_transfers whole.2 = TreatyManager.r_transfers after.2 ++ later).
Proof.
  intros Hleg Hshort before after whole available.
  subst before after whole available. revert Hshort.
  rewrite !_enforce_single_legs, !legs_first_legs. cbn zeta. cbn [fst snd].
  change (TreatyManager.breaches (first_legs i tr)) with (TreatyManager.breaches tr).
  change (TreatyManager.breaches (first_legs (S i) tr)) with (TreatyManager.breaches tr).
  set (st0 := {| TreatyManager.ls_regions := rd;
                 TreatyManager.ls_log := TreatyManager.breaches tr;
                 TreatyManager.ls_transfers := []; TreatyManager.ls_breaches := [] |}).
  assert (Hwhole : foldl (leg_step update_func current_tick) st0 (legs tr)
                   = foldl (leg_step update_func current_tick)
                           (foldl (leg_step update_func current_tick) st0
                                  (take (S i) (legs tr)))
                           (drop (S i) (legs tr))).
  { by rewrite <- foldl_app, take_drop. }
  rewrite Hwhole.
  destruct (leg_steps_grow update_func current_tick (drop (S i) (legs tr))
              (foldl (leg_step update_func current_tick) st0 (take (S i) (legs tr))))
    as [Hbs Hts].
  revert Hbs Hts.
  rewrite (take_S_r _ _ _ Hleg), foldl_app. cbn [foldl].
  set (st := foldl (leg_step update_func current_tick) st0 (take i (legs tr))).
  change (leg_step update_func current_tick st (giver, receiver, (resource, amount)))
    with (TreatyManager.deliver update_func current_tick giver receiver st
                                (resource, amount)).
  intros Hbs Hts Hshort.
  destruct (deliver_breach update_func current_tick giver receiver st resource amount
              Hshort) as (Hb & Ht & Hr & Hl).
  cbn [fst snd TreatyManager.r_breaches TreatyManager.r_transfers
       TreatyManager.breaches TreatyManager.set_breaches].
  split; [exact Hb|]. split; [exact Ht|]. split; [exact Hr|]. split; [exact Hl|].
  split; [exact Hbs|exact Hts].
Qed.

Lemma breach_leaves_stocks_witness :
  let whole :=
    TreatyManager._enforce_single Scenario.water_treaty Scenario.dry_rajasthan true 1 in
  TreatyManager.r_breaches whole.2
  = [{| TreatyManager.breacher := "RJ"; TreatyManager.br_resource := "water";
        TreatyManager.shortfall := 40 |}]
  /\ TreatyManager.r_transfers whole.2 = []
  /\ whole.1.1 = Scenario.dry_rajasthan.
Proof.
  intros whole.
  destruct (breach_leaves_stocks Scenario.water_treaty Scenario.dry_rajasthan true 1
              0 "RJ" "PB" "water" 100) as (Hb & Ht & Hr & _).
  - reflexivity.
  - vm_compute. reflexivity.
  - split; [exact Hb|]. split; [exact Ht|exact Hr].
Defined.

(** The spec's treaty: an offer of 100 water against a stock of 60 gives a
    result with exactly one breach, of shortfall 40, no transfer, and the
    water of both parties as it was. *)
Lemma water_treaty_breach :
  let '(rd, _, res) :=
    TreatyManager._enforce_single Scenario.water_treaty Scenario.dry_rajasthan true 1 in
  TreatyManager.r_breaches res
  = [{| TreatyManager.breacher := "RJ"; TreatyManager.br_resource := "water";
        TreatyManager.shortfall := 40 |}]
  /\ TreatyManager.r_transfers res = []
  /\ Scenario.water_of rd "RJ" = 60
  /\ Scenario.water_of rd "PB" = Scenario.water_of Scenario.dry_rajasthan "PB".
Proof. vm_compute. repeat split. Qed.

(** ** Climate engine: forcing an event *)

(** C6 fails on the code: forcing an event that is already active (here
    "Drought_RJ" with 4 ticks left) is not rejected; the call returns its
    report and the entry is registered anew with the full duration of 10. *)
Lemma force_trigger_active_event :
  ClimateEngine.force_trigger
    {| ClimateEngine.last_event_tick := 3;
       ClimateEngine.active_events := [("Drought_RJ", 4)] |}
    "Drought_RJ" None
  = Ok ({| ClimateEngine.last_event_tick := 3;
           ClimateEngine.active_events := [("Drought_RJ", 10)] |},
        {| ClimateEngine.event_id := "Drought_RJ";
           ClimateEngine.target_region := "RJ";
           ClimateEngine.duration := 10;
           ClimateEngine.impact := None |}).
Proof. vm_compute. reflexivity. Qed.

(** The part of C6 that does hold: an assignment to a dict never makes a
    second entry for the key. *)
Lemma OrderedDict_set_keys {V} (k : string) (v : V) (d : list (string * V)) :
  OrderedDict.mem k d = true ->
  OrderedDict.keys (OrderedDict.set k v d) = OrderedDict.keys d.
Proof.
  induction d as [|[k' v'] d IH]; simpl; [discriminate|].
  destruct (decide (k' = k)) as [->|Hne]; simpl.
  - reflexivity.
  - rewrite bool_decide_eq_false_2 by exact Hne. simpl.
    intros H. by rewrite IH.
Qed.

Lemma OrderedDict_get_set {V} (k : string) (v : V) (d : list (string * V)) :
  OrderedDict.get k (OrderedDict.set k v d) = Some v.
Proof.
  induction d as [|[k' v'] d IH]; simpl.
  - by rewrite decide_True.
  - destruct (decide (k' = k)) as [->|Hne]; simpl.
    + by rewrite decide_True.
    + by rewrite decide_False.
Qed.

Lemma OrderedDict_get_set_ne {V} (k k0 : string) (v : V) (d : list (string * V)) :
  k0 <> k -> OrderedDict.get k0 (OrderedDict.set k v d) = OrderedDict.get k0 d.
Proof.
  intros Hne. induction d as [|[k' v'] d IH]; simpl.
  - rewrite decide_False; [reflexivity|]. intros <-. contradiction.
  - destruct (decide (k' = k)) as [->|Hk]; simpl.
    + rewrite !decide_False; [reflexivity| |]; intros <-; contradiction.
    + destruct (decide (k' = k0)); [reflexivity|exact IH].
Qed.

(** ** Assembly: the majority rule *)

(** The float test [yes / total >= 0.6] is the exact test
    [yes / total >= 3/5] on every tally of at most ten votes. *)
Lemma tally_passed_small (yes no : Z) :
  0 <= yes -> 0 <= no -> yes + no <= 10 ->
  Parliament.tally_passed yes no
  = Ok (bool_decide (0 < yes + no /\ 3 * (yes + no) <= 5 * yes)).
Proof.
  intros Hy Hn Hs.
  assert (Hy' : yes = 0 \/ yes = 1 \/ yes = 2 \/ yes = 3 \/ yes = 4 \/ yes = 5 \/
                yes = 6 \/ yes = 7 \/ yes = 8 \/ yes = 9 \/ yes = 10) by lia.
  assert (Hn' : no = 0 \/ no = 1 \/ no = 2 \/ no = 3 \/ no = 4 \/ no = 5 \/
                no = 6 \/ no = 7 \/ no = 8 \/ no = 9 \/ no = 10) by lia.
  clear Hy Hn.
  repeat (destruct Hy' as [->|Hy']); try subst yes;
    repeat (destruct Hn' as [->|Hn']); try subst no;
    first [ exfalso; lia | vm_compute; reflexivity ].
Qed.

(** The votes on one ballot item: at most one per state code. *)
Lemma cast_votes_length (ext : External) (state_reports : gmap string Report)
    (p : PolicyProposal) (codes : list string) :
  forall yes0 no0 tr0 yes no tr,
    foldM (Parliament.cast_vote ext state_reports p) (yes0, no0, tr0) codes
    = Ok (yes, no, tr) ->
    (length yes + length no <= length yes0 + length no0 + length codes)%nat.
Proof.
  induction codes as [|code l IH]; intros yes0 no0 tr0 yes no tr Hrun; simpl in Hrun.
  - injection Hrun as <- <- <-. simpl. lia.
  - inv_bind Hrun. destruct a as [[yes1 no1] tr1].
    apply IH in Hrun. simpl in Ha.
    destruct (state_reports !! code) as [report|].
    + inv_bind Ha. destruct (decide _); injection Ha as <- <- <-;
        rewrite ?length_app in Hrun; simpl in *; lia.
    + injection Ha as <- <- <-. simpl in *. lia.
Qed.

Lemma collect_votes_length (ext : External) (state_reports : gmap string Report)
    (p : PolicyProposal) (tr0 : list (string * string))
    (yes no : list string) (tr : list (string * string)) :
  Parliament.collect_votes ext state_reports p tr0 = Ok (yes, no, tr) ->
  (length yes + length no <= 10)%nat.
Proof. intros Hrun. apply cast_votes_length in Hrun. exact Hrun. Qed.

(** Each state code that has a report votes once, YES or NO. *)
Lemma cast_votes_partition (ext : External) (state_reports : gmap string Report)
    (p : PolicyProposal) (codes : list string) :
  forall yes0 no0 tr0 yes no tr,
    foldM (Parliament.cast_vote ext state_reports p) (yes0, no0, tr0) codes
    = Ok (yes, no, tr) ->
    exists y n,
      yes = yes0 ++ y /\ no = no0 ++ n
      /\ y ++ n ≡ₚ filter (fun code => is_Some (state_reports !! code)) codes.
Proof.
  induction codes as [|code l IH]; intros yes0 no0 tr0 yes no tr Hrun; simpl in Hrun.
  - injection Hrun as <- <- <-. exists [], []. by rewrite !app_nil_r.
  - inv_bind Hrun. destruct a as [[yes1 no1] tr1].
    apply IH in Hrun as (y & n & -> & -> & Hperm). simpl in Ha.
    rewrite filter_cons.
    destruct (state_reports !! code) as [report|] eqn:Hrep.
    + rewrite decide_True by eauto.
      inv_bind Ha. destruct (decide _); injection Ha as <- <- <-.
      * exists y, (code :: n). rewrite <- !app_assoc. split; [reflexivity|].
        split; [reflexivity|]. rewrite <- Hperm. by rewrite Permutation_middle.
      * exists (code :: y), n. rewrite <- !app_assoc. split; [reflexivity|].
        split; [reflexivity|]. simpl. by rewrite Hperm.
    + rewrite decide_False by (intros [? ?]; discriminate).
      injection Ha as <- <- <-. by exists y, n.
Qed.

(** Phase 1 collects, in the order of the state codes, what the governor
    of each state that has a report proposes. *)
Lemma collect_proposals_loop (ext : External) (state_reports : gmap string Report)
    (codes : list string) :
  forall ps0 tr0 ps tr,
    foldM (fun (st : list PolicyProposal * list (string * string)) code =>
             match state_reports !! code with
             | None => Ok st
             | Some report =>
                 p ← propose_federal_policy ext code report state_reports;
                 Ok (fst st ++ [p],
                     snd st ++ [(Parliament.speaker code,
                                 default "No speech provided." (speech p))])
             end)
          (ps0, tr0) codes = Ok (ps, tr) ->
    exists new,
      ps = ps0 ++ new
      /\ Forall2 (proposed_by ext state_reports)
                 (filter (fun code => is_Some (state_reports !! code)) codes) new.
Proof.
  induction codes as [|code l IH]; intros ps0 tr0 ps tr Hrun; simpl in Hrun.
  - injection Hrun as <- <-. exists []. rewrite app_nil_r. split; [reflexivity|constructor].
  - inv_bind Hrun. destruct a as [ps1 tr1]. apply IH in Hrun as (new & -> & Hall).
    rewrite filter_cons.
    destruct (state_reports !! code) as [report|] eqn:Hrep.
    + rewrite decide_True by eauto. inv_bind Ha. injection Ha as <- <-.
      exists (a :: new). rewrite <- app_assoc. split; [reflexivity|].
      constructor; [|exact Hall]. exists report. by split.
    + rewrite decide_False by (intros [? ?]; discriminate).
      injection Ha as <- <-. by exists new.
Qed.

Lemma collect_proposals_spec (ext : External) (state_reports : gmap string Report)
    (proposals : list PolicyProposal) (tr : list (string * string)) :
  Parliament.collect_proposals ext state_reports = Ok (proposals, tr) ->
  Forall2 (proposed_by ext state_reports)
          (filter (fun code => is_Some (state_reports !! code)) STATE_CODES) proposals.
Proof.
  intros Hrun. apply collect_proposals_loop in Hrun as (new & -> & Hall). exact Hall.
Qed.

(** The voting loop adds one record per proposal, in order. *)
Lemma votes_recorded (ext : External) (state_reports : gmap string Report)
    (current_tick : Z) (ps : list PolicyProposal) :
  forall st v,
    foldM (Parliament.vote_on ext state_reports current_tick) st ps = Ok v ->
    exists records,
      Parliament.v_results v = Parliament.v_results st ++ records
      /\ map Parliament.vr_proposal records = ps
      /\ Forall (recorded (filter (fun code => is_Some (state_reports !! code))
                                  STATE_CODES))
                records
      /\ Parliament.v_passed v
         = Parliament.v_passed st
           ++ map Parliament.vr_policy_name
                  (filter (fun r => Parliament.passed r = true) records)
      /\ Parliament.v_resolutions v
         = Parliament.v_resolutions st
           ++ map (fun r => {| Parliament.name := Parliament.vr_policy_name r;
                               Parliament.proposal := Parliament.vr_proposal r;
                               Parliament.tick_passed := current_tick |})
                  (filter (fun r => Parliament.passed r = true) records).
Proof.
  induction ps as [|p ps IH]; intros st v Hrun; simpl in Hrun.
  - injection Hrun as <-. exists []. rewrite !app_nil_r. by repeat split.
  - inv_bind Hrun. rename a into st1. rename Ha into Hone.
    apply IH in Hrun as (records & Hres & Hps & Hall & Hpassed & Hresol).
    unfold Parliament.vote_on in Hone. inv_bind Hone.
    destruct a as [[yes no] tr]. rename Ha into Hvotes.
    pose proof (collect_votes_length _ _ _ _ _ _ _ Hvotes) as Hlen.
    rewrite tally_passed_small in Hone by lia.
    injection Hone as <-.
    apply cast_votes_partition in Hvotes as (y & n & -> & -> & Hperm).
    simpl in Hperm, Hres, Hpassed, Hresol, Hlen.
    eexists (_ :: records). rewrite Hres, Hpassed, Hresol.
    split; [by rewrite <- app_assoc|].
    split; [simpl; by rewrite Hps|].
    split.
    { constructor; [|exact Hall]. unfold recorded. cbn.
      split; [exact Hperm|]. split; [reflexivity|]. split; [reflexivity|].
      split; [by rewrite bool_decide_eq_true|by split]. }
    rewrite filter_cons. cbn [Parliament.passed].
    destruct (bool_decide _) eqn:Hok.
    + rewrite decide_True by reflexivity. by rewrite <- !app_assoc.
    + rewrite decide_False by discriminate. by split.
Qed.

(** What a meeting records: the proposals collected, the first three of
    them voted on, and the outcome of each vote. *)
Lemma convene_assembly_ballots (parl parl' : Parliament.t) (ext : External)
    (reports : gmap string Report) (current_tick : Z) (fh : option Firestore.t)
    (m : Parliament.MeetingResult) :
  Parliament.convene_assembly parl ext reports current_tick fh = Ok (parl', m) ->
  let voters := filter (fun code => is_Some (reports !! code)) STATE_CODES in
  let carried := filter (fun r => Parliament.passed r = true)
                        (Parliament.voting_results m) in
  exists proposals,
    Forall2 (proposed_by ext reports) voters proposals
    /\ map Parliament.vr_proposal (Parliament.voting_results m) = take 3 proposals
    /\ Parliament.proposals_count m = Z.of_nat (length voters)
    /\ length (Parliament.voting_results m) = (3 `min` length voters)%nat
    /\ Forall (recorded voters) (Parliament.voting_results m)
    /\ Parliament.mr_passed_resolutions m = map Parliament.vr_policy_name carried
    /\ Parliament.passed_resolutions parl'
       = Parliament.passed_resolutions parl
         ++ map (fun r => {| Parliament.name := Parliament.vr_policy_name r;
                             Parliament.proposal := Parliament.vr_proposal r;
                             Parliament.tick_passed := current_tick |}) carried.
Proof.
  unfold Parliament.convene_assembly. intros Hrun.
  inv_bind Hrun. destruct a as [proposals transcript0]. rename Ha into Hprop.
  inv_bind Hrun. rename a into v. rename Ha into Hvote.
  injection Hrun as <- <-.
  cbn [Parliament.voting_results Parliament.mr_passed_resolutions
       Parliament.proposals_count Parliament.passed_resolutions].
  apply collect_proposals_spec in Hprop.
  apply votes_recorded in Hvote as (records & Hres & Hps & Hall & Hpassed & Hresol).
  simpl in Hres, Hpassed, Hresol.
  rewrite Hres, Hpassed, Hresol.
  pose proof (Forall2_length _ _ _ Hprop) as Hlen.
  exists proposals. split; [exact Hprop|]. split; [exact Hps|].
  split; [by rewrite Hlen|].
  split; [by rewrite <- (length_map Parliament.vr_proposal), Hps, length_take, Hlen|].
  by repeat split.
Qed.

(** C8. A meeting of the assembly that returns holds a vote on each of its
    first three proposals (on all of them when there are fewer), in which
    every state that has a report casts one vote.  For every ballot item
    the recorded outcome is "passed" exactly when there is at least one vote
    and the exact ratio yes / (yes + no) is at least 3/5, the majority
    fraction 0.6; with no vote at all the item fails.  The names the meeting
    reports as passed are those of the items so recorded.  In particular an
    item with 6 against 4 passes and one with 5 against 5 fails. *)
Theorem assembly_majority (parl parl' : Parliament.t) (ext : External)
    (reports : gmap string Report) (current_tick : Z) (fh : option Firestore.t)
    (m : Parliament.MeetingResult) :
  Parliament.convene_assembly parl ext reports current_tick fh = Ok (parl', m) ->
  let voters := filter (fun code => is_Some (reports !! code)) STATE_CODES in
  length (Parliament.voting_results m) = (3 `min` length voters)%nat
  /\ Forall (fun record =>
               Parliament.yes_count record = Z.of_nat (length (Parliament.yes_votes record))
               /\ Parliament.no_count record
                  = Z.of_nat (length (Parliament.no_votes record))
               /\ Parliament.yes_count record + Parliament.no_count record
                  = Z.of_nat (length voters)
               /\ (Parliament.passed record = true <->
                   0 < Parliament.yes_count record + Parliament.no_count record
                   /\ 3 * (Parliament.yes_count record + Parliament.no_count record)
                      <= 5 * Parliament.yes_count record))
            (Parliament.voting_results m)
  /\ Parliament.mr_passed_resolutions m
     = map Parliament.vr_policy_name
           (filter (fun r => Parliament.passed r = true) (Parliament.voting_results m))
  /\ (forall record, record ∈ Parliament.voting_results m ->
        Parliament.yes_count record = 6 -> Parliament.no_count record = 4 ->
        Parliament.passed record = true)
  /\ (forall record, record ∈ Parliament.voting_results m ->
        Parliament.yes_count record = 5 -> Parliament.no_count record = 5 ->
        Parliament.passed record = false)
  /\ Parliament.tally_passed 6 4 = Ok true
  /\ Parliament.tally_passed 5 5 = Ok false.
Proof.
  intros Hrun voters.
  destruct (convene_assembly_ballots _ _ _ _ _ _ _ Hrun)
    as (proposals & _ & _ & _ & Hlen & Hall & Hnames & _).
  fold voters in Hlen, Hall.
  split; [exact Hlen|].
  split.
  { eapply Forall_impl; [exact Hall|].
    intros record (Hperm & Hy & Hn & Hp & _).
    split; [exact Hy|]. split; [exact Hn|]. split; [|exact Hp].
    rewrite Hy, Hn, <- Nat2Z.inj_add, <- length_app. by rewrite Hperm. }
  split; [exact Hnames|].
  rewrite Forall_forall in Hall.
  split; [|split; [|split; vm_compute; reflexivity]].
  - intros record Hin H6 H4. destruct (Hall _ Hin) as (_ & _ & _ & Hp & _).
    apply Hp. lia.
  - intros record Hin H5 H5'. destruct (Hall _ Hin) as (_ & _ & _ & Hp & _).
    destruct (Parliament.passed record); [|reflexivity].
    destruct Hp as [Hp _]. specialize (Hp eq_refl). lia.
Qed.

Lemma assembly_majority_witness :
  (exists parl' m,
     Parliament.convene_assembly Parliament.init Scenario.quiet Scenario.ten_reports 50 None
     = Ok (parl', m)
     /\ length (Parliament.voting_results m) = 3%nat
     /\ Forall (fun record => Parliament.yes_count record = 6
                              /\ Parliament.no_count record = 4
                              /\ Parliament.passed record = true)
               (Parliament.voting_results m))
  /\ (exists parl' m,
        Parliament.convene_assembly Parliament.init Scenario.split_house
                                    Scenario.ten_reports 50 None
        = Ok (parl', m)
        /\ length (Parliament.voting_results m) = 3%nat
        /\ Forall (fun record => Parliament.yes_count record = 5
                                 /\ Parliament.no_count record = 5
                                 /\ Parliament.passed record = false)
                  (Parliament.voting_results m)).
Proof.
  assert (Hvoters : length (filter (fun code => is_Some (Scenario.ten_reports !! code))
                                   STATE_CODES) = 10%nat) by (vm_compute; reflexivity).
  split.
  - assert (Hcount : match Parliament.convene_assembly Parliament.init Scenario.quiet
                             Scenario.ten_reports 50 None with
                     | Ok (_, m) =>
                         forallb (fun r => (Parliament.yes_count r =? 6)
                                           && (Parliament.no_count r =? 4))
                                 (Parliament.voting_results m)
                     | Raise _ => false
                     end = true) by (vm_compute; reflexivity).
    destruct (Parliament.convene_assembly Parliament.init Scenario.quiet
                Scenario.ten_reports 50 None) as [[parl' m]|e] eqn:Hrun;
      [|discriminate Hcount].
    exists parl', m. split; [reflexivity|].
    destruct (assembly_majority _ _ _ _ _ _ _ Hrun) as (Hlen & _ & _ & H64 & _).
    rewrite Hvoters in Hlen. split; [exact Hlen|].
    rewrite forallb_forall in Hcount. apply Forall_forall. intros record Hin.
    specialize (Hcount record (proj1 (list_elem_of_In _ _) Hin)).
    apply andb_true_iff in Hcount as [Hy Hn].
    apply Z.eqb_eq in Hy, Hn. split; [exact Hy|]. split; [exact Hn|].
    by apply H64.
  - assert (Hcount : match Parliament.convene_assembly Parliament.init Scenario.split_house
                             Scenario.ten_reports 50 None with
                     | Ok (_, m) =>
                         forallb (fun r => (Parliament.yes_count r =? 5)
                                           && (Parliament.no_count r =? 5))
                                 (Parliament.voting_results m)
                     | Raise _ => false
                     end = true) by (vm_compute; reflexivity).
    destruct (Parliament.convene_assembly Parliament.init Scenario.split_house
                Scenario.ten_reports 50 None) as [[parl' m]|e] eqn:Hrun;
      [|discriminate Hcount].
    exists parl', m. split; [reflexivity|].
    destruct (assembly_majority _ _ _ _ _ _ _ Hrun) as (Hlen & _ & _ & _ & H55 & _).
    rewrite Hvoters in Hlen. split; [exact Hlen|].
    rewrite forallb_forall in Hcount. apply Forall_forall. intros record Hin.
    specialize (Hcount record (proj1 (list_elem_of_In _ _) Hin)).
    apply andb_true_iff in Hcount as [Hy Hn].
    apply Z.eqb_eq in Hy, Hn. split; [exact Hy|]. split; [exact Hn|].
    by apply H55.
Defined.

(** ** Trust adjustments *)

Lemma setdefault0_get (k code : string) (adj : gmap string Z) :
  default 0 (TreatyManager.setdefault0 k adj !! code) = default 0 (adj !! code).
Proof.
  unfold TreatyManager.setdefault0.
  destruct (adj !! k) as [v|] eqn:Hk; [reflexivity|].
  destruct (decide (code = k)) as [->|Hne].
  - by rewrite lookup_insert_eq, Hk.
  - by rewrite lookup_insert_ne.
Qed.

Lemma setdefault0_is_Some (k : string) (adj : gmap string Z) :
  is_Some (TreatyManager.setdefault0 k adj !! k).
Proof.
  unfold TreatyManager.setdefault0.
  destruct (adj !! k) as [v|] eqn:Hk; [by rewrite Hk|].
  rewrite lookup_insert_eq. eauto.
Qed.

Lemma setdefault0_keeps (k k' : string) (adj : gmap string Z) :
  is_Some (adj !! k') -> is_Some (TreatyManager.setdefault0 k adj !! k').
Proof.
  unfold TreatyManager.setdefault0. intros Hk'.
  destruct (adj !! k) as [v|] eqn:Hk; [exact Hk'|].
  destruct (decide (k' = k)) as [->|Hne].
  - rewrite lookup_insert_eq. eauto.
  - by rewrite lookup_insert_ne.
Qed.

Lemma bump_get (k code : string) (d : Z) (adj adj' : gmap string Z) :
  TreatyManager.bump k d adj = Ok adj' ->
  default 0 (adj' !! code)
  = default 0 (adj !! code) + (if decide (code = k) then d else 0).
Proof.
  unfold TreatyManager.bump. destruct (adj !! k) as [v|] eqn:Hk; [|discriminate].
  intros [= <-]. destruct (decide (code = k)) as [->|Hne].
  - by rewrite lookup_insert_eq, Hk.
  - rewrite lookup_insert_ne by done. lia.
Qed.

Lemma bump_total (k : string) (d : Z) (adj : gmap string Z) :
  is_Some (adj !! k) ->
  exists adj', TreatyManager.bump k d adj = Ok adj'
               /\ forall k', is_Some (adj !! k') -> is_Some (adj' !! k').
Proof.
  intros [v Hv]. unfold TreatyManager.bump. rewrite Hv. eexists. split; [reflexivity|].
  intros k' Hk'. destruct (decide (k' = k)) as [->|Hne].
  - rewrite lookup_insert_eq. eauto.
  - by rewrite lookup_insert_ne.
Qed.

(** The penalty loop charges each breacher once per breach. *)
Lemma penalties_get (bs : list TreatyManager.Breach) (code : string) :
  forall adj adj',
    foldM (fun a b => TreatyManager.bump (TreatyManager.breacher b)
                        (- TREATY_BREACH_TRUST_PENALTY) a) adj bs = Ok adj' ->
    default 0 (adj' !! code)
    = default 0 (adj !! code)
      - TREATY_BREACH_TRUST_PENALTY
        * Z.of_nat (length (filter (fun b => TreatyManager.breacher b = code) bs)).
Proof.
  induction bs as [|b bs IH]; intros adj adj' Hrun; simpl in Hrun.
  - injection Hrun as <-. simpl. lia.
  - inv_bind Hrun. rewrite (IH _ _ Hrun), (bump_get _ code _ _ _ Ha).
    rewrite filter_cons.
    destruct (decide (code = TreatyManager.breacher b)) as [->|Hne].
    + rewrite decide_True by reflexivity. simpl length. lia.
    + rewrite decide_False by (intros Heq; apply Hne; symmetry; exact Heq). lia.
Qed.

(** What the loop body of [calculate_trust_adjustments] adds for one result
    is what the spec's sentence says. *)
Lemma adjust_for_contribution (adj adj' : gmap string Z)
    (res : TreatyManager.EnforcementResult) (code : string) :
  TreatyManager.adjust_for adj res = Ok adj' ->
  default 0 (adj' !! code) = default 0 (adj !! code) + Spec.trust_contribution res code.
Proof.
  unfold TreatyManager.adjust_for, Spec.trust_contribution, Spec.breaches_by.
  destruct (TreatyManager.r_breaches res) as [|b bs] eqn:Hbs.
  - intros Hrun. inv_bind Hrun.
    rewrite (bump_get _ code _ _ _ Hrun), (bump_get _ code _ _ _ Ha).
    rewrite !setdefault0_get. lia.
  - intros Hrun. rewrite (penalties_get _ code _ _ Hrun).
    rewrite !setdefault0_get. lia.
Qed.

Lemma calculate_from (results : list TreatyManager.EnforcementResult) (code : string) :
  forall adj adj',
    foldM TreatyManager.adjust_for adj results = Ok adj' ->
    default 0 (adj' !! code) = default 0 (adj !! code) + Spec.total_contribution results code.
Proof.
  induction results as [|res results IH]; intros adj adj' Hrun; simpl in Hrun.
  - injection Hrun as <-. unfold Spec.total_contribution. simpl. lia.
  - inv_bind Hrun. rewrite (IH _ _ Hrun), (adjust_for_contribution _ _ _ code Ha).
    unfold Spec.total_contribution. simpl. lia.
Qed.

(** C4. The trust adjustment of every region is the sum, over the results,
    of what each result contributes; a result without breach contributes
    the positive bonus to both of its parties; a result with any breach
    contributes no bonus to anyone and a penalty to exactly the regions that
    breached, one penalty per breach (so a treaty with one leg delivered and
    one leg breached yields only the penalty). *)
Theorem trust_adjustments_spec (results : list TreatyManager.EnforcementResult)
    (adj : gmap string Z) :
  TreatyManager.calculate_trust_adjustments results = Ok adj ->
  (forall code, default 0 (adj !! code) = Spec.total_contribution results code)
  /\ (forall res, res ∈ results -> TreatyManager.r_breaches res = [] ->
        0 < Spec.trust_contribution res (TreatyManager.r_from res)
        /\ 0 < Spec.trust_contribution res (TreatyManager.r_to res))
  /\ (forall res code, res ∈ results -> TreatyManager.r_breaches res <> [] ->
        Spec.trust_contribution res code <= 0
        /\ (Spec.trust_contribution res code < 0 <->
            exists b, b ∈ TreatyManager.r_breaches res /\ TreatyManager.breacher b = code)
        /\ Spec.trust_contribution res code
           = - TREATY_BREACH_TRUST_PENALTY * Spec.breaches_by code res).
Proof.
  intros Hrun. split; [|split].
  - intros code. unfold TreatyManager.calculate_trust_adjustments in Hrun.
    rewrite (calculate_from _ code _ _ Hrun), lookup_empty. simpl. lia.
  - intros res _ Hnone. unfold Spec.trust_contribution. rewrite Hnone.
    rewrite (decide_True (P := TreatyManager.r_from res = TreatyManager.r_from res))
      by reflexivity.
    rewrite (decide_True (P := TreatyManager.r_to res = TreatyManager.r_to res))
      by reflexivity.
    unfold TREATY_HONOR_TRUST_BONUS. split; repeat case_decide; lia.
  - intros res code _ Hsome. unfold Spec.trust_contribution, Spec.breaches_by.
    destruct (TreatyManager.r_breaches res) as [|b bs] eqn:Hbs; [contradiction|].
    unfold TREATY_BREACH_TRUST_PENALTY.
    set (hits := filter (fun b0 => TreatyManager.breacher b0 = code) (b :: bs)).
    split; [lia|]. split; [|reflexivity].
    split.
    + intros Hneg. destruct hits as [|h hs] eqn:Hh; [simpl in Hneg; lia|].
      assert (Hin : h ∈ hits) by (rewrite Hh; by left).
      apply list_elem_of_filter in Hin as [Hc Hin]. eauto.
    + intros (b0 & Hin & Hb0).
      assert (Hin' : b0 ∈ hits) by (apply list_elem_of_filter; split; assumption).
      destruct hits; [inversion Hin'|]. simpl length. lia.
Qed.

Lemma trust_adjustments_spec_witness :
  exists adj,
    TreatyManager.calculate_trust_adjustments [Scenario.honoured; Scenario.half_honoured]
    = Ok adj
    /\ default 0 (adj !! "PB") = 2 /\ default 0 (adj !! "MH") = 2
    /\ default 0 (adj !! "RJ") = -15 /\ default 0 (adj !! "GJ") = 0.
Proof.
  assert (Hok : is_Ok (TreatyManager.calculate_trust_adjustments
                         [Scenario.honoured; Scenario.half_honoured]) = true)
    by (vm_compute; reflexivity).
  destruct (TreatyManager.calculate_trust_adjustments
              [Scenario.honoured; Scenario.half_honoured]) as [adj|e] eqn:Hrun;
    [|discriminate Hok].
  exists adj. split; [reflexivity|].
  destruct (trust_adjustments_spec _ _ Hrun) as [Hsum _].
  rewrite !Hsum. vm_compute. repeat split.
Defined.

(** The adjustment never raises on results whose breachers are parties. *)
Lemma penalties_total (bs : list TreatyManager.Breach) (from_r to_r : string) :
  Forall (fun b => TreatyManager.breacher b = from_r \/ TreatyManager.breacher b = to_r) bs ->
  forall adj, is_Some (adj !! from_r) -> is_Some (adj !! to_r) ->
    exists adj', foldM (fun a b => TreatyManager.bump (TreatyManager.breacher b)
                                     (- TREATY_BREACH_TRUST_PENALTY) a) adj bs = Ok adj'.
Proof.
  induction 1 as [|b bs Hb Hbs IH]; intros adj Hfrom Hto; simpl; [eauto|].
  destruct (bump_total (TreatyManager.breacher b) (- TREATY_BREACH_TRUST_PENALTY) adj)
    as (adj1 & -> & Hkeeps).
  { destruct Hb as [-> | ->]; assumption. }
  simpl. apply IH; by apply Hkeeps.
Qed.

Lemma adjust_for_total (adj : gmap string Z) (res : TreatyManager.EnforcementResult) :
  breachers_are_parties res -> exists adj', TreatyManager.adjust_for adj res = Ok adj'.
Proof.
  intros Hres. unfold TreatyManager.adjust_for.
  set (adj1 := TreatyManager.setdefault0 _ (TreatyManager.setdefault0 _ adj)).
  assert (Hto : is_Some (adj1 !! TreatyManager.r_to res))
    by apply setdefault0_is_Some.
  assert (Hfrom : is_Some (adj1 !! TreatyManager.r_from res))
    by apply setdefault0_keeps, setdefault0_is_Some.
  destruct (TreatyManager.r_breaches res) as [|b bs] eqn:Hbs.
  - destruct (bump_total (TreatyManager.r_from res) TREATY_HONOR_TRUST_BONUS adj1 Hfrom)
      as (adj2 & -> & Hkeeps). simpl.
    destruct (bump_total (TreatyManager.r_to res) TREATY_HONOR_TRUST_BONUS adj2
                (Hkeeps _ Hto)) as (adj3 & -> & _). eauto.
  - unfold breachers_are_parties in Hres. rewrite Hbs in Hres.
    by apply (penalties_total (b :: bs) _ _ Hres).
Qed.

Lemma calculate_trust_adjustments_total (results : list TreatyManager.EnforcementResult) :
  Forall breachers_are_parties results ->
  exists adj, TreatyManager.calculate_trust_adjustments results = Ok adj.
Proof.
  unfold TreatyManager.calculate_trust_adjustments. generalize (∅ : gmap string Z).
  intros adj Hall. revert adj.
  induction Hall as [|res results Hres Hall IH]; intros adj; simpl; [eauto|].
  destruct (adjust_for_total adj res Hres) as [adj1 ->]. simpl. apply IH.
Qed.

Lemma deliver_breachers (update_func : bool) (current_tick : Z) (giver receiver : string)
    (P : TreatyManager.Breach -> Prop) (st : TreatyManager.LegState) (item : string * Z) :
  (forall b, TreatyManager.breacher b = giver -> P b) ->
  Forall P (TreatyManager.ls_breaches st) ->
  Forall P (TreatyManager.ls_breaches
              (TreatyManager.deliver update_func current_tick giver receiver st item)).
Proof.
  intros Hgiver Hst. unfold TreatyManager.deliver. destruct item as [resource amount].
  destruct (_ <=? _); simpl; [exact Hst|].
  apply Forall_app. split; [exact Hst|]. constructor; [by apply Hgiver|constructor].
Qed.

Lemma _enforce_single_breachers (tr : TreatyManager.Treaty) (rd : gmap string Region)
    (update_func : bool) (current_tick : Z) :
  breachers_are_parties (TreatyManager._enforce_single tr rd update_func current_tick).2.
Proof.
  unfold TreatyManager._enforce_single, breachers_are_parties. simpl.
  set (P := fun b => TreatyManager.breacher b = TreatyManager.from_region tr
                     \/ TreatyManager.breacher b = TreatyManager.to_region tr).
  apply (foldl_invariant (fun st => Forall P (TreatyManager.ls_breaches st))).
  { intros st item _ Hst. apply deliver_breachers; [|exact Hst].
    intros b Hb. by right. }
  apply (foldl_invariant (fun st => Forall P (TreatyManager.ls_breaches st))).
  { intros st item _ Hst. apply deliver_breachers; [|exact Hst].
    intros b Hb. by left. }
  constructor.
Qed.

Lemma enforce_treaties_breachers (tm : TreatyManager.t) (current_tick : Z)
    (rd : gmap string Region) (update_func : bool) :
  Forall breachers_are_parties
         (TreatyManager.enforce_treaties tm current_tick rd update_func).2.
Proof.
  unfold TreatyManager.enforce_treaties. simpl.
  apply (foldl_invariant
           (fun st => Forall breachers_are_parties (TreatyManager.el_results st)));
    [|constructor].
  intros st tr _ Hst. unfold TreatyManager.enforce_step.
  destruct (negb _); [exact Hst|].
  pose proof (_enforce_single_breachers tr (TreatyManager.el_regions st) update_func
                current_tick) as Hsingle.
  destruct (TreatyManager._enforce_single _ _ _ _) as [[rd1 tr1] res]. simpl in Hsingle.
  destruct (_ <=? _); simpl; apply Forall_app; (split; [exact Hst|]);
    by constructor.
Qed.

(** Step 3 never raises. *)
Lemma _step_enforce_treaties_total (tm : TreatyManager.t) (current_tick : Z)
    (rd : gmap string Region) :
  exists r, _step_enforce_treaties tm current_tick rd = Ok r.
Proof.
  unfold _step_enforce_treaties.
  destruct (TreatyManager.active_treaties tm); [eauto|].
  pose proof (enforce_treaties_breachers tm current_tick rd true) as Hres.
  destruct (TreatyManager.enforce_treaties _ _ _ _) as [[tm1 rd1] results].
  simpl in Hres.
  destruct (calculate_trust_adjustments_total results Hres) as [adj ->]. simpl. eauto.
Qed.

(** ** Insertion-ordered dicts *)

Lemma OrderedDict_mem_keys {V} (k : string) (d : list (string * V)) :
  OrderedDict.mem k d = true <-> k ∈ OrderedDict.keys d.
Proof.
  unfold OrderedDict.mem, OrderedDict.keys.
  rewrite existsb_exists, list_elem_of_fmap. split.
  - intros ([k' v] & Hin & Hk). apply bool_decide_eq_true in Hk. simpl in Hk. subst k'.
    exists (k, v). split; [reflexivity|]. by apply list_elem_of_In.
  - intros ([k' v] & -> & Hin). exists (k', v). split; [by apply list_elem_of_In|].
    by apply bool_decide_eq_true.
Qed.

Lemma OrderedDict_get_None {V} (k : string) (d : list (string * V)) :
  k ∉ OrderedDict.keys d -> OrderedDict.get k d = None.
Proof.
  induction d as [|[k' v'] d IH]; simpl; [reflexivity|].
  intros Hn. rewrite not_elem_of_cons in Hn. destruct Hn as [Hne Hn].
  rewrite decide_False by (intros Heq; apply Hne; symmetry; exact Heq). by apply IH.
Qed.

Lemma OrderedDict_get_Some_keys {V} (k : string) (v : V) (d : list (string * V)) :
  OrderedDict.get k d = Some v -> k ∈ OrderedDict.keys d.
Proof.
  induction d as [|[k' v'] d IH]; simpl; [discriminate|].
  destruct (decide (k' = k)) as [->|Hne]; [intros _; by left|].
  intros H. right. by apply IH.
Qed.

(** In a dict the entry found under a key is the only one with that key. *)
Lemma OrderedDict_get_unique {V} (k : string) (v w : V) (d : list (string * V)) :
  NoDup (OrderedDict.keys d) -> OrderedDict.get k d = Some v -> (k, w) ∈ d -> w = v.
Proof.
  induction d as [|[k' v'] d IH]; simpl; [discriminate|].
  intros Hnd Hget Hin. apply NoDup_cons in Hnd as [Hk' Hnd].
  apply elem_of_cons in Hin as [Heq|Hin].
  - injection Heq as <- <-. rewrite decide_True in Hget by reflexivity. congruence.
  - destruct (decide (k' = k)) as [->|Hne].
    + exfalso. apply Hk'. unfold OrderedDict.keys.
      apply list_elem_of_fmap. exists (k, w). by split.
    + by apply IH.
Qed.

Lemma OrderedDict_keys_set_new {V} (k : string) (v : V) (d : list (string * V)) :
  k ∉ OrderedDict.keys d ->
  OrderedDict.keys (OrderedDict.set k v d) = OrderedDict.keys d ++ [k].
Proof.
  induction d as [|[k' v'] d IH]; simpl; [reflexivity|].
  intros Hn. rewrite not_elem_of_cons in Hn. destruct Hn as [Hne Hn].
  rewrite decide_False by (intros Heq; apply Hne; symmetry; exact Heq).
  simpl. f_equal. by apply IH.
Qed.

Lemma OrderedDict_keys_del {V} (k : string) (d : list (string * V)) :
  OrderedDict.keys (OrderedDict.del k d) = filter (fun k' => k' <> k) (OrderedDict.keys d).
Proof.
  unfold OrderedDict.del, OrderedDict.keys.
  induction d as [|[k' v'] d IH]; [reflexivity|].
  rewrite filter_cons. simpl. rewrite filter_cons.
  destruct (decide (k' <> k)); simpl; by rewrite IH.
Qed.

Lemma OrderedDict_get_del_ne {V} (k e : string) (d : list (string * V)) :
  e <> k -> OrderedDict.get e (OrderedDict.del k d) = OrderedDict.get e d.
Proof.
  intros Hne. unfold OrderedDict.del.
  induction d as [|[k' v'] d IH]; [reflexivity|].
  rewrite filter_cons. simpl.
  destruct (decide (k' <> k)) as [Hk|Hk]; simpl.
  - destruct (decide (k' = e)); [reflexivity|exact IH].
  - rewrite decide_False; [exact IH|]. intros ->. apply Hk. exact Hne.
Qed.

Lemma OrderedDict_get_del_eq {V} (k : string) (d : list (string * V)) :
  OrderedDict.get k (OrderedDict.del k d) = None.
Proof.
  apply OrderedDict_get_None. rewrite OrderedDict_keys_del.
  intros Hin. apply list_elem_of_filter in Hin as [Hne _]. by apply Hne.
Qed.

(** ** Climate engine: the life of an event *)

Lemma one_tick_less_keys (d : list (string * Z)) :
  OrderedDict.keys (one_tick_less d) = OrderedDict.keys d.
Proof.
  unfold one_tick_less, OrderedDict.keys. rewrite map_map. reflexivity.
Qed.

Lemma one_tick_less_get (e : string) (d : list (string * Z)) :
  OrderedDict.get e (one_tick_less d) = (fun n => n - 1) <$> OrderedDict.get e d.
Proof.
  induction d as [|[k v] d IH]; simpl; [reflexivity|].
  destruct (decide (k = e)); [reflexivity|exact IH].
Qed.

(** The loop over [expired] deletes each listed key and reports it; it
    raises only if the store does. *)
Lemma expire_loop (fh : option Firestore.t) (l : list string) :
  forall act evs act' evs',
    foldM (ClimateEngine.expire fh) (act, evs) l = Ok (act', evs') ->
    act' = foldl (fun a k => OrderedDict.del k a) act l
    /\ evs' = evs ++ map ClimateEngine.EXPIRED l.
Proof.
  induction l as [|k l IH]; intros act evs act' evs' Hrun; simpl in Hrun.
  - injection Hrun as <- <-. by rewrite app_nil_r.
  - inv_bind Hrun. unfold ClimateEngine.expire in Ha. inv_bind Ha.
    injection Ha as <-. simpl in Hrun.
    destruct (IH _ _ _ _ Hrun) as [-> ->]. split; [reflexivity|].
    by rewrite <- app_assoc.
Qed.

Lemma expire_loop_offline (l : list string) (act : list (string * Z))
    (evs : list ClimateEngine.Event) :
  exists st, foldM (ClimateEngine.expire None) (act, evs) l = Ok st.
Proof.
  revert act evs. induction l as [|k l IH]; intros act evs; simpl; [eauto|].
  apply IH.
Qed.

Lemma get_after_deletes (e : string) (l : list string) (d : list (string * Z)) :
  OrderedDict.get e (foldl (fun a k => OrderedDict.del k a) d l)
  = if decide (e ∈ l) then None else OrderedDict.get e d.
Proof.
  revert d. induction l as [|k l IH]; intros d; cbn [foldl].
  - rewrite decide_False; [reflexivity|]. apply not_elem_of_nil.
  - rewrite IH. destruct (decide (e = k)) as [->|Hne].
    + rewrite (decide_True (P := k ∈ k :: l)) by (by left).
      destruct (decide (k ∈ l)); [reflexivity|apply OrderedDict_get_del_eq].
    + rewrite OrderedDict_get_del_ne by exact Hne.
      destruct (decide (e ∈ l)) as [Hin|Hn].
      * rewrite decide_True; [reflexivity|by right].
      * rewrite decide_False; [reflexivity|].
        rewrite not_elem_of_cons. by split.
Qed.

Lemma keys_after_deletes (l : list string) (d : list (string * Z)) :
  NoDup (OrderedDict.keys d) ->
  NoDup (OrderedDict.keys (foldl (fun a k => OrderedDict.del k a) d l)).
Proof.
  revert d. induction l as [|k l IH]; intros d Hnd; simpl; [exact Hnd|].
  apply IH. rewrite OrderedDict_keys_del. by apply NoDup_filter.
Qed.

(** An event is listed as expired exactly when its decremented count is
    zero or below. *)
Lemma expired_iff (e : string) (m : Z) (d : list (string * Z)) :
  NoDup (OrderedDict.keys d) -> OrderedDict.get e d = Some m ->
  e ∈ map fst (filter (fun p => snd p <= 0) d) <-> m <= 0.
Proof.
  intros Hnd Hget. rewrite list_elem_of_fmap. split.
  - intros ([k v] & -> & Hin). apply list_elem_of_filter in Hin as [Hv Hin]. simpl in *.
    by rewrite (OrderedDict_get_unique _ _ _ _ Hnd Hget Hin) in Hv.
  - intros Hm. exists (e, m). split; [reflexivity|].
    apply list_elem_of_filter. split; [exact Hm|].
    clear Hnd. induction d as [|[k v] d IH]; simpl in Hget; [discriminate|].
    destruct (decide (k = e)) as [->|Hne].
    + injection Hget as ->. by left.
    + right. by apply IH.
Qed.

(** The tick-down half on an event with [n] ticks left. *)
Lemma tick_down_active (eng eng' : ClimateEngine.t) (fh : option Firestore.t)
    (events : list ClimateEngine.Event) (e : string) (n : Z) :
  NoDup (OrderedDict.keys (ClimateEngine.active_events eng)) ->
  OrderedDict.get e (ClimateEngine.active_events eng) = Some n ->
  ClimateEngine.tick_down eng fh = Ok (eng', events) ->
  NoDup (OrderedDict.keys (ClimateEngine.active_events eng'))
  /\ (forall ev, ClimateEngine.TRIGGERED ev ∉ events)
  /\ (1 < n -> OrderedDict.get e (ClimateEngine.active_events eng') = Some (n - 1)
               /\ ClimateEngine.EXPIRED e ∉ events)
  /\ (n <= 1 -> OrderedDict.get e (ClimateEngine.active_events eng') = None
                /\ ClimateEngine.EXPIRED e ∈ events).
Proof.
  intros Hnd Hget Hrun. unfold ClimateEngine.tick_down in Hrun.
  fold (one_tick_less (ClimateEngine.active_events eng)) in Hrun.
  inv_bind Hrun. destruct a as [act evs]. injection Hrun as <- <-. simpl.
  apply expire_loop in Ha as [-> ->]. simpl.
  set (dec := one_tick_less (ClimateEngine.active_events eng)).
  assert (Hnd' : NoDup (OrderedDict.keys dec))
    by (unfold dec; by rewrite one_tick_less_keys).
  assert (Hget' : OrderedDict.get e dec = Some (n - 1))
    by (unfold dec; by rewrite one_tick_less_get, Hget).
  pose proof (expired_iff e (n - 1) dec Hnd' Hget') as Hexp.
  split; [by apply keys_after_deletes|].
  split.
  { intros ev Hin. apply list_elem_of_fmap in Hin as (k & Hk & _). discriminate. }
  rewrite get_after_deletes. split.
  - intros Hn. rewrite decide_False by (rewrite Hexp; lia).
    split; [exact Hget'|].
    intros Hin. apply list_elem_of_fmap in Hin as (k & [= <-] & Hin).
    apply Hexp in Hin. lia.
  - intros Hn. assert (Hin : e ∈ map fst (filter (fun p => snd p <= 0) dec))
      by (apply Hexp; lia).
    rewrite decide_True by exact Hin.
    split; [reflexivity|]. apply list_elem_of_fmap. eauto.
Qed.

Lemma _select_event_catalog (eng : ClimateEngine.t) (rnd : ClimateEngine.Random)
    (e : string) :
  ClimateEngine._select_event eng rnd = Some e ->
  e ∈ map fst ClimateEngine.EVENT_WEIGHTS.
Proof.
  unfold ClimateEngine._select_event.
  set (available := filter _ ClimateEngine.EVENT_WEIGHTS).
  destruct available as [|[e0 w0] rest] eqn:Hav; [discriminate|].
  intros Hsel.
  assert (Hin : nth (ClimateEngine.choice rnd `mod` length ((e0, w0) :: rest))
                    (map fst ((e0, w0) :: rest)) e0 ∈ map fst ((e0, w0) :: rest)).
  { apply list_elem_of_In, nth_In. rewrite length_map.
    apply Nat.mod_upper_bound. simpl. lia. }
  assert (He : e = nth (ClimateEngine.choice rnd `mod` length ((e0, w0) :: rest))
                       (map fst ((e0, w0) :: rest)) e0) by congruence.
  rewrite <- He in Hin. clear He Hsel.
  apply list_elem_of_fmap in Hin as (p & Hp & Hin).
  rewrite Hp. apply list_elem_of_fmap. exists p. split; [reflexivity|].
  rewrite <- Hav in Hin. unfold available in Hin.
  apply list_elem_of_filter in Hin as [_ Hin]. exact Hin.
Qed.

(** Every event of the catalog has a duration, of five ticks or more. *)
Lemma catalog_durations (e : string) :
  e ∈ map fst ClimateEngine.EVENT_WEIGHTS ->
  exists d, OrderedDict.get e ClimateEngine.durations = Some d /\ 5 <= d.
Proof.
  intros He. simpl in He. rewrite !elem_of_cons, elem_of_nil in He.
  destruct He as [->|[->|[->|[->|[->|[->|[->|[]]]]]]]];
    eexists; (split; [vm_compute; reflexivity | lia]).
Qed.

(** The first half of a tick either changes nothing or starts one event of
    the catalog that was not active. *)
Lemma check_new_events_cases (eng eng' : ClimateEngine.t) (current_tick : Z)
    (rnd : ClimateEngine.Random) (fh : option Firestore.t)
    (events : list ClimateEngine.Event) :
  ClimateEngine.check_new_events eng current_tick rnd fh = Ok (eng', events) ->
  (eng' = eng /\ events = [])
  \/ (exists ev d,
        events = [ClimateEngine.TRIGGERED ev]
        /\ (ClimateEngine.event_id ev ∉ OrderedDict.keys (ClimateEngine.active_events eng))
        /\ OrderedDict.get (ClimateEngine.event_id ev) ClimateEngine.durations = Some d
        /\ 5 <= d
        /\ ClimateEngine.duration ev = d
        /\ ClimateEngine.active_events eng'
           = OrderedDict.set (ClimateEngine.event_id ev) d (ClimateEngine.active_events eng)).
Proof.
  unfold ClimateEngine.check_new_events.
  destruct (_ && _); [|intros [= <- <-]; by left].
  destruct (ClimateEngine._select_event eng rnd) as [e|] eqn:Hsel;
    [|intros [= <- <-]; by left].
  destruct (OrderedDict.mem e (ClimateEngine.active_events eng)) eqn:Hmem; cbn [negb];
    [intros [= <- <-]; by left|].
  destruct (catalog_durations e (_select_event_catalog _ _ _ Hsel)) as (d & Hd & Hd5).
  unfold ClimateEngine._trigger_event. rewrite Hd. cbn [default].
  intros Hrun. inv_bind Hrun. destruct a as [eng1 ev].
  inv_bind Ha. injection Ha as <- <-. injection Hrun as <- <-.
  right. eexists. exists d.
  split; [reflexivity|]. split.
  { cbn [ClimateEngine.event_id]. rewrite <- OrderedDict_mem_keys, Hmem. discriminate. }
  split; [exact Hd|]. split; [exact Hd5|]. split; reflexivity.
Qed.

Lemma OrderedDict_keys_set_NoDup {V} (k : string) (v : V) (d : list (string * V)) :
  k ∉ OrderedDict.keys d -> NoDup (OrderedDict.keys d) ->
  NoDup (OrderedDict.keys (OrderedDict.set k v d)).
Proof.
  intros Hk Hnd. rewrite OrderedDict_keys_set_new by exact Hk.
  apply NoDup_app. split; [exact Hnd|]. split.
  - intros x Hx Hin. apply list_elem_of_singleton in Hin. by subst.
  - apply NoDup_singleton.
Qed.

(** A tick that reports an event as triggered leaves it with its catalog
    duration minus one, and does not report it as expired. *)
Lemma tick_triggered (eng eng' : ClimateEngine.t) (current_tick : Z)
    (rnd : ClimateEngine.Random) (fh : option Firestore.t)
    (events : list ClimateEngine.Event) (ev : ClimateEngine.Triggered) :
  NoDup (OrderedDict.keys (ClimateEngine.active_events eng)) ->
  ClimateEngine.tick eng current_tick rnd fh = Ok (eng', events) ->
  ClimateEngine.TRIGGERED ev ∈ events ->
  NoDup (OrderedDict.keys (ClimateEngine.active_events eng'))
  /\ OrderedDict.get (ClimateEngine.event_id ev) ClimateEngine.durations
     = Some (ClimateEngine.duration ev)
  /\ OrderedDict.get (ClimateEngine.event_id ev) (ClimateEngine.active_events eng')
     = Some (ClimateEngine.duration ev - 1)
  /\ ClimateEngine.EXPIRED (ClimateEngine.event_id ev) ∉ events.
Proof.
  intros Hnd Hrun Hin. unfold ClimateEngine.tick in Hrun.
  inv_bind Hrun. destruct a as [eng1 triggered].
  inv_bind Hrun. destruct a as [eng2 expired]. injection Hrun as <- <-.
  destruct (check_new_events_cases _ _ _ _ _ _ Ha)
    as [[-> ->]|(ev0 & d & -> & Hfresh & Hd & Hd5 & Hdur & Hact)].
  - exfalso. simpl in Hin.
    destruct ev as [e t d i].
    assert (Hget : OrderedDict.get e (ClimateEngine.active_events eng) = None
                   \/ exists n, OrderedDict.get e (ClimateEngine.active_events eng) = Some n).
    { destruct (OrderedDict.get e _); eauto. }
    unfold ClimateEngine.tick_down in Ha0. inv_bind Ha0. destruct a as [act evs].
    injection Ha0 as <- <-. apply expire_loop in Ha1 as [_ ->]. simpl in Hin.
    apply list_elem_of_fmap in Hin as (k & Hk & _). discriminate.
  - assert (Hnd1 : NoDup (OrderedDict.keys (ClimateEngine.active_events eng1))).
    { rewrite Hact. by apply OrderedDict_keys_set_NoDup. }
    assert (Hget1 : OrderedDict.get (ClimateEngine.event_id ev0)
                      (ClimateEngine.active_events eng1) = Some d).
    { rewrite Hact. apply OrderedDict_get_set. }
    destruct (tick_down_active _ _ _ _ _ _ Hnd1 Hget1 Ha0) as (Hnd2 & Hnot & Hlive & _).
    destruct (Hlive ltac:(lia)) as [Hget2 Hnexp].
    apply elem_of_app in Hin as [Hin|Hin]; [|by apply Hnot in Hin].
    apply list_elem_of_singleton in Hin. injection Hin as ->.
    subst d. repeat split; try done.
    intros Hexp. apply elem_of_app in Hexp as [Hexp|Hexp]; [|by apply Hnexp].
    apply list_elem_of_singleton in Hexp. discriminate.
Qed.

(** A tick on an event that is already active with [n] ticks left: it is
    not triggered again; with more than one tick left it loses one and is
    not reported; with one tick left it is removed and reported as expired. *)
Lemma tick_active (eng eng' : ClimateEngine.t) (current_tick : Z)
    (rnd : ClimateEngine.Random) (fh : option Firestore.t)
    (events : list ClimateEngine.Event) (e : string) (n : Z) :
  NoDup (OrderedDict.keys (ClimateEngine.active_events eng)) ->
  OrderedDict.get e (ClimateEngine.active_events eng) = Some n ->
  ClimateEngine.tick eng current_tick rnd fh = Ok (eng', events) ->
  NoDup (OrderedDict.keys (ClimateEngine.active_events eng'))
  /\ (forall ev, ClimateEngine.TRIGGERED ev ∈ events -> ClimateEngine.event_id ev <> e)
  /\ (1 < n -> OrderedDict.get e (ClimateEngine.active_events eng') = Some (n - 1)
               /\ ClimateEngine.EXPIRED e ∉ events)
  /\ (n <= 1 -> OrderedDict.get e (ClimateEngine.active_events eng') = None
                /\ ClimateEngine.EXPIRED e ∈ events).
Proof.
  intros Hnd Hget Hrun. unfold ClimateEngine.tick in Hrun.
  inv_bind Hrun. destruct a as [eng1 triggered].
  inv_bind Hrun. destruct a as [eng2 expired]. injection Hrun as <- <-.
  assert (H1 : NoDup (OrderedDict.keys (ClimateEngine.active_events eng1))
               /\ OrderedDict.get e (ClimateEngine.active_events eng1) = Some n
               /\ (forall ev, ClimateEngine.TRIGGERED ev ∈ triggered ->
                              ClimateEngine.event_id ev <> e)
               /\ ClimateEngine.EXPIRED e ∉ triggered).
  { destruct (check_new_events_cases _ _ _ _ _ _ Ha)
      as [[-> ->]|(ev0 & d & -> & Hfresh & Hd & Hd5 & Hdur & Hact)].
    - repeat split; try done.
      + intros ev Hin. inversion Hin.
      + intros Hin. inversion Hin.
    - assert (Hne : e <> ClimateEngine.event_id ev0).
      { intros ->. apply Hfresh. by eapply OrderedDict_get_Some_keys. }
      rewrite Hact. split; [by apply OrderedDict_keys_set_NoDup|].
      split; [by rewrite OrderedDict_get_set_ne|].
      split.
      + intros ev Hin. apply list_elem_of_singleton in Hin. injection Hin as ->.
        intros Heq. by apply Hne.
      + intros Hin. apply list_elem_of_singleton in Hin. discriminate. }
  destruct H1 as (Hnd1 & Hget1 & Htrig & Hnexp).
  destruct (tick_down_active _ _ _ _ _ _ Hnd1 Hget1 Ha0) as (Hnd2 & Hnot & Hlive & Hdead).
  split; [exact Hnd2|]. split.
  - intros ev Hin. apply elem_of_app in Hin as [Hin|Hin]; [by apply Htrig|].
    by apply Hnot in Hin.
  - split.
    + intros Hn. destruct (Hlive Hn) as [Hg Hne]. split; [exact Hg|].
      intros Hin. apply elem_of_app in Hin as [Hin|Hin]; [by apply Hnexp|by apply Hne].
    + intros Hn. destruct (Hdead Hn) as [Hg Hin]. split; [exact Hg|].
      apply elem_of_app. by right.
Qed.

Lemma ticks_length (inputs : list (ClimateEngine.Random * option Firestore.t)) :
  forall (eng eng' : ClimateEngine.t) (t0 : Z) (reports : list (list ClimateEngine.Event)),
    ClimateEngine.ticks eng t0 inputs = Ok (eng', reports) ->
    length reports = length inputs.
Proof.
  induction inputs as [|[r f] inputs IH]; intros eng eng' t0 reports Hrun; simpl in Hrun.
  - by injection Hrun as <- <-.
  - inv_bind Hrun. destruct a as [engA evA].
    inv_bind Hrun. destruct a as [engB later]. injection Hrun as <- <-.
    simpl. f_equal. eapply IH. exact Ha0.
Qed.

(** Consecutive ticks on an event with [n] ticks left: while fewer than [n]
    ticks have passed the event is still there, with as many ticks less,
    and has not been reported; the [n]-th tick removes and reports it. *)
Lemma ticks_active (e : string) (inputs : list (ClimateEngine.Random * option Firestore.t)) :
  forall (eng eng' : ClimateEngine.t) (current_tick n : Z)
         (reports : list (list ClimateEngine.Event)),
    NoDup (OrderedDict.keys (ClimateEngine.active_events eng)) ->
    OrderedDict.get e (ClimateEngine.active_events eng) = Some n ->
    1 <= n ->
    ClimateEngine.ticks eng current_tick inputs = Ok (eng', reports) ->
    length reports = length inputs
    /\ (Z.of_nat (length inputs) < n ->
        OrderedDict.get e (ClimateEngine.active_events eng')
        = Some (n - Z.of_nat (length inputs))
        /\ Forall (fun events => ClimateEngine.EXPIRED e ∉ events) reports)
    /\ (Z.of_nat (length inputs) = n ->
        OrderedDict.get e (ClimateEngine.active_events eng') = None
        /\ exists earlier last,
             reports = earlier ++ [last]
             /\ Forall (fun events => ClimateEngine.EXPIRED e ∉ events) earlier
             /\ ClimateEngine.EXPIRED e ∈ last).
Proof.
  induction inputs as [|[rnd fh] inputs IH];
    intros eng eng' current_tick n reports Hnd Hget Hn Hrun; simpl in Hrun.
  - injection Hrun as <- <-. simpl. split; [reflexivity|]. split.
    + intros _. rewrite Z.sub_0_r. split; [exact Hget|constructor].
    + intros H0. lia.
  - inv_bind Hrun. destruct a as [eng1 events].
    inv_bind Hrun. destruct a as [eng2 later]. injection Hrun as <- <-.
    destruct (tick_active _ _ _ _ _ _ _ _ Hnd Hget Ha) as (Hnd1 & _ & Hlive & Hdead).
    cbn [length]. rewrite Nat2Z.inj_succ.
    destruct (decide (1 < n)) as [Hbig|Hsmall].
    + destruct (Hlive Hbig) as [Hget1 Hne].
      destruct (IH _ _ _ _ _ Hnd1 Hget1 ltac:(lia) Ha0) as (Hlen & Hbefore & Hat).
      split; [by rewrite Hlen|]. split.
      * intros Hlt. destruct (Hbefore ltac:(lia)) as [Hg Hall].
        split; [rewrite Hg; f_equal; lia|]. by constructor.
      * intros Heq. destruct (Hat ltac:(lia)) as (Hg & earlier & last & -> & Hall & Hin).
        split; [exact Hg|]. exists (events :: earlier), last.
        split; [reflexivity|]. split; [by constructor|exact Hin].
    + assert (n = 1) as -> by lia.
      destruct (Hdead ltac:(lia)) as [Hget1 Hin].
      split; [by rewrite (ticks_length _ _ _ _ _ Ha0)|].
      split; [intros Hlt; lia|].
      intros Heq. assert (inputs = []) as ->.
      { destruct inputs; [reflexivity|]. simpl in Heq. lia. }
      simpl in Ha0. injection Ha0 as <- <-.
      split; [exact Hget1|]. exists [], events.
      split; [reflexivity|]. split; [constructor|exact Hin].
Qed.

(** C10. An event that a tick reports as triggered has, right after that
    tick, its catalog duration minus one tick left, and that tick does not
    report it as expired.  Over the following ticks, whatever they draw, it
    stays active and unreported as long as fewer than (duration - 1) of them
    have passed, losing one tick each time, and the tick that comes
    (duration - 1) ticks after the triggering one removes it and reports it
    as EXPIRED: it is active during exactly [duration] consecutive ticks. *)
Theorem climate_event_lifetime (eng eng0 : ClimateEngine.t) (current_tick : Z)
    (rnd : ClimateEngine.Random) (fh : option Firestore.t)
    (events : list ClimateEngine.Event) (ev : ClimateEngine.Triggered) :
  NoDup (OrderedDict.keys (ClimateEngine.active_events eng)) ->
  ClimateEngine.tick eng current_tick rnd fh = Ok (eng0, events) ->
  ClimateEngine.TRIGGERED ev ∈ events ->
  let e := ClimateEngine.event_id ev in
  let d := ClimateEngine.duration ev in
  OrderedDict.get e ClimateEngine.durations = Some d
  /\ OrderedDict.get e (ClimateEngine.active_events eng0) = Some (d - 1)
  /\ (ClimateEngine.EXPIRED e ∉ events)
  /\ forall inputs engk reports,
       ClimateEngine.ticks eng0 (current_tick + 1) inputs = Ok (engk, reports) ->
       (Z.of_nat (length inputs) < d - 1 ->
        OrderedDict.get e (ClimateEngine.active_events engk)
        = Some (d - 1 - Z.of_nat (length inputs))
        /\ Forall (fun events => ClimateEngine.EXPIRED e ∉ events) reports)
       /\ (Z.of_nat (length inputs) = d - 1 ->
           OrderedDict.get e (ClimateEngine.active_events engk) = None
           /\ exists earlier last,
                reports = earlier ++ [last]
                /\ Forall (fun events => ClimateEngine.EXPIRED e ∉ events) earlier
                /\ ClimateEngine.EXPIRED e ∈ last).
Proof.
  intros Hnd Hrun Hin e d.
  destruct (tick_triggered _ _ _ _ _ _ _ Hnd Hrun Hin) as (Hnd0 & Hd & Hget & Hne).
  split; [exact Hd|]. split; [exact Hget|]. split; [exact Hne|].
  intros inputs engk reports Hticks.
  assert (Hd5 : 5 <= d).
  { destruct (catalog_durations e) as (d' & Hd' & H5).
    - unfold ClimateEngine.durations in Hd.
      apply OrderedDict_get_Some_keys in Hd. exact Hd.
    - fold e d in Hd. rewrite Hd in Hd'. by injection Hd' as <-. }
  destruct (ticks_active e inputs _ _ _ _ _ Hnd0 Hget ltac:(lia) Hticks)
    as (_ & Hbefore & Hat).
  split; assumption.
Qed.

Lemma climate_event_lifetime_witness :
  ClimateEngine.tick ClimateEngine.init 1 Scenario.stormy None
  = Ok (Scenario.drought_started, [ClimateEngine.TRIGGERED Scenario.drought])
  /\ OrderedDict.get "Drought_RJ" (ClimateEngine.active_events Scenario.drought_started)
     = Some (10 - 1)
  /\ forall engk reports,
       ClimateEngine.ticks Scenario.drought_started (1 + 1)
                           (replicate 9 (Scenario.calm, None)) = Ok (engk, reports) ->
       OrderedDict.get "Drought_RJ" (ClimateEngine.active_events engk) = None.
Proof.
  assert (Hrun : ClimateEngine.tick ClimateEngine.init 1 Scenario.stormy None
                 = Ok (Scenario.drought_started, [ClimateEngine.TRIGGERED Scenario.drought]))
    by (vm_compute; reflexivity).
  split; [exact Hrun|].
  destruct (climate_event_lifetime ClimateEngine.init Scenario.drought_started 1
              Scenario.stormy None [ClimateEngine.TRIGGERED Scenario.drought]
              Scenario.drought)
    as (_ & Hget & _ & Hlater).
  - simpl. constructor.
  - exact Hrun.
  - apply list_elem_of_singleton. reflexivity.
  - split; [exact Hget|].
    intros engk reports Hticks.
    destruct (Hlater _ _ _ Hticks) as [_ Hat].
    apply Hat. reflexivity.
Defined.

(** Without a store the climate engine's tick always returns. *)
Lemma climate_tick_offline (eng : ClimateEngine.t) (current_tick : Z)
    (rnd : ClimateEngine.Random) :
  exists r, ClimateEngine.tick eng current_tick rnd None = Ok r.
Proof.
  unfold ClimateEngine.tick.
  assert (H1 : exists r, ClimateEngine.check_new_events eng current_tick rnd None = Ok r).
  { unfold ClimateEngine.check_new_events.
    destruct (_ && _); [|eauto].
    destruct (ClimateEngine._select_event eng rnd); [|eauto].
    destruct (negb _); [|eauto]. simpl. eauto. }
  destruct H1 as [[eng1 triggered] ->]. simpl.
  unfold ClimateEngine.tick_down.
  destruct (expire_loop_offline
              (map fst (filter (fun p => snd p <= 0)
                               (map (fun p => (fst p, snd p - 1))
                                    (ClimateEngine.active_events eng1))))
              (map (fun p => (fst p, snd p - 1)) (ClimateEngine.active_events eng1)) [])
    as [[act evs] ->].
  simpl. eauto.
Qed.

(** ** Step 10: the reward step *)

Lemma _step_rewards_per_region (rd : gmap string Region) :
  _step_rewards rd = foldM (per_region reward_region) rd STATE_CODES.
Proof. reflexivity. Qed.

Lemma _step_rewards_Ok (rd rd' : gmap string Region) :
  _step_rewards rd = Ok rd' ->
  forall code,
    (code ∈ STATE_CODES ->
     exists r r', rd !! code = Some r /\ reward_region r = Ok r' /\ rd' !! code = Some r')
    /\ (code ∉ STATE_CODES -> rd' !! code = rd !! code).
Proof.
  rewrite _step_rewards_per_region. intros Hrun code.
  exact (per_region_run _ _ STATE_CODES_NoDup _ _ Hrun code).
Qed.

(** What a region looks like after the step: the two scores and the new
    unrest level, the rest as it was. *)
Lemma reward_region_Ok (r r' : Region) :
  reward_region r = Ok r' ->
  exists gdp welfare,
    gdp_of r = Ok gdp /\ welfare_of r = Ok welfare
    /\ r' = set_scores r gdp welfare (new_unrest_of r welfare).
Proof.
  unfold reward_region. intros Hrun.
  destruct (gdp_of r) as [gdp|e]; [|discriminate Hrun].
  destruct (welfare_of r) as [welfare|e]; [|discriminate Hrun].
  injection Hrun as <-. eauto.
Qed.

(** The GDP formula does not read what the reward step writes. *)
Lemma gdp_of_set_scores (r : Region) (gdp welfare unrest : float) :
  gdp_of (set_scores r gdp welfare unrest) = gdp_of r.
Proof. reflexivity. Qed.

(** The welfare formula reads the unrest level, which the step rewrites. *)
Lemma welfare_of_set_scores (r : Region) (gdp welfare unrest : float) :
  unrest = default zero (unrest_level (demographics r)) ->
  welfare_of (set_scores r gdp welfare unrest) = welfare_of r.
Proof. intros ->. reflexivity. Qed.

(** The conversions of the welfare formula do not depend on the unrest level. *)
Lemma welfare_of_set_scores_Ok (r : Region) (gdp welfare unrest w : float) :
  welfare_of r = Ok w ->
  exists w', welfare_of (set_scores r gdp welfare unrest) = Ok w'.
Proof.
  unfold welfare_of. simpl.
  destruct (float_of_int (get0 (resources r) "food")) as [food|e]; [|discriminate].
  destruct (float_of_int (get0 (resources r) "water")) as [water|e]; [|discriminate].
  simpl. eauto.
Qed.

(** C9 (as the code has it). The reward step gives every region the scores
    [gdp_of] and [welfare_of], which are functions of the region's
    resources, population and demographics only: two regions that agree on
    these get the same scores.  A second run on the ledger the first run
    produced returns as well; it gives every region the same GDP score
    again, and the same welfare score for every region whose unrest level
    the first run left as it was. *)
Theorem rewards_recompute (rd rd1 : gmap string Region) :
  _step_rewards rd = Ok rd1 ->
  (forall code r, code ∈ STATE_CODES -> rd !! code = Some r ->
     exists r1 gdp welfare,
       rd1 !! code = Some r1
       /\ gdp_of r = Ok gdp /\ welfare_of r = Ok welfare
       /\ gdp_score r1 = Some gdp
       /\ welfare_score r1 = Some welfare
       /\ unrest_level (demographics r1) = Some (new_unrest_of r welfare))
  /\ (forall r r', resources r = resources r' -> population r = population r' ->
                   demographics r = demographics r' ->
                   gdp_of r = gdp_of r' /\ welfare_of r = welfare_of r')
  /\ (exists rd2, _step_rewards rd1 = Ok rd2)
  /\ (forall rd2, _step_rewards rd1 = Ok rd2 ->
      forall code r r1 r2 welfare, code ∈ STATE_CODES ->
        rd !! code = Some r -> rd1 !! code = Some r1 -> rd2 !! code = Some r2 ->
        welfare_of r = Ok welfare ->
        gdp_score r2 = gdp_score r1
        /\ (new_unrest_of r welfare = default zero (unrest_level (demographics r)) ->
            welfare_score r2 = welfare_score r1)).
Proof.
  intros Hrun. split; [|split; [|split]].
  - intros code r Hc Hr.
    destruct (_step_rewards_Ok _ _ Hrun code) as [Hin _].
    destruct (Hin Hc) as (r0 & r1 & Hr0 & Hstep & Hr1).
    rewrite Hr in Hr0. injection Hr0 as <-.
    destruct (reward_region_Ok _ _ Hstep) as (gdp & welfare & Hg & Hw & ->).
    exists (set_scores r gdp welfare (new_unrest_of r welfare)), gdp, welfare.
    repeat split; assumption.
  - intros r r' Hres Hpop Hdem. unfold gdp_of, welfare_of.
    rewrite Hres, Hpop, Hdem. split; reflexivity.
  - rewrite _step_rewards_per_region.
    apply per_region_total; [exact STATE_CODES_NoDup|].
    intros code Hc.
    destruct (_step_rewards_Ok _ _ Hrun code) as [Hin _].
    destruct (Hin Hc) as (r & r1 & Hr & Hstep & Hr1).
    destruct (reward_region_Ok _ _ Hstep) as (gdp & welfare & Hg & Hw & ->).
    destruct (welfare_of_set_scores_Ok r gdp welfare (new_unrest_of r welfare) _ Hw)
      as [w' Hw'].
    eexists _, _. split; [exact Hr1|].
    unfold reward_region. rewrite gdp_of_set_scores, Hg, Hw'. reflexivity.
  - intros rd2 Hrun2 code r r1 r2 welfare Hc Hr Hr1 Hr2 Hw.
    destruct (_step_rewards_Ok _ _ Hrun code) as [Hin _].
    destruct (Hin Hc) as (r0 & r1' & Hr0 & Hstep & Hr1').
    rewrite Hr in Hr0. injection Hr0 as <-.
    rewrite Hr1 in Hr1'. injection Hr1' as <-.
    destruct (reward_region_Ok _ _ Hstep) as (gdp & welfare' & Hg & Hw' & ->).
    assert (welfare' = welfare) as -> by congruence.
    destruct (_step_rewards_Ok _ _ Hrun2 code) as [Hin2 _].
    destruct (Hin2 Hc) as (r1 & r2' & Hr1' & Hstep2 & Hr2').
    rewrite Hr1 in Hr1'. injection Hr1' as <-.
    rewrite Hr2 in Hr2'. injection Hr2' as <-.
    destruct (reward_region_Ok _ _ Hstep2) as (gdp2 & welfare2 & Hg2 & Hw2 & ->).
    rewrite gdp_of_set_scores in Hg2.
    split.
    + simpl. congruence.
    + intros Hsame. simpl.
      rewrite welfare_of_set_scores in Hw2 by exact Hsame.
      congruence.
Qed.

Lemma rewards_recompute_witness :
  exists rd1,
    _step_rewards Scenario.two_regions = Ok rd1
    /\ exists r1, rd1 !! "PB" = Some r1
                  /\ Ok (default zero (gdp_score r1))
                     = gdp_of (Scenario.water_region 1000 (-50) 100)
                  /\ Ok (default zero (welfare_score r1))
                     = welfare_of (Scenario.water_region 1000 (-50) 100).
Proof.
  assert (Hok : is_Ok (_step_rewards Scenario.two_regions) = true)
    by (vm_compute; reflexivity).
  destruct (_step_rewards Scenario.two_regions) as [rd1|e] eqn:Hrun; [|discriminate Hok].
  exists rd1. split; [reflexivity|].
  destruct (rewards_recompute _ _ Hrun) as [Hscores _].
  destruct (Hscores "PB" (Scenario.water_region 1000 (-50) 100))
    as (r1 & gdp & welfare & Hr1 & Hg & Hw & Hgs & Hws & _).
  - apply (bool_decide_unpack _). vm_compute. exact I.
  - vm_compute. reflexivity.
  - exists r1. rewrite Hgs, Hws, Hg, Hw. repeat split; assumption.
Defined.

(** C9, as the claim states it, fails: run twice in a row on a ledger that
    nothing else touches, the reward step gives region "PB" the welfare
    score 33.3 the first time and 32.9 the second time, because the first
    run raised the unrest level that the welfare formula reads. *)
Lemma rewards_twice_differ :
  Scenario.welfare_after_rewards 1 Scenario.two_regions "PB" = Some (lit 33.3)
  /\ Scenario.welfare_after_rewards 2 Scenario.two_regions "PB" = Some (lit 32.9)
  /\ Scenario.welfare_after_rewards 1 Scenario.two_regions "PB"
     <> Scenario.welfare_after_rewards 2 Scenario.two_regions "PB".
Proof.
  split; [vm_compute; reflexivity|]. split; [vm_compute; reflexivity|].
  vm_compute. discriminate.
Qed.

(** ** Population *)





















Lemma sum_update (l : list string) (f g : string -> Z) (a : string) :
  NoDup l -> a ∈ l -> (forall c, c <> a -> g c = f c) ->
  foldr Z.add 0 (map g l) = foldr Z.add 0 (map f l) + (g a - f a).
Proof.
  intros Hnd Ha Hfg. induction Hnd as [|x l Hx Hnd IH]; [inversion Ha|].
  simpl. apply elem_of_cons in Ha as [<-|Ha].
  - assert (Hrest : map g l = map f l).
    { apply map_ext_in. intros c Hc. apply Hfg. intros ->.
      apply Hx. by apply list_elem_of_In. }
    rewrite Hrest. lia.
  - rewrite (IH Ha). rewrite (Hfg x); [lia|]. intros ->. contradiction.
Qed.

Lemma population_of_insert (rd : gmap string Region) (code c : string) (r' : Region) :
  Spec.population_of (<[code := r']> rd) c
  = if decide (c = code) then default 0 (population r') else Spec.population_of rd c.
Proof.
  unfold Spec.population_of, region_of. destruct (decide (c = code)) as [->|Hne].
  - by rewrite lookup_insert_eq.
  - by rewrite lookup_insert_ne.
Qed.

(** The destination search returns a state code other than the source. *)
Lemma best_destination_other (rd : gmap string Region) (code dest : string) (w : float) :
  best_destination rd code = (Some dest, w) -> dest ∈ STATE_CODES /\ dest <> code.
Proof.
  unfold best_destination.
  set (P := fun best : option string * float =>
              forall d, best.1 = Some d -> d ∈ STATE_CODES /\ d <> code).
  intros Hbest.
  match type of Hbest with
  | foldl ?f ?s ?l = _ => assert (HP : P (foldl f s l))
  end.
  { apply foldl_invariant.
    - intros best x Hx HP. destruct (decide (x = code)); [exact HP|].
      destruct (gtb _ _); [|exact HP].
      intros d [= <-]. by split.
    - intros d [=]. }
  rewrite Hbest in HP. by apply HP.
Qed.

(** One iteration of the migration loop: either nothing moves, or [m > 0]
    people leave [code] for another state code, and no other population
    changes. *)
Lemma migrate_moves (rd rd' : gmap string Region) (moved moved' : list Migration)
    (code : string) :
  migrate (rd, moved) code = Ok (rd', moved') ->
  (rd' = rd /\ moved' = moved)
  \/ (exists dest m,
        moved' = moved ++ [{| mg_from := code; mg_to := dest; migrants := m |}]
        /\ 0 < m /\ dest ∈ STATE_CODES /\ dest <> code
        /\ Spec.population_of rd' code = Spec.population_of rd code - m
        /\ Spec.population_of rd' dest = Spec.population_of rd dest + m
        /\ forall c, c <> code -> c <> dest ->
                     Spec.population_of rd' c = Spec.population_of rd c).
Proof.
  unfold migrate.
  destruct (ltb _ _); [|intros [= <- <-]; by left].
  destruct (best_destination rd code) as [[dest|] w] eqn:Hbest;
    [|intros [= <- <-]; by left].
  destruct (gtb w _); [|intros [= <- <-]; by left].
  intros Hrun. inv_bind Hrun. clear Ha. rename a into p.
  inv_bind Hrun. rename a into m.
  destruct (0 <? m) eqn:Hm; [|injection Hrun as <- <-; by left].
  apply Z.ltb_lt in Hm.
  inv_bind Hrun. rename a into rd1. inv_bind Hrun. rename a into rd2.
  injection Hrun as <- <-.
  destruct (best_destination_other _ _ _ _ Hbest) as [Hdest Hne].
  unfold assign_population in Ha0, Ha1.
  destruct (rd !! code) as [r|] eqn:Hr; [|discriminate]. injection Ha0 as <-.
  destruct (<[code := _]> rd !! dest) as [rdest|] eqn:Hrd; [|discriminate].
  injection Ha1 as <-.
  right. exists dest, m. split; [reflexivity|].
  split; [exact Hm|]. split; [exact Hdest|]. split; [exact Hne|].
  rewrite !population_of_insert.
  split; [|split].
  - rewrite decide_False by (intros ->; by apply Hne).
    rewrite decide_True by reflexivity. simpl.
    unfold Spec.population_of, region_of. by rewrite Hr.
  - rewrite decide_True by reflexivity. simpl.
    f_equal. unfold Spec.population_of, region_of.
    rewrite lookup_insert_ne by (intros ->; by apply Hne). reflexivity.
  - intros c Hc Hd. rewrite population_of_insert, decide_False by exact Hd.
    rewrite population_of_insert. by rewrite decide_False by exact Hc.
Qed.





(** ** Signs of binary64 values *)

Lemma binary_round_aux_sign (sx : bool) (mx ex : Z) (lx : location) :
  match binary_round_aux prec emax sx mx ex lx with
  | S754_zero s | S754_infinity s | S754_finite s _ _ => s = sx
  | S754_nan => True
  end.
Proof.
  unfold binary_round_aux.
  destruct (shr_fexp prec emax mx ex lx) as [mrs' e'].
  destruct (shr_fexp prec emax _ e' loc_Exact) as [mrs'' e''].
  destruct (shr_m mrs''); [reflexivity| |exact I].
  destruct (_ <=? _)%Z; reflexivity.
Qed.

Lemma of_Z_not_negative (z : Z) : 0 <= z -> not_negative (of_Z z).
Proof.
  intros Hz. unfold of_Z, binary_normalize.
  destruct z as [|p|p]; [exact I| |lia].
  unfold binary_round.
  destruct (shl_align _ _ _) as [mz ez].
  pose proof (binary_round_aux_sign false (Z.pos mz) ez loc_Exact) as Hs.
  destruct (binary_round_aux _ _ _ _ _ _); simpl; try exact I; exact Hs.
Qed.

Lemma float_of_int_Ok (z : Z) (x : float) : float_of_int z = Ok x -> x = of_Z z.
Proof. unfold float_of_int. destruct (of_Z z); congruence. Qed.

Lemma float_of_int_not_negative (z : Z) (x : float) :
  0 <= z -> float_of_int z = Ok x -> not_negative x.
Proof. intros Hz Hx. rewrite (float_of_int_Ok _ _ Hx). by apply of_Z_not_negative. Qed.

Lemma mul_not_negative (x y : float) :
  not_negative x -> not_negative y -> not_negative (mul x y).
Proof.
  unfold mul, SF64mul, SFmul.
  destruct x as [sx|sx| |sx mx ex], y as [sy|sy| |sy my ey]; simpl;
    try (intros; exact I); try (intros -> ->; reflexivity).
  intros -> ->.
  pose proof (binary_round_aux_sign (xorb false false) (Z.pos (mx * my)) (ex + ey)
                loc_Exact) as Hs.
  destruct (binary_round_aux _ _ _ _ _ _); simpl; try exact I; exact Hs.
Qed.

Lemma abs_not_negative (x : float) : not_negative (PyFloat.abs x).
Proof. destruct x; simpl; try exact I; reflexivity. Qed.

(** [x > 0] holds only of a positive number or plus infinity. *)
Lemma gtb_zero_not_negative (x : float) : gtb x zero = true -> not_negative x.
Proof.
  unfold gtb, zero, SFltb, SFcompare.
  destruct x as [s|s| |s m e]; simpl; try discriminate; try (intros; exact I);
    destruct s; try discriminate; reflexivity.
Qed.

Lemma trunc_mag_nonneg (m : positive) (e : Z) : 0 <= trunc_mag m e.
Proof.
  unfold trunc_mag. destruct (0 <=? e) eqn:He.
  - apply Z.leb_le in He. apply Z.mul_nonneg_nonneg; [lia|]. by apply Z.pow_nonneg.
  - apply Z.div_pos; [lia|]. apply Z.pow_pos_nonneg; lia.
Qed.

(** [int(x)] of a float that is not below zero is not below zero. *)
Lemma py_int_nonneg (x : float) (n : Z) : not_negative x -> py_int x = Ok n -> 0 <= n.
Proof.
  destruct x as [s|s| |s m e]; simpl; try discriminate.
  - intros _ [= <-]. lia.
  - intros -> [= <-]. simpl. apply trunc_mag_nonneg.
Qed.

(** ** Non-negative stocks *)

Lemma stocks_nonneg_empty : Spec.stocks_nonneg ∅.
Proof. intros k v. by rewrite lookup_empty. Qed.

Lemma stocks_nonneg_insert (res : gmap string Z) (k : string) (v : Z) :
  Spec.stocks_nonneg res -> 0 <= v -> Spec.stocks_nonneg (<[k := v]> res).
Proof.
  intros Hres Hv k' v'. destruct (decide (k' = k)) as [->|Hne].
  - rewrite lookup_insert_eq. by intros [= <-].
  - rewrite lookup_insert_ne by done. apply Hres.
Qed.

Lemma stocks_nonneg_get0 (res : gmap string Z) (k : string) :
  Spec.stocks_nonneg res -> 0 <= get0 res k.
Proof.
  intros Hres. unfold get0. destruct (res !! k) as [v|] eqn:Hk; simpl; [|lia].
  by eapply Hres.
Qed.

Lemma ledger_nonneg_insert (rd : gmap string Region) (code : string) (r : Region) :
  Spec.ledger_nonneg rd ->
  (code ∈ STATE_CODES -> Spec.stocks_nonneg (resources r)) ->
  Spec.ledger_nonneg (<[code := r]> rd).
Proof.
  intros Hrd Hr c r' Hc. destruct (decide (c = code)) as [->|Hne].
  - rewrite lookup_insert_eq. intros [= <-]. by apply Hr.
  - rewrite lookup_insert_ne by done. by apply Hrd.
Qed.

Lemma ledger_nonneg_resources_of (rd : gmap string Region) (code : string) :
  Spec.ledger_nonneg rd -> code ∈ STATE_CODES ->
  Spec.stocks_nonneg (resources_of rd code).
Proof.
  intros Hrd Hc. unfold resources_of.
  destruct (rd !! code) as [r|] eqn:Hr; [by eapply Hrd|apply stocks_nonneg_empty].
Qed.

Lemma store_resource_nonneg (rd : gmap string Region) (code res : string) (v : Z) :
  Spec.ledger_nonneg rd -> (code ∈ STATE_CODES -> 0 <= v) ->
  Spec.ledger_nonneg (store_resource rd code res v).
Proof.
  intros Hrd Hv. unfold store_resource.
  destruct (rd !! code) as [r|] eqn:Hr; [|exact Hrd].
  apply ledger_nonneg_insert; [exact Hrd|].
  intros Hc. simpl. apply stocks_nonneg_insert; [by eapply Hrd|by apply Hv].
Qed.

Lemma put_resources_nonneg (rd : gmap string Region) (code : string) (res : gmap string Z) :
  Spec.ledger_nonneg rd -> (code ∈ STATE_CODES -> Spec.stocks_nonneg res) ->
  Spec.ledger_nonneg (put_resources rd code res).
Proof.
  intros Hrd Hres. unfold put_resources.
  destruct (rd !! code) as [r|] eqn:Hr; [|exact Hrd].
  by apply ledger_nonneg_insert.
Qed.

Lemma assign_resources_nonneg (rd rd' : gmap string Region) (code : string)
    (res : gmap string Z) :
  Spec.ledger_nonneg rd -> Spec.stocks_nonneg res ->
  assign_resources rd code res = Ok rd' -> Spec.ledger_nonneg rd'.
Proof.
  intros Hrd Hres. unfold assign_resources.
  destruct (rd !! code) as [r|] eqn:Hr; [|discriminate].
  intros [= <-]. by apply ledger_nonneg_insert.
Qed.

(** *** Step 1 clamps, whatever the ledger held before *)

Lemma _step_produce_consume_nonneg (rd rd' : gmap string Region) :
  _step_produce_consume rd = Ok rd' -> Spec.ledger_nonneg rd'.
Proof.
  intros Hrun code r' Hc Hr'.
  destruct (_step_produce_consume_Ok _ _ Hrun code) as [Hin _].
  destruct (Hin Hc) as (r & _ & Hr). rewrite Hr in Hr'. injection Hr' as <-.
  intros k v. simpl. apply produce_consume_nonneg.
Qed.

(** *** Step 2 *)

Lemma f0_1_not_negative : not_negative f0_1. Proof. reflexivity. Qed.
Lemma f0_5_not_negative : not_negative f0_5. Proof. reflexivity. Qed.
Lemma f0_05_not_negative : not_negative f0_05. Proof. reflexivity. Qed.

Lemma food_subsidy_nonneg (policies : gmap string float) (res res' : gmap string Z) :
  Spec.stocks_nonneg res -> food_subsidy policies res = Ok res' ->
  Spec.stocks_nonneg res'.
Proof.
  intros Hres. unfold food_subsidy.
  destruct (gtb _ zero) eqn:Hpos; [|by intros [= <-]].
  intros Hrun. inv_bind Hrun. rename a into food, Ha into Hfood.
  inv_bind Hrun. rename a into food_bonus.
  inv_bind Hrun. clear Ha0. inv_bind Hrun. injection Hrun as <-.
  assert (0 <= food_bonus).
  { eapply py_int_nonneg; [|exact Ha].
    apply mul_not_negative; [|exact f0_1_not_negative].
    apply mul_not_negative; [|by apply gtb_zero_not_negative].
    eapply float_of_int_not_negative; [|exact Hfood]. by apply stocks_nonneg_get0. }
  apply stocks_nonneg_insert; [|lia].
  apply stocks_nonneg_insert; [exact Hres|].
  pose proof (stocks_nonneg_get0 res "food" Hres). lia.
Qed.

Lemma water_tax_nonneg (policies : gmap string float) (res res' : gmap string Z) :
  Spec.stocks_nonneg res -> water_tax policies res = Ok res' ->
  Spec.stocks_nonneg res'.
Proof.
  intros Hres. unfold water_tax.
  destruct (gtb _ zero) eqn:Hpos; [|by intros [= <-]].
  intros Hrun. inv_bind Hrun. rename a into water, Ha into Hwater.
  inv_bind Hrun. rename a into water_saved. injection Hrun as <-.
  assert (0 <= water_saved).
  { eapply py_int_nonneg; [|exact Ha].
    apply mul_not_negative; [|exact f0_05_not_negative].
    apply mul_not_negative; [|by apply gtb_zero_not_negative].
    eapply float_of_int_not_negative; [|exact Hwater]. by apply stocks_nonneg_get0. }
  apply stocks_nonneg_insert; [exact Hres|].
  pose proof (stocks_nonneg_get0 res "water" Hres). lia.
Qed.

Lemma _step_apply_policies_nonneg (rd rd' : gmap string Region) :
  Spec.ledger_nonneg rd -> _step_apply_policies rd = Ok rd' -> Spec.ledger_nonneg rd'.
Proof.
  unfold _step_apply_policies. intros Hrd.
  apply (foldM_invariant Spec.ledger_nonneg); [|exact Hrd].
  intros s code s' Hc Hs Hstep. inv_bind Hstep. rename a into res.
  unfold assign_resources in Hstep.
  destruct (s !! code) as [r|] eqn:Hr; [|discriminate]. injection Hstep as <-.
  apply ledger_nonneg_insert; [exact Hs|]. intros _. simpl.
  unfold apply_policies, region_of in Ha. rewrite Hr in Ha. simpl in Ha.
  inv_bind Ha.
  eapply water_tax_nonneg; [|exact Ha].
  eapply food_subsidy_nonneg; [|exact Ha0]. by eapply Hs.
Qed.

(** *** Step 3: treaty legs *)

Lemma deliver_nonneg (update_func : bool) (current_tick : Z) (giver receiver : string)
    (st : TreatyManager.LegState) (resource : string) (amount : Z) :
  0 <= amount ->
  Spec.ledger_nonneg (TreatyManager.ls_regions st) ->
  Spec.ledger_nonneg
    (TreatyManager.ls_regions
       (TreatyManager.deliver update_func current_tick giver receiver st
                              (resource, amount))).
Proof.
  intros Hamount Hst. unfold TreatyManager.deliver.
  destruct (amount <=? _) eqn:Hle; [|exact Hst].
  apply Z.leb_le in Hle.
  destruct update_func; simpl; [|exact Hst].
  set (rd1 := store_resource _ giver resource _).
  assert (H1 : Spec.ledger_nonneg rd1).
  { apply store_resource_nonneg; [exact Hst|]. intros _. lia. }
  apply store_resource_nonneg; [exact H1|].
  intros Hrec.
  pose proof (stocks_nonneg_get0 _ resource
                (ledger_nonneg_resources_of rd1 receiver H1 Hrec)). lia.
Qed.

Lemma legs_nonneg (update_func : bool) (current_tick : Z) (giver receiver : string)
    (items : list (string * Z)) (st : TreatyManager.LegState) :
  Spec.amounts_nonneg items ->
  Spec.ledger_nonneg (TreatyManager.ls_regions st) ->
  Spec.ledger_nonneg
    (TreatyManager.ls_regions
       (foldl (TreatyManager.deliver update_func current_tick giver receiver) st items)).
Proof.
  intros Hitems Hst.
  apply (foldl_invariant (fun s => Spec.ledger_nonneg (TreatyManager.ls_regions s)));
    [|exact Hst].
  intros s [resource amount] Hin Hs. apply deliver_nonneg; [|exact Hs].
  unfold Spec.amounts_nonneg in Hitems. rewrite Forall_forall in Hitems.
  by apply (Hitems (resource, amount)).
Qed.

Lemma _enforce_single_nonneg (tr : TreatyManager.Treaty) (rd : gmap string Region)
    (update_func : bool) (current_tick : Z) :
  Spec.amounts_nonneg (TreatyManager.per_tick_offer tr) ->
  Spec.amounts_nonneg (TreatyManager.per_tick_request tr) ->
  Spec.ledger_nonneg rd ->
  Spec.ledger_nonneg (TreatyManager._enforce_single tr rd update_func current_tick).1.1.
Proof.
  intros Hoffer Hrequest Hrd. unfold TreatyManager._enforce_single. simpl.
  apply legs_nonneg; [exact Hrequest|].
  apply legs_nonneg; [exact Hoffer|exact Hrd].
Qed.

Lemma enforce_treaties_nonneg (tm : TreatyManager.t) (current_tick : Z)
    (rd : gmap string Region) (update_func : bool) :
  (forall tr, tr ∈ TreatyManager.active_treaties tm ->
              Spec.amounts_nonneg (TreatyManager.per_tick_offer tr)
              /\ Spec.amounts_nonneg (TreatyManager.per_tick_request tr)) ->
  Spec.ledger_nonneg rd ->
  Spec.ledger_nonneg (TreatyManager.enforce_treaties tm current_tick rd update_func).1.2.
Proof.
  intros Htm Hrd. unfold TreatyManager.enforce_treaties. simpl.
  apply (foldl_invariant (fun s => Spec.ledger_nonneg (TreatyManager.el_regions s)));
    [|exact Hrd].
  intros s tr Hin Hs. unfold TreatyManager.enforce_step.
  destruct (negb _); [exact Hs|].
  destruct (Htm tr Hin) as [Hoffer Hrequest].
  pose proof (_enforce_single_nonneg tr (TreatyManager.el_regions s) update_func
                current_tick Hoffer Hrequest Hs) as Hsingle.
  destruct (TreatyManager._enforce_single _ _ _ _) as [[rd1 tr1] res]. simpl in Hsingle.
  destruct (_ <=? _); exact Hsingle.
Qed.

Lemma apply_trust_nonneg (adj : gmap string Z) (rd : gmap string Region) :
  Spec.ledger_nonneg rd -> Spec.ledger_nonneg (apply_trust adj rd).
Proof.
  intros Hrd code r' Hc. unfold apply_trust. rewrite map_lookup_imap.
  destruct (rd !! code) as [r|] eqn:Hr; simpl; [|discriminate].
  intros [= <-]. destruct (adj !! code); simpl; by eapply Hrd.
Qed.

Lemma _step_enforce_treaties_nonneg (tm tm' : TreatyManager.t) (current_tick : Z)
    (rd rd' : gmap string Region) (results : list TreatyManager.EnforcementResult) :
  (forall tr, tr ∈ TreatyManager.active_treaties tm ->
              Spec.amounts_nonneg (TreatyManager.per_tick_offer tr)
              /\ Spec.amounts_nonneg (TreatyManager.per_tick_request tr)) ->
  Spec.ledger_nonneg rd ->
  _step_enforce_treaties tm current_tick rd = Ok (tm', rd', results) ->
  Spec.ledger_nonneg rd'.
Proof.
  intros Htm Hrd. unfold _step_enforce_treaties.
  destruct (TreatyManager.active_treaties tm) eqn:Hact; [by intros [= <- <- <-]|].
  rewrite <- Hact in Htm.
  pose proof (enforce_treaties_nonneg tm current_tick rd true Htm Hrd) as Henf.
  destruct (TreatyManager.enforce_treaties _ _ _ _) as [[tm1 rd1] res1]. simpl in Henf.
  intros Hrun. inv_bind Hrun. injection Hrun as <- <- <-.
  by apply apply_trust_nonneg.
Qed.

(** *** Step 5: the climate impact *)

Lemma OrderedDict_set_Forall {V} (P : string * V -> Prop) (k : string) (v : V)
    (d : list (string * V)) :
  Forall P d -> P (k, v) -> Forall P (OrderedDict.set k v d).
Proof.
  intros Hd Hkv. induction Hd as [|[k' v'] d Hx Hd IH]; simpl.
  - by constructor.
  - destruct (decide (k' = k)); constructor; assumption.
Qed.

Lemma trigger_climate_event_clamped (db : Firestore.t) (event_id : string)
    (impacts : list (string * Firestore.ImpactDetails)) :
  Firestore.trigger_climate_event db event_id = Ok (Some impacts) ->
  impacts_clamped impacts.
Proof.
  unfold Firestore.trigger_climate_event.
  destruct (Firestore.fails db _); [discriminate|].
  destruct (Firestore.climate_events db !! event_id) as [event|]; [|discriminate].
  destruct (Firestore.regions db !! _) as [region_resources|]; [|discriminate].
  intros Hrun. inv_bind Hrun. injection Hrun as <-. revert Ha.
  apply (foldM_invariant impacts_clamped); [|constructor].
  intros acc [resource factor] acc' _ Hacc Hstep. inv_bind Hstep.
  injection Hstep as <-. unfold Firestore.impact_of in Ha. inv_bind Ha.
  inv_bind Ha. injection Ha as <-. simpl.
  apply OrderedDict_set_Forall; [exact Hacc|]. simpl. lia.
Qed.

Lemma climate_tick_clamped (eng eng' : ClimateEngine.t) (current_tick : Z)
    (rnd : ClimateEngine.Random) (fh : option Firestore.t)
    (events : list ClimateEngine.Event) :
  ClimateEngine.tick eng current_tick rnd fh = Ok (eng', events) ->
  events_clamped events.
Proof.
  unfold ClimateEngine.tick. intros Hrun.
  inv_bind Hrun. destruct a as [eng1 triggered].
  inv_bind Hrun. destruct a as [eng2 expired]. injection Hrun as <- <-.
  intros ev impacts Hin Himpact.
  apply elem_of_app in Hin as [Hin|Hin].
  - unfold ClimateEngine.check_new_events in Ha.
    destruct (_ && _); [|injection Ha as <- <-; inversion Hin].
    destruct (ClimateEngine._select_event eng rnd) as [e|];
      [|injection Ha as <- <-; inversion Hin].
    destruct (negb _); [|injection Ha as <- <-; inversion Hin].
    inv_bind Ha. destruct a as [eng0 ev0]. injection Ha as <- <-.
    apply list_elem_of_singleton in Hin. injection Hin as ->.
    unfold ClimateEngine._trigger_event in Ha1. inv_bind Ha1. injection Ha1 as <- <-.
    simpl in Himpact. subst a.
    destruct fh as [db|]; [|discriminate].
    by eapply trigger_climate_event_clamped.
  - unfold ClimateEngine.tick_down in Ha0. inv_bind Ha0. destruct a as [act evs].
    injection Ha0 as <- <-. apply expire_loop in Ha1 as [_ ->]. simpl in Hin.
    apply list_elem_of_fmap in Hin as (k & Hk & _). discriminate.
Qed.

Lemma apply_climate_event_nonneg (rd : gmap string Region) (event : ClimateEngine.Event) :
  events_clamped [event] ->
  Spec.ledger_nonneg rd -> Spec.ledger_nonneg (apply_climate_event rd event).
Proof.
  intros Hclamped Hrd. unfold apply_climate_event.
  destruct event as [ev|]; [|exact Hrd].
  destruct (ClimateEngine.impact ev) as [impacts|] eqn:Himpact; [|exact Hrd].
  assert (Himp : impacts_clamped impacts).
  { eapply Hclamped; [|exact Himpact]. by apply list_elem_of_singleton. }
  apply (foldl_invariant Spec.ledger_nonneg); [|exact Hrd].
  intros s item Hin Hs. apply store_resource_nonneg; [exact Hs|].
  intros _. unfold impacts_clamped in Himp. rewrite Forall_forall in Himp.
  by apply Himp.
Qed.

Lemma _step_climate_nonneg (eng eng' : ClimateEngine.t) (current_tick : Z)
    (ext : External) (fh : option Firestore.t) (rd rd' : gmap string Region)
    (events : list ClimateEngine.Event) :
  Spec.ledger_nonneg rd ->
  _step_climate eng current_tick ext fh rd = Ok (eng', rd', events) ->
  Spec.ledger_nonneg rd'.
Proof.
  intros Hrd. unfold _step_climate. intros Hrun. inv_bind Hrun. destruct a as [eng1 evs].
  injection Hrun as <- <- <-.
  pose proof (climate_tick_clamped _ _ _ _ _ _ Ha) as Hclamped.
  apply (foldl_invariant Spec.ledger_nonneg); [|exact Hrd].
  intros s event Hin Hs. apply apply_climate_event_nonneg; [|exact Hs].
  intros ev impacts Hev. apply list_elem_of_singleton in Hev. subst event.
  by apply Hclamped.
Qed.

(** *** Steps 6 and 7: direct trades *)

Lemma give_nonneg (sender receiver : gmap string Z) (res : string) (amount : Z) :
  0 <= amount ->
  Spec.stocks_nonneg sender -> Spec.stocks_nonneg receiver ->
  Spec.stocks_nonneg (give (sender, receiver) (res, amount)).1
  /\ Spec.stocks_nonneg (give (sender, receiver) (res, amount)).2.
Proof.
  intros Hamount Hs Hr. simpl.
  pose proof (stocks_nonneg_get0 sender res Hs).
  pose proof (stocks_nonneg_get0 receiver res Hr).
  split; (apply stocks_nonneg_insert; [assumption|lia]).
Qed.

Lemma gives_nonneg (items : list (string * Z)) (sender receiver : gmap string Z) :
  Spec.amounts_nonneg items ->
  Spec.stocks_nonneg sender -> Spec.stocks_nonneg receiver ->
  Spec.stocks_nonneg (foldl give (sender, receiver) items).1
  /\ Spec.stocks_nonneg (foldl give (sender, receiver) items).2.
Proof.
  intros Hitems Hs Hr.
  apply (foldl_invariant
           (fun st => Spec.stocks_nonneg st.1 /\ Spec.stocks_nonneg st.2));
    [|by split].
  intros [s r] [res amount] Hin [Hs' Hr']. apply give_nonneg; try assumption.
  unfold Spec.amounts_nonneg in Hitems. rewrite Forall_forall in Hitems.
  by apply (Hitems (res, amount)).
Qed.

Lemma _execute_direct_trade_nonneg (rd : gmap string Region) (from_code to_code : string)
    (offering requesting : list (string * Z)) :
  from_code ∈ STATE_CODES -> to_code ∈ STATE_CODES ->
  Spec.amounts_nonneg offering -> Spec.amounts_nonneg requesting ->
  Spec.ledger_nonneg rd ->
  Spec.ledger_nonneg (_execute_direct_trade rd from_code to_code offering requesting).
Proof.
  intros Hfrom Hto Hoff Hreq Hrd. unfold _execute_direct_trade.
  pose proof (gives_nonneg offering _ _ Hoff
                (ledger_nonneg_resources_of rd from_code Hrd Hfrom)
                (ledger_nonneg_resources_of rd to_code Hrd Hto)) as [Hf1 Ht1].
  destruct (foldl give _ offering) as [f1 t1]. simpl in Hf1, Ht1.
  pose proof (gives_nonneg requesting _ _ Hreq Ht1 Hf1) as [Ht2 Hf2].
  destruct (foldl give _ requesting) as [t2 f2]. simpl in Hf2, Ht2.
  apply put_resources_nonneg; [|by intros _].
  apply put_resources_nonneg; [exact Hrd|by intros _].
Qed.

Lemma best_partner_state_code (reports : gmap string Report) (code needed partner : string) :
  best_partner reports code needed = Some partner -> partner ∈ STATE_CODES.
Proof.
  unfold best_partner.
  set (P := fun best : option string * Z => forall p, best.1 = Some p -> p ∈ STATE_CODES).
  intros Hbest.
  match type of Hbest with
  | (foldl ?f ?s ?l).1 = _ => assert (HP : P (foldl f s l))
  end.
  { apply foldl_invariant.
    - intros best x Hx HP. destruct (decide (x = code)); [exact HP|].
      destruct (surpluses _ !! needed); [|exact HP].
      destruct (_ <? _); [|exact HP].
      by intros p [= <-].
    - intros p [=]. }
  by apply HP.
Qed.

Lemma _governor_negotiate_nonneg (ext : External) (reports : gmap string Report)
    (rd : gmap string Region) (code : string) (report : Report) :
  proposals_nonneg ext -> code ∈ STATE_CODES ->
  Spec.ledger_nonneg rd ->
  Spec.ledger_nonneg (_governor_negotiate ext reports rd code report).1.
Proof.
  intros Hext Hcode Hrd. unfold _governor_negotiate.
  destruct (top_deficit _) as [needed|]; [|exact Hrd].
  destruct (best_partner _ _ _) as [partner|] eqn:Hpartner; [|exact Hrd].
  destruct (negotiate_trade _ _ _ _ _) as [proposal|e] eqn:Hneg; simpl; [|exact Hrd].
  destruct (Hext _ _ _ _ _ Hneg) as [Hoff Hreq].
  destruct (offering proposal) eqn:Ho, (requesting proposal) eqn:Hr; simpl;
    try exact Hrd.
  apply _execute_direct_trade_nonneg; try assumption.
  by eapply best_partner_state_code.
Qed.

Lemma _step_governor_decisions_nonneg (ext : External) (current_tick : Z)
    (eng : ClimateEngine.t) (reports : gmap string Report) (rd : gmap string Region) :
  proposals_nonneg ext -> Spec.ledger_nonneg rd ->
  Spec.ledger_nonneg (_step_governor_decisions ext current_tick eng reports rd).1.
Proof.
  intros Hext Hrd. unfold _step_governor_decisions.
  apply (foldl_invariant (fun st => Spec.ledger_nonneg st.1)); [|exact Hrd].
  intros st code Hcode Hs. destruct (negb _); [exact Hs|].
  pose proof (_governor_negotiate_nonneg ext reports st.1 code (report_of reports code)
                Hext Hcode Hs) as Hneg.
  destruct (_governor_negotiate _ _ _ _ _) as [rd1 [a|]]; exact Hneg.
Qed.

Lemma find_partner_spec (reports : gmap string Report) (code request_res : string)
    (request_amt : Z) (codes : list string) (other : string) (actual : Z) :
  find_partner reports code request_res request_amt codes = Some (other, actual) ->
  other ∈ codes /\ actual = request_amt.
Proof.
  induction codes as [|c codes IH]; simpl; [discriminate|].
  destruct (decide (c = code)).
  { intros H. destruct (IH H). split; [by right|assumption]. }
  destruct (surpluses _ !! request_res) as [available|].
  - destruct (request_amt <=? available) eqn:Hle.
    + intros [= <- <-]. apply Z.leb_le in Hle. split; [by left|lia].
    + intros H. destruct (IH H). split; [by right|assumption].
  - intros H. destruct (IH H). split; [by right|assumption].
Qed.

Lemma match_recommendation_nonneg (reports : gmap string Report) (code : string)
    (st : gmap string Region * list AutoTrade) (rec : TradeRecommendation) :
  code ∈ STATE_CODES -> 0 <= request_amount rec ->
  Spec.ledger_nonneg st.1 ->
  Spec.ledger_nonneg (match_recommendation reports code st rec).1.
Proof.
  intros Hcode Hreq Hs. unfold match_recommendation.
  destruct (negb _); [exact Hs|].
  destruct (_ || _) eqn:Hskip; [exact Hs|].
  apply orb_false_iff in Hskip as [_ Hoffer]. apply Z.leb_gt in Hoffer.
  destruct (find_partner _ _ _ _ _) as [[other actual]|] eqn:Hfind; [|exact Hs].
  apply find_partner_spec in Hfind as [Hother ->]. simpl.
  apply _execute_direct_trade_nonneg; try assumption.
  - constructor; [simpl; lia|constructor].
  - constructor; [simpl; lia|constructor].
Qed.

Lemma _step_trade_matching_nonneg (reports : gmap string Report)
    (rd : gmap string Region) :
  reports_nonneg reports -> Spec.ledger_nonneg rd ->
  Spec.ledger_nonneg (_step_trade_matching reports rd).1.
Proof.
  intros Hreports Hrd. unfold _step_trade_matching.
  apply (foldl_invariant (fun st => Spec.ledger_nonneg st.1)); [|exact Hrd].
  intros st code Hcode Hs.
  apply (foldl_invariant (fun st => Spec.ledger_nonneg st.1)); [|exact Hs].
  intros st0 rec Hrec Hs0. apply match_recommendation_nonneg; try assumption.
  unfold report_of in Hrec. destruct (reports !! code) as [report|] eqn:Hr.
  - simpl in Hrec. specialize (Hreports _ _ Hr).
    unfold recommendations_nonneg in Hreports. rewrite Forall_forall in Hreports.
    by apply Hreports.
  - simpl in Hrec. inversion Hrec.
Qed.

Lemma _step_finops_analysis_nonneg (ext : External) (rd : gmap string Region)
    (reports : gmap string Report) :
  analysis_nonneg ext -> _step_finops_analysis ext rd = Ok reports ->
  reports_nonneg reports.
Proof.
  intros Hext. unfold _step_finops_analysis.
  apply (foldM_invariant reports_nonneg).
  - intros s code s' _ Hs Hstep. inv_bind Hstep. injection Hstep as <-.
    intros c report. destruct (decide (c = code)) as [->|Hne].
    + rewrite lookup_insert_eq. intros [= <-]. by eapply Hext.
    + rewrite lookup_insert_ne by done. apply Hs.
  - intros c report. by rewrite lookup_empty.
Qed.

(** *** Steps 8 and 10 write no stock *)

Lemma migrate_nonneg (st st' : gmap string Region * list Migration) (code : string) :
  migrate st code = Ok st' -> Spec.ledger_nonneg st.1 -> Spec.ledger_nonneg st'.1.
Proof.
  destruct st as [rd moved]. unfold migrate.
  destruct (ltb _ _); [|by intros [= <-]].
  destruct (best_destination rd code) as [[dest|] w]; [|by intros [= <-]].
  destruct (gtb w _); [|by intros [= <-]].
  intros Hrun Hrd. inv_bind Hrun. clear Ha. rename a into p.
  inv_bind Hrun. destruct (0 <? a); [|by injection Hrun as <-].
  inv_bind Hrun. inv_bind Hrun. injection Hrun as <-. simpl in *.
  unfold assign_population in Ha0, Ha1.
  destruct (rd !! code) as [r|] eqn:Hr; [|discriminate]. injection Ha0 as <-.
  destruct (<[code := _]> rd !! dest) as [rdest|] eqn:Hrdest; [|discriminate].
  injection Ha1 as <-.
  assert (H1 : Spec.ledger_nonneg (<[code := set_population r
                  (default 0 (population (region_of rd code)) - a)]> rd)).
  { apply ledger_nonneg_insert; [exact Hrd|]. intros Hc. simpl. by eapply Hrd. }
  apply ledger_nonneg_insert; [exact H1|]. intros Hc. simpl. by eapply H1.
Qed.

Lemma _step_migration_nonneg (rd rd' : gmap string Region) (moved : list Migration) :
  Spec.ledger_nonneg rd -> _step_migration rd = Ok (rd', moved) ->
  Spec.ledger_nonneg rd'.
Proof.
  intros Hrd Hrun. unfold _step_migration in Hrun.
  apply (foldM_invariant (fun st => Spec.ledger_nonneg st.1) migrate STATE_CODES)
    with (s := (rd, [])) (s' := (rd', moved)); [|exact Hrd|exact Hrun].
  intros s code s' _ Hs Hstep. by eapply migrate_nonneg.
Qed.

Lemma _step_rewards_nonneg (rd rd' : gmap string Region) :
  Spec.ledger_nonneg rd -> _step_rewards rd = Ok rd' -> Spec.ledger_nonneg rd'.
Proof.
  intros Hrd. unfold _step_rewards.
  apply (foldM_invariant Spec.ledger_nonneg); [|exact Hrd].
  intros s code s' Hc Hs Hstep.
  destruct (s !! code) as [r|] eqn:Hr; [|discriminate].
  inv_bind Hstep. apply reward_region_Ok in Ha as (gdp & welfare & _ & _ & ->).
  injection Hstep as <-.
  apply ledger_nonneg_insert; [exact Hs|]. intros _. simpl. by eapply Hs.
Qed.

(** C1 (as the code has it). After a tick in which no amount that a treaty
    promises, a governor proposes or the financial analysis recommends to
    request is negative, every stock of each of the ten regions is at least
    zero, whatever the ledger held before the tick.  So it is after each
    mutation: step 1 clamps every stock at zero from any ledger; the policy
    effects, each treaty leg, the climate impact, each direct trade with
    non-negative amounts, and the migration step take a ledger without
    negative stock to a ledger without negative stock. *)
Theorem resources_never_negative (w w' : WorldEnvironment.t) (ext : External)
    (report : TickEvents) :
  (forall tr, tr ∈ TreatyManager.active_treaties (treaty_manager w) ->
              Spec.amounts_nonneg (TreatyManager.per_tick_offer tr)
              /\ Spec.amounts_nonneg (TreatyManager.per_tick_request tr)) ->
  proposals_nonneg ext ->
  analysis_nonneg ext ->
  tick w ext = Ok (w', report) ->
  Spec.ledger_nonneg (regions_data w')
  /\ (forall rd rd', _step_produce_consume rd = Ok rd' -> Spec.ledger_nonneg rd')
  /\ (forall rd rd', Spec.ledger_nonneg rd -> _step_apply_policies rd = Ok rd' ->
                     Spec.ledger_nonneg rd')
  /\ (forall update_func current_tick giver receiver st resource amount,
        0 <= amount ->
        Spec.ledger_nonneg (TreatyManager.ls_regions st) ->
        Spec.ledger_nonneg
          (TreatyManager.ls_regions
             (TreatyManager.deliver update_func current_tick giver receiver st
                                    (resource, amount))))
  /\ (forall eng eng' current_tick fh rd rd' events,
        Spec.ledger_nonneg rd ->
        _step_climate eng current_tick ext fh rd = Ok (eng', rd', events) ->
        Spec.ledger_nonneg rd')
  /\ (forall rd from_code to_code offering requesting,
        from_code ∈ STATE_CODES -> to_code ∈ STATE_CODES ->
        Spec.amounts_nonneg offering -> Spec.amounts_nonneg requesting ->
        Spec.ledger_nonneg rd ->
        Spec.ledger_nonneg (_execute_direct_trade rd from_code to_code offering requesting))
  /\ (forall rd rd' moved, Spec.ledger_nonneg rd -> _step_migration rd = Ok (rd', moved) ->
                           Spec.ledger_nonneg rd').
Proof.
  intros Htreaties Hproposals Hanalysis Hrun.
  split; [|split; [exact _step_produce_consume_nonneg|]];
    [|split; [exact _step_apply_policies_nonneg|]];
    [|split; [exact deliver_nonneg|]];
    [|split; [intros; by eapply _step_climate_nonneg|]];
    [|split; [exact _execute_direct_trade_nonneg|exact _step_migration_nonneg]].
  unfold tick in Hrun.
  inv_bind Hrun. rename a into rd1, Ha into H1.
  inv_bind Hrun. rename a into rd2, Ha into H2.
  inv_bind Hrun. destruct a as [[tm rd3] treaties]. rename Ha into H3.
  inv_bind Hrun. rename a into reports, Ha into H4.
  inv_bind Hrun. destruct a as [[eng rd5] climate]. rename Ha into H5.
  assert (N1 : Spec.ledger_nonneg rd1) by by eapply _step_produce_consume_nonneg.
  assert (N2 : Spec.ledger_nonneg rd2) by by eapply _step_apply_policies_nonneg.
  assert (N3 : Spec.ledger_nonneg rd3) by by eapply _step_enforce_treaties_nonneg.
  assert (N5 : Spec.ledger_nonneg rd5) by by eapply _step_climate_nonneg.
  pose proof (_step_governor_decisions_nonneg ext (current_tick w + 1) eng reports rd5
                Hproposals N5) as N6.
  destruct (if use_llm w then _ else _) as [rd6 actions] eqn:Hllm.
  assert (N6' : Spec.ledger_nonneg rd6).
  { destruct (use_llm w); [by rewrite Hllm in N6|by injection Hllm as <- <-]. }
  pose proof (_step_trade_matching_nonneg reports rd6
                (_step_finops_analysis_nonneg _ _ _ Hanalysis H4) N6') as N7.
  destruct (_step_trade_matching reports rd6) as [rd7 trades]. simpl in N7.
  inv_bind Hrun. destruct a as [rd8 moved]. rename Ha into H8.
  inv_bind Hrun. destruct a as [parl meeting]. rename Ha into H9.
  inv_bind Hrun. rename a into rd10, Ha into H10.
  injection Hrun as <- <-. simpl.
  eapply _step_rewards_nonneg; [|exact H10].
  by eapply _step_migration_nonneg.
Qed.

Lemma busy_ledger_nonneg : Spec.ledger_nonneg Scenario.busy_ledger.
Proof.
  intros code r Hc Hr k v Hk.
  assert (Hall : forallb (fun c => match Scenario.busy_ledger !! c with
                                   | Some r0 => bool_decide (resources r0
                                                             = Scenario.stock 1000 1000 1000 1000)
                                   | None => true
                                   end) STATE_CODES = true) by (vm_compute; reflexivity).
  rewrite forallb_forall in Hall. apply list_elem_of_In in Hc.
  specialize (Hall _ Hc). rewrite Hr in Hall. apply bool_decide_eq_true in Hall.
  rewrite Hall in Hk. unfold Scenario.stock in Hk.
  repeat (apply lookup_insert_Some in Hk as [[_ <-]|[_ Hk]]; [lia|]).
  by rewrite lookup_empty in Hk.
Qed.

Lemma resources_never_negative_witness :
  exists w' report,
    tick Scenario.busy_world Scenario.busy = Ok (w', report)
    /\ Scenario.busy_summary = Some ([(1%nat, 1%nat)], [Some 400], 1%nat, 1%nat, 1%nat)
    /\ Scenario.stock_after_tick Scenario.busy_world Scenario.busy "PB" "water" = Some 30
    /\ Scenario.stock_after_tick Scenario.busy_world Scenario.busy "MH" "food" = Some 1070
    /\ Scenario.stock_after_tick Scenario.busy_world Scenario.busy "GJ" "energy" = Some 700
    /\ Scenario.stock_after_tick Scenario.busy_world Scenario.busy "RJ" "water" = Some 600
    /\ Spec.ledger_nonneg (regions_data w').
Proof.
  assert (Hsummary : Scenario.busy_summary
                     = Some ([(1%nat, 1%nat)], [Some 400], 1%nat, 1%nat, 1%nat))
    by (vm_compute; reflexivity).
  assert (Hstocks :
            Scenario.stock_after_tick Scenario.busy_world Scenario.busy "PB" "water" = Some 30
            /\ Scenario.stock_after_tick Scenario.busy_world Scenario.busy "MH" "food"
               = Some 1070
            /\ Scenario.stock_after_tick Scenario.busy_world Scenario.busy "GJ" "energy"
               = Some 700
            /\ Scenario.stock_after_tick Scenario.busy_world Scenario.busy "RJ" "water"
               = Some 600)
    by (repeat split; vm_compute; reflexivity).
  destruct Hstocks as (Hpb & Hmh & Hgj & Hrj).
  assert (Hok : is_Ok (tick Scenario.busy_world Scenario.busy) = true)
    by (vm_compute; reflexivity).
  destruct (tick Scenario.busy_world Scenario.busy) as [[w' report]|e] eqn:Hrun;
    [|discriminate Hok].
  exists w', report. split; [reflexivity|].
  split; [exact Hsummary|]. split; [exact Hpb|]. split; [exact Hmh|].
  split; [exact Hgj|]. split; [exact Hrj|].
  assert (Hproposals : proposals_nonneg Scenario.busy).
  { intros c r p s pr Hprop. simpl in Hprop. injection Hprop as <-.
    split; (constructor; [simpl; lia|constructor]). }
  assert (Hanalysis : analysis_nonneg Scenario.busy).
  { intros c r rep Hrep. simpl in Hrep. injection Hrep as <-.
    unfold recommendations_nonneg.
    destruct (decide (c = "PB")); [constructor|].
    destruct (decide (c = "KA")); [|constructor].
    constructor; [simpl; lia|constructor]. }
  assert (Htreaties :
            forall tr,
              tr ∈ TreatyManager.active_treaties (treaty_manager Scenario.busy_world) ->
              Spec.amounts_nonneg (TreatyManager.per_tick_offer tr)
              /\ Spec.amounts_nonneg (TreatyManager.per_tick_request tr)).
  { intros tr Hin. change (tr ∈ [Scenario.energy_treaty]) in Hin.
    apply list_elem_of_singleton in Hin. subst tr.
    split; (constructor; [simpl; lia|constructor]). }
  destruct (resources_never_negative _ _ _ _ Htreaties Hproposals Hanalysis Hrun)
    as [Hnonneg _].
  exact Hnonneg.
Defined.

(** C1, as the claim states it, fails: when the governor of "PB" proposes to
    give -500 units of water, the trade takes them from the receiver "MH",
    which holds 100, and stores -400 for it; the tick returns with that
    stock in the ledger. *)
Lemma negative_offer_goes_negative :
  Scenario.stock_after_tick (Scenario.world true false Scenario.crowded)
                            Scenario.reckless "MH" "water" = Some (-400)
  /\ get0 (resources_of
             (_execute_direct_trade Scenario.crowded "PB" "MH"
                                    [("water", -500)] [("food", 1)])
             "MH") "water" = -400.
Proof. split; vm_compute; reflexivity. Qed.

(** ** Failures of the collaborators *)

Lemma bind_ext {A B} (m : result A) (f g : A -> result B) :
  (forall a, f a = g a) -> m ≫= f = m ≫= g.
Proof. intros Hfg. destruct m as [a|e]; simpl; [apply Hfg|reflexivity]. Qed.

Lemma bind_cong {A B} (m m' : result A) (f g : A -> result B) :
  m = m' -> (forall a, f a = g a) -> m ≫= f = m' ≫= g.
Proof. intros <-. apply bind_ext. Qed.

Lemma foldl_pointwise {A S} (f g : S -> A -> S) (l : list A) (s : S) :
  (forall s x, f s x = g s x) -> foldl f s l = foldl g s l.
Proof.
  intros Hfg. revert s. induction l as [|x l IH]; intros s; simpl; [reflexivity|].
  by rewrite Hfg, IH.
Qed.

(** A negotiation that fails is a negotiation that proposes nothing. *)
Lemma _governor_negotiate_caught (ext : External) (reports : gmap string Report)
    (rd : gmap string Region) (code : string) (report : Report) :
  _governor_negotiate (Spec.without_caught_failures ext) reports rd code report
  = _governor_negotiate ext reports rd code report.
Proof.
  unfold _governor_negotiate.
  destruct (top_deficit _) as [needed|]; [|reflexivity].
  destruct (best_partner _ _ _) as [partner|]; [|reflexivity].
  cbn [Spec.without_caught_failures negotiate_trade].
  destruct (negotiate_trade ext _ _ _ _) as [proposal|e]; reflexivity.
Qed.

Lemma _step_governor_decisions_caught (ext : External) (current_tick : Z)
    (eng : ClimateEngine.t) (reports : gmap string Report) (rd : gmap string Region) :
  _step_governor_decisions (Spec.without_caught_failures ext) current_tick eng reports rd
  = _step_governor_decisions ext current_tick eng reports rd.
Proof.
  unfold _step_governor_decisions. apply foldl_pointwise.
  intros st code. by rewrite _governor_negotiate_caught.
Qed.

(** The failing negotiation itself: the step takes no action for that
    region. *)
Lemma _governor_negotiate_failure (ext : External) (reports : gmap string Report)
    (rd : gmap string Region) (code : string) (report : Report) :
  (forall partner partner_surpluses,
     is_Ok (negotiate_trade ext code report partner partner_surpluses) = false) ->
  _governor_negotiate ext reports rd code report = (rd, None).
Proof.
  intros Hfail. unfold _governor_negotiate.
  destruct (top_deficit _) as [needed|]; [|reflexivity].
  destruct (best_partner _ _ _) as [partner|]; [|reflexivity].
  specialize (Hfail partner (surpluses (report_of reports partner))).
  destruct (negotiate_trade ext _ _ _ _) as [proposal|e]; [discriminate|reflexivity].
Qed.

(** C7 (as the code has it). A failure of the trade negotiation, of the
    store's update call (the sync step) or of its logging call (the
    assembly) does not reach the tick: the tick yields exactly what it
    yields when the failing negotiation returns an empty proposal and the
    store call succeeds; a region whose negotiation fails gets no action;
    and a tick in which all of these calls fail returns its report, with no
    governor action in it. *)
Theorem caught_failures_do_not_abort (w : WorldEnvironment.t) (ext : External) :
  tick w ext = tick w (Spec.without_caught_failures ext)
  /\ (forall reports rd code report,
        (forall partner partner_surpluses,
           is_Ok (negotiate_trade ext code report partner partner_surpluses) = false) ->
        _governor_negotiate ext reports rd code report = (rd, None))
  /\ Scenario.actions_of_tick (Scenario.world true true Scenario.crowded)
                              Scenario.unreachable = Some [].
Proof.
  split; [|split; [apply _governor_negotiate_failure|vm_compute; reflexivity]].
  unfold tick. cbv zeta.
  destruct (firebase_sync w);
    (apply bind_ext; intros rd1;
     apply bind_ext; intros rd2;
     apply bind_ext; intros [[tm rd3] treaties];
     apply bind_ext; intros reports;
     apply bind_cong; [reflexivity|]; intros [[eng rd5] climate];
     rewrite _step_governor_decisions_caught;
     reflexivity).
Qed.

(** C7, as the claim states it, fails: a failure of the financial analysis
    is caught nowhere, and the tick ends with that exception instead of a
    report. *)
Lemma analysis_failure_aborts_tick :
  tick (Scenario.world true true Scenario.crowded) Scenario.broken_analysis
  = Raise ExternalError.
Proof. vm_compute. reflexivity. Qed.

(* ===================================================================== *)
(** * Further properties of the engine *)
(* ===================================================================== *)

(** ** Direct trades move stock, they neither create nor destroy it *)

Lemma give_conserves (sender receiver : gmap string Z) (item : string * Z) (k : string) :
  get0 (give (sender, receiver) item).1 k + get0 (give (sender, receiver) item).2 k
  = get0 sender k + get0 receiver k.
Proof.
  destruct item as [res amount]. simpl. unfold get0.
  destruct (decide (k = res)) as [->|Hne].
  - rewrite !lookup_insert_eq. simpl. lia.
  - rewrite !lookup_insert_ne by done. reflexivity.
Qed.

Lemma gives_conserve (items : list (string * Z)) (sender receiver : gmap string Z)
    (k : string) :
  get0 (foldl give (sender, receiver) items).1 k
  + get0 (foldl give (sender, receiver) items).2 k
  = get0 sender k + get0 receiver k.
Proof.
  apply (foldl_invariant
           (fun st => get0 st.1 k + get0 st.2 k = get0 sender k + get0 receiver k));
    [|reflexivity].
  intros [s r] item _ Hst. rewrite give_conserves. exact Hst.
Qed.

Lemma put_resources_present (rd : gmap string Region) (code c : string)
    (res : gmap string Z) :
  is_Some (put_resources rd code res !! c) <-> is_Some (rd !! c).
Proof.
  unfold put_resources. destruct (rd !! code) as [r|] eqn:Hr; [|reflexivity].
  destruct (decide (c = code)) as [->|Hne].
  - rewrite lookup_insert_eq, Hr. split; eauto.
  - by rewrite lookup_insert_ne.
Qed.

Lemma resources_of_put_resources (rd : gmap string Region) (code c : string)
    (res : gmap string Z) :
  is_Some (rd !! code) ->
  resources_of (put_resources rd code res) c
  = if decide (c = code) then res else resources_of rd c.
Proof.
  intros [r Hr]. unfold put_resources, resources_of. rewrite Hr.
  destruct (decide (c = code)) as [->|Hne].
  - by rewrite lookup_insert_eq.
  - by rewrite lookup_insert_ne.
Qed.

Lemma _execute_direct_trade_stocks (rd : gmap string Region) (from_code to_code : string)
    (offering requesting : list (string * Z)) :
  from_code <> to_code ->
  is_Some (rd !! from_code) -> is_Some (rd !! to_code) ->
  (forall res,
     stock_of (_execute_direct_trade rd from_code to_code offering requesting) from_code res
     + stock_of (_execute_direct_trade rd from_code to_code offering requesting) to_code res
     = stock_of rd from_code res + stock_of rd to_code res)
  /\ (forall c, c <> from_code -> c <> to_code ->
        resources_of (_execute_direct_trade rd from_code to_code offering requesting) c
        = resources_of rd c)
  /\ (forall c,
        is_Some (_execute_direct_trade rd from_code to_code offering requesting !! c)
        <-> is_Some (rd !! c)).
Proof.
  intros Hne Hfrom Hto. unfold _execute_direct_trade, stock_of.
  pose proof (gives_conserve offering (resources_of rd from_code)
                (resources_of rd to_code)) as H1.
  destruct (foldl give _ offering) as [f1 t1]. simpl in H1.
  pose proof (gives_conserve requesting t1 f1) as H2.
  destruct (foldl give _ requesting) as [t2 f2]. simpl in H2.
  assert (Hto' : is_Some (put_resources rd from_code f2 !! to_code))
    by by apply put_resources_present.
  split; [|split].
  - intros res. rewrite !resources_of_put_resources by assumption.
    rewrite (decide_False (P := from_code = to_code)) by exact Hne.
    rewrite !decide_True by reflexivity.
    specialize (H1 res). specialize (H2 res). lia.
  - intros c Hc1 Hc2. rewrite !resources_of_put_resources by assumption.
    by rewrite !decide_False.
  - intros c. by rewrite !put_resources_present.
Qed.

(** X1. A direct trade between two different regions of the ledger leaves,
    for every resource, the sum of the two regions' stocks as it was,
    whatever the amounts are: what the sender loses is what the receiver
    gains.  No other region's stocks change, and no region appears or
    disappears. *)
Theorem direct_trade_conserves (rd : gmap string Region) (from_code to_code : string)
    (offering requesting : list (string * Z)) :
  from_code <> to_code ->
  is_Some (rd !! from_code) -> is_Some (rd !! to_code) ->
  (forall res,
     stock_of (_execute_direct_trade rd from_code to_code offering requesting) from_code res
     + stock_of (_execute_direct_trade rd from_code to_code offering requesting) to_code res
     = stock_of rd from_code res + stock_of rd to_code res)
  /\ (forall c, c <> from_code -> c <> to_code ->
        resources_of (_execute_direct_trade rd from_code to_code offering requesting) c
        = resources_of rd c)
  /\ (forall c,
        is_Some (_execute_direct_trade rd from_code to_code offering requesting !! c)
        <-> is_Some (rd !! c)).
Proof. apply _execute_direct_trade_stocks. Qed.

Lemma direct_trade_conserves_witness :
  stock_of (_execute_direct_trade Scenario.two_regions "PB" "MH" [("water", 5000)] [])
           "PB" "water"
  + stock_of (_execute_direct_trade Scenario.two_regions "PB" "MH" [("water", 5000)] [])
             "MH" "water"
  = 2000.
Proof.
  destruct (direct_trade_conserves Scenario.two_regions "PB" "MH" [("water", 5000)] [])
    as [Hsum _].
  - discriminate.
  - apply (bool_decide_unpack _). vm_compute. exact I.
  - apply (bool_decide_unpack _). vm_compute. exact I.
  - rewrite Hsum. vm_compute. reflexivity.
Defined.

Lemma sum_two_update (l : list string) (f g : string -> Z) (a b : string) :
  NoDup l -> a ∈ l -> b ∈ l -> a <> b ->
  (forall c, c <> a -> c <> b -> g c = f c) ->
  g a + g b = f a + f b ->
  foldr Z.add 0 (map g l) = foldr Z.add 0 (map f l).
Proof.
  intros Hnd Ha Hb Hne Hrest Hsum.
  set (h := fun c => if decide (c = a) then g a else f c).
  assert (Hh : foldr Z.add 0 (map h l) = foldr Z.add 0 (map f l) + (h a - f a)).
  { apply sum_update; [exact Hnd|exact Ha|].
    intros c Hc. unfold h. by rewrite decide_False. }
  assert (Hg : foldr Z.add 0 (map g l) = foldr Z.add 0 (map h l) + (g b - h b)).
  { apply sum_update; [exact Hnd|exact Hb|].
    intros c Hc. unfold h. destruct (decide (c = a)) as [->|Hca]; [reflexivity|].
    by apply Hrest. }
  rewrite Hg, Hh. unfold h. rewrite decide_True by reflexivity.
  rewrite (decide_False (P := b = a)) by (intros ->; by apply Hne). lia.
Qed.

(** A direct trade between two different state codes keeps the total. *)
Lemma _execute_direct_trade_total (rd : gmap string Region) (from_code to_code res : string)
    (offering requesting : list (string * Z)) :
  from_code ∈ STATE_CODES -> to_code ∈ STATE_CODES -> from_code <> to_code ->
  all_regions_present rd ->
  all_regions_present (_execute_direct_trade rd from_code to_code offering requesting)
  /\ total_stock (_execute_direct_trade rd from_code to_code offering requesting) res
     = total_stock rd res.
Proof.
  intros Hfrom Hto Hne Hall.
  destruct (_execute_direct_trade_stocks rd from_code to_code offering requesting Hne
              (Hall _ Hfrom) (Hall _ Hto)) as (Hsum & Hrest & Hdom).
  split.
  - intros c Hc. apply Hdom. by apply Hall.
  - unfold total_stock.
    apply (sum_two_update _ _ _ from_code to_code);
      [exact STATE_CODES_NoDup|exact Hfrom|exact Hto|exact Hne| |apply Hsum].
    intros c Hc1 Hc2. unfold stock_of. by rewrite Hrest.
Qed.

Lemma best_partner_other (reports : gmap string Report) (code needed partner : string) :
  best_partner reports code needed = Some partner -> partner <> code.
Proof.
  unfold best_partner.
  set (P := fun best : option string * Z => forall p, best.1 = Some p -> p <> code).
  intros Hbest.
  match type of Hbest with
  | (foldl ?f ?s ?l).1 = _ => assert (HP : P (foldl f s l))
  end.
  { apply foldl_invariant.
    - intros best x Hx HP. destruct (decide (x = code)); [exact HP|].
      destruct (surpluses _ !! needed); [|exact HP].
      destruct (_ <? _); [|exact HP].
      by intros p [= <-].
    - intros p [=]. }
  by apply HP.
Qed.

Lemma find_partner_other (reports : gmap string Report) (code request_res : string)
    (request_amt : Z) (codes : list string) (other : string) (actual : Z) :
  find_partner reports code request_res request_amt codes = Some (other, actual) ->
  other <> code.
Proof.
  induction codes as [|c codes IH]; simpl; [discriminate|].
  destruct (decide (c = code)); [exact IH|].
  destruct (surpluses _ !! request_res) as [available|]; [|exact IH].
  destruct (request_amt <=? available); [|exact IH].
  by intros [= <- <-].
Qed.

Lemma _governor_negotiate_total (ext : External) (reports : gmap string Report)
    (rd : gmap string Region) (code : string) (report : Report) (res : string) :
  code ∈ STATE_CODES -> all_regions_present rd ->
  all_regions_present (_governor_negotiate ext reports rd code report).1
  /\ total_stock (_governor_negotiate ext reports rd code report).1 res = total_stock rd res.
Proof.
  intros Hcode Hall. unfold _governor_negotiate.
  destruct (top_deficit _) as [needed|]; [|by split].
  destruct (best_partner _ _ _) as [partner|] eqn:Hpartner; [|by split].
  destruct (negotiate_trade _ _ _ _ _) as [proposal|e]; simpl; [|by split].
  destruct (offering proposal), (requesting proposal); simpl; try by split.
  apply _execute_direct_trade_total; try assumption.
  - by eapply best_partner_state_code.
  - intros ->. by eapply best_partner_other.
Qed.

Lemma match_recommendation_total (reports : gmap string Report) (code : string)
    (st : gmap string Region * list AutoTrade) (rec : TradeRecommendation) (res : string) :
  code ∈ STATE_CODES -> all_regions_present st.1 ->
  all_regions_present (match_recommendation reports code st rec).1
  /\ total_stock (match_recommendation reports code st rec).1 res = total_stock st.1 res.
Proof.
  intros Hcode Hall. unfold match_recommendation.
  destruct (negb _); [by split|].
  destruct (_ || _); [by split|].
  destruct (find_partner _ _ _ _ _) as [[other actual]|] eqn:Hfind; [|by split].
  simpl. apply _execute_direct_trade_total; try assumption.
  - by destruct (find_partner_spec _ _ _ _ _ _ _ Hfind).
  - intros ->. by eapply find_partner_other.
Qed.

(** X2. The two trading steps of a tick, the governors' negotiated trades
    (step 6) and the matching of the recommended trades (step 7), leave the
    total stock of every resource over the ten regions unchanged, whatever
    the governors and the analysis ask for, as long as the ledger has an
    entry for each of the ten state codes. *)
Theorem trading_keeps_total_stock (ext : External) (current_tick : Z)
    (eng : ClimateEngine.t) (reports : gmap string Report) (rd : gmap string Region)
    (res : string) :
  all_regions_present rd ->
  total_stock (_step_governor_decisions ext current_tick eng reports rd).1 res
  = total_stock rd res
  /\ total_stock (_step_trade_matching reports rd).1 res = total_stock rd res.
Proof.
  intros Hall. split.
  - unfold _step_governor_decisions.
    apply (foldl_invariant
             (fun st => all_regions_present st.1
                        /\ total_stock st.1 res = total_stock rd res));
      [|by split].
    intros st code Hcode [Hs Ht]. destruct (negb _); [by split|].
    pose proof (_governor_negotiate_total ext reports st.1 code
                  (report_of reports code) res Hcode Hs) as [Hs' Ht'].
    destruct (_governor_negotiate _ _ _ _ _) as [rd1 [a|]]; simpl in *;
      (split; [exact Hs'|congruence]).
  - unfold _step_trade_matching.
    apply (foldl_invariant
             (fun st => all_regions_present st.1
                        /\ total_stock st.1 res = total_stock rd res));
      [|by split].
    intros st code Hcode Hst.
    apply (foldl_invariant
             (fun st => all_regions_present st.1
                        /\ total_stock st.1 res = total_stock rd res));
      [|exact Hst].
    intros st0 rec _ [Hs Ht].
    destruct (match_recommendation_total reports code st0 rec res Hcode Hs) as [Hs' Ht'].
    split; [exact Hs'|congruence].
Qed.

Lemma all_regions_present_Forall (rd : gmap string Region) :
  Forall (fun code => is_Some (rd !! code)) STATE_CODES -> all_regions_present rd.
Proof. intros Hall code Hc. rewrite Forall_forall in Hall. by apply Hall. Qed.

Lemma trading_keeps_total_stock_witness :
  total_stock (_step_governor_decisions Scenario.reckless 10 ClimateEngine.init
                 (list_to_map (map (fun code => (code, if decide (code = "PB")
                                                       then Scenario.thirsty
                                                       else Scenario.wet)) STATE_CODES))
                 Scenario.two_regions).1 "water"
  = 10000.
Proof.
  destruct (trading_keeps_total_stock Scenario.reckless 10 ClimateEngine.init
              (list_to_map (map (fun code => (code, if decide (code = "PB")
                                                    then Scenario.thirsty
                                                    else Scenario.wet)) STATE_CODES))
              Scenario.two_regions "water") as [Hsix _].
  - apply all_regions_present_Forall. apply (bool_decide_unpack _). vm_compute. exact I.
  - rewrite Hsix. vm_compute. reflexivity.
Defined.

(** ** Step 1 rebuilds the resource dicts *)

Lemma per_region_raises (F : Region -> result Region) (l : list string)
    (rd : gmap string Region) (e : exn) :
  (forall r, F r <> Raise e) -> e <> KeyError -> foldM (per_region F) rd l <> Raise e.
Proof.
  intros HF He. revert rd. induction l as [|x l IH]; intros rd; simpl; [discriminate|].
  destruct (per_region F rd x) as [rd1|e1] eqn:Hstep; simpl; [apply IH|].
  unfold per_region in Hstep. destruct (rd !! x) as [r|]; [|congruence].
  pose proof (HF r) as HFr. destruct (F r); simpl in Hstep; congruence.
Qed.

(** X3. Step 1 raises [KeyError] when one of the ten state codes has no
    entry in the ledger, and returns otherwise.  When it returns, the
    resource dict of every state code has exactly the four keys water,
    energy, food and tech: a resource that the region lacked starts from 0,
    and any other resource that it held is dropped. *)
Theorem produce_consume_rebuilds (rd : gmap string Region) :
  (all_regions_present rd -> exists rd', _step_produce_consume rd = Ok rd')
  /\ (~ all_regions_present rd -> _step_produce_consume rd = Raise KeyError)
  /\ (forall rd' code r' k,
        _step_produce_consume rd = Ok rd' -> code ∈ STATE_CODES ->
        rd' !! code = Some r' ->
        (is_Some (resources r' !! k) <-> k ∈ RESOURCES)).
Proof.
  split; [apply _step_produce_consume_total|split].
  - intros Hmissing.
    destruct (_step_produce_consume rd) as [rd'|e] eqn:Hrun.
    + exfalso. apply Hmissing. intros code Hc.
      destruct (_step_produce_consume_Ok _ _ Hrun code) as [Hin _].
      destruct (Hin Hc) as (r & Hr & _). eauto.
    + destruct e; try reflexivity; exfalso;
        rewrite _step_produce_consume_per_region in Hrun;
        revert Hrun; apply per_region_raises; discriminate.
  - intros rd' code r' k Hrun Hc Hr'.
    destruct (_step_produce_consume_Ok _ _ Hrun code) as [Hin _].
    destruct (Hin Hc) as (r & _ & Hr). rewrite Hr in Hr'. injection Hr' as <-.
    simpl. rewrite produce_consume_lookup. case_bool_decide as Hk.
    + split; [done|eauto].
    + split; [intros [v Hv]; discriminate|done].
Qed.

(** ** Step 2: what the policies do to the stocks *)

Lemma _step_apply_policies_per_region (rd : gmap string Region) :
  _step_apply_policies rd
  = foldM (per_region (fun r => res ← apply_policies r; Ok (set_resources r res)))
          rd STATE_CODES.
Proof.
  unfold _step_apply_policies. apply foldM_ext. intros s x _.
  unfold assign_resources, per_region, region_of.
  destruct (s !! x) as [r|]; simpl; [|vm_compute; reflexivity].
  destruct (apply_policies r); reflexivity.
Qed.

Lemma food_subsidy_effect (policies : gmap string float) (res res' : gmap string Z) :
  Spec.stocks_nonneg res -> food_subsidy policies res = Ok res' ->
  get0 res "food" <= get0 res' "food"
  /\ 0 <= get0 res' "energy" <= get0 res "energy"
  /\ (forall k, k <> "food" -> k <> "energy" -> res' !! k = res !! k)
  /\ (gtb (default zero (policies !! "food_subsidy")) zero = false -> res' = res).
Proof.
  intros Hres. unfold food_subsidy.
  pose proof (stocks_nonneg_get0 res "energy" Hres) as Henergy.
  destruct (gtb _ zero) eqn:Hpos.
  2: { intros [= <-]. repeat split; try done; lia. }
  intros Hrun. inv_bind Hrun. rename a into food, Ha into Hfood.
  inv_bind Hrun. rename a into food_bonus, Ha into Hbonus.
  inv_bind Hrun. rename a into bonus, Ha into Hconv.
  inv_bind Hrun. rename a into energy_cost, Ha into Hcost.
  injection Hrun as <-.
  assert (0 <= food_bonus).
  { eapply py_int_nonneg; [|exact Hbonus].
    apply mul_not_negative; [|exact f0_1_not_negative].
    apply mul_not_negative; [|by apply gtb_zero_not_negative].
    eapply float_of_int_not_negative; [|exact Hfood]. by apply stocks_nonneg_get0. }
  assert (0 <= energy_cost).
  { eapply py_int_nonneg; [|exact Hcost].
    apply mul_not_negative; [|exact f0_5_not_negative].
    by eapply float_of_int_not_negative. }
  unfold get0 in *. split; [|split; [|split]].
  - rewrite lookup_insert_ne by done. rewrite lookup_insert_eq. simpl. lia.
  - rewrite lookup_insert_eq. rewrite lookup_insert_ne by done. simpl. lia.
  - intros k Hk1 Hk2. by rewrite !lookup_insert_ne.
  - discriminate.
Qed.

Lemma water_tax_effect (policies : gmap string float) (res res' : gmap string Z) :
  Spec.stocks_nonneg res -> water_tax policies res = Ok res' ->
  get0 res "water" <= get0 res' "water"
  /\ (forall k, k <> "water" -> res' !! k = res !! k)
  /\ (gtb (default zero (policies !! "water_tax")) zero = false -> res' = res).
Proof.
  intros Hres. unfold water_tax.
  destruct (gtb _ zero) eqn:Hpos.
  2: { intros [= <-]. repeat split; try done; lia. }
  intros Hrun. inv_bind Hrun. rename a into water, Ha into Hwater.
  inv_bind Hrun. rename a into water_saved, Ha into Hsaved.
  injection Hrun as <-.
  assert (0 <= water_saved).
  { eapply py_int_nonneg; [|exact Hsaved].
    apply mul_not_negative; [|exact f0_05_not_negative].
    apply mul_not_negative; [|by apply gtb_zero_not_negative].
    eapply float_of_int_not_negative; [|exact Hwater]. by apply stocks_nonneg_get0. }
  unfold get0 in *. split; [|split].
  - rewrite lookup_insert_eq. simpl. lia.
  - intros k Hk. by rewrite lookup_insert_ne.
  - discriminate.
Qed.

Lemma apply_policies_effect (r : Region) (res' : gmap string Z) :
  Spec.stocks_nonneg (resources r) -> apply_policies r = Ok res' ->
  get0 (resources r) "food" <= get0 res' "food"
  /\ get0 (resources r) "water" <= get0 res' "water"
  /\ 0 <= get0 res' "energy" <= get0 (resources r) "energy"
  /\ (forall k, k <> "food" -> k <> "water" -> k <> "energy" ->
                res' !! k = resources r !! k)
  /\ (gtb (default zero (internal_policies r !! "food_subsidy")) zero = false ->
      gtb (default zero (internal_policies r !! "water_tax")) zero = false ->
      res' = resources r).
Proof.
  intros Hres. unfold apply_policies. intros Hrun. inv_bind Hrun. rename a into res1.
  destruct (food_subsidy_effect _ _ _ Hres Ha) as (Hfood & Henergy & Hrest1 & Hoff1).
  assert (Hres1 : Spec.stocks_nonneg res1) by by eapply food_subsidy_nonneg.
  destruct (water_tax_effect _ _ _ Hres1 Hrun) as (Hwater & Hrest2 & Hoff2).
  unfold get0 in *.
  split; [|split; [|split; [|split]]].
  - rewrite (Hrest2 "food") by done. exact Hfood.
  - rewrite <- (Hrest1 "water") by done. exact Hwater.
  - rewrite (Hrest2 "energy") by done. exact Henergy.
  - intros k Hk1 Hk2 Hk3. rewrite Hrest2 by done. by apply Hrest1.
  - intros H1 H2. rewrite (Hoff2 H2). by apply Hoff1.
Qed.

(** X4. On a ledger without negative stock, the policy step (step 2) never
    lowers a state's food or water and never raises its energy, which stays
    at zero or above; it touches no other resource; and a state whose food
    subsidy and water tax are both absent or not above zero keeps all its
    stocks as they are. *)
Theorem policies_effect (rd rd' : gmap string Region) (code : string) :
  Spec.ledger_nonneg rd -> _step_apply_policies rd = Ok rd' -> code ∈ STATE_CODES ->
  stock_of rd code "food" <= stock_of rd' code "food"
  /\ stock_of rd code "water" <= stock_of rd' code "water"
  /\ 0 <= stock_of rd' code "energy" <= stock_of rd code "energy"
  /\ (forall k, k <> "food" -> k <> "water" -> k <> "energy" ->
                resources_of rd' code !! k = resources_of rd code !! k)
  /\ (gtb (default zero (internal_policies (region_of rd code) !! "food_subsidy")) zero
      = false ->
      gtb (default zero (internal_policies (region_of rd code) !! "water_tax")) zero
      = false ->
      resources_of rd' code = resources_of rd code).
Proof.
  intros Hrd Hrun Hc. rewrite _step_apply_policies_per_region in Hrun.
  destruct (per_region_run _ _ STATE_CODES_NoDup _ _ Hrun code) as [Hin _].
  destruct (Hin Hc) as (r & r' & Hr & HF & Hr').
  inv_bind HF. injection HF as <-.
  unfold stock_of, resources_of, region_of. rewrite Hr, Hr'. simpl.
  apply apply_policies_effect; [by eapply Hrd|exact Ha].
Qed.

Lemma policies_effect_witness :
  exists rd',
    _step_apply_policies Scenario.busy_ledger = Ok rd'
    /\ map (stock_of Scenario.busy_ledger "MH") RESOURCES = [1000; 1000; 1000; 1000]
    /\ map (stock_of rd' "MH") RESOURCES = [1010; 975; 1050; 1000]
    /\ stock_of Scenario.busy_ledger "MH" "food" <= stock_of rd' "MH" "food"
    /\ stock_of Scenario.busy_ledger "MH" "water" <= stock_of rd' "MH" "water"
    /\ 0 <= stock_of rd' "MH" "energy" <= stock_of Scenario.busy_ledger "MH" "energy".
Proof.
  assert (Hafter : match _step_apply_policies Scenario.busy_ledger with
                   | Ok rd' => Some (map (stock_of rd' "MH") RESOURCES)
                   | Raise _ => None
                   end = Some [1010; 975; 1050; 1000]) by (vm_compute; reflexivity).
  destruct (_step_apply_policies Scenario.busy_ledger) as [rd'|e] eqn:Hrun;
    [|discriminate Hafter].
  apply (inj Some) in Hafter.
  exists rd'. split; [reflexivity|].
  split; [vm_compute; reflexivity|]. split; [exact Hafter|].
  destruct (policies_effect Scenario.busy_ledger rd' "MH")
    as (Hfood & Hwater & Henergy & _).
  - exact busy_ledger_nonneg.
  - exact Hrun.
  - apply (bool_decide_unpack _). vm_compute. exact I.
  - split; [exact Hfood|]. split; [exact Hwater|exact Henergy].
Defined.

(** ** The tick counter, the log and the assembly's schedule *)

Lemma convene_assembly_meeting (parl parl' : Parliament.t) (ext : External)
    (reports : gmap string Report) (current_tick : Z) (fh : option Firestore.t)
    (m : Parliament.MeetingResult) :
  Parliament.convene_assembly parl ext reports current_tick fh = Ok (parl', m) ->
  Parliament.meeting_count parl' = Parliament.meeting_count parl + 1
  /\ Parliament.meeting_id m = Parliament.meeting_count parl + 1
  /\ Parliament.mr_tick m = current_tick
  /\ Parliament.meeting_history parl' = Parliament.meeting_history parl ++ [m].
Proof.
  unfold Parliament.convene_assembly. intros Hrun.
  inv_bind Hrun. destruct a as [proposals transcript0].
  inv_bind Hrun. injection Hrun as <- <-. by repeat split.
Qed.

Lemma tick_shape (w w' : WorldEnvironment.t) (ext : External) (report : TickEvents) :
  tick w ext = Ok (w', report) ->
  current_tick w' = current_tick w + 1
  /\ te_tick report = current_tick w + 1
  /\ tick_log w' = tick_log w ++ [report]
  /\ use_llm w' = use_llm w /\ firebase_sync w' = firebase_sync w
  /\ (is_Some (assembly report)
      <-> (current_tick w + 1) mod FEDERAL_ASSEMBLY_INTERVAL = 0 /\ use_llm w = true)
  /\ (assembly report = None -> parliament w' = parliament w)
  /\ (forall m, assembly report = Some m ->
        Parliament.meeting_count (parliament w')
        = Parliament.meeting_count (parliament w) + 1
        /\ Parliament.mr_tick m = current_tick w + 1
        /\ Parliament.meeting_history (parliament w')
           = Parliament.meeting_history (parliament w) ++ [m])
  /\ (use_llm w = false -> llm_actions report = []).
Proof.
  unfold tick. intros Hrun.
  inv_bind Hrun. rename a into rd1. clear Ha.
  inv_bind Hrun. rename a into rd2. clear Ha.
  inv_bind Hrun. destruct a as [[tm rd3] treaties]. clear Ha.
  inv_bind Hrun. rename a into reports. clear Ha.
  inv_bind Hrun. destruct a as [[eng rd5] climate]. clear Ha.
  destruct (if use_llm w then _ else _) as [rd6 actions] eqn:H6.
  destruct (_step_trade_matching reports rd6) as [rd7 trades].
  inv_bind Hrun. destruct a as [rd8 moved]. clear Ha.
  inv_bind Hrun. destruct a as [parl meeting]. rename Ha into H9.
  inv_bind Hrun. rename a into rd10. clear Ha.
  injection Hrun as <- <-. simpl.
  split; [reflexivity|]. split; [reflexivity|]. split; [reflexivity|].
  split; [reflexivity|]. split; [reflexivity|].
  assert (Hact : use_llm w = false -> actions = []).
  { intros Hno. rewrite Hno in H6. by injection H6 as <- <-. }
  destruct (bool_decide (_ = 0)) eqn:Hmod, (use_llm w) eqn:Hllm; simpl in H9.
  - inv_bind H9. destruct a as [parl1 m]. injection H9 as <- <-.
    apply bool_decide_eq_true in Hmod.
    unfold _step_assembly in Ha. apply convene_assembly_meeting in Ha
      as (Hcount & _ & Htick & Hhist).
    split; [split; [done|eauto]|]. split; [discriminate|].
    split; [|discriminate]. intros m0 [= <-]. done.
  - injection H9 as <- <-. split; [split; [by intros [? ?]|by intros [_ ?]]|].
    split; [done|]. split; [discriminate|]. by apply Hact.
  - injection H9 as <- <-. apply bool_decide_eq_false in Hmod.
    split; [split; [by intros [? ?]|by intros [? _]]|].
    split; [done|]. split; [discriminate|discriminate].
  - injection H9 as <- <-. split; [split; [by intros [? ?]|by intros [_ ?]]|].
    split; [done|]. split; [discriminate|]. by apply Hact.
Qed.

(** X5. A tick that returns advances the tick counter by one, stamps its
    report with the new tick and appends the report to the log.  The
    federal assembly meets in that tick exactly when the new tick is a
    multiple of 50 and the world runs with its governors; a meeting
    advances the meeting counter by one and is appended to the meeting
    history, and without a meeting the parliament is as it was.  A world
    without governors reports no governor action. *)
Theorem tick_counts_and_assembly (w w' : WorldEnvironment.t) (ext : External)
    (report : TickEvents) :
  tick w ext = Ok (w', report) ->
  current_tick w' = current_tick w + 1
  /\ te_tick report = current_tick w + 1
  /\ tick_log w' = tick_log w ++ [report]
  /\ use_llm w' = use_llm w /\ firebase_sync w' = firebase_sync w
  /\ (is_Some (assembly report)
      <-> (current_tick w + 1) mod FEDERAL_ASSEMBLY_INTERVAL = 0 /\ use_llm w = true)
  /\ (assembly report = None -> parliament w' = parliament w)
  /\ (forall m, assembly report = Some m ->
        Parliament.meeting_count (parliament w')
        = Parliament.meeting_count (parliament w) + 1
        /\ Parliament.mr_tick m = current_tick w + 1
        /\ Parliament.meeting_history (parliament w')
           = Parliament.meeting_history (parliament w) ++ [m])
  /\ (use_llm w = false -> llm_actions report = []).
Proof. apply tick_shape. Qed.

Lemma tick_counts_and_assembly_witness :
  exists w' report,
    tick (Scenario.world false false Scenario.crowded) Scenario.quiet = Ok (w', report)
    /\ current_tick w' = 1 /\ assembly report = None.
Proof.
  assert (Hok : is_Ok (tick (Scenario.world false false Scenario.crowded) Scenario.quiet)
                = true) by (vm_compute; reflexivity).
  destruct (tick (Scenario.world false false Scenario.crowded) Scenario.quiet)
    as [[w' report]|e] eqn:Hrun; [|discriminate Hok].
  exists w', report. split; [reflexivity|].
  destruct (tick_counts_and_assembly _ _ _ _ Hrun)
    as (Htick & _ & _ & _ & _ & Hmeet & _).
  split; [exact Htick|].
  destruct (assembly report) as [m|]; [|reflexivity].
  destruct (proj1 Hmeet) as [_ Hllm]; [eauto|discriminate Hllm].
Defined.

Lemma run_shape (exts : list External) :
  forall w w', run w exts = Ok w' ->
    current_tick w' = current_tick w + Z.of_nat (length exts)
    /\ use_llm w' = use_llm w /\ firebase_sync w' = firebase_sync w
    /\ exists reports,
         tick_log w' = tick_log w ++ reports
         /\ map te_tick reports = seqZ (current_tick w + 1) (Z.of_nat (length exts)).
Proof.
  induction exts as [|ext exts IH]; intros w w' Hrun; simpl in Hrun.
  - injection Hrun as <-. rewrite Z.add_0_r. repeat split.
    exists []. by rewrite app_nil_r.
  - inv_bind Hrun. destruct a as [w1 report].
    destruct (tick_shape _ _ _ _ Ha) as (Htick & Hstamp & Hlog & Hllm & Hsync & _).
    destruct (IH _ _ Hrun) as (Htick' & Hllm' & Hsync' & reports & Hlog' & Hstamps).
    cbn [length]. rewrite Nat2Z.inj_succ.
    split; [lia|]. split; [congruence|]. split; [congruence|].
    exists (report :: reports). split.
    + rewrite Hlog', Hlog, <- app_assoc. reflexivity.
    + rewrite seqZ_cons by lia. simpl. rewrite Hstamp. f_equal.
      rewrite Hstamps, Htick. f_equal; lia.
Qed.

(** X6. A run of [n] ticks in a row that all return advances the tick
    counter by [n] and appends [n] reports to the log, stamped with the
    consecutive ticks that follow the starting one; the two switches of the
    world (governors, store) stay as they were. *)
Theorem run_counts (exts : list External) (w w' : WorldEnvironment.t) :
  run w exts = Ok w' ->
  current_tick w' = current_tick w + Z.of_nat (length exts)
  /\ use_llm w' = use_llm w /\ firebase_sync w' = firebase_sync w
  /\ exists reports,
       tick_log w' = tick_log w ++ reports
       /\ map te_tick reports = seqZ (current_tick w + 1) (Z.of_nat (length exts)).
Proof. apply run_shape. Qed.

Lemma run_counts_witness :
  exists w',
    run (Scenario.world false false Scenario.crowded) [Scenario.quiet; Scenario.quiet]
    = Ok w'
    /\ current_tick w' = 2.
Proof.
  assert (Hok : is_Ok (run (Scenario.world false false Scenario.crowded)
                           [Scenario.quiet; Scenario.quiet]) = true)
    by (vm_compute; reflexivity).
  destruct (run (Scenario.world false false Scenario.crowded)
                [Scenario.quiet; Scenario.quiet]) as [w'|e] eqn:Hrun;
    [|discriminate Hok].
  exists w'. split; [reflexivity|].
  destruct (run_counts _ _ _ Hrun) as [Htick _]. exact Htick.
Defined.

(** ** Step 8: who moves, and where to *)

Lemma welfares_insert (rd : gmap string Region) (code : string) (r r' : Region) :
  rd !! code = Some r -> welfare_score r' = welfare_score r ->
  welfares (<[code := r']> rd) = welfares rd.
Proof.
  intros Hr Hw. unfold welfares. rewrite fmap_insert.
  apply insert_id. by rewrite lookup_fmap, Hr, Hw.
Qed.

Lemma welfare_score_welfares (rd rd' : gmap string Region) (code : string) :
  welfares rd' = welfares rd ->
  welfare_score (region_of rd' code) = welfare_score (region_of rd code).
Proof.
  intros Heq. unfold region_of.
  assert (H : welfares rd' !! code = welfares rd !! code) by by rewrite Heq.
  unfold welfares in H. rewrite !lookup_fmap in H.
  destruct (rd' !! code), (rd !! code); simpl in *; congruence.
Qed.

Lemma best_destination_welfare (rd : gmap string Region) (code dest : string) (w : float) :
  best_destination rd code = (Some dest, w) -> w = destination_welfare rd dest.
Proof.
  unfold best_destination.
  set (P := fun best : option string * float =>
              forall d, best.1 = Some d -> best.2 = destination_welfare rd d).
  intros Hbest.
  match type of Hbest with
  | foldl ?f ?s ?l = _ => assert (HP : P (foldl f s l))
  end.
  { apply foldl_invariant.
    - intros best x Hx HP. destruct (decide (x = code)); [exact HP|].
      destruct (gtb _ _); [|exact HP].
      intros d [= <-]. reflexivity.
    - intros d [=]. }
  rewrite Hbest in HP. by apply HP.
Qed.

(** One iteration of the migration loop writes no welfare score, and moves
    people only out of a state under the threshold into a better one. *)
Lemma migrate_why (rd rd' : gmap string Region) (moved moved' : list Migration)
    (code : string) :
  migrate (rd, moved) code = Ok (rd', moved') ->
  welfares rd' = welfares rd
  /\ (moved' = moved
      \/ exists dest m,
           moved' = moved ++ [{| mg_from := code; mg_to := dest; migrants := m |}]
           /\ ltb (source_welfare rd code) WELFARE_MIGRATION_THRESHOLD = true
           /\ gtb (destination_welfare rd dest) (source_welfare rd code) = true).
Proof.
  unfold migrate. fold (source_welfare rd code).
  destruct (ltb _ _) eqn:Hlow; [|intros [= <- <-]; split; [reflexivity|by left]].
  destruct (best_destination rd code) as [[dest|] w] eqn:Hbest;
    [|intros [= <- <-]; split; [reflexivity|by left]].
  apply best_destination_welfare in Hbest as ->.
  destruct (gtb _ _) eqn:Hbetter; [|intros [= <- <-]; split; [reflexivity|by left]].
  intros Hrun. inv_bind Hrun. clear Ha. rename a into p.
  inv_bind Hrun. rename a into m.
  destruct (0 <? m); [|injection Hrun as <- <-; split; [reflexivity|by left]].
  inv_bind Hrun. rename a into rd1. inv_bind Hrun. rename a into rd2.
  injection Hrun as <- <-.
  unfold assign_population in Ha0, Ha1.
  destruct (rd !! code) as [r|] eqn:Hr; [|discriminate]. injection Ha0 as <-.
  destruct (<[code := _]> rd !! dest) as [rdest|] eqn:Hrd; [|discriminate].
  injection Ha1 as <-.
  split.
  - rewrite (welfares_insert _ _ _ _ Hrd) by reflexivity.
    by rewrite (welfares_insert _ _ _ _ Hr).
  - right. exists dest, m. by repeat split.
Qed.

Lemma migrations_sources (l : list string) :
  forall st st', foldM migrate st l = Ok st' ->
    exists new, st'.2 = st.2 ++ new /\ sublist (map mg_from new) l.
Proof.
  induction l as [|code l IH]; intros [rd moved] st' Hrun; simpl in Hrun.
  - injection Hrun as <-. exists []. split; [by rewrite app_nil_r|constructor].
  - inv_bind Hrun. destruct a as [rd1 moved1].
    destruct (IH _ _ Hrun) as (new & Hnew & Hsub). simpl in Hnew.
    destruct (migrate_why _ _ _ _ _ Ha) as [_ [->|(dest & m & -> & _)]].
    + exists new. split; [exact Hnew|]. by constructor.
    + exists ({| mg_from := code; mg_to := dest; migrants := m |} :: new).
      split; [by rewrite Hnew, <- app_assoc|]. simpl. by constructor.
Qed.

Lemma _step_migration_justified (rd rd' : gmap string Region) (moved : list Migration) :
  _step_migration rd = Ok (rd', moved) ->
  welfares rd' = welfares rd
  /\ Forall (justified rd) moved
  /\ (forall c, ltb (source_welfare rd c) WELFARE_MIGRATION_THRESHOLD = false ->
                Spec.population_of rd c <= Spec.population_of rd' c).
Proof.
  unfold _step_migration. intros Hrun.
  apply (foldM_invariant
           (fun st => welfares st.1 = welfares rd
                      /\ Forall (justified rd) st.2
                      /\ (forall c,
                            ltb (source_welfare rd c) WELFARE_MIGRATION_THRESHOLD = false ->
                            Spec.population_of rd c <= Spec.population_of st.1 c))
           migrate STATE_CODES) with (s' := (rd', moved)) (s := (rd, []));
    [| |exact Hrun].
  2: { split; [reflexivity|]. split; [constructor|]. intros c _. cbn [fst]. lia. }
  intros [s ms] code [s' ms'] Hcode (Hw & Hjust & Hpop) Hstep.
  cbn [fst snd] in Hw, Hjust, Hpop |- *.
  destruct (migrate_why _ _ _ _ _ Hstep) as [Hw' Hwhy].
  split; [congruence|].
  assert (Hsame : forall c, source_welfare s c = source_welfare rd c).
  { intros c. unfold source_welfare. by rewrite (welfare_score_welfares _ _ _ Hw). }
  assert (Hsame' : forall c, destination_welfare s c = destination_welfare rd c).
  { intros c. unfold destination_welfare. by rewrite (welfare_score_welfares _ _ _ Hw). }
  destruct (migrate_moves _ _ _ _ _ Hstep)
    as [[-> ->]|(dest & m & -> & Hm & Hdest & Hne & Hsrc & Hdst & Hother)].
  { by split. }
  destruct Hwhy as [Hnone|(dest' & m' & Heq & Hlow & Hbetter)].
  { exfalso. apply (f_equal length) in Hnone. rewrite length_app in Hnone.
    simpl in Hnone. lia. }
  apply app_inj_tail in Heq as [_ [= <- <-]].
  rewrite Hsame in Hlow, Hbetter. rewrite Hsame' in Hbetter.
  split.
  - apply Forall_app. split; [exact Hjust|].
    constructor; [|constructor]. by repeat split.
  - intros c Hc. specialize (Hpop c Hc).
    assert (c <> code) by (intros ->; congruence).
    destruct (decide (c = dest)) as [->|Hcd].
    + rewrite Hdst. lia.
    + by rewrite Hother.
Qed.

(** X7. The migration step moves people only out of a state whose welfare
    score is under the threshold of 35 and only into a different state whose
    welfare score is strictly higher, always a positive number of them.  A
    state leaves at most once in a step, in the order of the state codes;
    no welfare score changes; and a state that is not under the threshold
    loses nobody. *)
Theorem migration_direction (rd rd' : gmap string Region) (moved : list Migration) :
  _step_migration rd = Ok (rd', moved) ->
  Forall (justified rd) moved
  /\ sublist (map mg_from moved) STATE_CODES
  /\ welfares rd' = welfares rd
  /\ (forall c, ltb (source_welfare rd c) WELFARE_MIGRATION_THRESHOLD = false ->
                Spec.population_of rd c <= Spec.population_of rd' c).
Proof.
  intros Hrun.
  destruct (_step_migration_justified _ _ _ Hrun) as (Hw & Hjust & Hpop).
  destruct (migrations_sources _ _ _ Hrun) as (new & Hnew & Hsub). simpl in Hnew.
  subst new. by repeat split.
Qed.

Lemma migration_direction_witness :
  exists rd' moved,
    _step_migration Scenario.crowded = Ok (rd', moved)
    /\ Forall (justified Scenario.crowded) moved
    /\ map mg_from moved = ["PB"; "MH"].
Proof.
  assert (Hmoved : match _step_migration Scenario.crowded with
                   | Ok (_, moved) => Some (map mg_from moved)
                   | Raise _ => None
                   end = Some ["PB"; "MH"]) by (vm_compute; reflexivity).
  destruct (_step_migration Scenario.crowded) as [[rd' moved]|e] eqn:Hrun;
    [|discriminate Hmoved].
  exists rd', moved. split; [reflexivity|].
  destruct (migration_direction _ _ _ Hrun) as [Hjust _].
  split; [exact Hjust|]. by injection Hmoved.
Defined.

(** ** What the steps leave alone *)

(** A view of a region that does not look at its resources is the same
    before and after every step that writes resources only. *)
Section Frame.
Context {A : Type} (view : Region -> A).
Hypothesis view_resources : forall r res, view (set_resources r res) = view r.

Lemma frame_insert (rd : gmap string Region) (code : string) (r r' : Region) :
  rd !! code = Some r -> view r' = view r -> view <$> <[code := r']> rd = view <$> rd.
Proof.
  intros Hr Hv. rewrite fmap_insert. apply insert_id. by rewrite lookup_fmap, Hr, Hv.
Qed.


Lemma store_resource_frame (rd : gmap string Region) (code res : string) (v : Z) :
  view <$> store_resource rd code res v = view <$> rd.
Proof.
  unfold store_resource. destruct (rd !! code) as [r|] eqn:Hr; [|reflexivity].
  by eapply frame_insert.
Qed.




Lemma deliver_frame (update_func : bool) (current_tick : Z)
    (giver receiver : string) (st : TreatyManager.LegState) (item : string * Z) :
  view <$> TreatyManager.ls_regions
             (TreatyManager.deliver update_func current_tick giver receiver st item)
  = view <$> TreatyManager.ls_regions st.
Proof.
  unfold TreatyManager.deliver. destruct item as [resource amount].
  destruct (_ <=? _); [|reflexivity].
  destruct update_func; simpl; [|reflexivity].
  by rewrite !store_resource_frame.
Qed.

Lemma _enforce_single_frame (tr : TreatyManager.Treaty)
    (rd : gmap string Region) (update_func : bool) (current_tick : Z) :
  view <$> (TreatyManager._enforce_single tr rd update_func current_tick).1.1
  = view <$> rd.
Proof.
  unfold TreatyManager._enforce_single. simpl.
  set (P := fun st => view <$> TreatyManager.ls_regions st = view <$> rd).
  apply (foldl_invariant P).
  { intros s x _ Hs. unfold P in *. by rewrite deliver_frame. }
  apply (foldl_invariant P).
  { intros s x _ Hs. unfold P in *. by rewrite deliver_frame. }
  reflexivity.
Qed.

Lemma enforce_treaties_frame (tm : TreatyManager.t) (current_tick : Z)
    (rd : gmap string Region) (update_func : bool) :
  view <$> (TreatyManager.enforce_treaties tm current_tick rd update_func).1.2
  = view <$> rd.
Proof.
  unfold TreatyManager.enforce_treaties. simpl.
  set (P := fun st => view <$> TreatyManager.el_regions st = view <$> rd).
  apply (foldl_invariant P); [|reflexivity].
  intros s tr _ Hs. unfold P in *. unfold TreatyManager.enforce_step.
  destruct (negb _); [exact Hs|].
  pose proof (_enforce_single_frame tr (TreatyManager.el_regions s)
                update_func current_tick) as Hsingle.
  destruct (TreatyManager._enforce_single _ _ _ _) as [[rd1 tr1] res]. simpl in Hsingle.
  destruct (_ <=? _); simpl; by rewrite Hsingle.
Qed.





Hypothesis view_trust_score : forall r t, view (set_trust_score r t) = view r.
Hypothesis view_population : forall r p, view (set_population r p) = view r.
Hypothesis view_scores : forall r g w u, view (set_scores r g w u) = view r.




End Frame.



(** ** Step 3: the trust scores after the enforcement *)

Lemma setdefault0_keys (k code : string) (adj : gmap string Z) :
  is_Some (TreatyManager.setdefault0 k adj !! code) <-> is_Some (adj !! code) \/ code = k.
Proof.
  unfold TreatyManager.setdefault0. destruct (adj !! k) as [v|] eqn:Hk.
  - split; [by left|]. intros [H| ->]; [exact H|eauto].
  - destruct (decide (code = k)) as [->|Hne].
    + rewrite lookup_insert_eq. split; [by right|eauto].
    + rewrite lookup_insert_ne by done. split; [by left|]. by intros [H|H].
Qed.

Lemma bump_keys (k code : string) (d : Z) (adj adj' : gmap string Z) :
  TreatyManager.bump k d adj = Ok adj' -> is_Some (adj' !! code) <-> is_Some (adj !! code).
Proof.
  unfold TreatyManager.bump. destruct (adj !! k) as [v|] eqn:Hk; [|discriminate].
  intros [= <-]. destruct (decide (code = k)) as [->|Hne].
  - rewrite lookup_insert_eq, Hk. split; eauto.
  - by rewrite lookup_insert_ne.
Qed.

Lemma penalties_keys (bs : list TreatyManager.Breach) (code : string) :
  forall adj adj',
    foldM (fun a b => TreatyManager.bump (TreatyManager.breacher b)
                                         (- TREATY_BREACH_TRUST_PENALTY) a) adj bs
    = Ok adj' ->
    is_Some (adj' !! code) <-> is_Some (adj !! code).
Proof.
  induction bs as [|b bs IH]; intros adj adj' Hrun; simpl in Hrun.
  - by injection Hrun as <-.
  - inv_bind Hrun. rewrite (IH _ _ Hrun). by eapply bump_keys.
Qed.

Lemma adjust_for_keys (adj adj' : gmap string Z) (res : TreatyManager.EnforcementResult)
    (code : string) :
  TreatyManager.adjust_for adj res = Ok adj' ->
  is_Some (adj' !! code)
  <-> is_Some (adj !! code)
      \/ code = TreatyManager.r_from res \/ code = TreatyManager.r_to res.
Proof.
  unfold TreatyManager.adjust_for. intros Hrun.
  assert (Hkeys : is_Some (adj' !! code)
                  <-> is_Some (TreatyManager.setdefault0 (TreatyManager.r_to res)
                                 (TreatyManager.setdefault0 (TreatyManager.r_from res) adj)
                               !! code)).
  { destruct (TreatyManager.r_breaches res) as [|b bs].
    - inv_bind Hrun. rewrite (bump_keys _ _ _ _ _ Hrun). by eapply bump_keys.
    - by eapply penalties_keys. }
  rewrite Hkeys, !setdefault0_keys. tauto.
Qed.

Lemma calculate_keys (results : list TreatyManager.EnforcementResult) (code : string) :
  forall adj adj',
    foldM TreatyManager.adjust_for adj results = Ok adj' ->
    is_Some (adj' !! code)
    <-> is_Some (adj !! code)
        \/ Exists (fun res => code = TreatyManager.r_from res
                              \/ code = TreatyManager.r_to res) results.
Proof.
  induction results as [|res results IH]; intros adj adj' Hrun; simpl in Hrun.
  - injection Hrun as <-. rewrite Exists_nil. tauto.
  - inv_bind Hrun. rewrite (IH _ _ Hrun), (adjust_for_keys _ _ _ code Ha), Exists_cons.
    tauto.
Qed.

Lemma _step_enforce_treaties_trust (tm tm' : TreatyManager.t) (current_tick : Z)
    (rd rd' : gmap string Region) (results : list TreatyManager.EnforcementResult)
    (code : string) :
  _step_enforce_treaties tm current_tick rd = Ok (tm', rd', results) ->
  (Exists (fun res => code = TreatyManager.r_from res \/ code = TreatyManager.r_to res)
          results ->
   forall r', rd' !! code = Some r' ->
     exists r t,
       rd !! code = Some r /\ trust_score r' = Some t /\ 0 <= t <= 100
       /\ t = Z.max 0 (Z.min 100 (default 100 (trust_score r)
                                  + Spec.total_contribution results code)))
  /\ (~ Exists (fun res => code = TreatyManager.r_from res
                           \/ code = TreatyManager.r_to res) results ->
      trust_score <$> rd' !! code = trust_score <$> rd !! code).
Proof.
  unfold _step_enforce_treaties.
  destruct (TreatyManager.active_treaties tm).
  { intros [= <- <- <-]. split; [intros H; by apply Exists_nil in H|done]. }
  pose proof (enforce_treaties_frame trust_score (fun _ _ => eq_refl) tm current_tick
                rd true) as Henf.
  destruct (TreatyManager.enforce_treaties _ _ _ _) as [[tm1 rd1] res1]. simpl in Henf.
  intros Hrun. inv_bind Hrun. rename a into adj. injection Hrun as <- <- <-.
  assert (Hcode : trust_score <$> rd1 !! code = trust_score <$> rd !! code).
  { rewrite <- !lookup_fmap. by rewrite Henf. }
  unfold TreatyManager.calculate_trust_adjustments in Ha.
  pose proof (calculate_keys _ code _ _ Ha) as Hkeys.
  pose proof (calculate_from _ code _ _ Ha) as Hval.
  rewrite lookup_empty in Hkeys, Hval. simpl in Hval.
  unfold apply_trust. rewrite map_lookup_imap.
  split.
  - intros Hparty r' Hr'.
    destruct (proj2 Hkeys (or_intror Hparty)) as [a Hadj].
    rewrite Hadj in Hval. simpl in Hval.
    destruct (rd1 !! code) as [r1|]; simpl in Hr'; [|discriminate].
    rewrite Hadj in Hr'. injection Hr' as <-.
    destruct (rd !! code) as [r|]; simpl in Hcode; [|discriminate].
    injection Hcode as Htrust.
    exists r, (Z.max 0 (Z.min 100 (default 100 (trust_score r1) + a))).
    split; [reflexivity|]. split; [reflexivity|]. split; [lia|].
    rewrite Htrust. f_equal. f_equal. lia.
  - intros Hnone.
    assert (Hadj : adj !! code = None).
    { destruct (adj !! code) eqn:Hadj; [|reflexivity].
      exfalso. destruct (proj1 Hkeys) as [[? [=]]|H]; eauto. }
    rewrite <- Hcode. destruct (rd1 !! code) as [r1|]; simpl; [|reflexivity].
    by rewrite Hadj.
Qed.

(** X9. After the treaty step, the trust score of every region that was a
    party to a treaty enforced in this tick is its score before (100 when
    it had none) plus the sum of what the results contribute to it,
    clamped into the range from 0 to 100; the trust score of every other
    region is as it was. *)
Theorem trust_after_treaties (tm tm' : TreatyManager.t) (current_tick : Z)
    (rd rd' : gmap string Region) (results : list TreatyManager.EnforcementResult)
    (code : string) :
  _step_enforce_treaties tm current_tick rd = Ok (tm', rd', results) ->
  (Exists (fun res => code = TreatyManager.r_from res \/ code = TreatyManager.r_to res)
          results ->
   forall r', rd' !! code = Some r' ->
     exists r t,
       rd !! code = Some r /\ trust_score r' = Some t /\ 0 <= t <= 100
       /\ t = Z.max 0 (Z.min 100 (default 100 (trust_score r)
                                  + Spec.total_contribution results code)))
  /\ (~ Exists (fun res => code = TreatyManager.r_from res
                           \/ code = TreatyManager.r_to res) results ->
      trust_score <$> rd' !! code = trust_score <$> rd !! code).
Proof. apply _step_enforce_treaties_trust. Qed.

Lemma trust_after_treaties_witness :
  exists tm' rd' results,
    _step_enforce_treaties
      {| TreatyManager.active_treaties := [Scenario.water_treaty];
         TreatyManager.expired_treaties := []; TreatyManager.treaty_counter := 1 |}
      1 Scenario.dry_rajasthan
    = Ok (tm', rd', results)
    /\ forall r', rd' !! "RJ" = Some r' ->
         exists t, trust_score r' = Some t /\ 0 <= t <= 100.
Proof.
  set (tm := {| TreatyManager.active_treaties := [Scenario.water_treaty];
                TreatyManager.expired_treaties := [];
                TreatyManager.treaty_counter := 1 |}).
  assert (Hfrom : match _step_enforce_treaties tm 1 Scenario.dry_rajasthan with
                  | Ok (_, _, results) => Some (map TreatyManager.r_from results)
                  | Raise _ => None
                  end = Some ["RJ"]) by (vm_compute; reflexivity).
  destruct (_step_enforce_treaties tm 1 Scenario.dry_rajasthan)
    as [[[tm' rd'] results]|e] eqn:Hrun; [|discriminate Hfrom].
  exists tm', rd', results. split; [reflexivity|].
  intros r' Hr'.
  destruct (trust_after_treaties tm tm' 1 Scenario.dry_rajasthan rd' results "RJ" Hrun)
    as [Hparty _].
  destruct (Hparty) with (r' := r') as (r & t & _ & Ht & Hrange & _).
  - injection Hfrom as Hfrom. destruct results as [|res results]; [discriminate|].
    injection Hfrom as Hres _. apply Exists_cons_hd. by left.
  - exact Hr'.
  - eauto.
Defined.

(** ** Writes of one stock *)

Lemma store_resource_present (rd : gmap string Region) (code res c : string) (v : Z) :
  is_Some (store_resource rd code res v !! c) <-> is_Some (rd !! c).
Proof.
  unfold store_resource. destruct (rd !! code) as [r|] eqn:Hr; [|reflexivity].
  destruct (decide (c = code)) as [->|Hne].
  - rewrite lookup_insert_eq, Hr. split; eauto.
  - by rewrite lookup_insert_ne.
Qed.

Lemma stock_of_store_resource (rd : gmap string Region) (code res c k : string) (v : Z) :
  is_Some (rd !! code) ->
  stock_of (store_resource rd code res v) c k
  = if decide (c = code /\ k = res) then v else stock_of rd c k.
Proof.
  intros [r Hr]. unfold stock_of, store_resource, resources_of, get0. rewrite Hr.
  destruct (decide (c = code)) as [->|Hc].
  - rewrite lookup_insert_eq, Hr. simpl.
    destruct (decide (k = res)) as [->|Hk].
    + rewrite decide_True by done. by rewrite lookup_insert_eq.
    + rewrite decide_False by (intros [_ ?]; done). by rewrite lookup_insert_ne.
  - rewrite lookup_insert_ne by done. rewrite decide_False by (intros [? _]; done).
    reflexivity.
Qed.

(** ** Treaty enforcement: one record per leg, and what each leg moves *)

Lemma store_resource_other (rd : gmap string Region) (code res c : string) (v : Z) :
  c <> code -> store_resource rd code res v !! c = rd !! c.
Proof.
  intros Hne. unfold store_resource.
  destruct (rd !! code); [by rewrite lookup_insert_ne|reflexivity].
Qed.

(** What one leg does to the ledger. *)
Lemma deliver_effect (update_func : bool) (current_tick : Z) (giver receiver : string)
    (st : TreatyManager.LegState) (resource : string) (amount : Z) :
  let rd := TreatyManager.ls_regions st in
  let rd' := TreatyManager.ls_regions
               (TreatyManager.deliver update_func current_tick giver receiver st
                                      (resource, amount)) in
  (forall c, is_Some (rd' !! c) <-> is_Some (rd !! c))
  /\ (forall c, c <> giver -> c <> receiver -> rd' !! c = rd !! c)
  /\ (update_func = false -> rd' = rd)
  /\ (stock_of rd giver resource < amount -> rd' = rd)
  /\ (update_func = true -> amount <= stock_of rd giver resource -> giver <> receiver ->
      is_Some (rd !! giver) -> is_Some (rd !! receiver) ->
      forall k,
        stock_of rd' giver k
        = stock_of rd giver k - (if decide (resource = k) then amount else 0)
        /\ stock_of rd' receiver k
           = stock_of rd receiver k + (if decide (resource = k) then amount else 0)).
Proof.
  intros rd rd'. subst rd'. unfold TreatyManager.deliver.
  fold rd. change (get0 (resources_of rd giver) resource) with (stock_of rd giver resource).
  destruct (amount <=? stock_of rd giver resource) eqn:Hle.
  2: { apply Z.leb_gt in Hle. cbn [TreatyManager.ls_regions]. fold rd.
       repeat split; auto; try (intros; lia). }
  apply Z.leb_le in Hle. cbn [TreatyManager.ls_regions].
  destruct update_func.
  2: { repeat split; auto; try (intros; lia); try discriminate. }
  set (rd1 := store_resource rd giver resource (stock_of rd giver resource - amount)).
  change (get0 (resources_of rd1 receiver) resource)
    with (stock_of rd1 receiver resource).
  split; [intros c; unfold rd1; by rewrite !store_resource_present|].
  split; [intros c Hg Hr; unfold rd1; by rewrite !store_resource_other|].
  split; [discriminate|]. split; [lia|].
  intros _ _ Hne Hgiver Hreceiver k.
  assert (Hreceiver1 : is_Some (rd1 !! receiver)) by by apply store_resource_present.
  rewrite !stock_of_store_resource by assumption.
  unfold rd1. rewrite !stock_of_store_resource by assumption.
  destruct (decide (resource = k)) as [<-|Hk].
  - rewrite (decide_False (P := giver = receiver /\ _)) by (intros [? _]; done).
    rewrite (decide_False (P := receiver = giver /\ _)) by (intros [? _]; done).
    rewrite !decide_True by done. lia.
  - rewrite !decide_False by (intros [_ ?]; done). lia.
Qed.

Lemma moved_cons (item : string * Z) (items : list (string * Z)) (k : string) :
  moved (item :: items) k = (if decide (item.1 = k) then item.2 else 0) + moved items k.
Proof. reflexivity. Qed.

(** One loop of [_enforce_single]: the records it adds and the stock it
    moves, [sent] being the items of the legs that were delivered. *)
Lemma legs_records (update_func : bool) (current_tick : Z) (giver receiver : string)
    (items : list (string * Z)) :
  forall st,
    exists sent brs logs,
      TreatyManager.ls_transfers
        (foldl (TreatyManager.deliver update_func current_tick giver receiver) st items)
      = TreatyManager.ls_transfers st ++ map (delivered giver receiver) sent
      /\ TreatyManager.ls_breaches
           (foldl (TreatyManager.deliver update_func current_tick giver receiver) st items)
         = TreatyManager.ls_breaches st ++ brs
      /\ TreatyManager.ls_log
           (foldl (TreatyManager.deliver update_func current_tick giver receiver) st items)
         = TreatyManager.ls_log st ++ logs
      /\ (length sent + length brs = length items)%nat
      /\ length logs = length brs
      /\ Forall (fun b => 0 < TreatyManager.shortfall b) brs
      /\ Forall (fun g => TreatyManager.bl_tick g = current_tick
                          /\ TreatyManager.bl_available g < TreatyManager.bl_promised g) logs
      /\ sublist sent items
      /\ (forall c,
            is_Some (TreatyManager.ls_regions
                       (foldl (TreatyManager.deliver update_func current_tick giver
                                                     receiver) st items) !! c)
            <-> is_Some (TreatyManager.ls_regions st !! c))
      /\ (forall c, c <> giver -> c <> receiver ->
            TreatyManager.ls_regions
              (foldl (TreatyManager.deliver update_func current_tick giver receiver)
                     st items) !! c
            = TreatyManager.ls_regions st !! c)
      /\ (update_func = false ->
          TreatyManager.ls_regions
            (foldl (TreatyManager.deliver update_func current_tick giver receiver) st items)
          = TreatyManager.ls_regions st)
      /\ (update_func = true -> giver <> receiver ->
          is_Some (TreatyManager.ls_regions st !! giver) ->
          is_Some (TreatyManager.ls_regions st !! receiver) ->
          forall k,
            stock_of (TreatyManager.ls_regions
                        (foldl (TreatyManager.deliver update_func current_tick giver
                                                      receiver) st items)) giver k
            = stock_of (TreatyManager.ls_regions st) giver k - moved sent k
            /\ stock_of (TreatyManager.ls_regions
                           (foldl (TreatyManager.deliver update_func current_tick giver
                                                         receiver) st items)) receiver k
               = stock_of (TreatyManager.ls_regions st) receiver k + moved sent k).
Proof.
  induction items as [|[resource amount] items IH]; intros st; cbn [foldl].
  - exists [], [], []. rewrite !app_nil_r.
    repeat split; try constructor; auto; unfold moved; simpl; lia.
  - pose proof (deliver_effect update_func current_tick giver receiver st resource amount)
      as (Hpresent & Hothers & Hoff & Hshort & Hmove).
    set (st1 := TreatyManager.deliver update_func current_tick giver receiver st
                                      (resource, amount)) in *.
    assert (Hrec :
              (amount <= stock_of (TreatyManager.ls_regions st) giver resource
               /\ TreatyManager.ls_transfers st1
                  = TreatyManager.ls_transfers st
                    ++ [delivered giver receiver (resource, amount)]
               /\ TreatyManager.ls_breaches st1 = TreatyManager.ls_breaches st
               /\ TreatyManager.ls_log st1 = TreatyManager.ls_log st)
              \/ (stock_of (TreatyManager.ls_regions st) giver resource < amount
                  /\ TreatyManager.ls_transfers st1 = TreatyManager.ls_transfers st
                  /\ exists b g,
                       TreatyManager.ls_breaches st1 = TreatyManager.ls_breaches st ++ [b]
                       /\ TreatyManager.ls_log st1 = TreatyManager.ls_log st ++ [g]
                       /\ 0 < TreatyManager.shortfall b
                       /\ TreatyManager.bl_tick g = current_tick
                       /\ TreatyManager.bl_available g < TreatyManager.bl_promised g)).
    { unfold st1, TreatyManager.deliver, stock_of.
      destruct (amount <=? _) eqn:Hle; [left|right]; cbn.
      - apply Z.leb_le in Hle. by repeat split.
      - apply Z.leb_gt in Hle. split; [exact Hle|]. split; [reflexivity|].
        eexists _, _. split; [reflexivity|]. split; [reflexivity|]. cbn. lia. }
    destruct (IH st1)
      as (sent & brs & logs & Ht & Hb & Hl & Hlen & Hlog & Hpos & Hstamp & Hsub
          & Hpresent' & Hothers' & Hoff' & Hmove').
    destruct Hrec as [(Hge & Ht1 & Hb1 & Hl1)|(Hlt & Ht1 & b & g & Hb1 & Hl1 & Hb0 & Hg0)].
    + exists ((resource, amount) :: sent), brs, logs.
      rewrite Ht, Hb, Hl, Ht1, Hb1, Hl1, <- !app_assoc. cbn [map app length].
      split; [reflexivity|]. split; [reflexivity|]. split; [reflexivity|].
      split; [lia|]. split; [exact Hlog|]. split; [exact Hpos|]. split; [exact Hstamp|].
      split; [by constructor|].
      split; [intros c; by rewrite Hpresent', Hpresent|].
      split; [intros c Hg Hr; by rewrite Hothers', Hothers|].
      split; [intros Hf; by rewrite Hoff', Hoff|].
      intros Hon Hne Hgiver Hreceiver k.
      destruct (Hmove' Hon Hne (proj2 (Hpresent giver) Hgiver)
                       (proj2 (Hpresent receiver) Hreceiver) k) as [Hg2 Hr2].
      destruct (Hmove Hon Hge Hne Hgiver Hreceiver k) as [Hg1 Hr1].
      rewrite Hg2, Hr2, Hg1, Hr1, moved_cons. cbn [fst snd]. lia.
    + exists sent, (b :: brs), (g :: logs).
      rewrite Ht, Hb, Hl, Ht1, Hb1, Hl1, <- !app_assoc. cbn [map app length].
      split; [reflexivity|]. split; [reflexivity|]. split; [reflexivity|].
      split; [lia|]. split; [lia|]. split; [by constructor|].
      split; [by constructor|]. split; [by constructor|].
      split; [intros c; by rewrite Hpresent', Hpresent|].
      split; [intros c Hg Hr; by rewrite Hothers', Hothers|].
      split; [intros Hf; by rewrite Hoff', Hoff|].
      intros Hon Hne Hgiver Hreceiver k.
      destruct (Hmove' Hon Hne (proj2 (Hpresent giver) Hgiver)
                       (proj2 (Hpresent receiver) Hreceiver) k) as [Hg2 Hr2].
      rewrite Hg2, Hr2, (Hshort Hlt). by split.
Qed.

(** X10. Enforcing one treaty yields exactly one record per leg, the legs of
    the offer first: either a transfer of the full promised amount or a
    breach with a positive shortfall, never a partial delivery.  The
    treaty's own breach log grows by one entry per breach, stamped with the
    current tick; nothing else of the treaty changes.  The ledger moves with
    the records: no region appears or disappears, no region but the two
    parties changes, nothing changes when no update function is given, and
    otherwise, between two different parties that the ledger holds, each
    party's stock of every resource changes by exactly the amounts of the
    delivered legs, down for what it gave and up for what it got. *)
Theorem enforcement_records (tr : TreatyManager.Treaty) (rd : gmap string Region)
    (update_func : bool) (current_tick : Z) :
  exists sent received new_breaches logs,
    let from := TreatyManager.from_region tr in
    let to := TreatyManager.to_region tr in
    let transfers := map (delivered from to) sent ++ map (delivered to from) received in
    let rd' := (TreatyManager._enforce_single tr rd update_func current_tick).1.1 in
    (TreatyManager._enforce_single tr rd update_func current_tick).2
    = {| TreatyManager.r_treaty_id := TreatyManager.treaty_id tr;
         TreatyManager.r_from := from;
         TreatyManager.r_to := to;
         TreatyManager.r_transfers := transfers;
         TreatyManager.r_breaches := new_breaches |}
    /\ (TreatyManager._enforce_single tr rd update_func current_tick).1.2
       = TreatyManager.set_breaches tr (TreatyManager.breaches tr ++ logs)
    /\ (length transfers + length new_breaches
        = length (TreatyManager.per_tick_offer tr)
          + length (TreatyManager.per_tick_request tr))%nat
    /\ length logs = length new_breaches
    /\ Forall (fun b => 0 < TreatyManager.shortfall b) new_breaches
    /\ Forall (fun g => TreatyManager.bl_tick g = current_tick
                        /\ TreatyManager.bl_available g < TreatyManager.bl_promised g) logs
    /\ sublist (map (fun x => (TreatyManager.tr_resource x, TreatyManager.tr_amount x))
                    transfers)
               (TreatyManager.per_tick_offer tr ++ TreatyManager.per_tick_request tr)
    /\ sublist sent (TreatyManager.per_tick_offer tr)
    /\ sublist received (TreatyManager.per_tick_request tr)
    /\ (forall c, is_Some (rd' !! c) <-> is_Some (rd !! c))
    /\ (forall c, c <> from -> c <> to -> rd' !! c = rd !! c)
    /\ (update_func = false -> rd' = rd)
    /\ (update_func = true -> from <> to -> is_Some (rd !! from) -> is_Some (rd !! to) ->
        forall k,
          stock_of rd' from k = stock_of rd from k - moved sent k + moved received k
          /\ stock_of rd' to k = stock_of rd to k + moved sent k - moved received k).
Proof.
  unfold TreatyManager._enforce_single. cbn [fst snd].
  set (st0 := {| TreatyManager.ls_regions := rd;
                 TreatyManager.ls_log := TreatyManager.breaches tr;
                 TreatyManager.ls_transfers := []; TreatyManager.ls_breaches := [] |}).
  destruct (legs_records update_func current_tick (TreatyManager.from_region tr)
              (TreatyManager.to_region tr) (TreatyManager.per_tick_offer tr) st0)
    as (sent & brs1 & logs1 & Ht1 & Hb1 & Hl1 & Hlen1 & Hlog1 & Hs1 & Hg1 & Hsub1
        & Hpresent1 & Hothers1 & Hoff1 & Hmove1).
  set (st1 := foldl _ st0 (TreatyManager.per_tick_offer tr)) in *.
  destruct (legs_records update_func current_tick (TreatyManager.to_region tr)
              (TreatyManager.from_region tr) (TreatyManager.per_tick_request tr) st1)
    as (received & brs2 & logs2 & Ht2 & Hb2 & Hl2 & Hlen2 & Hlog2 & Hs2 & Hg2 & Hsub2
        & Hpresent2 & Hothers2 & Hoff2 & Hmove2).
  set (st2 := foldl _ st1 (TreatyManager.per_tick_request tr)) in *.
  exists sent, received, (brs1 ++ brs2), (logs1 ++ logs2).
  cbn zeta. rewrite Ht2, Hb2, Hl2, Ht1, Hb1, Hl1. cbn [app]. rewrite app_assoc.
  split; [reflexivity|]. split; [reflexivity|].
  rewrite !length_app, !length_map. split; [lia|]. split; [lia|].
  split; [by apply Forall_app|]. split; [by apply Forall_app|].
  split.
  { rewrite map_app, !map_map. cbn [delivered TreatyManager.tr_resource
                                             TreatyManager.tr_amount].
    apply sublist_app.
    - by rewrite (map_ext _ id), map_id by (by intros []).
    - by rewrite (map_ext _ id), map_id by (by intros []). }
  split; [exact Hsub1|]. split; [exact Hsub2|].
  split; [intros c; by rewrite Hpresent2, Hpresent1|].
  split; [intros c Hf Hto; by rewrite Hothers2, Hothers1|].
  split; [intros Hf; by rewrite Hoff2, Hoff1|].
  intros Hon Hne Hfrom Hto k.
  destruct (Hmove1 Hon Hne Hfrom Hto k) as [Hf1 Hto1].
  destruct (Hmove2 Hon (fun H => Hne (eq_sym H))
                   (proj2 (Hpresent1 _) Hto) (proj2 (Hpresent1 _) Hfrom) k)
    as [Hto2 Hf2].
  rewrite Hf2, Hto2, Hf1, Hto1. cbn [TreatyManager.ls_regions st0]. split; lia.
Qed.

(** "GJ" owes "UP" 300 units of energy and has 1000: they move.  "UP" owes
    5000 units of food and has 1000: nothing of it moves. *)
Lemma enforcement_records_witness :
  let rd' := (TreatyManager._enforce_single Scenario.energy_treaty Scenario.busy_ledger
                                            true 1).1.1 in
  map (stock_of rd' "GJ") RESOURCES = [1000; 700; 1000; 1000]
  /\ map (stock_of rd' "UP") RESOURCES = [1000; 1300; 1000; 1000]
  /\ exists sent received,
       sublist sent [("energy", 300)] /\ sublist received [("food", 5000)]
       /\ stock_of rd' "GJ" "energy"
          = stock_of Scenario.busy_ledger "GJ" "energy"
            - moved sent "energy" + moved received "energy"
       /\ stock_of rd' "UP" "food"
          = stock_of Scenario.busy_ledger "UP" "food"
            + moved sent "food" - moved received "food".
Proof.
  intros rd'. split; [vm_compute; reflexivity|]. split; [vm_compute; reflexivity|].
  destruct (enforcement_records Scenario.energy_treaty Scenario.busy_ledger true 1)
    as (sent & received & brs & logs & _ & _ & _ & _ & _ & _ & _ & Hsent & Hreceived
        & _ & _ & _ & Hmove).
  exists sent, received. split; [exact Hsent|]. split; [exact Hreceived|].
  assert (Hgj : is_Some (Scenario.busy_ledger !! "GJ")) by (vm_compute; eauto).
  assert (Hup : is_Some (Scenario.busy_ledger !! "UP")) by (vm_compute; eauto).
  assert (Hne : "GJ" <> "UP") by discriminate.
  split.
  - exact (proj1 (Hmove eq_refl Hne Hgj Hup "energy")).
  - exact (proj2 (Hmove eq_refl Hne Hgj Hup "food")).
Defined.

(** ** Treaty transfers move stock, too *)

Lemma deliver_total (update_func : bool) (current_tick : Z) (giver receiver : string)
    (st : TreatyManager.LegState) (item : string * Z) (k : string) :
  giver ∈ STATE_CODES -> receiver ∈ STATE_CODES ->
  all_regions_present (TreatyManager.ls_regions st) ->
  all_regions_present
    (TreatyManager.ls_regions
       (TreatyManager.deliver update_func current_tick giver receiver st item))
  /\ total_stock
       (TreatyManager.ls_regions
          (TreatyManager.deliver update_func current_tick giver receiver st item)) k
     = total_stock (TreatyManager.ls_regions st) k.
Proof.
  intros Hg Hr Hall. unfold TreatyManager.deliver. destruct item as [resource amount].
  destruct (_ <=? _); [|by split].
  destruct update_func; simpl; [|by split].
  set (rd := TreatyManager.ls_regions st) in *.
  set (available := get0 (resources_of rd giver) resource).
  set (rd1 := store_resource rd giver resource (available - amount)).
  assert (Hall1 : all_regions_present rd1).
  { intros c Hc. apply store_resource_present. by apply Hall. }
  split.
  { intros c Hc. apply store_resource_present. by apply Hall1. }
  assert (Hstock : forall c,
            stock_of (store_resource rd1 receiver resource
                        (get0 (resources_of rd1 receiver) resource + amount)) c k
            = if decide (c = receiver /\ k = resource)
              then stock_of rd1 receiver resource + amount
              else if decide (c = giver /\ k = resource) then available - amount
                   else stock_of rd c k).
  { intros c. rewrite stock_of_store_resource by by apply Hall1.
    destruct (decide (c = receiver /\ k = resource)); [reflexivity|].
    unfold rd1. by rewrite stock_of_store_resource by by apply Hall. }
  assert (Hrec : stock_of rd1 receiver resource
                 = if decide (receiver = giver) then available - amount
                   else stock_of rd receiver resource).
  { unfold rd1. rewrite stock_of_store_resource by by apply Hall.
    destruct (decide (receiver = giver)) as [->|Hne].
    - by rewrite decide_True.
    - rewrite decide_False by (intros [? _]; done). reflexivity. }
  unfold total_stock.
  destruct (decide (k = resource)) as [->|Hk].
  2: { f_equal. apply map_ext. intros c. rewrite Hstock.
       rewrite !decide_False by (intros [_ ?]; done). reflexivity. }
  destruct (decide (receiver = giver)) as [Heq|Hne].
  - f_equal. apply map_ext. intros c. rewrite Hstock, Hrec. subst receiver.
    destruct (decide (c = giver /\ resource = resource)) as [[-> _]|Hc];
      [|reflexivity].
    unfold available, stock_of. lia.
  - apply (sum_two_update _ _ _ giver receiver);
      [exact STATE_CODES_NoDup|exact Hg|exact Hr|by intros ->| |].
    + intros c Hc1 Hc2. rewrite Hstock.
      by rewrite !decide_False by (intros [? _]; done).
    + rewrite !Hstock, Hrec.
      rewrite (decide_False (P := giver = receiver /\ _)) by (intros [-> _]; done).
      rewrite !decide_True by done. unfold available, stock_of. lia.
Qed.

Lemma _enforce_single_total (tr : TreatyManager.Treaty) (rd : gmap string Region)
    (update_func : bool) (current_tick : Z) (k : string) :
  TreatyManager.from_region tr ∈ STATE_CODES -> TreatyManager.to_region tr ∈ STATE_CODES ->
  all_regions_present rd ->
  all_regions_present (TreatyManager._enforce_single tr rd update_func current_tick).1.1
  /\ total_stock (TreatyManager._enforce_single tr rd update_func current_tick).1.1 k
     = total_stock rd k.
Proof.
  intros Hfrom Hto Hall. unfold TreatyManager._enforce_single. simpl.
  set (P := fun st => all_regions_present (TreatyManager.ls_regions st)
                      /\ total_stock (TreatyManager.ls_regions st) k = total_stock rd k).
  apply (foldl_invariant P).
  { intros s x _ [Hs Ht].
    destruct (deliver_total update_func current_tick (TreatyManager.to_region tr)
                (TreatyManager.from_region tr) s x k Hto Hfrom Hs) as [Hs' Ht'].
    split; [exact Hs'|congruence]. }
  apply (foldl_invariant P).
  { intros s x _ [Hs Ht].
    destruct (deliver_total update_func current_tick (TreatyManager.from_region tr)
                (TreatyManager.to_region tr) s x k Hfrom Hto Hs) as [Hs' Ht'].
    split; [exact Hs'|congruence]. }
  by split.
Qed.

Lemma enforce_treaties_total (tm : TreatyManager.t) (current_tick : Z)
    (rd : gmap string Region) (update_func : bool) (k : string) :
  (forall tr, tr ∈ TreatyManager.active_treaties tm ->
              TreatyManager.from_region tr ∈ STATE_CODES
              /\ TreatyManager.to_region tr ∈ STATE_CODES) ->
  all_regions_present rd ->
  all_regions_present (TreatyManager.enforce_treaties tm current_tick rd update_func).1.2
  /\ total_stock (TreatyManager.enforce_treaties tm current_tick rd update_func).1.2 k
     = total_stock rd k.
Proof.
  intros Hparties Hall. unfold TreatyManager.enforce_treaties. simpl.
  set (P := fun st => all_regions_present (TreatyManager.el_regions st)
                      /\ total_stock (TreatyManager.el_regions st) k = total_stock rd k).
  apply (foldl_invariant P); [|by split].
  intros s tr Hin [Hs Ht]. unfold P. unfold TreatyManager.enforce_step.
  destruct (negb _); [by split|].
  destruct (Hparties tr Hin) as [Hfrom Hto].
  pose proof (_enforce_single_total tr (TreatyManager.el_regions s) update_func
                current_tick k Hfrom Hto Hs) as [Hs' Ht'].
  destruct (TreatyManager._enforce_single _ _ _ _) as [[rd1 tr1] res]. simpl in Hs', Ht'.
  destruct (_ <=? _); simpl; (split; [exact Hs'|congruence]).
Qed.

Lemma resources_of_apply_trust (adj : gmap string Z) (rd : gmap string Region)
    (code : string) :
  resources_of (apply_trust adj rd) code = resources_of rd code.
Proof.
  unfold resources_of, apply_trust. rewrite map_lookup_imap.
  destruct (rd !! code) as [r|]; simpl; [|reflexivity].
  destruct (adj !! code); reflexivity.
Qed.

(** X11. The treaty step moves stock between the parties and neither
    creates nor destroys any: when the ledger has its ten regions and every
    active treaty is between state codes, the total stock of every resource
    over the ten regions is the same after the step as before, whether legs
    are delivered or breached. *)
Theorem treaties_keep_total_stock (tm tm' : TreatyManager.t) (current_tick : Z)
    (rd rd' : gmap string Region) (results : list TreatyManager.EnforcementResult)
    (res : string) :
  all_regions_present rd ->
  (forall tr, tr ∈ TreatyManager.active_treaties tm ->
              TreatyManager.from_region tr ∈ STATE_CODES
              /\ TreatyManager.to_region tr ∈ STATE_CODES) ->
  _step_enforce_treaties tm current_tick rd = Ok (tm', rd', results) ->
  total_stock rd' res = total_stock rd res.
Proof.
  intros Hall Hparties. unfold _step_enforce_treaties.
  destruct (TreatyManager.active_treaties tm) eqn:Hact; [by intros [= <- <- <-]|].
  rewrite <- Hact in Hparties.
  pose proof (enforce_treaties_total tm current_tick rd true res Hparties Hall)
    as [_ Henf].
  destruct (TreatyManager.enforce_treaties _ _ _ _) as [[tm1 rd1] res1]. simpl in Henf.
  intros Hrun. inv_bind Hrun. injection Hrun as <- <- <-.
  rewrite <- Henf. unfold total_stock. f_equal. apply map_ext. intros c.
  unfold stock_of. by rewrite resources_of_apply_trust.
Qed.

Lemma treaties_keep_total_stock_witness :
  exists tm' rd' results,
    _step_enforce_treaties
      {| TreatyManager.active_treaties := [Scenario.water_treaty];
         TreatyManager.expired_treaties := []; TreatyManager.treaty_counter := 1 |}
      1 Scenario.two_regions
    = Ok (tm', rd', results)
    /\ stock_of rd' "PB" "water" = 1100
    /\ total_stock rd' "water" = 10000.
Proof.
  set (tm := {| TreatyManager.active_treaties := [Scenario.water_treaty];
                TreatyManager.expired_treaties := [];
                TreatyManager.treaty_counter := 1 |}).
  assert (Hpb : match _step_enforce_treaties tm 1 Scenario.two_regions with
                | Ok (_, rd', _) => Some (stock_of rd' "PB" "water")
                | Raise _ => None
                end = Some 1100) by (vm_compute; reflexivity).
  destruct (_step_enforce_treaties tm 1 Scenario.two_regions)
    as [[[tm' rd'] results]|e] eqn:Hrun; [|discriminate Hpb].
  exists tm', rd', results. split; [reflexivity|]. split; [by injection Hpb|].
  rewrite (treaties_keep_total_stock tm tm' 1 Scenario.two_regions rd' results "water").
  - vm_compute. reflexivity.
  - apply all_regions_present_Forall. apply (bool_decide_unpack _). vm_compute. exact I.
  - intros tr Htr. apply list_elem_of_singleton in Htr as ->.
    split; apply (bool_decide_unpack _); vm_compute; exact I.
  - exact Hrun.
Defined.

(** ** The treaty manager: creation, limits and lifetimes *)

Lemma _enforce_single_aged (tr : TreatyManager.Treaty) (rd : gmap string Region)
    (update_func : bool) (current_tick : Z) :
  aged tr (TreatyManager.count_down
             (TreatyManager._enforce_single tr rd update_func current_tick).1.2)
  /\ TreatyManager.r_treaty_id
       (TreatyManager._enforce_single tr rd update_func current_tick).2
     = TreatyManager.treaty_id tr.
Proof. unfold TreatyManager._enforce_single, aged. simpl. by repeat split. Qed.

(** The loop of [enforce_treaties], whatever it has collected so far. *)
Lemma enforce_loop (update_func : bool) (current_tick : Z)
    (l : list TreatyManager.Treaty) :
  forall st,
    exists kept expired results,
      TreatyManager.el_kept (foldl (TreatyManager.enforce_step update_func current_tick) st l)
      = TreatyManager.el_kept st ++ kept
      /\ TreatyManager.el_expired
           (foldl (TreatyManager.enforce_step update_func current_tick) st l)
         = TreatyManager.el_expired st ++ expired
      /\ TreatyManager.el_results
           (foldl (TreatyManager.enforce_step update_func current_tick) st l)
         = TreatyManager.el_results st ++ results
      /\ enforced l kept expired results.
Proof.
  induction l as [|tr l IH]; intros st; cbn [foldl].
  - exists [], [], []. rewrite !app_nil_r. repeat split. constructor.
  - destruct (IH (TreatyManager.enforce_step update_func current_tick st tr))
      as (kept & expired & results & Hk & He & Hr & Hrel).
    rewrite Hk, He, Hr. unfold TreatyManager.enforce_step.
    destruct (TreatyManager.is_active tr) eqn:Hactive; simpl.
    + pose proof (_enforce_single_aged tr (TreatyManager.el_regions st) update_func
                    current_tick) as [Haged Hid].
      destruct (TreatyManager._enforce_single _ _ _ _) as [[rd1 tr1] res].
      simpl in Haged, Hid.
      destruct (_ <=? 0) eqn:Hleft; simpl.
      * apply Z.leb_le in Hleft.
        eexists kept, (_ :: expired), (_ :: results). rewrite <- ?app_assoc.
        simpl. repeat split. by eapply enforced_expire.
      * apply Z.leb_gt in Hleft.
        eexists (_ :: kept), expired, (_ :: results). rewrite <- ?app_assoc.
        simpl. repeat split. by eapply enforced_keep.
    + exists (tr :: kept), expired, results. rewrite <- ?app_assoc.
      simpl. repeat split. by constructor.
Qed.

Lemma enforce_treaties_enforced (tm : TreatyManager.t) (current_tick : Z)
    (rd : gmap string Region) (update_func : bool) :
  exists expired,
    TreatyManager.expired_treaties
      (TreatyManager.enforce_treaties tm current_tick rd update_func).1.1
    = TreatyManager.expired_treaties tm ++ expired
    /\ TreatyManager.treaty_counter
         (TreatyManager.enforce_treaties tm current_tick rd update_func).1.1
       = TreatyManager.treaty_counter tm
    /\ enforced (TreatyManager.active_treaties tm)
                (TreatyManager.active_treaties
                   (TreatyManager.enforce_treaties tm current_tick rd update_func).1.1)
                expired
                (TreatyManager.enforce_treaties tm current_tick rd update_func).2.
Proof.
  unfold TreatyManager.enforce_treaties. cbn [fst snd].
  destruct (enforce_loop update_func current_tick (TreatyManager.active_treaties tm)
              {| TreatyManager.el_regions := rd; TreatyManager.el_kept := [];
                 TreatyManager.el_expired := []; TreatyManager.el_results := [] |})
    as (kept & expired & results & Hk & He & Hr & Hrel).
  simpl in Hk, He, Hr. exists expired. cbn [TreatyManager.active_treaties
    TreatyManager.expired_treaties TreatyManager.treaty_counter].
  rewrite Hk, He, Hr. by repeat split.
Qed.

Lemma aged_involves (code : string) (tr tr' : TreatyManager.Treaty) :
  aged tr tr' -> TreatyManager.involves code tr' = TreatyManager.involves code tr.
Proof.
  intros (_ & Hfrom & Hto & _). unfold TreatyManager.involves. by rewrite Hfrom, Hto.
Qed.

Lemma enforced_counts (code : string) (l kept expired : list TreatyManager.Treaty)
    (results : list TreatyManager.EnforcementResult) :
  enforced l kept expired results ->
  (length kept + length expired = length l)%nat
  /\ (length (filter (fun tr => TreatyManager.involves code tr) kept)
      <= length (filter (fun tr => TreatyManager.involves code tr) l))%nat.
Proof.
  induction 1 as [|tr l kept expired results Hoff _ [IH1 IH2]
                  |tr tr' res l kept expired results Hon Haged Hleft Hid _ [IH1 IH2]
                  |tr tr' res l kept expired results Hon Haged Hleft Hid _ [IH1 IH2]].
  - by split.
  - split; [simpl; lia|]. rewrite !filter_cons.
    destruct (decide _); simpl; lia.
  - split; [simpl; lia|]. rewrite !filter_cons.
    rewrite (aged_involves code _ _ Haged).
    destruct (decide _); simpl; lia.
  - split; [simpl; lia|]. rewrite filter_cons.
    destruct (decide _); simpl; lia.
Qed.

Lemma enforced_active (l kept expired : list TreatyManager.Treaty)
    (results : list TreatyManager.EnforcementResult) :
  enforced l kept expired results ->
  Forall (fun tr => TreatyManager.is_active tr = true) l ->
  Forall (fun tr => TreatyManager.is_active tr = true) kept
  /\ Forall (fun tr => TreatyManager.is_active tr = false
                       /\ TreatyManager.ticks_remaining tr <= 0) expired
  /\ map TreatyManager.r_treaty_id results = map TreatyManager.treaty_id l.
Proof.
  induction 1 as [|tr l kept expired results Hoff _ IH
                  |tr tr' res l kept expired results Hon Haged Hleft Hid _ IH
                  |tr tr' res l kept expired results Hon Haged Hleft Hid _ IH];
    intros Hall.
  - repeat split; constructor.
  - apply Forall_cons in Hall as [Htr _]. congruence.
  - apply Forall_cons in Hall as [_ Hall]. destruct (IH Hall) as (Hk & He & Hr).
    split; [|split; [exact He|simpl; by rewrite Hid, Hr]].
    constructor; [|exact Hk].
    destruct Haged as (_ & _ & _ & _ & _ & Hticks & ->).
    rewrite Hon. destruct (_ <=? 0) eqn:Hle; [|reflexivity].
    apply Z.leb_le in Hle. lia.
  - apply Forall_cons in Hall as [_ Hall]. destruct (IH Hall) as (Hk & He & Hr).
    split; [exact Hk|]. split; [|simpl; by rewrite Hid, Hr].
    constructor; [|exact He]. split; [|exact Hleft].
    destruct Haged as (_ & _ & _ & _ & _ & Hticks & ->).
    destruct (_ <=? 0) eqn:Hle; [reflexivity|].
    apply Z.leb_gt in Hle. lia.
Qed.

Lemma create_treaty_cases (tm : TreatyManager.t) (proposal : TreatyManager.TreatyProposal)
    (current_tick : Z) :
  TreatyManager.create_treaty tm proposal current_tick = (tm, None)
  \/ exists tr,
       TreatyManager.create_treaty tm proposal current_tick
       = ({| TreatyManager.active_treaties := TreatyManager.active_treaties tm ++ [tr];
             TreatyManager.expired_treaties := TreatyManager.expired_treaties tm;
             TreatyManager.treaty_counter := TreatyManager.treaty_counter tm + 1 |},
          Some tr)
       /\ TreatyManager.is_active tr = true
       /\ TreatyManager.from_region tr = default "" (TreatyManager.tp_from proposal)
       /\ TreatyManager.to_region tr = default "" (TreatyManager.tp_to proposal)
       /\ TreatyManager.treaty_id tr
          = "Treaty_" +:+ TreatyManager.format_03d (TreatyManager.treaty_counter tm + 1)
            +:+ "_" +:+ TreatyManager.from_region tr +:+ "_" +:+ TreatyManager.to_region tr
       /\ (Z.of_nat (length (TreatyManager.get_treaties_for_region tm
                               (TreatyManager.from_region tr)))
           < MAX_ACTIVE_TREATIES_PER_STATE)
       /\ (Z.of_nat (length (TreatyManager.get_treaties_for_region tm
                               (TreatyManager.to_region tr)))
           < MAX_ACTIVE_TREATIES_PER_STATE).
Proof.
  unfold TreatyManager.create_treaty.
  destruct (MAX_ACTIVE_TREATIES_PER_STATE
            <=? Z.of_nat (length (TreatyManager.get_treaties_for_region tm
                                    (default "" (TreatyManager.tp_from proposal)))))
    eqn:Hfrom; [by left|].
  destruct (MAX_ACTIVE_TREATIES_PER_STATE
            <=? Z.of_nat (length (TreatyManager.get_treaties_for_region tm
                                    (default "" (TreatyManager.tp_to proposal)))))
    eqn:Hto; [by left|].
  apply Z.leb_gt in Hfrom, Hto.
  right. eexists. split; [reflexivity|]. simpl. by repeat split.
Qed.

Lemma treaty_manager_invariant (tm : TreatyManager.t) :
  reachable tm ->
  (forall code,
     Z.of_nat (length (TreatyManager.get_treaties_for_region tm code))
     <= MAX_ACTIVE_TREATIES_PER_STATE)
  /\ TreatyManager.treaty_counter tm
     = Z.of_nat (length (TreatyManager.active_treaties tm))
       + Z.of_nat (length (TreatyManager.expired_treaties tm))
  /\ Forall (fun tr => TreatyManager.is_active tr = true) (TreatyManager.active_treaties tm)
  /\ Forall (fun tr => TreatyManager.is_active tr = false
                       /\ TreatyManager.ticks_remaining tr <= 0)
            (TreatyManager.expired_treaties tm).
Proof.
  induction 1 as [|tm proposal current_tick _ (Hlimit & Hcount & Hactive & Hexpired)
                  |tm current_tick rd update_func _ (Hlimit & Hcount & Hactive & Hexpired)].
  - split; [intros code; unfold MAX_ACTIVE_TREATIES_PER_STATE; simpl; lia|].
    split; [reflexivity|]. split; constructor.
  - destruct (create_treaty_cases tm proposal current_tick)
      as [->|(tr & -> & Hon & _ & _ & _ & Hfrom & Hto)]; [by repeat split|].
    cbn [fst]. split; [|split; [|split]].
    + intros code. unfold TreatyManager.get_treaties_for_region in *.
      cbn [TreatyManager.active_treaties]. rewrite filter_app, length_app, filter_cons.
      rewrite filter_nil. specialize (Hlimit code).
      destruct (decide (TreatyManager.involves code tr)) as [Hin|Hout]; simpl; [|lia].
      unfold TreatyManager.involves in Hin. apply orb_prop_elim in Hin as [Hin|Hin];
        apply bool_decide_unpack in Hin; subst code; lia.
    + cbn [TreatyManager.active_treaties TreatyManager.expired_treaties
           TreatyManager.treaty_counter]. rewrite length_app. simpl. lia.
    + cbn [TreatyManager.active_treaties]. apply Forall_app. split; [exact Hactive|].
      by repeat constructor.
    + exact Hexpired.
  - destruct (enforce_treaties_enforced tm current_tick rd update_func)
      as (expired & He & Hc & Hrel).
    set (tm' := (TreatyManager.enforce_treaties tm current_tick rd update_func).1.1) in *.
    destruct (enforced_active _ _ _ _ Hrel Hactive) as (Hk & Hnew & _).
    split; [|split; [|split]].
    + intros code. specialize (Hlimit code).
      destruct (enforced_counts code _ _ _ _ Hrel) as [_ Hle].
      unfold TreatyManager.get_treaties_for_region in *. lia.
    + destruct (enforced_counts "" _ _ _ _ Hrel) as [Hlen _].
      rewrite Hc, He, length_app, Hcount. lia.
    + exact Hk.
    + rewrite He. by apply Forall_app.
Qed.

(** X12. However treaties are proposed and enforced, no region is ever a
    party to more than five active treaties: [create_treaty] refuses a
    proposal one of whose parties already has five, and enforcement only
    removes treaties. *)
Theorem treaty_limit (tm : TreatyManager.t) (code : string) :
  reachable tm ->
  Z.of_nat (length (TreatyManager.get_treaties_for_region tm code))
  <= MAX_ACTIVE_TREATIES_PER_STATE.
Proof. intros Hreach. by destruct (treaty_manager_invariant tm Hreach) as [Hlimit _]. Qed.

(** X13. The summary of a treaty manager adds up: the number of treaties
    ever created is the number of active treaties plus the number of
    expired ones.  Every treaty in the active list is marked active, and
    every treaty in the expired list is marked inactive and has no tick
    left. *)
Theorem treaty_bookkeeping (tm : TreatyManager.t) :
  reachable tm ->
  TreatyManager.s_total_created (TreatyManager.get_summary tm)
  = TreatyManager.s_active_treaties (TreatyManager.get_summary tm)
    + TreatyManager.s_expired_treaties (TreatyManager.get_summary tm)
  /\ Forall (fun tr => TreatyManager.is_active tr = true) (TreatyManager.active_treaties tm)
  /\ Forall (fun tr => TreatyManager.is_active tr = false
                       /\ TreatyManager.ticks_remaining tr <= 0)
            (TreatyManager.expired_treaties tm).
Proof.
  intros Hreach. destruct (treaty_manager_invariant tm Hreach) as (_ & Hcount & Hrest).
  split; [exact Hcount|exact Hrest].
Qed.

Lemma treaty_limit_witness :
  Z.of_nat (length (TreatyManager.get_treaties_for_region Scenario.six_proposals "RJ")) = 5
  /\ Z.of_nat (length (TreatyManager.get_treaties_for_region Scenario.six_proposals "RJ"))
     <= MAX_ACTIVE_TREATIES_PER_STATE.
Proof.
  split; [vm_compute; reflexivity|].
  apply treaty_limit. unfold Scenario.six_proposals. cbn [foldl].
  repeat apply reachable_create. apply reachable_init.
Defined.

Lemma treaty_bookkeeping_witness :
  TreatyManager.s_total_created
    (TreatyManager.get_summary
       (TreatyManager.enforcements Scenario.six_proposals
          [(7, Scenario.two_regions); (8, Scenario.two_regions)] true).1) = 5
  /\ TreatyManager.s_total_created
       (TreatyManager.get_summary
          (TreatyManager.enforcements Scenario.six_proposals
             [(7, Scenario.two_regions); (8, Scenario.two_regions)] true).1)
     = TreatyManager.s_active_treaties
         (TreatyManager.get_summary
            (TreatyManager.enforcements Scenario.six_proposals
               [(7, Scenario.two_regions); (8, Scenario.two_regions)] true).1)
       + TreatyManager.s_expired_treaties
           (TreatyManager.get_summary
              (TreatyManager.enforcements Scenario.six_proposals
                 [(7, Scenario.two_regions); (8, Scenario.two_regions)] true).1).
Proof.
  split; [vm_compute; reflexivity|].
  apply treaty_bookkeeping.
  assert (Hsix : reachable Scenario.six_proposals).
  { unfold Scenario.six_proposals. cbn [foldl].
    repeat apply reachable_create. apply reachable_init. }
  unfold TreatyManager.enforcements.
  pose proof (reachable_enforce _ 7 Scenario.two_regions true Hsix) as H7.
  destruct (TreatyManager.enforce_treaties Scenario.six_proposals 7 _ true)
    as [[tm1 rd1] res1]. cbn [fst] in H7.
  pose proof (reachable_enforce _ 8 Scenario.two_regions true H7) as H8.
  destruct (TreatyManager.enforce_treaties tm1 8 _ true) as [[tm2 rd2] res2].
  exact H8.
Defined.

(** *** Treaty ids *)

Lemma digit_value_pretty (d : N) : (d < 10)%N -> digit_value (pretty_N_char d) = Some d.
Proof.
  intros Hd.
  assert (d = 0 \/ d = 1 \/ d = 2 \/ d = 3 \/ d = 4 \/ d = 5 \/ d = 6 \/ d = 7
          \/ d = 8 \/ d = 9)%N as Hcases by lia.
  repeat (destruct Hcases as [->|Hcases]; [reflexivity|]). by subst d.
Qed.

Lemma pretty_N_go_app (x : N) : forall s t, pretty_N_go x s +:+ t = pretty_N_go x (s +:+ t).
Proof.
  induction (N.lt_wf_0 x) as [x _ IH]. intros s t.
  destruct (decide (x = 0)%N) as [->|Hx]; [by rewrite !pretty_N_go_0|].
  rewrite (pretty_N_go_step x s), (pretty_N_go_step x (s +:+ t)) by lia.
  rewrite IH by (apply N.div_lt; lia). reflexivity.
Qed.

Lemma read_number_pretty_N_go (x : N) :
  forall s, read_number 0 (pretty_N_go x s) = read_number x s.
Proof.
  induction (N.lt_wf_0 x) as [x _ IH]. intros s.
  destruct (decide (x = 0)%N) as [->|Hx]; [by rewrite pretty_N_go_0|].
  rewrite pretty_N_go_step by lia. rewrite IH by (apply N.div_lt; lia).
  cbn [read_number]. rewrite digit_value_pretty by (apply N.mod_lt; lia).
  f_equal. rewrite (N.div_mod x 10) at 3 by lia. lia.
Qed.

Lemma read_number_pretty (m : N) (rest : string) :
  read_number 0 (pretty m +:+ "_" +:+ rest) = m.
Proof.
  unfold pretty, pretty_N. destruct (decide (m = 0)%N) as [->|Hm]; [reflexivity|].
  rewrite pretty_N_go_app, read_number_pretty_N_go. reflexivity.
Qed.

Lemma read_number_zeros (k : nat) (s : string) :
  read_number 0 (TreatyManager.zeros k +:+ s) = read_number 0 s.
Proof. induction k as [|k IH]; [reflexivity|exact IH]. Qed.

Lemma string_app_assoc (a b c : string) : (a +:+ b) +:+ c = a +:+ (b +:+ c).
Proof.
  induction a as [|x a IH]; [reflexivity|].
  change (String x ((a +:+ b) +:+ c) = String x (a +:+ (b +:+ c))). by rewrite IH.
Qed.

(** The serial number can be read back from an id. *)
Lemma id_number_format (n : Z) (from_region to_region : string) :
  0 <= n ->
  id_number ("Treaty_" +:+ TreatyManager.format_03d n +:+ "_" +:+ from_region
             +:+ "_" +:+ to_region)
  = Z.to_N n.
Proof.
  intros Hn. unfold TreatyManager.format_03d.
  destruct (n <? 0) eqn:Hneg; [apply Z.ltb_lt in Hneg; lia|].
  change (read_number 0
            ((TreatyManager.zeros (3 - String.length (pretty (Z.to_N n)))
              +:+ pretty (Z.to_N n))
             +:+ "_" +:+ from_region +:+ "_" +:+ to_region) = Z.to_N n).
  rewrite string_app_assoc, read_number_zeros.
  apply read_number_pretty.
Qed.

Lemma enforced_ids (l kept expired : list TreatyManager.Treaty)
    (results : list TreatyManager.EnforcementResult) :
  enforced l kept expired results ->
  map TreatyManager.treaty_id (kept ++ expired) ≡ₚ map TreatyManager.treaty_id l.
Proof.
  induction 1 as [|tr l kept expired results Hoff _ IH
                  |tr tr' res l kept expired results Hon Haged Hleft Hid _ IH
                  |tr tr' res l kept expired results Hon Haged Hleft Hid _ IH].
  - reflexivity.
  - simpl. by rewrite IH.
  - simpl. destruct Haged as [-> _]. by rewrite IH.
  - rewrite <- Permutation_middle. simpl. destruct Haged as [-> _]. by rewrite IH.
Qed.

Lemma treaty_ids_invariant (tm : TreatyManager.t) :
  reachable tm ->
  0 <= TreatyManager.treaty_counter tm
  /\ NoDup (map TreatyManager.treaty_id
              (TreatyManager.active_treaties tm ++ TreatyManager.expired_treaties tm))
  /\ Forall (fun id => 1 <= Z.of_N (id_number id) <= TreatyManager.treaty_counter tm)
            (map TreatyManager.treaty_id
                 (TreatyManager.active_treaties tm ++ TreatyManager.expired_treaties tm)).
Proof.
  induction 1 as [|tm proposal current_tick _ (Hpos & Hnd & Hnum)
                  |tm current_tick rd update_func _ (Hpos & Hnd & Hnum)].
  - split; [done|]. split; constructor.
  - destruct (create_treaty_cases tm proposal current_tick)
      as [->|(tr & -> & _ & _ & _ & Hid & _)]; [by repeat split|].
    cbn [fst TreatyManager.active_treaties TreatyManager.expired_treaties
         TreatyManager.treaty_counter].
    assert (Hserial : Z.of_N (id_number (TreatyManager.treaty_id tr))
                      = TreatyManager.treaty_counter tm + 1).
    { rewrite Hid, id_number_format by lia. lia. }
    assert (Hperm : map TreatyManager.treaty_id
                      ((TreatyManager.active_treaties tm ++ [tr])
                       ++ TreatyManager.expired_treaties tm)
                    ≡ₚ TreatyManager.treaty_id tr
                       :: map TreatyManager.treaty_id
                            (TreatyManager.active_treaties tm
                             ++ TreatyManager.expired_treaties tm)).
    { rewrite <- app_assoc. simpl. rewrite !map_app. simpl.
      by rewrite <- Permutation_middle. }
    split; [lia|]. rewrite Hperm. split.
    + constructor; [|exact Hnd]. intros Hin.
      rewrite Forall_forall in Hnum. specialize (Hnum _ Hin). lia.
    + constructor; [lia|]. eapply Forall_impl; [exact Hnum|]. intros id Hid'.
      simpl in Hid'. lia.
  - destruct (enforce_treaties_enforced tm current_tick rd update_func)
      as (expired & He & Hc & Hrel).
    set (tm' := (TreatyManager.enforce_treaties tm current_tick rd update_func).1.1) in *.
    assert (Hperm : map TreatyManager.treaty_id
                      (TreatyManager.active_treaties tm'
                       ++ TreatyManager.expired_treaties tm')
                    ≡ₚ map TreatyManager.treaty_id
                         (TreatyManager.active_treaties tm
                          ++ TreatyManager.expired_treaties tm)).
    { rewrite He, !map_app.
      rewrite (Permutation_app_comm (map _ (TreatyManager.expired_treaties tm))).
      rewrite app_assoc, <- (map_app _ (TreatyManager.active_treaties tm')).
      by rewrite (enforced_ids _ _ _ _ Hrel). }
    rewrite Hc, Hperm. by repeat split.
Qed.

(** X14. The treaties of a manager, active and expired together, have
    pairwise different ids, and the serial number written in each id lies
    between 1 and the number of treaties created so far. *)
Theorem treaty_ids_unique (tm : TreatyManager.t) :
  reachable tm ->
  NoDup (map TreatyManager.treaty_id
           (TreatyManager.active_treaties tm ++ TreatyManager.expired_treaties tm))
  /\ Forall (fun id => 1 <= Z.of_N (id_number id) <= TreatyManager.treaty_counter tm)
            (map TreatyManager.treaty_id
                 (TreatyManager.active_treaties tm ++ TreatyManager.expired_treaties tm)).
Proof. intros Hreach. by destruct (treaty_ids_invariant tm Hreach) as [_ H]. Qed.

Lemma treaty_ids_unique_witness :
  map TreatyManager.treaty_id (TreatyManager.active_treaties Scenario.six_proposals)
  = ["Treaty_001_RJ_PB"; "Treaty_002_RJ_PB"; "Treaty_003_RJ_PB"; "Treaty_004_RJ_PB";
     "Treaty_005_RJ_PB"]
  /\ NoDup (map TreatyManager.treaty_id
              (TreatyManager.active_treaties Scenario.six_proposals
               ++ TreatyManager.expired_treaties Scenario.six_proposals)).
Proof.
  split; [vm_compute; reflexivity|].
  apply treaty_ids_unique. unfold Scenario.six_proposals. cbn [foldl].
  repeat apply reachable_create. apply reachable_init.
Defined.

(** *** The life of a treaty *)

Lemma enforced_subset (l kept expired : list TreatyManager.Treaty)
    (results : list TreatyManager.EnforcementResult) :
  enforced l kept expired results ->
  (forall res, res ∈ results ->
               TreatyManager.r_treaty_id res ∈ map TreatyManager.treaty_id l)
  /\ (forall tr, tr ∈ kept ->
                 TreatyManager.treaty_id tr ∈ map TreatyManager.treaty_id l).
Proof.
  induction 1 as [|tr l kept expired results Hoff _ [IH1 IH2]
                  |tr tr' res l kept expired results Hon Haged Hleft Hid _ [IH1 IH2]
                  |tr tr' res l kept expired results Hon Haged Hleft Hid _ [IH1 IH2]].
  - split; intros x Hx; inversion Hx.
  - split.
    + intros res Hres. simpl. right. by apply IH1.
    + intros t Ht. simpl. apply elem_of_cons in Ht as [->|Ht]; [by left|].
      right. by apply IH2.
  - split.
    + intros r Hr. simpl. apply elem_of_cons in Hr as [->|Hr]; [rewrite Hid; by left|].
      right. by apply IH1.
    + intros t Ht. simpl. apply elem_of_cons in Ht as [->|Ht].
      * destruct Haged as [-> _]. by left.
      * right. by apply IH2.
  - split.
    + intros r Hr. simpl. apply elem_of_cons in Hr as [->|Hr]; [rewrite Hid; by left|].
      right. by apply IH1.
    + intros t Ht. simpl. right. by apply IH2.
Qed.

Lemma enforced_NoDup (l kept expired : list TreatyManager.Treaty)
    (results : list TreatyManager.EnforcementResult) :
  enforced l kept expired results ->
  NoDup (map TreatyManager.treaty_id l) ->
  NoDup (map TreatyManager.treaty_id kept)
  /\ (forall tr tr', tr ∈ kept -> tr' ∈ expired ->
                     TreatyManager.treaty_id tr <> TreatyManager.treaty_id tr').
Proof.
  intros Hrel Hnd. rewrite <- (enforced_ids _ _ _ _ Hrel), map_app in Hnd.
  apply NoDup_app in Hnd as (Hk & Hdisj & _). split; [exact Hk|].
  intros tr tr' Htr Htr' Heq. apply (Hdisj (TreatyManager.treaty_id tr)).
  - apply list_elem_of_fmap. eauto.
  - rewrite Heq. apply list_elem_of_fmap. eauto.
Qed.

(** One call on a treaty that is in the active list and marked active. *)
Lemma enforced_one (l kept expired : list TreatyManager.Treaty)
    (results : list TreatyManager.EnforcementResult) (tr : TreatyManager.Treaty) :
  enforced l kept expired results ->
  tr ∈ l -> TreatyManager.is_active tr = true ->
  Exists (fun res => TreatyManager.r_treaty_id res = TreatyManager.treaty_id tr) results
  /\ exists tr', aged tr tr'
                 /\ (1 < TreatyManager.ticks_remaining tr -> tr' ∈ kept)
                 /\ (TreatyManager.ticks_remaining tr <= 1 -> tr' ∈ expired).
Proof.
  induction 1 as [|t l kept expired results Hoff _ IH
                  |t t' res l kept expired results Hon Haged Hleft Hid _ IH
                  |t t' res l kept expired results Hon Haged Hleft Hid _ IH];
    intros Hin Hactive.
  - inversion Hin.
  - apply elem_of_cons in Hin as [->|Hin]; [congruence|].
    destruct (IH Hin Hactive) as (Hres & tr' & Ha & Hk & He).
    split; [exact Hres|]. exists tr'. split; [exact Ha|].
    split; [intros Hn; right; by apply Hk|exact He].
  - apply elem_of_cons in Hin as [->|Hin].
    + split; [by apply Exists_cons_hd|]. exists t'. split; [exact Haged|].
      destruct Haged as (_ & _ & _ & _ & _ & Hticks & _).
      split; [intros _; by left|intros Hn; lia].
    + destruct (IH Hin Hactive) as (Hres & tr' & Ha & Hk & He).
      split; [by apply Exists_cons_tl|]. exists tr'. split; [exact Ha|].
      split; [intros Hn; right; by apply Hk|exact He].
  - apply elem_of_cons in Hin as [->|Hin].
    + split; [by apply Exists_cons_hd|]. exists t'. split; [exact Haged|].
      destruct Haged as (_ & _ & _ & _ & _ & Hticks & _).
      split; [intros Hn; lia|intros _; by left].
    + destruct (IH Hin Hactive) as (Hres & tr' & Ha & Hk & He).
      split; [by apply Exists_cons_tl|]. exists tr'. split; [exact Ha|].
      split; [exact Hk|intros Hn; right; by apply He].
Qed.

Lemma enforcements_cons (tm : TreatyManager.t) (current_tick : Z)
    (rd : gmap string Region) (inputs : list (Z * gmap string Region))
    (update_func : bool) :
  TreatyManager.enforcements tm ((current_tick, rd) :: inputs) update_func
  = ((TreatyManager.enforcements
        (TreatyManager.enforce_treaties tm current_tick rd update_func).1.1
        inputs update_func).1,
     (TreatyManager.enforce_treaties tm current_tick rd update_func).2
     :: (TreatyManager.enforcements
           (TreatyManager.enforce_treaties tm current_tick rd update_func).1.1
           inputs update_func).2).
Proof.
  cbn [TreatyManager.enforcements].
  destruct (TreatyManager.enforce_treaties tm current_tick rd update_func)
    as [[tm1 rd1] results]. cbn [fst snd].
  by destruct (TreatyManager.enforcements tm1 inputs update_func).
Qed.

(** Once a treaty id is out of the active list, no call reports it again. *)
Lemma enforcements_absent (id : string) (update_func : bool)
    (inputs : list (Z * gmap string Region)) :
  forall tm,
    id ∉ map TreatyManager.treaty_id (TreatyManager.active_treaties tm) ->
    Forall (fun results =>
              ~ Exists (fun res => TreatyManager.r_treaty_id res = id) results)
           (TreatyManager.enforcements tm inputs update_func).2.
Proof.
  induction inputs as [|[current_tick rd] inputs IH]; intros tm Hout.
  - constructor.
  - rewrite enforcements_cons. cbn [snd].
    destruct (enforce_treaties_enforced tm current_tick rd update_func)
      as (expired & _ & _ & Hrel).
    destruct (enforced_subset _ _ _ _ Hrel) as [Hres Hkept].
    constructor.
    + intros Hex. apply Exists_exists in Hex as (res & Hin & <-).
      apply Hout. by apply Hres.
    + apply IH. intros Hin. apply list_elem_of_fmap in Hin as (t & -> & Ht).
      apply Hout. by apply Hkept.
Qed.

Lemma enforcements_stay_out (id : string) (update_func : bool)
    (inputs : list (Z * gmap string Region)) :
  forall tm,
    id ∉ map TreatyManager.treaty_id (TreatyManager.active_treaties tm) ->
    id ∉ map TreatyManager.treaty_id
           (TreatyManager.active_treaties
              (TreatyManager.enforcements tm inputs update_func).1).
Proof.
  induction inputs as [|[current_tick rd] inputs IH]; intros tm Hout; [exact Hout|].
  rewrite enforcements_cons. cbn [fst].
  destruct (enforce_treaties_enforced tm current_tick rd update_func)
    as (expired & _ & _ & Hrel).
  destruct (enforced_subset _ _ _ _ Hrel) as [_ Hkept].
  apply IH. intros Hin. apply list_elem_of_fmap in Hin as (t & -> & Ht).
  apply Hout. by apply Hkept.
Qed.

Lemma enforcements_expired (tr : TreatyManager.Treaty) (update_func : bool)
    (inputs : list (Z * gmap string Region)) :
  forall tm,
    tr ∈ TreatyManager.expired_treaties tm ->
    tr ∈ TreatyManager.expired_treaties
           (TreatyManager.enforcements tm inputs update_func).1.
Proof.
  induction inputs as [|[current_tick rd] inputs IH]; intros tm Hin; [exact Hin|].
  rewrite enforcements_cons. cbn [fst].
  destruct (enforce_treaties_enforced tm current_tick rd update_func)
    as (expired & He & _ & _).
  apply IH. rewrite He. apply elem_of_app. by left.
Qed.

Lemma treaty_life (update_func : bool) (inputs : list (Z * gmap string Region)) :
  forall tm tr,
    NoDup (map TreatyManager.treaty_id (TreatyManager.active_treaties tm)) ->
    tr ∈ TreatyManager.active_treaties tm ->
    TreatyManager.is_active tr = true ->
    (forall i results,
       (TreatyManager.enforcements tm inputs update_func).2 !! i = Some results ->
       (Exists (fun res => TreatyManager.r_treaty_id res = TreatyManager.treaty_id tr)
               results
        <-> Z.of_nat i < Z.max 1 (TreatyManager.ticks_remaining tr)))
    /\ (Z.of_nat (length inputs) < Z.max 1 (TreatyManager.ticks_remaining tr) ->
        exists tr',
          tr' ∈ TreatyManager.active_treaties
                  (TreatyManager.enforcements tm inputs update_func).1
          /\ TreatyManager.treaty_id tr' = TreatyManager.treaty_id tr
          /\ TreatyManager.is_active tr' = true
          /\ TreatyManager.ticks_remaining tr'
             = TreatyManager.ticks_remaining tr - Z.of_nat (length inputs))
    /\ (Z.max 1 (TreatyManager.ticks_remaining tr) <= Z.of_nat (length inputs) ->
        (TreatyManager.treaty_id tr
         ∉ map TreatyManager.treaty_id
             (TreatyManager.active_treaties
                (TreatyManager.enforcements tm inputs update_func).1))
        /\ exists tr',
             tr' ∈ TreatyManager.expired_treaties
                     (TreatyManager.enforcements tm inputs update_func).1
             /\ TreatyManager.treaty_id tr' = TreatyManager.treaty_id tr
             /\ TreatyManager.is_active tr' = false).
Proof.
  induction inputs as [|[current_tick rd] inputs IH]; intros tm tr Hnd Hin Hactive.
  - split; [intros i results Hi; simpl in Hi; by rewrite lookup_nil in Hi|].
    split; [|simpl; lia].
    intros _. exists tr. simpl. repeat split; try done. lia.
  - rewrite enforcements_cons. cbn [fst snd length]. rewrite Nat2Z.inj_succ.
    destruct (enforce_treaties_enforced tm current_tick rd update_func)
      as (expired & He & _ & Hrel).
    set (tm1 := (TreatyManager.enforce_treaties tm current_tick rd update_func).1.1) in *.
    set (results0 := (TreatyManager.enforce_treaties tm current_tick rd update_func).2)
      in *.
    destruct (enforced_one _ _ _ _ tr Hrel Hin Hactive)
      as (Hres & tr' & Haged & Hkeep & Hexp).
    destruct (enforced_NoDup _ _ _ _ Hrel Hnd) as [Hnd1 Hdisj].
    pose proof Haged as (Hid & _ & _ & _ & _ & Hticks & Hact).
    destruct (decide (1 < TreatyManager.ticks_remaining tr)) as [Hbig|Hsmall].
    + assert (Hact' : TreatyManager.is_active tr' = true).
      { rewrite Hact, Hactive. destruct (_ <=? 0) eqn:Hle; [|reflexivity].
        apply Z.leb_le in Hle. lia. }
      destruct (IH tm1 tr' Hnd1 (Hkeep Hbig) Hact') as (Hrep & Hlive & Hdead).
      rewrite Hid, Hticks in Hrep, Hlive, Hdead.
      split; [|split].
      * intros [|i] results Hi.
        -- injection Hi as <-. split; [lia|by intros _].
        -- rewrite (Hrep i results Hi). lia.
      * intros Hk. destruct Hlive as (tr'' & H1 & H2 & H3 & H4); [lia|].
        exists tr''. repeat split; try done. lia.
      * intros Hk. apply Hdead. lia.
    + assert (Hact' : TreatyManager.is_active tr' = false).
      { rewrite Hact. destruct (_ <=? 0) eqn:Hle; [reflexivity|].
        apply Z.leb_gt in Hle. lia. }
      assert (Hout : TreatyManager.treaty_id tr
                     ∉ map TreatyManager.treaty_id (TreatyManager.active_treaties tm1)).
      { intros Hin'. apply list_elem_of_fmap in Hin' as (t & Ht & Hint).
        apply (Hdisj t tr' Hint); [by apply Hexp; lia|congruence]. }
      split; [|split].
      * intros [|i] results Hi.
        -- injection Hi as <-. split; [lia|by intros _].
        -- pose proof (enforcements_absent _ update_func inputs tm1 Hout) as Hnone.
           rewrite Forall_lookup in Hnone. specialize (Hnone i results Hi).
           split; [by intros Hex|lia].
      * lia.
      * intros _. split; [by apply enforcements_stay_out|].
        exists tr'. split; [|by split].
        apply enforcements_expired. rewrite He.
        apply elem_of_app. right. apply Hexp. lia.
Qed.

(** X15. A treaty that is in the active list with [n] ticks remaining is
    enforced by exactly the next [max(1, n)] calls of [enforce_treaties] and
    by no later one.  Until then it stays in the active list, marked
    active, with one tick less after each call; the call that uses up its
    last tick marks it inactive and moves it to the expired list, where it
    stays.  A treaty created with a duration of zero or less is thus still
    enforced once. *)
Theorem treaty_lifetime (update_func : bool) (inputs : list (Z * gmap string Region))
    (tm : TreatyManager.t) (tr : TreatyManager.Treaty) :
  NoDup (map TreatyManager.treaty_id (TreatyManager.active_treaties tm)) ->
  tr ∈ TreatyManager.active_treaties tm ->
  TreatyManager.is_active tr = true ->
  (forall i results,
     (TreatyManager.enforcements tm inputs update_func).2 !! i = Some results ->
     (Exists (fun res => TreatyManager.r_treaty_id res = TreatyManager.treaty_id tr)
             results
      <-> Z.of_nat i < Z.max 1 (TreatyManager.ticks_remaining tr)))
  /\ (Z.of_nat (length inputs) < Z.max 1 (TreatyManager.ticks_remaining tr) ->
      exists tr',
        tr' ∈ TreatyManager.active_treaties
                (TreatyManager.enforcements tm inputs update_func).1
        /\ TreatyManager.treaty_id tr' = TreatyManager.treaty_id tr
        /\ TreatyManager.is_active tr' = true
        /\ TreatyManager.ticks_remaining tr'
           = TreatyManager.ticks_remaining tr - Z.of_nat (length inputs))
  /\ (Z.max 1 (TreatyManager.ticks_remaining tr) <= Z.of_nat (length inputs) ->
      (TreatyManager.treaty_id tr
       ∉ map TreatyManager.treaty_id
           (TreatyManager.active_treaties
              (TreatyManager.enforcements tm inputs update_func).1))
      /\ exists tr',
           tr' ∈ TreatyManager.expired_treaties
                   (TreatyManager.enforcements tm inputs update_func).1
           /\ TreatyManager.treaty_id tr' = TreatyManager.treaty_id tr
           /\ TreatyManager.is_active tr' = false).
Proof. apply treaty_life. Qed.

Lemma treaty_lifetime_witness :
  TreatyManager.ticks_remaining Scenario.first_treaty = 2
  /\ TreatyManager.treaty_id Scenario.first_treaty
     ∉ map TreatyManager.treaty_id
         (TreatyManager.active_treaties
            (TreatyManager.enforcements Scenario.one_proposal.1
               [(2, Scenario.two_regions); (3, Scenario.two_regions)] true).1).
Proof.
  split; [reflexivity|].
  destruct (treaty_lifetime true [(2, Scenario.two_regions); (3, Scenario.two_regions)]
              Scenario.one_proposal.1 Scenario.first_treaty) as (_ & _ & Hdead).
  - apply (bool_decide_unpack _). vm_compute. exact I.
  - change (Scenario.first_treaty ∈ [Scenario.first_treaty]). by left.
  - reflexivity.
  - apply Hdead. apply Z.leb_le. vm_compute. reflexivity.
Defined.

(** *** A treaty and its dict *)

(** X16. Turning a treaty into its dict and back gives the same treaty.
    Reading a dict fails, with [KeyError], exactly when one of the six keys
    of the agreement itself is missing (id, the two regions, offer,
    request, duration); the other keys have defaults: no conditions, the
    whole duration remaining, active, no breach, created at tick 0. *)
Theorem treaty_dict_round_trip :
  (forall tr, TreatyManager.from_dict (TreatyManager.to_dict tr) = Ok tr)
  /\ (forall data,
        TreatyManager.from_dict data = Raise KeyError
        <-> TreatyManager.d_treaty_id data = None
            \/ TreatyManager.d_from_region data = None
            \/ TreatyManager.d_to_region data = None
            \/ TreatyManager.d_per_tick_offer data = None
            \/ TreatyManager.d_per_tick_request data = None
            \/ TreatyManager.d_duration_ticks data = None)
  /\ (forall data e, TreatyManager.from_dict data = Raise e -> e = KeyError)
  /\ (forall data tr,
        TreatyManager.from_dict data = Ok tr ->
        TreatyManager.d_treaty_id data = Some (TreatyManager.treaty_id tr)
        /\ TreatyManager.d_from_region data = Some (TreatyManager.from_region tr)
        /\ TreatyManager.d_to_region data = Some (TreatyManager.to_region tr)
        /\ TreatyManager.d_per_tick_offer data = Some (TreatyManager.per_tick_offer tr)
        /\ TreatyManager.d_per_tick_request data = Some (TreatyManager.per_tick_request tr)
        /\ TreatyManager.d_duration_ticks data = Some (TreatyManager.duration_ticks tr)
        /\ TreatyManager.conditions tr = default "" (TreatyManager.d_conditions data)
        /\ TreatyManager.ticks_remaining tr
           = default (TreatyManager.duration_ticks tr) (TreatyManager.d_ticks_remaining data)
        /\ TreatyManager.is_active tr = default true (TreatyManager.d_is_active data)
        /\ TreatyManager.breaches tr = default [] (TreatyManager.d_breaches data)
        /\ TreatyManager.created_tick tr = default 0 (TreatyManager.d_created_tick data)).
Proof.
  split; [by intros []|]. split; [|split].
  - intros [[id|] [from_region|] [to_region|] [offer|] [request|] [duration|] ? ? ? ? ?];
      unfold TreatyManager.from_dict; simpl; split;
      try (intros _; reflexivity); try discriminate; try tauto;
      intros [H|[H|[H|[H|[H|H]]]]]; discriminate H.
  - intros [[id|] [from_region|] [to_region|] [offer|] [request|] [duration|] ? ? ? ? ?] e;
      unfold TreatyManager.from_dict; simpl; congruence.
  - intros [[id|] [from_region|] [to_region|] [offer|] [request|] [duration|] ? ? ? ? ?] tr;
      unfold TreatyManager.from_dict; simpl; try discriminate.
    intros [= <-]. simpl. by repeat split.
Qed.

(** ** The climate engine: what a tick leaves behind *)

Lemma elem_of_deletes (e : string) (n : Z) (l : list string) (d : list (string * Z)) :
  (e, n) ∈ foldl (fun a k => OrderedDict.del k a) d l <-> (e, n) ∈ d /\ e ∉ l.
Proof.
  revert d. induction l as [|k l IH]; intros d; simpl.
  - split; [intros H; split; [exact H|by apply not_elem_of_nil]|by intros [H _]].
  - rewrite IH. unfold OrderedDict.del. rewrite list_elem_of_filter, not_elem_of_cons.
    simpl. tauto.
Qed.

Lemma tick_down_shape (eng eng' : ClimateEngine.t) (fh : option Firestore.t)
    (events : list ClimateEngine.Event) :
  ClimateEngine.tick_down eng fh = Ok (eng', events) ->
  ClimateEngine.last_event_tick eng' = ClimateEngine.last_event_tick eng
  /\ (forall ev, ClimateEngine.TRIGGERED ev ∉ events)
  /\ (forall e n, (e, n) ∈ ClimateEngine.active_events eng' <->
                  1 <= n /\ (e, n + 1) ∈ ClimateEngine.active_events eng
                  /\ forall m, (e, m) ∈ ClimateEngine.active_events eng -> 1 < m)
  /\ (forall e, ClimateEngine.EXPIRED e ∈ events <->
                exists m, (e, m) ∈ ClimateEngine.active_events eng /\ m <= 1).
Proof.
  unfold ClimateEngine.tick_down. intros Hrun. inv_bind Hrun. destruct a as [act evs].
  injection Hrun as <- <-. apply expire_loop in Ha as [-> ->]. cbn [app].
  cbn [ClimateEngine.last_event_tick ClimateEngine.active_events].
  assert (Hdec : forall e n, (e, n) ∈ map (fun p : string * Z => (p.1, p.2 - 1))
                                          (ClimateEngine.active_events eng)
                             <-> (e, n + 1) ∈ ClimateEngine.active_events eng).
  { intros e n. rewrite list_elem_of_fmap. split.
    - intros ([e' m] & [= -> ->] & Hin). simpl. by replace (m - 1 + 1) with m by lia.
    - intros Hin. exists (e, n + 1). split; [simpl; f_equal; lia|exact Hin]. }
  assert (Hexp : forall e,
            e ∈ map fst (filter (fun p : string * Z => p.2 <= 0)
                           (map (fun p : string * Z => (p.1, p.2 - 1))
                                (ClimateEngine.active_events eng)))
            <-> exists m, (e, m) ∈ ClimateEngine.active_events eng /\ m <= 1).
  { intros e. rewrite list_elem_of_fmap. split.
    - intros ([e' n] & -> & Hin). apply list_elem_of_filter in Hin as [Hn Hin].
      simpl in Hn. apply Hdec in Hin. exists (n + 1). split; [exact Hin|lia].
    - intros (m & Hin & Hm). exists (e, m - 1). split; [reflexivity|].
      apply list_elem_of_filter. split; [simpl; lia|].
      apply Hdec. by replace (m - 1 + 1) with m by lia. }
  split; [reflexivity|]. split; [|split].
  - intros ev Hin. apply list_elem_of_fmap in Hin as (k & Hk & _). discriminate.
  - intros e n. rewrite elem_of_deletes, Hdec, Hexp. split.
    + intros [Hin Hout]. split; [|split; [exact Hin|]].
      * destruct (decide (1 <= n)) as [H1|H1]; [exact H1|].
        exfalso. apply Hout. exists (n + 1). split; [exact Hin|lia].
      * intros m Hm. destruct (decide (1 < m)) as [H1|H1]; [exact H1|].
        exfalso. apply Hout. exists m. split; [exact Hm|lia].
    + intros (Hn & Hin & Hall). split; [exact Hin|].
      intros (m & Hm & Hle). specialize (Hall m Hm). lia.
  - intros e. rewrite <- Hexp. rewrite list_elem_of_fmap. split.
    + by intros (k & [= ->] & Hin).
    + intros Hin. eauto.
Qed.

Lemma check_new_events_interval (eng eng' : ClimateEngine.t) (current_tick : Z)
    (rnd : ClimateEngine.Random) (fh : option Firestore.t)
    (events : list ClimateEngine.Event) :
  ClimateEngine.check_new_events eng current_tick rnd fh = Ok (eng', events) ->
  (eng' = eng /\ events = [])
  \/ (exists ev,
        events = [ClimateEngine.TRIGGERED ev]
        /\ CLIMATE_MIN_INTERVAL <= current_tick - ClimateEngine.last_event_tick eng
        /\ ltb (ClimateEngine.random rnd) CLIMATE_EVENT_PROBABILITY = true
        /\ ClimateEngine.last_event_tick eng' = current_tick).
Proof.
  unfold ClimateEngine.check_new_events.
  destruct (CLIMATE_MIN_INTERVAL <=? _) eqn:Hgap; simpl;
    [|intros [= <- <-]; by left].
  destruct (ltb _ _) eqn:Hdraw; [|intros [= <- <-]; by left].
  destruct (ClimateEngine._select_event eng rnd) as [e|]; [|intros [= <- <-]; by left].
  destruct (negb _); [|intros [= <- <-]; by left].
  intros Hrun. inv_bind Hrun. destruct a as [eng1 ev]. injection Hrun as <- <-.
  right. exists ev. apply Z.leb_le in Hgap. by repeat split.
Qed.

Lemma climate_tick_shape (eng eng' : ClimateEngine.t) (current_tick : Z)
    (rnd : ClimateEngine.Random) (fh : option Firestore.t)
    (events : list ClimateEngine.Event) :
  ClimateEngine.tick eng current_tick rnd fh = Ok (eng', events) ->
  Forall (fun p => 1 <= p.2) (ClimateEngine.active_events eng')
  /\ (forall e, ClimateEngine.EXPIRED e ∈ events ->
                e ∉ OrderedDict.keys (ClimateEngine.active_events eng'))
  /\ ((forall ev, ClimateEngine.TRIGGERED ev ∉ events)
      /\ ClimateEngine.last_event_tick eng' = ClimateEngine.last_event_tick eng
      \/ (exists ev expired,
            events = ClimateEngine.TRIGGERED ev :: map ClimateEngine.EXPIRED expired
            /\ CLIMATE_MIN_INTERVAL <= current_tick - ClimateEngine.last_event_tick eng
            /\ ClimateEngine.last_event_tick eng' = current_tick)).
Proof.
  unfold ClimateEngine.tick. intros Hrun.
  inv_bind Hrun. destruct a as [eng1 triggered]. rename Ha into Hnew.
  inv_bind Hrun. destruct a as [eng2 expired]. rename Ha into Hdown.
  injection Hrun as <- <-.
  pose proof (tick_down_shape _ _ _ _ Hdown) as (Hlast & Hnot & Hact & Hexp).
  assert (Hgone : forall e, ClimateEngine.EXPIRED e ∈ expired ->
                            e ∉ OrderedDict.keys (ClimateEngine.active_events eng2)).
  { intros e He Hin. apply Hexp in He as (m & Hm & Hle).
    apply list_elem_of_fmap in Hin as ([e' n] & -> & Hin). simpl in Hm.
    apply Hact in Hin as (_ & _ & Hall). specialize (Hall m Hm). lia. }
  split; [|split].
  - apply Forall_forall. intros [e n] Hin. by apply Hact in Hin as [Hn _].
  - intros e He. apply Hgone.
    apply elem_of_app in He as [He|He]; [|exact He].
    destruct (check_new_events_interval _ _ _ _ _ _ Hnew) as [[_ ->]|(ev & -> & _)];
      [inversion He|].
    apply list_elem_of_singleton in He. discriminate.
  - destruct (check_new_events_interval _ _ _ _ _ _ Hnew)
      as [[-> ->]|(ev & -> & Hgap & _ & Htick)].
    + left. split; [exact Hnot|exact Hlast].
    + right. unfold ClimateEngine.tick_down in Hdown. inv_bind Hdown.
      destruct a as [act evs]. injection Hdown as <- <-.
      apply expire_loop in Ha as [_ ->]. eexists ev, _.
      split; [reflexivity|]. split; [exact Hgap|]. simpl. exact Htick.
Qed.

(** X17. Whatever the engine held before, a tick of the climate engine that
    returns leaves only events with at least one tick left, and an event it
    reports as expired is no longer active.  A tick starts at most one
    event and reports it before the expired ones; it starts none unless at
    least five ticks have passed since the last start, and a start sets the
    tick of the last start to the current tick, which is otherwise left as
    it was. *)
Theorem climate_tick_leaves_live_events (eng eng' : ClimateEngine.t) (current_tick : Z)
    (rnd : ClimateEngine.Random) (fh : option Firestore.t)
    (events : list ClimateEngine.Event) :
  ClimateEngine.tick eng current_tick rnd fh = Ok (eng', events) ->
  Forall (fun p => 1 <= p.2) (ClimateEngine.active_events eng')
  /\ (forall e, ClimateEngine.EXPIRED e ∈ events ->
                e ∉ OrderedDict.keys (ClimateEngine.active_events eng'))
  /\ ((forall ev, ClimateEngine.TRIGGERED ev ∉ events)
      /\ ClimateEngine.last_event_tick eng' = ClimateEngine.last_event_tick eng
      \/ (exists ev expired,
            events = ClimateEngine.TRIGGERED ev :: map ClimateEngine.EXPIRED expired
            /\ CLIMATE_MIN_INTERVAL <= current_tick - ClimateEngine.last_event_tick eng
            /\ ClimateEngine.last_event_tick eng' = current_tick)).
Proof. apply climate_tick_shape. Qed.

Lemma climate_tick_leaves_live_events_witness :
  exists eng' events,
    ClimateEngine.tick
      {| ClimateEngine.last_event_tick := 0;
         ClimateEngine.active_events := [("Flood_BR", 1); ("Drought_RJ", 3)] |}
      2 Scenario.stormy None
    = Ok (eng', events)
    /\ Forall (fun p => 1 <= p.2) (ClimateEngine.active_events eng')
    /\ events = [ClimateEngine.EXPIRED "Flood_BR"].
Proof.
  eexists _, _. split; [vm_compute; reflexivity|].
  split; [|reflexivity].
  eapply (climate_tick_leaves_live_events
            {| ClimateEngine.last_event_tick := 0;
               ClimateEngine.active_events := [("Flood_BR", 1); ("Drought_RJ", 3)] |}
            _ 2 Scenario.stormy None).
  vm_compute. reflexivity.
Defined.

(** ** The assembly: who votes, and what a meeting records *)

(** X18. A meeting of the assembly that returns collects, in the order of
    the state codes, one proposal from the governor of every state that has
    a report, and votes on the first three of them, in that order: the
    records carry these proposals, under the name and the proposer they
    give (or "Unknown Policy" and "??").  On every item each such state
    votes exactly once: the YES and NO lists together are a rearrangement
    of the state codes that have a report.  The names the meeting reports
    as passed are those of the carried records, in order, and the
    parliament's list of resolutions grows by exactly one entry per carried
    record, stamped with the tick of the meeting. *)
Theorem assembly_ballots (parl parl' : Parliament.t) (ext : External)
    (reports : gmap string Report) (current_tick : Z) (fh : option Firestore.t)
    (m : Parliament.MeetingResult) :
  Parliament.convene_assembly parl ext reports current_tick fh = Ok (parl', m) ->
  let voters := filter (fun code => is_Some (reports !! code)) STATE_CODES in
  let carried := filter (fun r => Parliament.passed r = true)
                        (Parliament.voting_results m) in
  (exists proposals,
     Forall2 (fun code p =>
                exists report, reports !! code = Some report
                               /\ propose_federal_policy ext code report reports = Ok p)
             voters proposals
     /\ map Parliament.vr_proposal (Parliament.voting_results m) = take 3 proposals)
  /\ Forall (fun r =>
               Parliament.vr_policy_name r
               = default "Unknown Policy" (policy_name (Parliament.vr_proposal r))
               /\ Parliament.vr_proposer r
                  = default "??" (proposer (Parliament.vr_proposal r)))
            (Parliament.voting_results m)
  /\ Parliament.proposals_count m = Z.of_nat (length voters)
  /\ length (Parliament.voting_results m) = (3 `min` length voters)%nat
  /\ Forall (fun r => Parliament.yes_votes r ++ Parliament.no_votes r ≡ₚ voters)
            (Parliament.voting_results m)
  /\ Parliament.mr_passed_resolutions m = map Parliament.vr_policy_name carried
  /\ Parliament.passed_resolutions parl'
     = Parliament.passed_resolutions parl
       ++ map (fun r => {| Parliament.name := Parliament.vr_policy_name r;
                           Parliament.proposal := Parliament.vr_proposal r;
                           Parliament.tick_passed := current_tick |}) carried.
Proof.
  intros Hrun voters carried.
  destruct (convene_assembly_ballots _ _ _ _ _ _ _ Hrun)
    as (proposals & Hprop & Hps & Hcount & Hlen & Hall & Hnames & Hres).
  fold voters in Hprop, Hcount, Hlen, Hall. fold carried in Hnames, Hres.
  split; [exists proposals; by split|].
  split; [eapply Forall_impl; [exact Hall|]; by intros r (_ & _ & _ & _ & Hn & Hp)|].
  split; [exact Hcount|]. split; [exact Hlen|].
  split; [eapply Forall_impl; [exact Hall|]; by intros r (Hperm & _)|].
  by split.
Qed.

Lemma assembly_ballots_witness :
  exists parl' m,
    Parliament.convene_assembly Parliament.init Scenario.quiet Scenario.ten_reports 50 None
    = Ok (parl', m)
    /\ Parliament.proposals_count m = 10
    /\ length (Parliament.voting_results m) = 3%nat
    /\ map Parliament.vr_policy_name (Parliament.voting_results m) = ["PB"; "MH"; "TN"]
    /\ Forall (fun r => Parliament.yes_votes r ++ Parliament.no_votes r ≡ₚ STATE_CODES)
              (Parliament.voting_results m)
    /\ Forall (fun r => Parliament.vr_proposer r
                        = default "??" (proposer (Parliament.vr_proposal r)))
              (Parliament.voting_results m).
Proof.
  assert (Hnames : match Parliament.convene_assembly Parliament.init Scenario.quiet
                           Scenario.ten_reports 50 None with
                   | Ok (_, m) => Some (map Parliament.vr_policy_name
                                            (Parliament.voting_results m))
                   | Raise _ => None
                   end = Some ["PB"; "MH"; "TN"]) by (vm_compute; reflexivity).
  destruct (Parliament.convene_assembly Parliament.init Scenario.quiet
              Scenario.ten_reports 50 None) as [[parl' m]|e] eqn:Hrun;
    [|discriminate Hnames].
  apply (inj Some) in Hnames.
  exists parl', m. split; [reflexivity|].
  destruct (assembly_ballots _ _ _ _ _ _ _ Hrun)
    as (_ & Hlabels & Hcount & Hlen & Hall & _).
  assert (Hvoters : filter (fun code => is_Some (Scenario.ten_reports !! code)) STATE_CODES
                    = STATE_CODES) by (vm_compute; reflexivity).
  rewrite Hvoters in Hcount, Hlen, Hall.
  split; [exact Hcount|]. split; [exact Hlen|]. split; [exact Hnames|].
  split; [exact Hall|].
  eapply Forall_impl; [exact Hlabels|]. by intros r [_ Hp].
Defined.

(** ** The climate engine: how far apart events start *)

Lemma ticks_first_start (inputs : list (ClimateEngine.Random * option Firestore.t)) :
  forall (eng eng' : ClimateEngine.t) (t0 : Z) (reports : list (list ClimateEngine.Event))
         (j : nat) (events : list ClimateEngine.Event) (ev : ClimateEngine.Triggered),
    ClimateEngine.ticks eng t0 inputs = Ok (eng', reports) ->
    reports !! j = Some events -> ClimateEngine.TRIGGERED ev ∈ events ->
    CLIMATE_MIN_INTERVAL <= t0 + Z.of_nat j - ClimateEngine.last_event_tick eng.
Proof.
  induction inputs as [|[rnd fh] inputs IH];
    intros eng eng' t0 reports j events ev Hrun Hj Hev; simpl in Hrun.
  - injection Hrun as <- <-. by rewrite lookup_nil in Hj.
  - inv_bind Hrun. destruct a as [eng1 first]. rename Ha into Hfirst.
    inv_bind Hrun. destruct a as [eng2 later]. rename Ha into Hlater.
    injection Hrun as <- <-.
    apply climate_tick_shape in Hfirst as (_ & _ & Hcase).
    destruct j as [|j]; simpl in Hj.
    + injection Hj as <-.
      destruct Hcase as [[Hnone _]|(ev' & expired & _ & Hgap & _)];
        [by apply Hnone in Hev|lia].
    + specialize (IH _ _ _ _ _ _ _ Hlater Hj Hev).
      destruct Hcase as [[_ Hlast]|(ev' & expired & _ & Hgap & Hlast)];
        rewrite Hlast in IH; unfold CLIMATE_MIN_INTERVAL in *; lia.
Qed.

Lemma ticks_spaced (inputs : list (ClimateEngine.Random * option Firestore.t)) :
  forall (eng eng' : ClimateEngine.t) (t0 : Z) (reports : list (list ClimateEngine.Event))
         (i j : nat) (first second : list ClimateEngine.Event)
         (ev1 ev2 : ClimateEngine.Triggered),
    ClimateEngine.ticks eng t0 inputs = Ok (eng', reports) ->
    (i < j)%nat ->
    reports !! i = Some first -> ClimateEngine.TRIGGERED ev1 ∈ first ->
    reports !! j = Some second -> ClimateEngine.TRIGGERED ev2 ∈ second ->
    CLIMATE_MIN_INTERVAL <= Z.of_nat j - Z.of_nat i.
Proof.
  induction inputs as [|[rnd fh] inputs IH];
    intros eng eng' t0 reports i j first second ev1 ev2 Hrun Hij Hi H1 Hj H2;
    simpl in Hrun.
  - injection Hrun as <- <-. by rewrite lookup_nil in Hi.
  - inv_bind Hrun. destruct a as [eng1 events]. rename Ha into Hfirst.
    inv_bind Hrun. destruct a as [eng2 later]. rename Ha into Hlater.
    injection Hrun as <- <-.
    destruct j as [|j]; [lia|]. simpl in Hj.
    destruct i as [|i]; simpl in Hi.
    + injection Hi as <-.
      apply climate_tick_shape in Hfirst as (_ & _ & Hcase).
      destruct Hcase as [[Hnone _]|(ev' & expired & _ & _ & Hlast)];
        [by apply Hnone in H1|].
      pose proof (ticks_first_start _ _ _ _ _ _ _ _ Hlater Hj H2) as Hgap.
      rewrite Hlast in Hgap. lia.
    + assert (Hgap : CLIMATE_MIN_INTERVAL <= Z.of_nat j - Z.of_nat i)
        by (eapply (IH _ _ _ _ i j); eauto; lia).
      lia.
Qed.

(** X19. Over any run of consecutive ticks of the climate engine, whatever
    the draws, two ticks in which an event starts are at least five ticks
    apart. *)
Theorem climate_events_spaced
    (eng eng' : ClimateEngine.t) (t0 : Z)
    (inputs : list (ClimateEngine.Random * option Firestore.t))
    (reports : list (list ClimateEngine.Event))
    (i j : nat) (first second : list ClimateEngine.Event)
    (ev1 ev2 : ClimateEngine.Triggered) :
  ClimateEngine.ticks eng t0 inputs = Ok (eng', reports) ->
  (i < j)%nat ->
  reports !! i = Some first -> ClimateEngine.TRIGGERED ev1 ∈ first ->
  reports !! j = Some second -> ClimateEngine.TRIGGERED ev2 ∈ second ->
  CLIMATE_MIN_INTERVAL <= Z.of_nat j - Z.of_nat i.
Proof. apply ticks_spaced. Qed.

Lemma climate_events_spaced_witness :
  exists eng' reports first second ev1 ev2,
    ClimateEngine.ticks ClimateEngine.init 1
                        (replicate 6 (Scenario.stormy, None)) = Ok (eng', reports)
    /\ reports !! 0%nat = Some first /\ ClimateEngine.TRIGGERED ev1 ∈ first
    /\ reports !! 5%nat = Some second /\ ClimateEngine.TRIGGERED ev2 ∈ second
    /\ CLIMATE_MIN_INTERVAL <= Z.of_nat 5 - Z.of_nat 0.
Proof.
  assert (Hok : is_Ok (ClimateEngine.ticks ClimateEngine.init 1
                         (replicate 6 (Scenario.stormy, None))) = true)
    by (vm_compute; reflexivity).
  assert (Hstarts :
            match ClimateEngine.ticks ClimateEngine.init 1
                    (replicate 6 (Scenario.stormy, None)) with
            | Ok (_, reports) => (head <$> reports !! 0%nat, head <$> reports !! 5%nat)
            | Raise _ => (None, None)
            end
            = (Some (Some (ClimateEngine.TRIGGERED Scenario.drought)),
               Some (Some (ClimateEngine.TRIGGERED
                             {| ClimateEngine.event_id := "Cyclone_WB";
                                ClimateEngine.target_region := "WB";
                                ClimateEngine.duration := 8;
                                ClimateEngine.impact := None |}))))
    by (vm_compute; reflexivity).
  destruct (ClimateEngine.ticks ClimateEngine.init 1
              (replicate 6 (Scenario.stormy, None))) as [[eng' reports]|e] eqn:Hrun;
    [|discriminate Hok].
  destruct (reports !! 0%nat) as [first|] eqn:H0; [|discriminate Hstarts].
  destruct (reports !! 5%nat) as [second|] eqn:H5; [|discriminate Hstarts].
  injection Hstarts as Hfirst Hsecond.
  assert (H1 : ClimateEngine.TRIGGERED Scenario.drought ∈ first)
    by (destruct first; [discriminate Hfirst|injection Hfirst as ->; left]).
  assert (H2 : ClimateEngine.TRIGGERED
                 {| ClimateEngine.event_id := "Cyclone_WB";
                    ClimateEngine.target_region := "WB";
                    ClimateEngine.duration := 8;
                    ClimateEngine.impact := None |} ∈ second)
    by (destruct second; [discriminate Hsecond|injection Hsecond as ->; left]).
  eexists eng', reports, first, second, _, _.
  split; [reflexivity|]. split; [exact H0|]. split; [exact H1|].
  split; [exact H5|]. split; [exact H2|].
  eapply (climate_events_spaced _ _ _ _ _ 0%nat 5%nat); eauto. lia.
Defined.

(** ** The climate engine: which event starts, and which regions it marks *)

Lemma _select_event_available (eng : ClimateEngine.t) (rnd : ClimateEngine.Random) :
  (forall e, ClimateEngine._select_event eng rnd = Some e ->
             e ∈ map fst ClimateEngine.EVENT_WEIGHTS
             /\ e ∉ OrderedDict.keys (ClimateEngine.active_events eng))
  /\ (ClimateEngine._select_event eng rnd = None <->
      forall e, e ∈ map fst ClimateEngine.EVENT_WEIGHTS ->
                e ∈ OrderedDict.keys (ClimateEngine.active_events eng)).
Proof.
  unfold ClimateEngine._select_event.
  set (available := filter _ ClimateEngine.EVENT_WEIGHTS).
  assert (Hav : forall p, p ∈ available <->
                          p ∈ ClimateEngine.EVENT_WEIGHTS
                          /\ p.1 ∉ OrderedDict.keys (ClimateEngine.active_events eng)).
  { intros p. unfold available. rewrite list_elem_of_filter.
    rewrite <- OrderedDict_mem_keys.
    destruct (OrderedDict.mem p.1 (ClimateEngine.active_events eng)); simpl;
      split; intros [H1 H2]; split; auto; try (by destruct H1); congruence. }
  clearbody available.
  destruct available as [|[e0 w0] rest]; split.
  - discriminate.
  - split; [|reflexivity]. intros _ e He.
    apply list_elem_of_fmap in He as (p & -> & Hp).
    destruct (decide (p.1 ∈ OrderedDict.keys (ClimateEngine.active_events eng)))
      as [Hin|Hout]; [exact Hin|].
    exfalso. assert (Hnil : p ∈ @nil (string * float)) by (apply Hav; by split).
    inversion Hnil.
  - intros e Hsel.
    assert (Hin : nth (ClimateEngine.choice rnd `mod` length ((e0, w0) :: rest))
                      (map fst ((e0, w0) :: rest)) e0 ∈ map fst ((e0, w0) :: rest)).
    { apply list_elem_of_In, nth_In. rewrite length_map.
      apply Nat.mod_upper_bound. simpl. lia. }
    assert (He : e = nth (ClimateEngine.choice rnd `mod` length ((e0, w0) :: rest))
                         (map fst ((e0, w0) :: rest)) e0) by congruence.
    rewrite <- He in Hin. clear He Hsel.
    apply list_elem_of_fmap in Hin as (p & -> & Hp).
    apply Hav in Hp as [Hp Hout]. split; [|exact Hout].
    apply list_elem_of_fmap. eauto.
  - split; [discriminate|]. intros Hall. exfalso.
    assert (Hp : (e0, w0) ∈ (e0, w0) :: rest) by left.
    apply Hav in Hp as [Hp Hout]. apply Hout, Hall.
    apply list_elem_of_fmap. exists (e0, w0). by split.
Qed.

(** X20. Whatever the draw, the event the engine selects belongs to the
    catalog of seven and is not active at that moment; the selection gives
    nothing exactly when all seven events of the catalog are active. *)
Theorem select_event_is_available (eng : ClimateEngine.t) (rnd : ClimateEngine.Random) :
  (forall e, ClimateEngine._select_event eng rnd = Some e ->
             e ∈ map fst ClimateEngine.EVENT_WEIGHTS
             /\ e ∉ OrderedDict.keys (ClimateEngine.active_events eng))
  /\ (ClimateEngine._select_event eng rnd = None <->
      forall e, e ∈ map fst ClimateEngine.EVENT_WEIGHTS ->
                e ∈ OrderedDict.keys (ClimateEngine.active_events eng)).
Proof. apply _select_event_available. Qed.

Lemma OrderedDict_set_new {V} (k : string) (v : V) (d : list (string * V)) :
  k ∉ OrderedDict.keys d -> OrderedDict.set k v d = d ++ [(k, v)].
Proof.
  induction d as [|[k' v'] d IH]; simpl; intros Hk; [reflexivity|].
  apply not_elem_of_cons in Hk as [Hne Hk].
  rewrite decide_False by congruence. by rewrite IH.
Qed.

Lemma affected_regions_states (eng : ClimateEngine.t) (c : string) :
  c ∈ ClimateEngine.get_affected_regions eng -> c ∈ STATE_CODES.
Proof.
  unfold ClimateEngine.get_affected_regions. intros Hc.
  apply list_elem_of_omap in Hc as (e & _ & He).
  assert (Hin : (e, c) ∈ ClimateEngine.targets).
  { clear -He. revert He. generalize ClimateEngine.targets.
    induction l as [|[k v] l IH]; simpl; [discriminate|].
    destruct (decide (k = e)) as [->|Hne].
    - intros [= ->]. left.
    - intros H. right. by apply IH. }
  unfold ClimateEngine.targets in Hin.
  rewrite !elem_of_cons, elem_of_nil in Hin.
  destruct Hin as [[= _ ->]|[[= _ ->]|[[= _ ->]|[[= _ ->]|[[= _ ->]|[[= _ ->]|[[= _ ->]|[]]]]]]]];
    apply (bool_decide_unpack _); vm_compute; exact I.
Qed.

Lemma catalog_targets (e : string) :
  e ∈ map fst ClimateEngine.EVENT_WEIGHTS ->
  exists c, OrderedDict.get e ClimateEngine.targets = Some c.
Proof.
  intros He. simpl in He. rewrite !elem_of_cons, elem_of_nil in He.
  destruct He as [->|[->|[->|[->|[->|[->|[->|[]]]]]]]];
    eexists; vm_compute; reflexivity.
Qed.

Lemma _trigger_event_result (eng eng' : ClimateEngine.t) (e : string)
    (fh : option Firestore.t) (ev : ClimateEngine.Triggered) :
  ClimateEngine._trigger_event eng e fh = Ok (eng', ev) ->
  ClimateEngine.active_events eng'
  = OrderedDict.set e (default 5 (OrderedDict.get e ClimateEngine.durations))
                    (ClimateEngine.active_events eng)
  /\ ClimateEngine.last_event_tick eng' = ClimateEngine.last_event_tick eng
  /\ ClimateEngine.event_id ev = e
  /\ ClimateEngine.target_region ev = default "" (OrderedDict.get e ClimateEngine.targets)
  /\ ClimateEngine.duration ev = default 5 (OrderedDict.get e ClimateEngine.durations).
Proof.
  unfold ClimateEngine._trigger_event. intros Hrun. inv_bind Hrun.
  injection Hrun as <- <-. by repeat split.
Qed.

Lemma tick_marks_region (eng eng' : ClimateEngine.t) (current_tick : Z)
    (rnd : ClimateEngine.Random) (fh : option Firestore.t)
    (events : list ClimateEngine.Event) (ev : ClimateEngine.Triggered) :
  ClimateEngine.tick eng current_tick rnd fh = Ok (eng', events) ->
  ClimateEngine.TRIGGERED ev ∈ events ->
  ClimateEngine.target_region ev ∈ ClimateEngine.get_affected_regions eng'
  /\ ClimateEngine.target_region ev ∈ STATE_CODES
  /\ forall c, c ∈ ClimateEngine.get_affected_regions eng' -> c ∈ STATE_CODES.
Proof.
  intros Hrun Hev.
  assert (Hmark : ClimateEngine.target_region ev ∈ ClimateEngine.get_affected_regions eng').
  { unfold ClimateEngine.tick in Hrun.
    inv_bind Hrun. destruct a as [eng1 triggered]. rename Ha into Hnew.
    inv_bind Hrun. destruct a as [eng2 expired]. rename Ha into Hdown.
    injection Hrun as <- <-.
    pose proof (tick_down_shape _ _ _ _ Hdown) as (_ & Hnot & Hact & _).
    apply elem_of_app in Hev as [Hev|Hev]; [|by apply Hnot in Hev].
    unfold ClimateEngine.check_new_events in Hnew.
    destruct (_ && _); [|injection Hnew as <- <-; inversion Hev].
    destruct (ClimateEngine._select_event eng rnd) as [e|] eqn:Hsel;
      [|injection Hnew as <- <-; inversion Hev].
    destruct (negb _) eqn:Hfree; [|injection Hnew as <- <-; inversion Hev].
    apply negb_true_iff in Hfree.
    assert (Hout : e ∉ OrderedDict.keys (ClimateEngine.active_events eng)).
    { rewrite <- OrderedDict_mem_keys. congruence. }
    apply _select_event_catalog in Hsel.
    destruct (catalog_durations e Hsel) as (d & Hd & Hd5).
    destruct (catalog_targets e Hsel) as (c & Hc).
    inv_bind Hnew. destruct a as [eng0 ev0]. injection Hnew as Heng1 Htr.
    rewrite <- Htr in Hev. apply list_elem_of_singleton in Hev. injection Hev as ->.
    apply _trigger_event_result in Ha as (Hset & _ & _ & Htarget & _).
    rewrite Htarget, Hc. cbn [default].
    unfold ClimateEngine.get_affected_regions. apply list_elem_of_omap.
    exists e. split; [|exact Hc].
    apply list_elem_of_fmap. exists (e, d - 1). split; [reflexivity|].
    apply Hact. rewrite <- Heng1. cbn [ClimateEngine.active_events].
    rewrite Hset, Hd. cbn [default].
    rewrite OrderedDict_set_new by exact Hout.
    replace (d - 1 + 1) with d by lia.
    split; [lia|]. split; [apply elem_of_app; right; left|].
    intros m Hm. apply elem_of_app in Hm as [Hm|Hm].
    - exfalso. apply Hout. apply list_elem_of_fmap. exists (e, m). by split.
    - apply list_elem_of_singleton in Hm. injection Hm as ->. lia. }
  split; [exact Hmark|]. split; [by apply (affected_regions_states eng')|].
  apply affected_regions_states.
Qed.

(** X21. The regions the engine reports as affected are always state
    codes.  After a tick that reports the start of an event, the event's
    target region is a state code and is among the affected regions. *)
Theorem triggered_region_affected (eng eng' : ClimateEngine.t) (current_tick : Z)
    (rnd : ClimateEngine.Random) (fh : option Firestore.t)
    (events : list ClimateEngine.Event) (ev : ClimateEngine.Triggered) :
  ClimateEngine.tick eng current_tick rnd fh = Ok (eng', events) ->
  ClimateEngine.TRIGGERED ev ∈ events ->
  ClimateEngine.target_region ev ∈ ClimateEngine.get_affected_regions eng'
  /\ ClimateEngine.target_region ev ∈ STATE_CODES
  /\ forall c, c ∈ ClimateEngine.get_affected_regions eng' -> c ∈ STATE_CODES.
Proof. apply tick_marks_region. Qed.

Lemma triggered_region_affected_witness :
  ClimateEngine.tick ClimateEngine.init 1 Scenario.stormy None
  = Ok (Scenario.drought_started, [ClimateEngine.TRIGGERED Scenario.drought])
  /\ "RJ" ∈ ClimateEngine.get_affected_regions Scenario.drought_started.
Proof.
  assert (Hrun : ClimateEngine.tick ClimateEngine.init 1 Scenario.stormy None
                 = Ok (Scenario.drought_started,
                       [ClimateEngine.TRIGGERED Scenario.drought]))
    by (vm_compute; reflexivity).
  split; [exact Hrun|].
  apply (triggered_region_affected _ _ _ _ _ _ Scenario.drought Hrun). left.
Defined.

Lemma force_trigger_outside_catalog (eng eng' : ClimateEngine.t) (e : string)
    (fh : option Firestore.t) (ev : ClimateEngine.Triggered) :
  e ∉ map fst ClimateEngine.EVENT_WEIGHTS ->
  ClimateEngine.force_trigger eng e fh = Ok (eng', ev) ->
  ClimateEngine.target_region ev = ""
  /\ ClimateEngine.duration ev = 5
  /\ OrderedDict.get e (ClimateEngine.active_events eng') = Some 5
  /\ ClimateEngine.last_event_tick eng' = ClimateEngine.last_event_tick eng
  /\ forall c, c ∈ ClimateEngine.get_affected_regions eng'
               <-> c ∈ ClimateEngine.get_affected_regions eng.
Proof.
  intros Hout. unfold ClimateEngine.force_trigger. intros Hrun.
  apply _trigger_event_result in Hrun as (Hset & Hlast & _ & Htarget & Hdur).
  assert (Hd : OrderedDict.get e ClimateEngine.durations = None).
  { apply OrderedDict_get_None. exact Hout. }
  assert (Ht : OrderedDict.get e ClimateEngine.targets = None).
  { apply OrderedDict_get_None. exact Hout. }
  rewrite Hd in Hset, Hdur. rewrite Ht in Htarget. cbn [default] in *.
  split; [exact Htarget|]. split; [exact Hdur|]. rewrite Hset.
  split.
  { generalize (ClimateEngine.active_events eng).
    induction l as [|[k v] l IH]; simpl.
    - by rewrite decide_True.
    - destruct (decide (k = e)) as [->|Hne]; simpl.
      + by rewrite decide_True.
      + by rewrite decide_False. }
  split; [exact Hlast|].
  intros c. unfold ClimateEngine.get_affected_regions. rewrite !list_elem_of_omap.
  rewrite Hset.
  assert (Hkeys : forall k, k ∈ OrderedDict.keys (OrderedDict.set e 5
                                                    (ClimateEngine.active_events eng))
                            <-> k = e \/ k ∈ OrderedDict.keys
                                               (ClimateEngine.active_events eng)).
  { intros k. generalize (ClimateEngine.active_events eng).
    induction l as [|[k' v] l IH]; simpl.
    - rewrite list_elem_of_singleton, elem_of_nil. tauto.
    - destruct (decide (k' = e)) as [->|Hne]; simpl.
      + rewrite !elem_of_cons. tauto.
      + unfold OrderedDict.keys in IH. rewrite !elem_of_cons, IH. tauto. }
  split.
  - intros (k & Hk & Hc). exists k. split; [|exact Hc].
    apply Hkeys in Hk as [->|Hk]; [congruence|exact Hk].
  - intros (k & Hk & Hc). exists k. split; [|exact Hc]. apply Hkeys. by right.
Qed.

(** X22. Forcing an event whose id is not in the catalog still registers
    it: it becomes active for the default five ticks with an empty target
    region, the tick of the last start is left alone, and the set of
    affected regions is unchanged. *)
Theorem force_trigger_unknown_event (eng eng' : ClimateEngine.t) (e : string)
    (fh : option Firestore.t) (ev : ClimateEngine.Triggered) :
  e ∉ map fst ClimateEngine.EVENT_WEIGHTS ->
  ClimateEngine.force_trigger eng e fh = Ok (eng', ev) ->
  ClimateEngine.target_region ev = ""
  /\ ClimateEngine.duration ev = 5
  /\ OrderedDict.get e (ClimateEngine.active_events eng') = Some 5
  /\ ClimateEngine.last_event_tick eng' = ClimateEngine.last_event_tick eng
  /\ forall c, c ∈ ClimateEngine.get_affected_regions eng'
               <-> c ∈ ClimateEngine.get_affected_regions eng.
Proof. apply force_trigger_outside_catalog. Qed.

Lemma force_trigger_unknown_event_witness :
  exists eng' ev,
    ClimateEngine.force_trigger Scenario.drought_started "Locusts" None = Ok (eng', ev)
    /\ ClimateEngine.target_region ev = ""
    /\ OrderedDict.get "Locusts" (ClimateEngine.active_events eng') = Some 5
    /\ (forall c, c ∈ ClimateEngine.get_affected_regions eng'
                  <-> c ∈ ClimateEngine.get_affected_regions Scenario.drought_started).
Proof.
  eexists _, _. split; [vm_compute; reflexivity|].
  assert (Hout : "Locusts" ∉ map fst ClimateEngine.EVENT_WEIGHTS).
  { apply (bool_decide_unpack _). vm_compute. exact I. }
  destruct (force_trigger_unknown_event Scenario.drought_started _ "Locusts" None _ Hout
              eq_refl) as (Ht & _ & Hget & _ & Hsame).
  split; [exact Ht|]. split; [exact Hget|exact Hsame].
Defined.
